(** * s3-sftp-proxy: the object-store I/O engine

    A shallow embedding of the Go sources [multipart_upload.go] (the
    multipart upload writer and its upload workers) and of the bucket I/O
    file (the random-access reader, the directory lister, the stat
    resolver and [aclToMode]), followed by the properties established
    about them.

    Conventions.
    - Go's [int] and [int64] are 64-bit signed integers, modelled as [Z]
      with the wrap-around written out ([wrap64]); [/] and [%] on them are
      Go's truncated division, [Z.quot] and [Z.rem].
    - A pointer that the code dereferences is an [option]; dereferencing
      [None], indexing or slicing out of range and dividing by zero are
      run-time panics, modelled by the outcome [Panics].
    - Calls to collaborators (the object store, the buffer pool, the
      session context) are answered by an environment that sees the
      history of calls made so far; every such call is appended to that
      history. *)

From Stdlib Require Import ZArith List String Ascii Bool Lia Permutation.
From stdpp Require Import base list gmap strings.
Import ListNotations.
Open Scope Z_scope.

(* ===================================================================== *)
(** ** Go run-time conventions *)
(* ===================================================================== *)

(** Reasons for which the Go run time panics. *)
Inductive panic : Type :=
| NilDereference
| IndexOutOfRange
| SliceBoundsOutOfRange
| DivideByZero
| MakesliceLenOutOfRange
| NegativeWaitGroupCounter.

(** What a call does: it returns a value, it panics, or it never returns
    (a goroutine parked for ever).  [OutOfFuel] is an artefact of the
    bounded loops of the embedding; it is shown unreachable. *)
Inductive outcome (A : Type) : Type :=
| Returns (a : A)
| Panics (p : panic)
| Blocks
| OutOfFuel.
Arguments Returns {A} a.
Arguments Panics {A} p.
Arguments Blocks {A}.
Arguments OutOfFuel {A}.

Definition obind {A B : Type} (m : outcome A) (k : A -> outcome B) : outcome B :=
  match m with
  | Returns a => k a
  | Panics p => Panics p
  | Blocks => Blocks
  | OutOfFuel => OutOfFuel
  end.

Notation "'let*' x := m 'in' k" := (obind m (fun x => k))
  (at level 10, x pattern, m at level 100, k at level 200).

(** [*p] for a pointer [p]. *)
Definition deref {A : Type} (p : option A) : outcome A :=
  match p with
  | Some a => Returns a
  | None => Panics NilDereference
  end.

(** 64-bit two's complement wrap-around of [int] and [int64]. *)
Definition two63 : Z := 2 ^ 63.
Definition two64 : Z := 2 ^ 64.
Definition wrap64 (z : Z) : Z := (z + two63) mod two64 - two63.
Definition in_int64 (z : Z) : Prop := - two63 <= z < two63.

(** Octal literals of the source: [oct [7;5;5]] is Go's [0755]. *)
Definition oct (digits : list Z) : Z := fold_left (fun acc d => 8 * acc + d) digits 0.

(** [len(s)]. *)
Definition len {A : Type} (s : list A) : Z := Z.of_nat (length s).

(** [s[lo:hi]] on a slice whose capacity is its length. *)
Definition slice {A : Type} (s : list A) (lo hi : Z) : outcome (list A) :=
  if (0 <=? lo) && (lo <=? hi) && (hi <=? Z.of_nat (length s))
  then Returns (firstn (Z.to_nat (hi - lo)) (skipn (Z.to_nat lo) s))
  else Panics SliceBoundsOutOfRange.

(** [copy(dst[lo:hi], src)] seen from the owner of [dst], for bounds that
    [slice] accepts: the first [min (hi - lo) (len src)] elements of [src]
    overwrite [dst] from index [lo] on; the length of [dst] does not
    change. *)
Definition copy_slice {A : Type} (dst : list A) (lo hi : Z) (src : list A) : list A :=
  let n := Nat.min (Z.to_nat (hi - lo)) (length src) in
  firstn (Z.to_nat lo) dst ++ firstn n src ++ skipn (Z.to_nat lo + n) dst.

(** Errors.  Those built by the code itself have a constructor each; an
    error reported by a collaborator is opaque. *)
Inductive error : Type :=
| ErrFileTooLarge (max : Z)
| ErrIncompletePart (partNumber : Z)
| ErrEnqueueCancelled
| ErrPendingParts (pending : Z)
| ErrOutOfRange
| ErrReadCancelled
| ErrCast
| EOF
| ErrNotExist
| ErrUpstream (msg : string).

(** [time.Time]: the zero value [time.Time{}] or a Unix time. *)
Inductive time : Type :=
| TimeZero
| TimeUnix (sec : Z).

(** [os.FileMode] and its directory bit. *)
Definition FileMode : Type := Z.
Definition ModeDir : FileMode := Z.shiftl 1 31.

(* ===================================================================== *)
(** ** ObjectFileInfo *)
(* ===================================================================== *)

Record ObjectFileInfo : Type := {
  _Name : string;
  _LastModified : time;
  _Size : Z;
  _Mode : FileMode
}.

Definition IsDir (ofi : ObjectFileInfo) : bool :=
  negb (Z.land (_Mode ofi) ModeDir =? 0).

(* ===================================================================== *)
(** ** ACL to mode *)
(* ===================================================================== *)

Module aws_s3.

Record Owner : Type := { Owner_ID : option string }.

Record Grantee : Type := {
  ID : option string;
  URI : option string
}.

Record Grant : Type := {
  Grantee_ : option Grantee;
  Permission : option string
}.

End aws_s3.

Definition AuthenticatedUsers : string :=
  "http://acs.amazonaws.com/groups/global/AuthenticatedUsers".
Definition AllUsers : string :=
  "http://acs.amazonaws.com/groups/global/AllUsers".

(** The three [switch *g.Permission] blocks of [aclToMode]; they differ in
    the constants only. *)
Definition permissionSwitch (permission : string) (r w full : Z) (v : FileMode) : FileMode :=
  if String.eqb permission "READ" then Z.lor v r
  else if String.eqb permission "WRITE" then Z.lor v w
  else if String.eqb permission "FULL_CONTROL" then Z.lor v full
  else v.

(** The body of the [for _, g := range grants] loop. *)
Definition aclToMode_body (owner : option aws_s3.Owner) (v : FileMode)
    (g : option aws_s3.Grant) : outcome FileMode :=
  let* g := deref g in
  match aws_s3.Grantee_ g with
  | None => Returns v
  | Some grantee =>
      let* isOwner :=
        match aws_s3.ID grantee with
        | None => Returns false
        | Some gid =>
            let* o := deref owner in
            let* oid := deref (aws_s3.Owner_ID o) in
            Returns (String.eqb gid oid)
        end in
      if isOwner then
        let* p := deref (aws_s3.Permission g) in
        Returns (permissionSwitch p (oct [4;0;0]) (oct [2;0;0]) (oct [6;0;0]) v)
      else
        match aws_s3.URI grantee with
        | None => Returns v
        | Some uri =>
            if String.eqb uri AuthenticatedUsers then
              let* p := deref (aws_s3.Permission g) in
              Returns (permissionSwitch p (oct [4;4;0]) (oct [2;2;0]) (oct [6;6;0]) v)
            else if String.eqb uri AllUsers then
              let* p := deref (aws_s3.Permission g) in
              Returns (permissionSwitch p (oct [4;4;4]) (oct [2;2;2]) (oct [6;6;6]) v)
            else Returns v
        end
  end.

Fixpoint aclToMode_loop (owner : option aws_s3.Owner) (v : FileMode)
    (grants : list (option aws_s3.Grant)) : outcome FileMode :=
  match grants with
  | [] => Returns v
  | g :: rest =>
      let* v' := aclToMode_body owner v g in
      aclToMode_loop owner v' rest
  end.

Definition aclToMode (owner : option aws_s3.Owner)
    (grants : list (option aws_s3.Grant)) : outcome FileMode :=
  aclToMode_loop owner 0 grants.

(* ===================================================================== *)
(** ** Helpers of the package that the readers and listers call *)
(* ===================================================================== *)

(** Modelled from the spec: [castInt64ToInt] is not part of the sources at
    hand.  The spec lets the adapters take any [int64] cursor and names no
    failure of the cast, and [int] is 64 bits wide here: the cast fails only
    on a value that is not an [int64] at all. *)
Definition castInt64ToInt (v : Z) : Z * option error :=
  if (- two63 <=? v) && (v <? two63) then (v, None) else (0, Some ErrCast).

(** The errors [io.ReadFull] can report. *)
Inductive ioError : Type :=
| io_EOF
| io_ErrUnexpectedEOF
| io_Other (msg : string).

(** Modelled from the spec: [IsEOF] is not part of the sources at hand.  The
    spec's read step is a full read in which a short read is tolerated only
    on end of file, and that end of file sets [noMore]: both ways in which
    [io.ReadFull] reports the end of the stream count. *)
Definition IsEOF (e : option ioError) : bool :=
  match e with
  | Some io_EOF | Some io_ErrUnexpectedEOF => true
  | _ => false
  end.

(** Go's [path.Base], on the characters of the path. *)
Definition isSlash (c : ascii) : bool := Ascii.eqb c "/"%char.

Fixpoint dropSlashes (cs : list ascii) : list ascii :=
  match cs with
  | c :: rest => if isSlash c then dropSlashes rest else cs
  | [] => []
  end.

Fixpoint upToSlash (cs : list ascii) : list ascii :=
  match cs with
  | c :: rest => if isSlash c then [] else c :: upToSlash rest
  | [] => []
  end.

Definition path_Base (p : string) : string :=
  if String.eqb p "" then "."
  else
    let stripped := dropSlashes (rev (list_ascii_of_string p)) in
    let last := rev (upToSlash stripped) in
    match last with
    | [] => "/"
    | _ => string_of_list_ascii last
    end.

(* ===================================================================== *)
(** ** Path, PhantomObjectInfo, PhantomObjectMap *)
(* ===================================================================== *)

(** Modelled from the spec: [Path] is not part of the sources at hand.  An
    ordered sequence of segments; [Base] is the last segment or empty for
    the root, [IsRoot] holds of the empty sequence, [Join] concatenates,
    [String] joins the segments with [/]. *)
Definition Path : Type := list string.

Definition Path_IsRoot (p : Path) : bool :=
  match p with [] => true | _ => false end.
Definition Path_Base (p : Path) : string := List.last p ""%string.
Definition Path_Join (p q : Path) : Path := p ++ q.
Definition Path_String (p : Path) : string := String.concat "/" p.

Record PhantomObjectInfo : Type := {
  ph_Key : Path;
  ph_Size : Z;
  ph_LastModified : time
}.

(** Modelled from the spec: [PhantomObjectMap] is not part of the sources at
    hand.  A registry of the uploads in flight, from [key.String()] to the
    info object of the upload.  Info objects are shared by pointer between
    the map and the writers: [ph_heap] is the store they live in, addressed
    by [nat], and [ph_objects] holds addresses. *)
Record PhantomObjectMap : Type := {
  ph_heap : nat -> PhantomObjectInfo;
  ph_objects : gmap string nat
}.

Definition PhantomObjectMap_Add (info : nat) (m : PhantomObjectMap) : PhantomObjectMap :=
  {| ph_heap := ph_heap m;
     ph_objects := <[Path_String (ph_Key (ph_heap m info)) := info]> (ph_objects m) |}.

Definition PhantomObjectMap_Get (key : Path) (m : PhantomObjectMap) : option nat :=
  ph_objects m !! Path_String key.

(** [RemoveByInfoPtr(info)]: no key is left that leads to [info]. *)
Definition PhantomObjectMap_RemoveByInfoPtr (info : nat) (m : PhantomObjectMap)
    : PhantomObjectMap :=
  {| ph_heap := ph_heap m;
     ph_objects := filter (fun kv => kv.2 <> info) (ph_objects m) |}.

(** [List(prefix)]: the uploads whose key lies directly under [prefix]. *)
Definition directlyUnder (prefix key : Path) : bool :=
  match key with
  | [] => false
  | _ => bool_decide (removelast key = prefix)
  end.

Definition PhantomObjectMap_List (prefix : Path) (m : PhantomObjectMap) : list nat :=
  List.filter (fun a => directlyUnder prefix (ph_Key (ph_heap m a)))
              (map snd (map_to_list (ph_objects m))).

(** [info.GetOne()]: a snapshot of the info object. *)
Definition GetOne (info : nat) (m : PhantomObjectMap) : PhantomObjectInfo := ph_heap m info.

(** [info.SetSizeIfGreater(size)]. *)
Definition SetSizeIfGreater (info : nat) (size : Z) (m : PhantomObjectMap) : PhantomObjectMap :=
  let old := ph_heap m info in
  if ph_Size old <? size then
    {| ph_heap := fun a => if Nat.eqb a info
                           then {| ph_Key := ph_Key old; ph_Size := size;
                                   ph_LastModified := ph_LastModified old |}
                           else ph_heap m a;
       ph_objects := ph_objects m |}
  else m.

(* ===================================================================== *)
(** ** S3GetObjectOutputReader *)
(* ===================================================================== *)

Abbreviation byte := Byte.byte.

(** [Goo.Body]: a one-shot forward stream.  [unread] holds the bytes that
    have not been read yet; [broken] tells whether the stream ends in a
    transport error rather than in end of file. *)
Record Body : Type := {
  unread : list byte;
  broken : bool
}.

(** [io.ReadFull(body, p)] for a [p] of [k] bytes: the bytes read, the
    error, and the stream afterwards. *)
Definition io_ReadFull (b : Body) (k : nat) : list byte * option ioError * Body :=
  let got := firstn k (unread b) in
  let rest := {| unread := skipn k (unread b); broken := broken b |} in
  if (length got =? k)%nat then (got, None, rest)
  else if broken b then (got, Some (io_Other "read"), rest)
  else match got with
       | [] => (got, Some io_EOF, rest)
       | _ => (got, Some io_ErrUnexpectedEOF, rest)
       end.

Record S3GetObjectOutputReader : Type := {
  Goo_Body : option Body;
  Lookback : Z;
  MinChunkSize : Z;
  spooled : list byte;
  spoolOffset : Z;
  noMore : bool
}.

(** What [ReadAt] hands back: the caller's buffer, [n] and [err]. *)
Record ReadAtResult : Type := {
  rd_buf : list byte;
  rd_n : Z;
  rd_err : option error
}.

(** [Close] of the reader. *)
Definition S3GetObjectOutputReader_Close (oor : S3GetObjectOutputReader)
    : S3GetObjectOutputReader :=
  {| Goo_Body := None; Lookback := Lookback oor; MinChunkSize := MinChunkSize oor;
     spooled := spooled oor; spoolOffset := spoolOffset oor; noMore := noMore oor |}.

(** [ReadAt].  [ctxDone] tells whether the [select] takes the
    [<-oor.Ctx.Done()] branch; the read goroutine has consumed the stream
    all the same. *)
Definition ReadAt (ctxDone : bool) (oor : S3GetObjectOutputReader)
    (buf : list byte) (off : Z)
    : outcome (ReadAtResult * S3GetObjectOutputReader) :=
  let '(_o, err) := castInt64ToInt off in
  match err with
  | Some e => Returns ({| rd_buf := buf; rd_n := 0; rd_err := Some e |}, oor)
  | None =>
  if _o <? spoolOffset oor
  then Returns ({| rd_buf := buf; rd_n := 0; rd_err := Some ErrOutOfRange |}, oor)
  else
  let s := wrap64 (_o - spoolOffset oor) in
  let i := 0 in
  let r := len buf in
  (* if s < len(oor.spooled) { ... } *)
  let* (buf, i, s, r) :=
    if s <? len (spooled oor) then
      let n := if r >? len (spooled oor) - s then len (spooled oor) - s else r in
      let* _ := slice buf i (i + n) in
      let* src := slice (spooled oor) s (s + n) in
      Returns (copy_slice buf i (i + n) src, i + n, s + n, r - n)
    else Returns (buf, i, s, r) in
  if r =? 0 then Returns ({| rd_buf := buf; rd_n := i; rd_err := None |}, oor)
  else if noMore oor then
    if i =? 0 then Returns ({| rd_buf := buf; rd_n := 0; rd_err := Some EOF |}, oor)
    else Returns ({| rd_buf := buf; rd_n := i; rd_err := None |}, oor)
  else
  (* if s <= len(oor.spooled) && s >= oor.Lookback { ... } *)
  let* (spooled1, spoolOffset1, s) :=
    if (s <=? len (spooled oor)) && (s >=? Lookback oor) then
      let* kept := slice (spooled oor) (wrap64 (s - Lookback oor)) (len (spooled oor)) in
      Returns (kept, wrap64 (spoolOffset oor + wrap64 (s - Lookback oor)), Lookback oor)
    else Returns (spooled oor, spoolOffset oor, s) in
  let e := if wrap64 (len spooled1 + MinChunkSize oor) <? wrap64 (s + r)
           then wrap64 (s + r)
           else wrap64 (len spooled1 + MinChunkSize oor) in
  (* oor.spooled[len(oor.spooled):e], after the capacity has grown to e *)
  if e <? len spooled1 then Panics SliceBoundsOutOfRange else
  let* body := deref (Goo_Body oor) in
  let '(got, rerr, body') := io_ReadFull body (Z.to_nat (e - len spooled1)) in
  if ctxDone then
    Returns ({| rd_buf := buf; rd_n := 0; rd_err := Some ErrReadCancelled |},
             {| Goo_Body := Some body'; Lookback := Lookback oor;
                MinChunkSize := MinChunkSize oor; spooled := spooled1;
                spoolOffset := spoolOffset1; noMore := noMore oor |})
  else
    let noMore' := if IsEOF rerr then true else noMore oor in
    let e := len spooled1 + len got in
    let spooled2 := spooled1 ++ got in
    let oor' := {| Goo_Body := Some body'; Lookback := Lookback oor;
                   MinChunkSize := MinChunkSize oor; spooled := spooled2;
                   spoolOffset := spoolOffset1; noMore := noMore' |} in
    if s <? e then
      let be := if e >? wrap64 (s + r) then wrap64 (s + r) else e in
      let* _ := slice buf i (len buf) in
      let* src := slice spooled2 s be in
      Returns ({| rd_buf := copy_slice buf i (len buf) src; rd_n := be - s; rd_err := None |},
               oor')
    else Returns ({| rd_buf := buf; rd_n := 0; rd_err := Some EOF |}, oor')
  end.

(* ===================================================================== *)
(** ** S3ObjectLister *)
(* ===================================================================== *)

(** The parts of the object store's answers that the code reads.  The SDK
    fills in the fields that the code dereferences without a test
    ([Prefix], [Key], [LastModified], [Size], [ContentLength]); they are
    plain values here. *)
Record Object : Type := {
  Key : string;
  LastModified : time;
  Size : Z
}.

Record ListObjectsV2Output : Type := {
  CommonPrefixes : list string;
  Contents : list Object;
  NextContinuationToken : option string
}.

Record GetObjectAclOutput : Type := {
  Owner : option aws_s3.Owner;
  Grants : list (option aws_s3.Grant)
}.

Record HeadObjectOutput : Type := {
  ContentLength : Z;
  Head_LastModified : time
}.

(** The read-only calls to the object store, as the lister and the stat
    resolver issue them: [ListObjectsV2] with the prefix and the
    continuation token (delimiter [/], at most 10000 keys),
    [GetObjectAcl] and [HeadObject] with the key. *)
Record S3Listing : Type := {
  ListObjectsV2WithContext : string -> option string -> error + ListObjectsV2Output;
  GetObjectAclWithContext : string -> error + GetObjectAclOutput;
  HeadObjectWithContext : string -> error + HeadObjectOutput
}.

Record S3ObjectLister : Type := {
  Prefix : Path;
  sol_Lookback : Z;
  sol_spoolOffset : Z;
  sol_spooled : list ObjectFileInfo;
  continuation : option string;
  sol_noMore : bool
}.

Definition dirMode : FileMode := Z.lor (oct [7;5;5]) ModeDir.

(** The entries the lister builds. *)
Definition dotEntry (name : string) : ObjectFileInfo :=
  {| _Name := name; _LastModified := TimeUnix 1; _Size := 0; _Mode := dirMode |}.

Definition phantomEntry (ph : PhantomObjectInfo) : ObjectFileInfo :=
  {| _Name := Path_Base (ph_Key ph); _LastModified := ph_LastModified ph;
     _Size := ph_Size ph; _Mode := oct [6;0;0] |}.

Definition commonPrefixEntry (cPfx : string) : ObjectFileInfo :=
  {| _Name := path_Base cPfx; _LastModified := TimeUnix 1; _Size := 0; _Mode := dirMode |}.

Definition contentsEntry (obj : Object) : ObjectFileInfo :=
  {| _Name := path_Base (Key obj); _LastModified := LastModified obj;
     _Size := Size obj; _Mode := oct [6;4;4] |}.

(** The prefix sent to the object store: the path of the lister, closed by
    a [/] unless it is empty. *)
Definition listingPrefix (p : Path) : string :=
  let prefix := Path_String p in
  if String.eqb prefix "" then prefix else (prefix ++ "/")%string.

(** What [ListAt] hands back: the caller's slice, [n] and [err]. *)
Record ListAtResult : Type := {
  ls_result : list (option ObjectFileInfo);
  ls_n : Z;
  ls_err : option error
}.

Definition listerWith (sol : S3ObjectLister) (off : Z) (sp : list ObjectFileInfo)
    (cont : option string) (nm : bool) : S3ObjectLister :=
  {| Prefix := Prefix sol; sol_Lookback := sol_Lookback sol; sol_spoolOffset := off;
     sol_spooled := sp; continuation := cont; sol_noMore := nm |}.

(** [S3ObjectLister.ListAt]. *)
Definition S3ObjectLister_ListAt (S3 : S3Listing) (phantoms : PhantomObjectMap)
    (sol : S3ObjectLister) (result : list (option ObjectFileInfo)) (o : Z)
    : outcome (ListAtResult * S3ObjectLister) :=
  let '(_o, err) := castInt64ToInt o in
  match err with
  | Some e => Returns ({| ls_result := result; ls_n := 0; ls_err := Some e |}, sol)
  | None =>
  if _o <? sol_spoolOffset sol
  then Returns ({| ls_result := result; ls_n := 0; ls_err := Some ErrOutOfRange |}, sol)
  else
  let s := wrap64 (_o - sol_spoolOffset sol) in
  let i := 0 in
  let* (result, i, s) :=
    if s <? len (sol_spooled sol) then
      let n := if len result >? len (sol_spooled sol) - s
               then len (sol_spooled sol) - s else len result in
      let* _ := slice result i (i + n) in
      let* src := slice (sol_spooled sol) s (s + n) in
      Returns (copy_slice result i (i + n) (map Some src), i + n, len (sol_spooled sol))
    else Returns (result, i, s) in
  if i >=? len result
  then Returns ({| ls_result := result; ls_n := i; ls_err := None |}, sol)
  else if sol_noMore sol then
    if i =? 0 then Returns ({| ls_result := result; ls_n := 0; ls_err := Some EOF |}, sol)
    else Returns ({| ls_result := result; ls_n := i; ls_err := None |}, sol)
  else
  let* (spooled1, spoolOffset1, s) :=
    if (s <=? len (sol_spooled sol)) && (s >=? sol_Lookback sol) then
      let* kept := slice (sol_spooled sol) (wrap64 (s - sol_Lookback sol))
                         (len (sol_spooled sol)) in
      Returns (kept, wrap64 (sol_spoolOffset sol + wrap64 (s - sol_Lookback sol)),
               sol_Lookback sol)
    else Returns (sol_spooled sol, sol_spoolOffset sol, s) in
  (* if sol.continuation == nil { ".", "..", the phantoms } *)
  let spooled2 :=
    match continuation sol with
    | None =>
        spooled1 ++ [dotEntry "."; dotEntry ".."]
          ++ map (fun phInfo => phantomEntry (GetOne phInfo phantoms))
                 (PhantomObjectMap_List (Prefix sol) phantoms)
    | Some _ => spooled1
    end in
  let prefix := listingPrefix (Prefix sol) in
  match ListObjectsV2WithContext S3 prefix (continuation sol) with
  | inl e =>
      Returns ({| ls_result := result; ls_n := i; ls_err := Some e |},
               listerWith sol spoolOffset1 spooled2 (continuation sol) (sol_noMore sol))
  | inr out =>
      let spooled3 :=
        match continuation sol with
        | None => spooled2 ++ map commonPrefixEntry (CommonPrefixes out)
        | Some _ => spooled2
        end in
      let spooled4 := spooled3 ++ map contentsEntry (Contents out) in
      let noMore' := match NextContinuationToken out with
                     | None => true
                     | Some _ => sol_noMore sol
                     end in
      let '(n, err) :=
        if len spooled4 - s >? len result - i then (len result - i, None)
        else (len spooled4 - s, if noMore' then Some EOF else None) in
      let* _ := slice result i (i + n) in
      let* src := slice spooled4 s (s + n) in
      Returns ({| ls_result := copy_slice result i (i + n) (map Some src);
                  ls_n := i + n; ls_err := err |},
               listerWith sol spoolOffset1 spooled4 (NextContinuationToken out) noMore')
  end
  end.

(* ===================================================================== *)
(** ** S3ObjectStat *)
(* ===================================================================== *)

Record S3ObjectStat : Type := {
  sos_Key : Path;
  Root : bool
}.

(** [S3ObjectStat.ListAt]. *)
Definition S3ObjectStat_ListAt (S3 : S3Listing) (phantoms : PhantomObjectMap)
    (sos : S3ObjectStat) (result : list (option ObjectFileInfo)) (o : Z)
    : outcome ListAtResult :=
  let '(_o, err) := castInt64ToInt o in
  let store (fi : ObjectFileInfo) : outcome ListAtResult :=
    Returns {| ls_result := <[0%nat := Some fi]> result; ls_n := 1; ls_err := None |} in
  match err with
  | Some e => Returns {| ls_result := result; ls_n := 0; ls_err := Some e |}
  | None =>
  if len result =? 0
  then Returns {| ls_result := result; ls_n := 0; ls_err := None |}
  else if _o >? 0
  then Returns {| ls_result := result; ls_n := 0; ls_err := Some ErrOutOfRange |}
  else if Path_IsRoot (sos_Key sos) then
    store {| _Name := "/"; _LastModified := TimeZero; _Size := 0; _Mode := dirMode |}
  else
    match PhantomObjectMap_Get (sos_Key sos) phantoms with
    | Some phInfo => store (phantomEntry (GetOne phInfo phantoms))
    | None =>
        let key := Path_String (sos_Key sos) in
        match GetObjectAclWithContext S3 key with
        | inr out =>
            let headOut := HeadObjectWithContext S3 key in
            let* mode := aclToMode (Owner out) (Grants out) in
            match headOut with
            | inr h =>
                store {| _Name := Path_Base (sos_Key sos);
                         _LastModified := Head_LastModified h;
                         _Size := ContentLength h; _Mode := mode |}
            | inl _ =>
                store {| _Name := Path_Base (sos_Key sos); _LastModified := TimeZero;
                         _Size := 0; _Mode := mode |}
            end
        | inl _ =>
            match ListObjectsV2WithContext S3 key None with
            | inl _ => Returns {| ls_result := result; ls_n := 0; ls_err := Some ErrNotExist |}
            | inr out =>
                if negb (Root sos) && (len (CommonPrefixes out) =? 0)
                then Returns {| ls_result := result; ls_n := 0; ls_err := Some ErrNotExist |}
                else store {| _Name := Path_Base (sos_Key sos); _LastModified := TimeZero;
                              _Size := 0; _Mode := dirMode |}
            end
        end
    end
  end.

(* ===================================================================== *)
(** ** OffsetRanges and MemoryBufferPool *)
(* ===================================================================== *)

(** Modelled from the spec: package [util] with [OffsetRanges] is not part
    of the sources at hand.  For a buffer of [or_size] bytes, a set of
    non-overlapping ranges [[start, end)], kept sorted; [Add] merges the new
    range with those it overlaps or touches; [GetMaxValidOffset] is the
    highest [e] such that [[0, e)] is covered, or [-1] when offset 0 is not
    covered; [IsFull] holds when [GetMaxValidOffset] is the size. *)
Record OffsetRanges : Type := {
  or_size : Z;
  or_ranges : list (Z * Z)
}.

Definition NewOffsetRanges (size : Z) : OffsetRanges :=
  {| or_size := size; or_ranges := [] |}.

Fixpoint mergeRange (s e : Z) (rs : list (Z * Z)) : list (Z * Z) :=
  match rs with
  | [] => [(s, e)]
  | (a, b) :: rest =>
      if e <? a then (s, e) :: (a, b) :: rest
      else if b <? s then (a, b) :: mergeRange s e rest
      else mergeRange (Z.min s a) (Z.max e b) rest
  end.

Definition OffsetRanges_Add (s e : Z) (o : OffsetRanges) : OffsetRanges :=
  {| or_size := or_size o; or_ranges := mergeRange s e (or_ranges o) |}.

Definition GetMaxValidOffset (o : OffsetRanges) : Z :=
  match List.find (fun r => (r.1 <=? 0) && (0 <? r.2)) (or_ranges o) with
  | Some r => r.2
  | None => -1
  end.

Definition IsFull (o : OffsetRanges) : bool := GetMaxValidOffset o =? or_size o.

Record MemoryBufferPool : Type := { BufSize : Z }.

(* ===================================================================== *)
(** ** S3MultipartUploadWriter: data *)
(* ===================================================================== *)

Inductive S3PartUploadState : Type :=
| S3PartUploadStateAdding
| S3PartUploadStateFull
| S3PartUploadStateSent
| S3PartUploadErrorSending
| S3PartUploadCancelled.

(** The [iota] values of the states. *)
Definition stateValue (s : S3PartUploadState) : Z :=
  match s with
  | S3PartUploadStateAdding => 0
  | S3PartUploadStateFull => 1
  | S3PartUploadStateSent => 2
  | S3PartUploadErrorSending => 3
  | S3PartUploadCancelled => 4
  end.

(** A part.  The back pointer [uw] is left out: there is one writer in a
    [World]. *)
Record S3PartToUpload : Type := {
  content : list byte;
  partNumber : Z;
  o : OffsetRanges;
  state : S3PartUploadState
}.

Record CompletedPart : Type := {
  ETag : string;
  PartNumber : Z
}.

Record S3MultipartUploadWriter : Type := {
  MaxObjectSize : Z;
  UploadMemoryBufferPool : MemoryBufferPool;
  Info : nat;
  completedParts : list (option CompletedPart);
  parts : list (option S3PartToUpload);
  multiPartUploadID : option string;
  u_err : option error;
  uploadGroup : Z
}.

(** Every call that leaves the writer, in the order of issue.  A buffer
    handed back to the pool is named by the number of the part that held
    it; a part sent on [UploadChan] likewise. *)
Inductive Event : Type :=
| CallCreateMultipartUpload (key : string)
| CallPutObject (key : string) (body : list byte)
| CallUploadPart (key uploadID : string) (partNumber : Z) (body : list byte)
| CallCompleteMultipartUpload (key uploadID : string) (parts : list (option CompletedPart))
| CallAbortMultipartUpload (key uploadID : string)
| PoolGet
| PoolPut (partNumber : Z)
| PhantomRemoveByInfoPtr (info : nat)
| ChanSend (partNumber : Z).

(** The collaborators of the writer.  Each answer may depend on the
    history, whose last element is the call being answered. *)
Record Env : Type := {
  CreateMultipartUploadWithContext : list Event -> error + string;
  PutObjectWithContext : list Event -> option error;
  UploadPartWithContext : list Event -> error + string;
  CompleteMultipartUploadWithContext : list Event -> option error;
  AbortMultipartUploadWithContext : list Event -> option error;
  Pool_Get : list Event -> error + list byte;
  Ctx_Done : list Event -> bool
}.

(** Modelled from the spec: [MemoryBufferPool] is not part of the sources at
    hand.  A pool of byte buffers of one fixed size; [Get] hands out a
    buffer of [BufSize] bytes, whatever a previous user left in it, or
    reports an error. *)
Definition MemoryBufferPool_Get (E : Env) (h : list Event) (pool : MemoryBufferPool)
    : error + list byte :=
  match Pool_Get E h with
  | inl e => inl e
  | inr stale => inr (resize (Z.to_nat (BufSize pool)) Byte.x00 stale)
  end.

(** The writer in its surroundings: the history of calls, the process-wide
    phantom map, the parts sent on [UploadChan] that no worker has
    processed yet (a part is named by its index in [u.parts]), and the
    writer itself. *)
Record World : Type := {
  history : list Event;
  phantoms : PhantomObjectMap;
  uploadChan : list nat;
  u : S3MultipartUploadWriter
}.

Definition setWriter (w : World) (u' : S3MultipartUploadWriter) : World :=
  {| history := history w; phantoms := phantoms w; uploadChan := uploadChan w; u := u' |}.

Definition log (ev : Event) (w : World) : World :=
  {| history := history w ++ [ev]; phantoms := phantoms w;
     uploadChan := uploadChan w; u := u w |}.

Definition setParts (ps : list (option S3PartToUpload)) (w : World) : World :=
  setWriter w
    {| MaxObjectSize := MaxObjectSize (u w);
       UploadMemoryBufferPool := UploadMemoryBufferPool (u w);
       Info := Info (u w); completedParts := completedParts (u w); parts := ps;
       multiPartUploadID := multiPartUploadID (u w); u_err := u_err (u w);
       uploadGroup := uploadGroup (u w) |}.

Definition setCompletedParts (cs : list (option CompletedPart)) (w : World) : World :=
  setWriter w
    {| MaxObjectSize := MaxObjectSize (u w);
       UploadMemoryBufferPool := UploadMemoryBufferPool (u w);
       Info := Info (u w); completedParts := cs; parts := parts (u w);
       multiPartUploadID := multiPartUploadID (u w); u_err := u_err (u w);
       uploadGroup := uploadGroup (u w) |}.

Definition setUploadID (id : option string) (w : World) : World :=
  setWriter w
    {| MaxObjectSize := MaxObjectSize (u w);
       UploadMemoryBufferPool := UploadMemoryBufferPool (u w);
       Info := Info (u w); completedParts := completedParts (u w); parts := parts (u w);
       multiPartUploadID := id; u_err := u_err (u w);
       uploadGroup := uploadGroup (u w) |}.

Definition setErr (e : option error) (w : World) : World :=
  setWriter w
    {| MaxObjectSize := MaxObjectSize (u w);
       UploadMemoryBufferPool := UploadMemoryBufferPool (u w);
       Info := Info (u w); completedParts := completedParts (u w); parts := parts (u w);
       multiPartUploadID := multiPartUploadID (u w); u_err := e;
       uploadGroup := uploadGroup (u w) |}.

Definition setUploadGroup (n : Z) (w : World) : World :=
  setWriter w
    {| MaxObjectSize := MaxObjectSize (u w);
       UploadMemoryBufferPool := UploadMemoryBufferPool (u w);
       Info := Info (u w); completedParts := completedParts (u w); parts := parts (u w);
       multiPartUploadID := multiPartUploadID (u w); u_err := u_err (u w);
       uploadGroup := n |}.

Definition setPhantoms (m : PhantomObjectMap) (w : World) : World :=
  {| history := history w; phantoms := m; uploadChan := uploadChan w; u := u w |}.

Definition setUploadChan (q : list nat) (w : World) : World :=
  {| history := history w; phantoms := phantoms w; uploadChan := q; u := u w |}.

(** [*part = part'] for the part at index [i] of [u.parts]. *)
Definition setPart (i : nat) (part' : S3PartToUpload) (w : World) : World :=
  setParts (<[i := Some part']> (parts (u w))) w.

Definition setState (st : S3PartUploadState) (part : S3PartToUpload) : S3PartToUpload :=
  {| content := content part; partNumber := partNumber part; o := o part; state := st |}.

(** [s[k]] for an [int] index. *)
Definition index {A : Type} (s : list A) (k : Z) : outcome A :=
  if (0 <=? k) && (k <? Z.of_nat (length s))
  then match s !! Z.to_nat k with
       | Some a => Returns a
       | None => Panics IndexOutOfRange
       end
  else Panics IndexOutOfRange.

(* ===================================================================== *)
(** ** S3MultipartUploadWriter: operations *)
(* ===================================================================== *)

(** [part.getContent()]. *)
Definition getContent (part : S3PartToUpload) : outcome (list byte * option error) :=
  let end_ := GetMaxValidOffset (o part) in
  if end_ =? -1 then Returns ([], Some (ErrIncompletePart (partNumber part)))
  else
    let* c := slice (content part) 0 end_ in
    Returns (c, None).

(** [part.copy(buf, start, end)]. *)
Definition part_copy (part : S3PartToUpload) (buf : list byte) (start end_ : Z)
    : outcome S3PartToUpload :=
  let* _ := slice (content part) start end_ in
  Returns {| content := copy_slice (content part) start end_ buf;
             partNumber := partNumber part;
             o := OffsetRanges_Add start end_ (o part);
             state := state part |}.

(** [part.isFull()]. *)
Definition isFull (part : S3PartToUpload) : bool := IsFull (o part).

(** [u.Info.GetOne().Key.String()]. *)
Definition keyOf (w : World) : string :=
  Path_String (ph_Key (GetOne (Info (u w)) (phantoms w))).

Definition s3CreateMultipartUpload (E : Env) (w : World) : option error * World :=
  let w1 := log (CallCreateMultipartUpload (keyOf w)) w in
  match CreateMultipartUploadWithContext E (history w1) with
  | inl e => (Some e, w1)
  | inr uploadId => (None, setUploadID (Some uploadId) w1)
  end.

Definition s3PutObject (E : Env) (body : list byte) (w : World) : option error * World :=
  let w1 := log (CallPutObject (keyOf w) body) w in
  (PutObjectWithContext E (history w1), w1).

Definition s3AbortMultipartUpload (E : Env) (w : World) : option error * World :=
  match multiPartUploadID (u w) with
  | Some id =>
      let w1 := log (CallAbortMultipartUpload (keyOf w) id) (setUploadID None w) in
      (AbortMultipartUploadWithContext E (history w1), w1)
  | None => (None, w)
  end.

Definition s3CompleteMultipartUpload (E : Env) (w : World)
    : outcome (option error * World) :=
  let* id := deref (multiPartUploadID (u w)) in
  let w1 := log (CallCompleteMultipartUpload (keyOf w) id (completedParts (u w))) w in
  Returns (CompleteMultipartUploadWithContext E (history w1), w1).

(** [u.s3UploadPart(part)] for the part at index [i]. *)
Definition s3UploadPart (E : Env) (i : nat) (part : S3PartToUpload) (w : World)
    : outcome (option error * World) :=
  let* id := deref (multiPartUploadID (u w)) in
  let* (body, e) := getContent part in
  match e with
  | Some e => Returns (Some e, w)
  | None =>
      let w1 := log (CallUploadPart (keyOf w) id (partNumber part) body) w in
      match UploadPartWithContext E (history w1) with
      | inl e => Returns (Some e, w1)
      | inr etag =>
          let cs := completedParts (u w1) in
          let cs := if len cs <? len (parts (u w1))
                    then cs ++ repeat None (length (parts (u w1)) - length cs)
                    else cs in
          let completed := {| ETag := etag; PartNumber := partNumber part |} in
          let k := wrap64 (partNumber part - 1) in
          let* _ := index cs k in
          Returns (None, setCompletedParts (<[Z.to_nat k := Some completed]> cs) w1)
      end
  end.

(** [u.seterr(e)]. *)
Definition seterr (e : error) (w : World) : World := setErr (Some e) w.

(** [u.closePartsInStateAdding()]: the loop over [i], from [n - 1] down to
    0, and the method. *)
Fixpoint closeParts_loop (n : nat) (w : World) : Z * World :=
  match n with
  | O => (0, w)
  | S i =>
      match parts (u w) !! i with
      | Some (Some part) =>
          match state part with
          | S3PartUploadStateAdding =>
              let w1 := log (PoolPut (partNumber part)) w in
              let w2 := setPart i (setState S3PartUploadCancelled part) w1 in
              let '(pending, w3) := closeParts_loop i w2 in
              (pending + 1, w3)
          | _ => closeParts_loop i w
          end
      | _ => closeParts_loop i w
      end
  end.

Definition closePartsInStateAdding (w : World) : Z * World :=
  closeParts_loop (length (parts (u w))) w.

(** [u.enqueueUpload(part)] for the part pointer held at index [i] of
    [u.parts]. *)
Definition enqueueUpload (E : Env) (i : nat) (w : World) : outcome (option error * World) :=
  let* slot := index (parts (u w)) (Z.of_nat i) in
  let* part := deref slot in
  if stateValue (state part) <? stateValue S3PartUploadStateFull then
    let '(e, w1) :=
      match multiPartUploadID (u w) with
      | None => s3CreateMultipartUpload E w
      | Some _ => (None, w)
      end in
    match e with
    | Some e => Returns (Some e, w1)
    | None =>
        let* _ := deref (multiPartUploadID (u w1)) in
        let w2 := setPart i (setState S3PartUploadStateFull part) w1 in
        let w3 := setUploadGroup (uploadGroup (u w2) + 1) w2 in
        if Ctx_Done E (history w3) then Returns (Some ErrEnqueueCancelled, w3)
        else
          Returns (None, setUploadChan (uploadChan w3 ++ [i])
                                       (log (ChanSend (partNumber part)) w3))
    end
  else Returns (None, w).

(** [u.s3AbortMultipartUpload(); u.closePartsInStateAdding()], the pair of
    calls every failure path makes; both results are dropped. *)
Definition abortAndCancel (E : Env) (w : World) : World :=
  (closePartsInStateAdding (s3AbortMultipartUpload E w).2).2.

(** The failure exit shared by the three error paths of [WriteAt]:
    abort, cancel the parts being filled, record the error, return
    [(0, err)]. *)
Definition failWriteAt (E : Env) (e : error) (w : World) : (Z * option error) * World :=
  ((0, Some e), setErr (Some e) (abortAndCancel E w)).

(** One turn of the [for pending > 0] loop: either the loop goes on, having
    copied [partCopied] bytes, or [WriteAt] returns. *)
Inductive loopStep : Type :=
| Continue (w : World) (partCopied : Z)
| Return (res : Z * option error) (w : World).

Definition WriteAt_iteration (E : Env) (buf : list byte)
    (partSize partNumber partOffset pending bufOffset : Z) (w : World)
    : outcome loopStep :=
  let* slot := index (parts (u w)) partNumber in
  let got : (Z * option error) * World + S3PartToUpload * World :=
    match slot with
    | Some part => inr (part, w)
    | None =>
        let w1 := log PoolGet w in
        match MemoryBufferPool_Get E (history w1) (UploadMemoryBufferPool (u w1)) with
        | inl e => inl (failWriteAt E e w1)
        | inr b =>
            let part := {| content := b; partNumber := wrap64 (partNumber + 1);
                           o := NewOffsetRanges partSize;
                           state := S3PartUploadStateAdding |} in
            inr (part, setPart (Z.to_nat partNumber) part w1)
        end
    end in
  match got with
  | inl failed => Returns (Return failed.1 failed.2)
  | inr (part, w1) =>
      let partOffsetFinal := wrap64 (partOffset + pending) in
      let partOffsetFinal := if partOffsetFinal >? partSize then partSize
                             else partOffsetFinal in
      let partCopied := wrap64 (partOffsetFinal - partOffset) in
      if stateValue (state part) <? stateValue S3PartUploadStateFull then
        let* chunk := slice buf bufOffset (wrap64 (bufOffset + partCopied)) in
        let* part' := part_copy part chunk partOffset partOffsetFinal in
        let w2 := setPart (Z.to_nat partNumber) part' w1 in
        if isFull part' then
          let* (e, w3) := enqueueUpload E (Z.to_nat partNumber) w2 in
          match e with
          | Some e => Returns (Return (failWriteAt E e w3).1 (failWriteAt E e w3).2)
          | None => Returns (Continue w3 partCopied)
          end
        else Returns (Continue w2 partCopied)
      else Returns (Continue w1 partCopied)
  end.

Fixpoint WriteAt_loop (fuel : nat) (E : Env) (buf : list byte)
    (partSize partNumber partOffset pending bufOffset : Z) (w : World)
    : outcome ((Z * option error) * World) :=
  if pending >? 0 then
    match fuel with
    | O => OutOfFuel
    | S fuel' =>
        let* step := WriteAt_iteration E buf partSize partNumber partOffset
                                       pending bufOffset w in
        match step with
        | Return res w' => Returns (res, w')
        | Continue w' partCopied =>
            WriteAt_loop fuel' E buf partSize (wrap64 (partNumber + 1)) 0
                         (wrap64 (pending - partCopied))
                         (wrap64 (bufOffset + partCopied)) w'
        end
    end
  else Returns ((len buf, None), w).

(** [WriteAt]. *)
Definition WriteAt (E : Env) (buf : list byte) (off : Z) (w : World)
    : outcome ((Z * option error) * World) :=
  let pending := len buf in
  let offFinal := wrap64 (off + pending) in
  let partSize := BufSize (UploadMemoryBufferPool (u w)) in
  if partSize =? 0 then Panics DivideByZero else
  let partNumberInitial := wrap64 (Z.quot off partSize) in
  let partOffsetInitial := Z.rem off partSize in
  let e :=
    match u_err (u w) with
    | Some e => Some e
    | None =>
        if (MaxObjectSize (u w) >=? 0) && (offFinal >? MaxObjectSize (u w))
        then Some (ErrFileTooLarge (MaxObjectSize (u w)))
        else None
    end in
  match e with
  | Some e => Returns (failWriteAt E e w)
  | None =>
      let partNumberFinal := wrap64 (Z.quot (wrap64 (wrap64 (off + pending) - 1)) partSize) in
      let w1 := setPhantoms (SetSizeIfGreater (Info (u w)) offFinal (phantoms w)) w in
      let* w2 :=
        if len (parts (u w1)) <=? partNumberFinal
        then
          (* make([]*S3PartToUpload, partNumberFinal+1); copy(newParts, u.parts) *)
          let n := wrap64 (partNumberFinal + 1) in
          if n <? 0 then Panics MakesliceLenOutOfRange
          else Returns (setParts (parts (u w1)
                                    ++ repeat None (Z.to_nat n - length (parts (u w1))))
                                 w1)
        else Returns w1 in
      WriteAt_loop (S (length buf)) E buf partSize partNumberInitial partOffsetInitial
                   pending 0 w2
  end.

(* ===================================================================== *)
(** ** S3UploadWorkers and Close *)
(* ===================================================================== *)

(** [u.uploadGroup.Done()]. *)
Definition uploadGroup_Done (w : World) : outcome World :=
  if uploadGroup (u w) - 1 <? 0 then Panics NegativeWaitGroupCounter
  else Returns (setUploadGroup (uploadGroup (u w) - 1) w).

(** [w.uploadPart(part)] of a worker, for the part at index [i]. *)
Definition uploadPart (E : Env) (i : nat) (w : World) : outcome World :=
  let* slot := index (parts (u w)) (Z.of_nat i) in
  let* part := deref slot in
  match state part with
  | S3PartUploadStateFull =>
      let* (e, w1) := s3UploadPart E i part w in
      let w2 := log (PoolPut (partNumber part)) w1 in
      match e with
      | Some e =>
          uploadGroup_Done
            (seterr e (setPart i (setState S3PartUploadErrorSending part) w2))
      | None => uploadGroup_Done (setPart i (setState S3PartUploadStateSent part) w2)
      end
  | _ =>
      let* _ := deref (multiPartUploadID (u w)) in
      uploadGroup_Done w
  end.

(** A worker takes the oldest part off [UploadChan] and uploads it; with
    nothing to take it keeps waiting. *)
Definition workerStep (E : Env) (w : World) : outcome World :=
  match uploadChan w with
  | [] => Returns w
  | i :: q => uploadPart E i (setUploadChan q w)
  end.

Fixpoint drain (E : Env) (q : list nat) (w : World) : outcome World :=
  match q with
  | [] => Returns w
  | i :: q' =>
      let* w' := uploadPart E i w in
      drain E q' w'
  end.

(** [u.uploadGroup.Wait()]: the workers process what was sent to them,
    oldest first; the wait ends when the counter is back to zero and never
    ends otherwise. *)
Definition uploadGroup_Wait (E : Env) (w : World) : outcome World :=
  let* w' := drain E (uploadChan w) (setUploadChan [] w) in
  if uploadGroup (u w') =? 0 then Returns w' else Blocks.

(** The first statement of [Close]: the phantom entry of the writer is
    removed from the phantom map. *)
Definition afterPhantomRemoval (w : World) : World :=
  log (PhantomRemoveByInfoPtr (Info (u w)))
      (setPhantoms (PhantomObjectMap_RemoveByInfoPtr (Info (u w)) (phantoms w)) w).

(** The branch "only one part -> use PutObject" of [Close]. *)
Definition Close_putObject (E : Env) (w : World) : outcome (option error * World) :=
  let* slot := index (parts (u w)) 0 in
  let* part := deref slot in
  let* (body, e) := getContent part in
  match e with
  | None =>
      let '(e, w1) := s3PutObject E body w in
      let w2 := log (PoolPut (partNumber part)) w1 in
      match e with
      | None => Returns (None, setPart 0 (setState S3PartUploadStateSent part) w2)
      | Some e => Returns (Some e, setPart 0 (setState S3PartUploadErrorSending part) w2)
      end
  | Some e =>
      let w1 := log (PoolPut (partNumber part)) w in
      Returns (Some e, setPart 0 (setState S3PartUploadErrorSending part) w1)
  end.

(** The branch "more than 1 part" of [Close], from [u.uploadGroup.Wait()]
    on; [e] is what [enqueueUpload] returned for the trailing part. *)
Definition Close_drain (E : Env) (e : option error) (w : World)
    : outcome (option error * World) :=
  let* w2 := uploadGroup_Wait E w in
  match e with
  | Some e => Returns (Some e, w2)
  | None =>
      let '(pending, w3) := closePartsInStateAdding w2 in
      if pending >? 0 then Returns (Some (ErrPendingParts pending), w3)
      else
        match u_err (u w3) with
        | Some e => Returns (Some e, w3)
        | None => s3CompleteMultipartUpload E w3
        end
  end.

(** The branch "more than 1 part" of [Close]. *)
Definition Close_multipart (E : Env) (w : World) : outcome (option error * World) :=
  let last := len (parts (u w)) - 1 in
  let* _ := index (parts (u w)) last in
  let* (e, w1) := enqueueUpload E (Z.to_nat last) w in
  Close_drain E e w1.

(** [Close] of the writer. *)
Definition Close (E : Env) (w : World) : outcome (option error * World) :=
  let w := afterPhantomRemoval w in
  let* (e, w) :=
    match u_err (u w) with
    | Some e => Returns (Some e, w)
    | None =>
        if (len (parts (u w)) =? 1)
           && (match multiPartUploadID (u w) with None => true | Some _ => false end)
        then Close_putObject E w
        else Close_multipart E w
    end in
  match e with
  | Some e => Returns (Some e, abortAndCancel E w)
  | None => Returns (None, w)
  end.

(** The part of [Filewrite] that builds the writer: the permission gate,
    the size limit ([-1] stands for the largest [int]), the info object,
    allocated at the fresh address [info], and its entry in the phantom
    map.  The history of the new writer is empty. *)
Definition Filewrite (writable : bool) (maxObjectSize : Z) (pool : MemoryBufferPool)
    (key : Path) (now : time) (info : nat) (m : PhantomObjectMap)
    : error + World :=
  if negb writable then inl (ErrUpstream "write operation not allowed as per configuration")
  else
    let maxObjectSize := if maxObjectSize <? 0 then two63 - 1 else maxObjectSize in
    let heap := fun a => if Nat.eqb a info
                         then {| ph_Key := key; ph_Size := 0; ph_LastModified := now |}
                         else ph_heap m a in
    let oow := {| MaxObjectSize := maxObjectSize; UploadMemoryBufferPool := pool;
                  Info := info; completedParts := []; parts := [];
                  multiPartUploadID := None; u_err := None; uploadGroup := 0 |} in
    inr {| history := [];
           phantoms := PhantomObjectMap_Add info
                         {| ph_heap := heap; ph_objects := ph_objects m |};
           uploadChan := []; u := oow |}.

(* ===================================================================== *)
(** ** Runs of a writer *)
(* ===================================================================== *)

(** What happens to a writer between [Filewrite] and [Close]: the session
    calls [WriteAt], and a worker picks up a part that was sent to it.
    [WriteAt] and the upload of one part are taken as indivisible; the
    interleaving of the calls with the workers is any list of [op]. *)
Inductive op : Type :=
| OpWriteAt (buf : list byte) (off : Z)
| OpWorker.

Definition step (E : Env) (x : op) (w : World) : outcome World :=
  match x with
  | OpWriteAt buf off =>
      let* (_, w') := WriteAt E buf off w in
      Returns w'
  | OpWorker => workerStep E w
  end.

Fixpoint run (E : Env) (ops : list op) (w : World) : outcome World :=
  match ops with
  | [] => Returns w
  | x :: rest =>
      let* w' := step E x w in
      run E rest w'
  end.

(** The worlds a writer can be in before [Close]: [Filewrite] built it over
    a pool of buffers of positive size, and some run led from there. *)
Definition reachable (E : Env) (w : World) : Prop :=
  exists maxObjectSize pool key now info m w0 ops,
    0 < BufSize pool /\
    Filewrite true maxObjectSize pool key now info m = inr w0 /\
    run E ops w0 = Returns w.

(** Counting the calls of one kind in a history. *)
Definition isAbort (ev : Event) : bool :=
  match ev with CallAbortMultipartUpload _ _ => true | _ => false end.
Definition isCreate (ev : Event) : bool :=
  match ev with CallCreateMultipartUpload _ => true | _ => false end.
Definition isPutObject (ev : Event) : bool :=
  match ev with CallPutObject _ _ => true | _ => false end.
Definition isUploadPart (ev : Event) : bool :=
  match ev with CallUploadPart _ _ _ _ => true | _ => false end.
Definition isComplete (ev : Event) : bool :=
  match ev with CallCompleteMultipartUpload _ _ _ => true | _ => false end.
Definition isPoolGet (ev : Event) : bool :=
  match ev with PoolGet => true | _ => false end.

Definition calls (kind : Event -> bool) (h : list Event) : nat :=
  length (List.filter kind h).

(* ===================================================================== *)
(** ** The ACL rule in the words of the specification *)
(* ===================================================================== *)

(** The bits one permission adds, given the bits for READ, WRITE and
    FULL_CONTROL. *)
Definition spec_permissionBits (r w full : Z) (permission : string) : Z :=
  if String.eqb permission "READ" then r
  else if String.eqb permission "WRITE" then w
  else if String.eqb permission "FULL_CONTROL" then full
  else 0.

(** The contribution of one grant: owner bits for a grant to the owner,
    owner and group bits for the AuthenticatedUsers group, all bits for the
    AllUsers group, nothing for any other grant. *)
Definition spec_grantContribution (ownerID : string) (g : aws_s3.Grant) : Z :=
  match aws_s3.Grantee_ g, aws_s3.Permission g with
  | Some grantee, Some p =>
      if bool_decide (aws_s3.ID grantee = Some ownerID)
      then spec_permissionBits (oct [4;0;0]) (oct [2;0;0]) (oct [6;0;0]) p
      else if bool_decide (aws_s3.URI grantee = Some AuthenticatedUsers)
      then spec_permissionBits (oct [4;4;0]) (oct [2;2;0]) (oct [6;6;0]) p
      else if bool_decide (aws_s3.URI grantee = Some AllUsers)
      then spec_permissionBits (oct [4;4;4]) (oct [2;2;2]) (oct [6;6;6]) p
      else 0
  | _, _ => 0
  end.

(** The mode of the specification: the bitwise OR of the contributions. *)
Definition spec_mode (ownerID : string) (grants : list aws_s3.Grant) : Z :=
  fold_right Z.lor 0 (map (spec_grantContribution ownerID) grants).

(* ===================================================================== *)
(** ** Statements and scenarios *)
(* ===================================================================== *)



(** Scenario (f) of the specification: the owner has FULL_CONTROL and
    AllUsers may READ; the mode is 0644. *)
Definition scenario_f_grants : list aws_s3.Grant :=
  [ {| aws_s3.Grantee_ := Some {| aws_s3.ID := Some "owner-1"; aws_s3.URI := None |};
       aws_s3.Permission := Some "FULL_CONTROL" |};
    {| aws_s3.Grantee_ := Some {| aws_s3.ID := None; aws_s3.URI := Some AllUsers |};
       aws_s3.Permission := Some "READ" |} ].


Definition noPhantoms : PhantomObjectMap :=
  {| ph_heap := fun _ => {| ph_Key := []; ph_Size := 0; ph_LastModified := TimeZero |};
     ph_objects := ∅ |}.


(** The entries that stay in the spool of a lister when it compacts at the
    end of the spool: the last [lookback] ones, or all of them when there
    are fewer. *)
Definition keptEntries (lookback : Z) (sp : list ObjectFileInfo) : list ObjectFileInfo :=
  if len sp >=? lookback then skipn (Z.to_nat (len sp - lookback)) sp else sp.

(** What a lister appends for a page [out]: on the initial page (no
    continuation token yet) the dot entries, the phantoms and the common
    prefixes, then the contents; on a continuation page the contents
    only. *)
Definition pageEntries (phantoms : PhantomObjectMap) (sol : S3ObjectLister)
    (out : ListObjectsV2Output) : list ObjectFileInfo :=
  match continuation sol with
  | None =>
      [dotEntry "."; dotEntry ".."]
        ++ map (fun phInfo => phantomEntry (GetOne phInfo phantoms))
               (PhantomObjectMap_List (Prefix sol) phantoms)
        ++ map commonPrefixEntry (CommonPrefixes out)
  | Some _ => []
  end ++ map contentsEntry (Contents out).

(** A lister in the middle of a listing of [photos/]: the first page is in
    the spool and a continuation token is pending. *)
Definition listerAfterFirstPage : S3ObjectLister :=
  {| Prefix := ["photos"]; sol_Lookback := 10; sol_spoolOffset := 0;
     sol_spooled := [dotEntry "."; dotEntry "..";
                     {| _Name := "a.jpg"; _LastModified := TimeUnix 100;
                        _Size := 5; _Mode := oct [6;4;4] |}];
     continuation := Some "token-2"; sol_noMore := false |}.

(** The second and last page of that listing: one sub-directory and one
    object. *)
Definition secondPage : ListObjectsV2Output :=
  {| CommonPrefixes := ["photos/2020/"];
     Contents := [{| Key := "photos/b.jpg"; LastModified := TimeUnix 200; Size := 9 |}];
     NextContinuationToken := None |}.

Definition pagedS3 : S3Listing :=
  {| ListObjectsV2WithContext := fun prefix token =>
       match token with
       | Some _ => inr secondPage
       | None => inl (ErrUpstream "unused")
       end;
     GetObjectAclWithContext := fun _ => inl (ErrUpstream "unused");
     HeadObjectWithContext := fun _ => inl (ErrUpstream "unused") |}.

(** [w'] comes after [w] in the life of one writer, with no multipart
    upload aborted and no change to the phantom map in between: the history
    has grown by calls other than [AbortMultipartUpload], and the phantom
    map, the info pointer, the pool and the size limit are the same. *)
Definition extends (w w' : World) : Prop :=
  (exists evs, history w' = history w ++ evs /\
               Forall (fun ev => isAbort ev = false) evs) /\
  phantoms w' = phantoms w /\
  Info (u w') = Info (u w) /\
  UploadMemoryBufferPool (u w') = UploadMemoryBufferPool (u w) /\
  MaxObjectSize (u w') = MaxObjectSize (u w).

(** A call that puts the object in place: [PutObject] or
    [CompleteMultipartUpload]. *)
Definition isFinalizing (ev : Event) : bool := isPutObject ev || isComplete ev.

(** An environment in which every call succeeds, the pool always has a
    buffer (zeroed) and the session is never cancelled. *)
Definition okEnv : Env :=
  {| CreateMultipartUploadWithContext := fun _ => inr "upload-1";
     PutObjectWithContext := fun _ => None;
     UploadPartWithContext := fun _ => inr "etag";
     CompleteMultipartUploadWithContext := fun _ => None;
     AbortMultipartUploadWithContext := fun _ => None;
     Pool_Get := fun _ => inr [];
     Ctx_Done := fun _ => false |}.

(** The world [Filewrite] builds for the key [a/b] over a pool of buffers
    of [P] bytes, with no size limit, when no other upload is in flight;
    the info object lives at address 7. *)
Definition freshWorld (P : Z) : World :=
  {| history := [];
     phantoms :=
       PhantomObjectMap_Add 7
         {| ph_heap := fun a => if Nat.eqb a 7
                                then {| ph_Key := ["a"; "b"]; ph_Size := 0;
                                        ph_LastModified := TimeUnix 5 |}
                                else ph_heap noPhantoms a;
            ph_objects := ph_objects noPhantoms |};
     uploadChan := [];
     u := {| MaxObjectSize := two63 - 1;
             UploadMemoryBufferPool := {| BufSize := P |};
             Info := 7; completedParts := []; parts := [];
             multiPartUploadID := None; u_err := None; uploadGroup := 0 |} |}.

(** The bytes of a string. *)
Definition bytes (s : string) : list byte := list_byte_of_string s.

(** The world a run ends in, or [default] when the run does not return. *)
Definition worldOf (r : outcome World) (default : World) : World :=
  match r with
  | Returns w => w
  | _ => default
  end.

(** The world after [ops] on a fresh writer over buffers of [P] bytes,
    with every call succeeding. *)
Definition worldAfter (P : Z) (ops : list op) : World :=
  worldOf (run okEnv ops (freshWorld P)) (freshWorld P).

(** What [closePartsInStateAdding] does to one slot of [u.parts]. *)
Definition cancelPart (slot : option S3PartToUpload) : option S3PartToUpload :=
  match slot with
  | Some part =>
      match state part with
      | S3PartUploadStateAdding => Some (setState S3PartUploadCancelled part)
      | _ => Some part
      end
  | None => None
  end.

(** Two worlds that differ in the parts and in the history at most. *)
Definition sameButParts (w w' : World) : Prop :=
  u_err (u w') = u_err (u w) /\
  multiPartUploadID (u w') = multiPartUploadID (u w) /\
  uploadGroup (u w') = uploadGroup (u w) /\
  completedParts (u w') = completedParts (u w) /\
  uploadChan w' = uploadChan w /\
  phantoms w' = phantoms w /\
  UploadMemoryBufferPool (u w') = UploadMemoryBufferPool (u w) /\
  MaxObjectSize (u w') = MaxObjectSize (u w) /\
  Info (u w') = Info (u w).

(** The slot at index [j] holds a part in state [Adding]. *)
Definition isAdding (w : World) (j : nat) : Prop :=
  exists part, parts (u w) !! j = Some (Some part) /\ state part = S3PartUploadStateAdding.

(** A part as the writer keeps it at index [j] over buffers of [P] bytes:
    numbered [j + 1], with a buffer of [P] bytes and ranges inside it. *)
Definition partOK (P : Z) (j : nat) (part : S3PartToUpload) : Prop :=
  partNumber part = Z.of_nat j + 1 /\
  len (content part) = P /\
  or_size (o part) = P /\
  Forall (fun r => 0 <= r.1 /\ r.2 <= P) (or_ranges (o part)).

(** The invariant of the worlds a writer goes through before [Close], in
    three parts.  Structure: the buffers have a positive size, the parts are
    well formed, and what the workers hold are parts of the writer. *)
Definition InvS (w : World) : Prop :=
  let P := BufSize (UploadMemoryBufferPool (u w)) in
  0 < P /\
  len (parts (u w)) < two63 /\
  (forall j part, parts (u w) !! j = Some (Some part) -> partOK P j part) /\
  (forall i, In i (uploadChan w) -> exists part, parts (u w) !! i = Some (Some part)).

(** The wait group: as long as no error is recorded, it counts the parts
    the workers hold, and these belong to an open multipart upload. *)
Definition InvG (w : World) : Prop :=
  u_err (u w) = None ->
  uploadGroup (u w) = len (uploadChan w) /\
  (uploadChan w <> [] -> multiPartUploadID (u w) <> None).

(** Aborts: at most one so far, and none while an upload is open or no
    error is recorded. *)
Definition InvA (w : World) : Prop :=
  (calls isAbort (history w) <= 1)%nat /\
  (multiPartUploadID (u w) <> None \/ u_err (u w) = None ->
     calls isAbort (history w) = 0%nat).

Definition Inv (w : World) : Prop := InvS w /\ InvG w /\ InvA w.

(** Two worlds whose parts differ in their states at most. *)
Definition sameData (w w' : World) : Prop :=
  forall j,
    match parts (u w) !! j, parts (u w') !! j with
    | Some (Some p), Some (Some p') =>
        content p' = content p /\ o p' = o p /\ partNumber p' = partNumber p
    | x, y => x = y
    end.

(** What [enqueueUpload] does with a part in state [Adding], once the
    multipart upload exists: the part is [Full], the wait group counts it,
    and it goes to the workers unless the session is cancelled. *)
Definition enqueueTail (E : Env) (i : nat) (part : S3PartToUpload) (w : World)
    : option error * World :=
  let w3 := setUploadGroup (uploadGroup (u w) + 1)
                           (setPart i (setState S3PartUploadStateFull part) w) in
  if Ctx_Done E (history w3) then (Some ErrEnqueueCancelled, w3)
  else (None, setUploadChan (uploadChan w3 ++ [i]) (log (ChanSend (partNumber part)) w3)).


(** The parts in state [Adding] of [w] are the same in [w']. *)
Definition keepsAdding (w w' : World) : Prop :=
  forall j part,
    parts (u w) !! j = Some (Some part) -> state part = S3PartUploadStateAdding ->
    parts (u w') !! j = Some (Some part).

(** The call that aborts the upload open in [w], if there is one. *)
Definition abortCallOf (w : World) : list Event :=
  match multiPartUploadID (u w) with
  | Some id => [CallAbortMultipartUpload (keyOf w) id]
  | None => []
  end.


(** An environment in which the pool has no buffer to give. *)
Definition poolFailEnv : Env :=
  {| CreateMultipartUploadWithContext := fun _ => inr "upload-1";
     PutObjectWithContext := fun _ => None;
     UploadPartWithContext := fun _ => inr "etag";
     CompleteMultipartUploadWithContext := fun _ => None;
     AbortMultipartUploadWithContext := fun _ => None;
     Pool_Get := fun _ => inl (ErrUpstream "pool exhausted");
     Ctx_Done := fun _ => false |}.

(** The slot at index [j] of [u.parts] holds no part: the part, if it is
    ever touched, has to be allocated. *)
Definition isNil (w : World) (j : nat) : bool :=
  match parts (u w) !! j with
  | Some (Some _) => false
  | _ => true
  end.

(** The slot at index [j] holds no part or a part that still takes data
    (state [Adding]). *)
Definition takesData (w : World) (j : nat) : Prop :=
  forall part, parts (u w) !! j = Some (Some part) ->
               state part = S3PartUploadStateAdding.

(** The indices of the parts that a write of [n] bytes at [off] touches,
    over buffers of [P] bytes, in increasing order. *)
Definition touchedParts (P off n : Z) : list nat :=
  if n <=? 0 then []
  else seq (Z.to_nat (off / P)) (Z.to_nat ((off + n - 1) / P - off / P + 1)).



(** Where a byte belongs, in the words of the specification: the byte at
    the absolute offset [o] belongs to the part number [(o / partSize) + 1],
    at the offset [o % partSize] in the part. *)
Definition spec_partNumber (partSize o : Z) : Z := o / partSize + 1.
Definition spec_partOffset (partSize o : Z) : Z := o mod partSize.


(** A call of the multipart protocol: [CreateMultipartUpload],
    [UploadPart], [CompleteMultipartUpload] or [AbortMultipartUpload]. *)
Definition isMultipartCall (ev : Event) : bool :=
  isCreate ev || isUploadPart ev || isComplete ev || isAbort ev.

(** The history of a writer that took one short write and was closed: a
    buffer from the pool, the phantom entry removed, one [PutObject] with
    the bytes written, the buffer back to the pool. *)
Definition putObjectHistory (info : nat) (key : Path) (buf : list byte) : list Event :=
  [PoolGet; PhantomRemoveByInfoPtr info; CallPutObject (Path_String key) buf; PoolPut 1].

(** What the first write leaves in the slot 0 when it starts at offset 0
    and is shorter than a buffer: the buffer of the pool, with whatever
    [stale] bytes it came with, and [buf] at its start. *)
Definition shortPart (P : Z) (stale buf : list byte) : S3PartToUpload :=
  {| content := copy_slice (resize (Z.to_nat P) Byte.x00 stale) 0 (len buf) buf;
     partNumber := 1;
     o := {| or_size := P; or_ranges := [(0, len buf)] |};
     state := S3PartUploadStateAdding |}.

(** The world after that write on the new writer [w0]. *)
Definition afterShortWrite (stale buf : list byte) (w0 : World) : World :=
  {| history := [PoolGet];
     phantoms := SetSizeIfGreater (Info (u w0)) (len buf) (phantoms w0);
     uploadChan := uploadChan w0;
     u := {| MaxObjectSize := MaxObjectSize (u w0);
             UploadMemoryBufferPool := UploadMemoryBufferPool (u w0);
             Info := Info (u w0);
             completedParts := completedParts (u w0);
             parts := [Some (shortPart (BufSize (UploadMemoryBufferPool (u w0))) stale buf)];
             multiPartUploadID := None;
             u_err := None;
             uploadGroup := uploadGroup (u w0) |} |}.

(** The reader of the 5-byte object [hello] before its first read: the
    body is whole and nothing is spooled. *)
Definition helloReader (lookback minChunkSize : Z) : S3GetObjectOutputReader :=
  {| Goo_Body := Some {| unread := bytes "hello"; broken := false |};
     Lookback := lookback; MinChunkSize := minChunkSize;
     spooled := []; spoolOffset := 0; noMore := false |}.

(** A caller's buffer of [k] bytes. *)
Definition buffer (k : nat) : list byte := repeat Byte.x00 k.

(* ===================================================================== *)
(** ** Further statements and scenarios *)
(* ===================================================================== *)

(** An environment whose pool has one buffer only: the first [Get]
    succeeds, every later one fails.  Everything else succeeds. *)
Definition poolOnceEnv : Env :=
  {| CreateMultipartUploadWithContext := fun _ => inr "upload-1";
     PutObjectWithContext := fun _ => None;
     UploadPartWithContext := fun _ => inr "etag";
     CompleteMultipartUploadWithContext := fun _ => None;
     AbortMultipartUploadWithContext := fun _ => None;
     Pool_Get := fun h => if (calls isPoolGet h <=? 1)%nat then inr []
                          else inl (ErrUpstream "pool exhausted");
     Ctx_Done := fun _ => false |}.

(** The world a run under [E] ends in, from the new writer over buffers of
    [P] bytes. *)
Definition worldUnder (E : Env) (P : Z) (ops : list op) : World :=
  worldOf (run E ops (freshWorld P)) (freshWorld P).

(** [freshWorld] with a size limit of [M] bytes. *)
Definition limitedWorld (P M : Z) : World :=
  setWriter (freshWorld P)
    {| MaxObjectSize := M;
       UploadMemoryBufferPool := UploadMemoryBufferPool (u (freshWorld P));
       Info := Info (u (freshWorld P)); completedParts := []; parts := [];
       multiPartUploadID := None; u_err := None; uploadGroup := 0 |}.

(** The reader [oor] reads the object [obj]: the spool holds the bytes of
    [obj] from the absolute offset [spoolOffset] on, and as long as the end
    of the body has not been seen the body holds what follows the spool. *)
Definition readerOf (obj : list byte) (oor : S3GetObjectOutputReader) : Prop :=
  0 <= spoolOffset oor /\
  spoolOffset oor + len (spooled oor) <= len obj /\
  (forall k, (k < length (spooled oor))%nat ->
             spooled oor !! k = obj !! (Z.to_nat (spoolOffset oor) + k)%nat) /\
  (noMore oor = false ->
   forall body, Goo_Body oor = Some body ->
                unread body
                = skipn (Z.to_nat (spoolOffset oor) + length (spooled oor)) obj).

(** The sizes that keep the arithmetic of [ReadAt] within [int]. *)
Definition readerSizes (obj : list byte) (oor : S3GetObjectOutputReader) : Prop :=
  0 <= Lookback oor /\ 0 <= MinChunkSize oor /\
  len obj + MinChunkSize oor < two63.

(** The reader that [Fileread] builds on the body of [obj]. *)
Definition newReader (obj : list byte) (broken_ : bool) (lookback minChunkSize : Z)
    : S3GetObjectOutputReader :=
  {| Goo_Body := Some {| unread := obj; broken := broken_ |};
     Lookback := lookback; MinChunkSize := minChunkSize;
     spooled := []; spoolOffset := 0; noMore := false |}.

(** The states of a reader of the object [obj]: what [Fileread] builds,
    and what calls of [ReadAt] that return lead to; the session is alive
    and the offsets and lengths are those of an [int64] cursor. *)
Inductive readable (obj : list byte) (broken_ : bool) (lookback minChunkSize : Z)
    : S3GetObjectOutputReader -> Prop :=
| readable_new : readable obj broken_ lookback minChunkSize
                          (newReader obj broken_ lookback minChunkSize)
| readable_ReadAt (oor oor' : S3GetObjectOutputReader) (buf : list byte) (off : Z)
    (r : ReadAtResult) :
    readable obj broken_ lookback minChunkSize oor ->
    0 <= off -> off + len buf < two63 ->
    ReadAt false oor buf off = Returns (r, oor') ->
    readable obj broken_ lookback minChunkSize oor'.

(** The lister that [Filelist] builds for a [List] request. *)
Definition newLister (prefix : Path) (lookback : Z) : S3ObjectLister :=
  {| Prefix := prefix; sol_Lookback := lookback; sol_spoolOffset := 0;
     sol_spooled := []; continuation := None; sol_noMore := false |}.

(** The entries that come before those of the object store on the initial
    page: the dot entries and the uploads in flight under the prefix. *)
Definition leadingEntries (phantoms : PhantomObjectMap) (prefix : Path)
    : list ObjectFileInfo :=
  [dotEntry "."; dotEntry ".."]
    ++ map (fun phInfo => phantomEntry (GetOne phInfo phantoms))
           (PhantomObjectMap_List prefix phantoms).

(** What [copy(result[0:n], entries)] leaves in [result] when the entries
    fit. *)
Definition filledWith (entries : list ObjectFileInfo)
    (result : list (option ObjectFileInfo)) : list (option ObjectFileInfo) :=
  map Some entries ++ skipn (length entries) result.

(** An object store with nothing under the prefix that is listed. *)
Definition emptyPage : ListObjectsV2Output :=
  {| CommonPrefixes := []; Contents := []; NextContinuationToken := None |}.

Definition emptyDirS3 : S3Listing :=
  {| ListObjectsV2WithContext := fun _ _ => inr emptyPage;
     GetObjectAclWithContext := fun _ => inl (ErrUpstream "NoSuchKey");
     HeadObjectWithContext := fun _ => inl (ErrUpstream "NoSuchKey") |}.

(** As long as no error is on record, a part that is [Full] or in a later
    state is a part of an open multipart upload. *)
Definition InvD (w : World) : Prop :=
  u_err (u w) = None ->
  forall j part, parts (u w) !! j = Some (Some part) ->
                 state part <> S3PartUploadStateAdding ->
                 multiPartUploadID (u w) <> None.

(** From [w] to [w'] the multipart upload stays open if it was, and the
    parts that have left the state [Adding] in between belong to an open
    upload. *)
Definition staysOpen (w w' : World) : Prop :=
  (multiPartUploadID (u w) <> None -> multiPartUploadID (u w') <> None) /\
  (forall j part', parts (u w') !! j = Some (Some part') ->
                   state part' <> S3PartUploadStateAdding ->
                   (exists part, parts (u w) !! j = Some (Some part) /\
                                 state part <> S3PartUploadStateAdding) \/
                   multiPartUploadID (u w') <> None).

(** An environment whose session is cancelled: every [select] on
    [Ctx.Done()] takes that branch.  Everything else succeeds. *)
Definition cancelledEnv : Env :=
  {| CreateMultipartUploadWithContext := fun _ => inr "upload-1";
     PutObjectWithContext := fun _ => None;
     UploadPartWithContext := fun _ => inr "etag";
     CompleteMultipartUploadWithContext := fun _ => None;
     AbortMultipartUploadWithContext := fun _ => None;
     Pool_Get := fun _ => inr [];
     Ctx_Done := fun _ => true |}.

(** A call that neither puts the object in place nor aborts the upload. *)
Definition isPlain (ev : Event) : bool := negb (isFinalizing ev) && negb (isAbort ev).

(** From [w] to [w'] the history has grown by such calls only. *)
Definition quiet (w w' : World) : Prop :=
  exists evs, history w' = history w ++ evs /\
              Forall (fun ev => isPlain ev = true) evs.

(** The phantom map and the info pointer of the writer are the same in
    both worlds. *)
Definition samePhantoms (w w' : World) : Prop :=
  phantoms w' = phantoms w /\ Info (u w') = Info (u w).

(** The size the phantom map holds for the upload of the writer. *)
Definition phantomSize (w : World) : Z := ph_Size (GetOne (Info (u w)) (phantoms w)).

(** The upload of [key], started at [now], is on the phantom map of [w]
    under the info pointer [info] of the writer. *)
Definition uploading (key : Path) (now : time) (info : nat) (w : World) : Prop :=
  Info (u w) = info /\
  PhantomObjectMap_Get key (phantoms w) = Some info /\
  ph_Key (GetOne info (phantoms w)) = key /\
  ph_LastModified (GetOne info (phantoms w)) = now /\
  0 <= phantomSize w.

(** The key and the multipart upload a call names. *)
Definition keyNamed (ev : Event) : option string :=
  match ev with
  | CallCreateMultipartUpload key | CallPutObject key _ | CallUploadPart key _ _ _
  | CallCompleteMultipartUpload key _ _ | CallAbortMultipartUpload key _ => Some key
  | _ => None
  end.

Definition uploadNamed (ev : Event) : option string :=
  match ev with
  | CallUploadPart _ id _ _ | CallCompleteMultipartUpload _ id _
  | CallAbortMultipartUpload _ id => Some id
  | _ => None
  end.

(** [id] is what the object store answered to a [CreateMultipartUpload]
    call of the history [h]. *)
Definition created (E : Env) (h : list Event) (id : string) : Prop :=
  exists h1 key h2,
    h = h1 ++ CallCreateMultipartUpload key :: h2 /\
    CreateMultipartUploadWithContext E (h1 ++ [CallCreateMultipartUpload key]) = inr id.

(** An event a writer with key [K] and upload [oid] may add to its history
    without opening an upload. *)
Definition callOK (K : string) (oid : option string) (ev : Event) : Prop :=
  isCreate ev = false /\
  (forall k, keyNamed ev = Some k -> k = K) /\
  (forall id, uploadNamed ev = Some id -> oid = Some id).

(** The calls of a writer for the key [K]: they name [K]; at most one
    multipart upload was asked for; the upload the writer holds and the
    uploads its calls name were opened by the object store for it. *)
Definition InvK1 (E : Env) (K : string) (w : World) : Prop :=
  keyOf w = K /\
  Forall (fun ev => forall k, keyNamed ev = Some k -> k = K) (history w) /\
  (calls isCreate (history w) <= 1)%nat /\
  (forall id, multiPartUploadID (u w) = Some id -> created E (history w) id) /\
  (forall ev id, In ev (history w) -> uploadNamed ev = Some id ->
                 created E (history w) id).

(** With no error on record and no upload open, none was asked for. *)
Definition InvK2 (w : World) : Prop :=
  u_err (u w) = None -> multiPartUploadID (u w) = None ->
  calls isCreate (history w) = 0%nat.

(* ===================================================================== *)
(** ** S3BucketIO *)
(* ===================================================================== *)

(** Modelled from the spec: [PhantomObjectMap.Remove] and
    [PhantomObjectMap.Rename] are not part of the sources at hand.
    [Remove(key)] takes the upload in flight under [key] off the map and
    returns its info object, or nil; [Rename(src, dst)] returns true when
    an upload was in flight under [src], which is then found under [dst],
    its info object carrying the new key. *)
Definition PhantomObjectMap_Remove (key : Path) (m : PhantomObjectMap)
    : option nat * PhantomObjectMap :=
  match ph_objects m !! Path_String key with
  | Some info => (Some info, {| ph_heap := ph_heap m;
                                ph_objects := delete (Path_String key) (ph_objects m) |})
  | None => (None, m)
  end.

Definition PhantomObjectMap_Rename (src dst : Path) (m : PhantomObjectMap)
    : bool * PhantomObjectMap :=
  match ph_objects m !! Path_String src with
  | Some info =>
      let old := ph_heap m info in
      (true, {| ph_heap := fun a => if Nat.eqb a info
                                    then {| ph_Key := dst; ph_Size := ph_Size old;
                                            ph_LastModified := ph_LastModified old |}
                                    else ph_heap m a;
                ph_objects := <[Path_String dst := info]>
                                (delete (Path_String src) (ph_objects m)) |})
  | None => (false, m)
  end.


Record Perms : Type := {
  Readable : bool;
  Writable : bool;
  Listable : bool
}.

(** [S3BucketIO], with the fields of its [Bucket] that the operations
    read.  The contexts, the logger, the clock, the user and the
    server-side encryption settings are left out; [UploadChan] and the
    phantom map are part of the surroundings. *)
Record S3BucketIO : Type := {
  Bucket_Bucket : string;
  Bucket_KeyPrefix : Path;
  Bucket_MaxObjectSize : Z;
  ReaderLookbackBufferSize : Z;
  ReaderMinChunkSize : Z;
  ListerLookbackBufferSize : Z;
  s3io_UploadMemoryBufferPool : MemoryBufferPool;
  s3io_Perms : Perms;
  keyPrefix : Path
}.

(** [NewS3BucketIO]; [rootPath] is [SplitIntoPath(userInfo.RootPath)]. *)
Definition NewS3BucketIO (bucket : string) (bucketKeyPrefix : Path) (maxObjectSize : Z)
    (perms : Perms) (readerLookbackBufferSize readerMinChunkSize
                     listerLookbackBufferSize : Z)
    (uploadMemoryBufferPool : MemoryBufferPool) (rootPath : Path) : S3BucketIO :=
  {| Bucket_Bucket := bucket; Bucket_KeyPrefix := bucketKeyPrefix;
     Bucket_MaxObjectSize := maxObjectSize;
     ReaderLookbackBufferSize := readerLookbackBufferSize;
     ReaderMinChunkSize := readerMinChunkSize;
     ListerLookbackBufferSize := listerLookbackBufferSize;
     s3io_UploadMemoryBufferPool := uploadMemoryBufferPool;
     s3io_Perms := perms;
     keyPrefix := Path_Join bucketKeyPrefix rootPath |}.

(** [sftp.Request]: the method and the two paths.  [SplitIntoPath] is not
    part of the sources at hand: a request carries [Filepath] and [Target]
    as the segments [SplitIntoPath] makes of them. *)
Record Request : Type := {
  Method : string;
  Filepath : Path;
  Target : Path
}.

(** [s3io.buildKey(path)]. *)
Definition buildKey (s3io : S3BucketIO) (path : Path) : Path :=
  Path_Join (keyPrefix s3io) path.

(** The calls of [S3BucketIO] to the object store, in the order of
    issue. *)
Inductive IOCall : Type :=
| IOGetObject (key : string)
| IOCopyObject (copySource key : string)
| IODeleteObject (key : string)
| IOPutObject (key : string).

(** The collaborators of [S3BucketIO]: the session [s3io.Bucket.S3()]
    hands out, or its error, and the object store, whose answers may
    depend on the calls so far, the last of which is the call being
    answered. *)
Record IOEnv : Type := {
  Bucket_S3 : option error;
  io_GetObject : list IOCall -> error + Body;
  io_CopyObject : list IOCall -> option error;
  io_DeleteObject : list IOCall -> option error;
  io_PutObject : list IOCall -> option error
}.

(** [Fileread]. *)
Definition Fileread (IO : IOEnv) (s3io : S3BucketIO) (req : Request)
    (m : PhantomObjectMap) (calls : list IOCall)
    : (error + S3GetObjectOutputReader) * list IOCall :=
  if negb (Readable (s3io_Perms s3io))
  then (inl (ErrUpstream "read operation not allowed as per configuration"), calls)
  else
    match Bucket_S3 IO with
    | Some err => (inl err, calls)
    | None =>
        let key := buildKey s3io (Filepath req) in
        match PhantomObjectMap_Get key m with
        | Some _ => (inl (ErrUpstream "trying to download an uploading file"), calls)
        | None =>
            let keyStr := Path_String key in
            let calls1 := calls ++ [IOGetObject keyStr] in
            match io_GetObject IO calls1 with
            | inl err => (inl err, calls1)
            | inr goo =>
                (inr {| Goo_Body := Some goo;
                        Lookback := ReaderLookbackBufferSize s3io;
                        MinChunkSize := ReaderMinChunkSize s3io;
                        spooled := []; spoolOffset := 0; noMore := false |},
                 calls1)
            end
        end
    end.

(** [Filewrite] of [S3BucketIO] as a whole: the permission gate, the
    session, and the writer of [Filewrite] above for the key of the
    request. *)
Definition S3BucketIO_Filewrite (IO : IOEnv) (s3io : S3BucketIO) (req : Request)
    (now : time) (info : nat) (m : PhantomObjectMap) : error + World :=
  if negb (Writable (s3io_Perms s3io))
  then inl (ErrUpstream "write operation not allowed as per configuration")
  else
    match Bucket_S3 IO with
    | Some err => inl err
    | None =>
        Filewrite true (Bucket_MaxObjectSize s3io) (s3io_UploadMemoryBufferPool s3io)
                  (buildKey s3io (Filepath req)) now info m
    end.

Definition notWritable : error :=
  ErrUpstream "write operation not allowed as per configuration".

(** [Filecmd]: the error, the phantom map and the calls afterwards. *)
Definition Filecmd (IO : IOEnv) (s3io : S3BucketIO) (req : Request)
    (m : PhantomObjectMap) (calls : list IOCall)
    : option error * PhantomObjectMap * list IOCall :=
  if String.eqb (Method req) "Rename" then
    if negb (Writable (s3io_Perms s3io)) then (Some notWritable, m, calls)
    else
      let src := buildKey s3io (Filepath req) in
      let dest := buildKey s3io (Target req) in
      let '(renamed, m1) := PhantomObjectMap_Rename src dest m in
      if renamed then (None, m1, calls)
      else
        match Bucket_S3 IO with
        | Some err => (Some err, m1, calls)
        | None =>
            let srcStr := Path_String src in
            let destStr := Path_String dest in
            let copySource := (Bucket_Bucket s3io ++ "/" ++ srcStr)%string in
            let calls1 := calls ++ [IOCopyObject copySource destStr] in
            match io_CopyObject IO calls1 with
            | Some err => (Some err, m1, calls1)
            | None =>
                let calls2 := calls1 ++ [IODeleteObject srcStr] in
                match io_DeleteObject IO calls2 with
                | Some err => (Some err, m1, calls2)
                | None => (None, m1, calls2)
                end
            end
        end
  else if String.eqb (Method req) "Remove" then
    if negb (Writable (s3io_Perms s3io)) then (Some notWritable, m, calls)
    else
      let key := buildKey s3io (Filepath req) in
      let '(removed, m1) := PhantomObjectMap_Remove key m in
      match removed with
      | Some _ => (None, m1, calls)
      | None =>
          match Bucket_S3 IO with
          | Some err => (Some err, m1, calls)
          | None =>
              let keyStr := Path_String key in
              let calls1 := calls ++ [IODeleteObject keyStr] in
              match io_DeleteObject IO calls1 with
              | Some err => (Some err, m1, calls1)
              | None => (None, m1, calls1)
              end
          end
      end
  else if String.eqb (Method req) "Mkdir" then
    if negb (Writable (s3io_Perms s3io)) then (Some notWritable, m, calls)
    else
      let key := buildKey s3io (Filepath req) in
      let keyStr := (Path_String key ++ "/")%string in
      match Bucket_S3 IO with
      | Some err => (Some err, m, calls)
      | None =>
          let calls1 := calls ++ [IOPutObject keyStr] in
          match io_PutObject IO calls1 with
          | Some err => (Some err, m, calls1)
          | None => (None, m, calls1)
          end
      end
  else if String.eqb (Method req) "Rmdir" then
    if negb (Writable (s3io_Perms s3io)) then (Some notWritable, m, calls)
    else
      let key := buildKey s3io (Filepath req) in
      let keyStr := (Path_String key ++ "/")%string in
      match Bucket_S3 IO with
      | Some err => (Some err, m, calls)
      | None =>
          let calls1 := calls ++ [IODeleteObject keyStr] in
          match io_DeleteObject IO calls1 with
          | Some err => (Some err, m, calls1)
          | None => (None, m, calls1)
          end
      end
  else (None, m, calls).




(** An object store that holds the five bytes of [hello] under every key and
    accepts every call, behind a session that is available. *)
Definition helloIO : IOEnv :=
  {| Bucket_S3 := None;
     io_GetObject := fun _ => inr {| unread := bytes "hello"; broken := false |};
     io_CopyObject := fun _ => None;
     io_DeleteObject := fun _ => None;
     io_PutObject := fun _ => None |}.

(** An [S3BucketIO] with every permission, over the whole of a bucket, for a
    user whose root is [rootPath]; the upload buffers have [P] bytes. *)
Definition openIO (P : Z) (rootPath : Path) : S3BucketIO :=
  NewS3BucketIO "bucket" [] (-1)
                {| Readable := true; Writable := true; Listable := true |}
                2 1 2 {| BufSize := P |} rootPath.


(** An object store whose listing calls fail. *)
Definition failingS3 : S3Listing :=
  {| ListObjectsV2WithContext := fun _ _ => inl (ErrUpstream "SlowDown");
     GetObjectAclWithContext := fun _ => inl (ErrUpstream "SlowDown");
     HeadObjectWithContext := fun _ => inl (ErrUpstream "SlowDown") |}.

(** ** The buffers of the parts *)

(** The event "the buffer of part number [pn] goes back to the pool". *)
Definition isPutOf (pn : Z) (ev : Event) : bool :=
  match ev with
  | PoolPut k => k =? pn
  | _ => false
  end.

(** The states in which a part still has its buffer: it is being filled,
    or it is full and waits for its upload. *)
Definition hasBuffer (st : S3PartUploadState) : bool :=
  match st with
  | S3PartUploadStateAdding | S3PartUploadStateFull => true
  | _ => false
  end.

(** How often the buffer of the part in a slot is due back at the pool. *)
Definition dueOf (slot : option (option S3PartToUpload)) : nat :=
  match slot with
  | Some (Some part) => if hasBuffer (state part) then 0 else 1
  | _ => 0
  end.

Definition putsDue (ps : list (option S3PartToUpload)) (pn : Z) : nat :=
  if 1 <=? pn then dueOf (ps !! Z.to_nat (pn - 1)) else 0.

(** The books of the pool are in order: the part in slot [j] has the
    number [j + 1], and the buffer of each part number went back to the
    pool as often as it is due. *)
Definition InvB (w : World) : Prop :=
  len (parts (u w)) < two63 /\
  (forall j part, parts (u w) !! j = Some (Some part) ->
                  partNumber part = Z.of_nat j + 1) /\
  forall pn, calls (isPutOf pn) (history w) = putsDue (parts (u w)) pn.

(** ** Errors of the workers, and the aborts of a writer *)



(** The same, as an invariant: no abort while the upload is held, one
    abort once an upload that was opened is held no more. *)
Definition InvAb (E : Env) (w : World) : Prop :=
  (multiPartUploadID (u w) <> None -> calls isAbort (history w) = 0%nat) /\
  (multiPartUploadID (u w) = None ->
   (exists id, created E (history w) id) -> calls isAbort (history w) = 1%nat) /\
  (calls isAbort (history w) <= 1)%nat.

(* ===================================================================== *)
(** * Properties *)
(* ===================================================================== *)

(* ===================================================================== *)
(** * Properties *)
(* ===================================================================== *)

(** ** Integers, slices and copies *)

Lemma wrap64_id (z : Z) : in_int64 z -> wrap64 z = z.
Proof.
  unfold in_int64, wrap64, two63, two64. intros H.
  rewrite Z.mod_small; lia.
Qed.

Lemma wrap64_range (z : Z) : in_int64 (wrap64 z).
Proof.
  unfold in_int64, wrap64, two63, two64.
  pose proof (Z.mod_pos_bound (z + 2 ^ 63) (2 ^ 64)). lia.
Qed.

Ltac unwrap :=
  repeat (rewrite wrap64_id by (unfold in_int64, two63 in *; lia)).

Lemma len_nonneg {A : Type} (s : list A) : 0 <= len s.
Proof. unfold len. lia. Qed.

Lemma len_eqb_0 {A : Type} (s : list A) : s <> [] -> (len s =? 0) = false.
Proof.
  intros H. apply Z.eqb_neq. destruct s; [congruence |].
  unfold len. cbn [length]. lia.
Qed.

Lemma len_app {A : Type} (s t : list A) : len (s ++ t) = len s + len t.
Proof. unfold len. rewrite length_app. lia. Qed.

Lemma slice_ok {A : Type} (s : list A) (lo hi : Z) :
  0 <= lo <= hi -> hi <= len s ->
  slice s lo hi = Returns (firstn (Z.to_nat (hi - lo)) (skipn (Z.to_nat lo) s)).
Proof.
  intros H1 H2. unfold slice, len in *.
  replace (0 <=? lo) with true by lia.
  replace (lo <=? hi) with true by lia.
  replace (hi <=? Z.of_nat (length s)) with true by lia.
  reflexivity.
Qed.

Lemma slice_returns {A : Type} (s : list A) (lo hi : Z) (r : list A) :
  slice s lo hi = Returns r ->
  0 <= lo <= hi /\ hi <= len s /\ r = firstn (Z.to_nat (hi - lo)) (skipn (Z.to_nat lo) s).
Proof.
  unfold slice, len. intros H.
  destruct (0 <=? lo) eqn:H1; destruct (lo <=? hi) eqn:H2;
    destruct (hi <=? Z.of_nat (length s)) eqn:H3; simpl in H; try discriminate.
  inversion H. split; [lia | split; [lia | reflexivity]].
Qed.

Lemma slice_length {A : Type} (s : list A) (lo hi : Z) (r : list A) :
  slice s lo hi = Returns r -> len r = hi - lo.
Proof.
  intros H. apply slice_returns in H as (H1 & H2 & ->).
  unfold len in *. rewrite length_firstn, length_skipn. lia.
Qed.

Lemma copy_slice_length {A : Type} (dst src : list A) (lo hi : Z) :
  0 <= lo <= hi -> hi <= len dst ->
  length (copy_slice dst lo hi src) = length dst.
Proof.
  intros H1 H2. unfold copy_slice, len in *.
  rewrite !length_app, !length_firstn, length_skipn. lia.
Qed.

(** ** ACL to mode (C7) *)

Lemma permissionSwitch_lor (p : string) (r w full v : Z) :
  permissionSwitch p r w full v = Z.lor v (spec_permissionBits r w full p).
Proof.
  unfold permissionSwitch, spec_permissionBits.
  destruct (String.eqb p "READ"); [reflexivity |].
  destruct (String.eqb p "WRITE"); [reflexivity |].
  destruct (String.eqb p "FULL_CONTROL"); [reflexivity |].
  now rewrite Z.lor_0_r.
Qed.

Lemma aclToMode_body_contribution (oid : string) (v : FileMode) (g : aws_s3.Grant) :
  is_Some (aws_s3.Permission g) ->
  aclToMode_body (Some {| aws_s3.Owner_ID := Some oid |}) v (Some g)
  = Returns (Z.lor v (spec_grantContribution oid g)).
Proof.
  intros [p Hp]. unfold aclToMode_body, spec_grantContribution.
  cbn [deref obind aws_s3.Owner_ID]. rewrite Hp.
  destruct (aws_s3.Grantee_ g) as [grantee |]; [| now rewrite Z.lor_0_r].
  assert (Huri :
    match aws_s3.URI grantee with
    | Some uri =>
        if String.eqb uri AuthenticatedUsers
        then let* p0 := deref (Some p) in
             Returns (permissionSwitch p0 (oct [4;4;0]) (oct [2;2;0]) (oct [6;6;0]) v)
        else if String.eqb uri AllUsers
        then let* p0 := deref (Some p) in
             Returns (permissionSwitch p0 (oct [4;4;4]) (oct [2;2;2]) (oct [6;6;6]) v)
        else Returns v
    | None => Returns v
    end
    = Returns (Z.lor v
        (if bool_decide (aws_s3.URI grantee = Some AuthenticatedUsers)
         then spec_permissionBits (oct [4;4;0]) (oct [2;2;0]) (oct [6;6;0]) p
         else if bool_decide (aws_s3.URI grantee = Some AllUsers)
         then spec_permissionBits (oct [4;4;4]) (oct [2;2;2]) (oct [6;6;6]) p
         else 0))).
  { destruct (aws_s3.URI grantee) as [uri |].
    - destruct (String.eqb_spec uri AuthenticatedUsers) as [-> | Hn1].
      + case_bool_decide; [| congruence].
        cbn [deref obind]. now rewrite permissionSwitch_lor.
      + case_bool_decide; [congruence |].
        destruct (String.eqb_spec uri AllUsers) as [-> | Hn2].
        * case_bool_decide; [| congruence].
          cbn [deref obind]. now rewrite permissionSwitch_lor.
        * case_bool_decide; [congruence |]. now rewrite Z.lor_0_r.
    - repeat (case_bool_decide; [congruence |]). now rewrite Z.lor_0_r. }
  destruct (aws_s3.ID grantee) as [gid |]; cbn [obind deref].
  - destruct (String.eqb_spec gid oid) as [-> | Hne].
    + rewrite (bool_decide_eq_true_2 (Some oid = Some oid)) by reflexivity.
      now rewrite permissionSwitch_lor.
    + rewrite (bool_decide_eq_false_2 (Some gid = Some oid)) by congruence.
      exact Huri.
  - rewrite (bool_decide_eq_false_2 (None = Some oid)) by congruence.
    exact Huri.
Qed.

Lemma aclToMode_loop_spec (oid : string) (grants : list aws_s3.Grant) :
  Forall (fun g => is_Some (aws_s3.Permission g)) grants ->
  forall v,
    aclToMode_loop (Some {| aws_s3.Owner_ID := Some oid |}) v (map Some grants)
    = Returns (Z.lor v (spec_mode oid grants)).
Proof.
  induction 1 as [| g gs Hg _ IH]; intros v.
  - simpl. now rewrite Z.lor_0_r.
  - cbn [map aclToMode_loop]. rewrite aclToMode_body_contribution by exact Hg.
    cbn [obind]. rewrite IH. unfold spec_mode. cbn [map fold_right].
    now rewrite Z.lor_assoc.
Qed.

(** C7.  For every owner and every list of grants (each carrying a
    permission), the mode computed by [aclToMode] is the bitwise OR of the
    per-grant contributions of the specification: owner bits 0400, 0200,
    0600 for a grant to the owner, 0440, 0220, 0660 for the
    AuthenticatedUsers group, 0444, 0222, 0666 for the AllUsers group, and
    nothing for any other grant. *)
Theorem aclToMode_or_of_contributions (oid : string) (grants : list aws_s3.Grant) :
  Forall (fun g => is_Some (aws_s3.Permission g)) grants ->
  aclToMode (Some {| aws_s3.Owner_ID := Some oid |}) (map Some grants)
  = Returns (spec_mode oid grants).
Proof.
  intros H. unfold aclToMode. rewrite aclToMode_loop_spec by exact H.
  now rewrite Z.lor_0_l.
Qed.

(** The grants form a set: their order does not matter. *)
Lemma spec_mode_permutation (oid : string) (gs gs' : list aws_s3.Grant) :
  Permutation gs gs' -> spec_mode oid gs = spec_mode oid gs'.
Proof.
  unfold spec_mode. induction 1; cbn [map fold_right].
  - reflexivity.
  - now rewrite IHPermutation.
  - rewrite !Z.lor_assoc. f_equal. apply Z.lor_comm.
  - congruence.
Qed.

Lemma aclToMode_or_of_contributions_witness :
  Forall (fun g => is_Some (aws_s3.Permission g)) scenario_f_grants /\
  aclToMode (Some {| aws_s3.Owner_ID := Some "owner-1" |}) (map Some scenario_f_grants)
  = Returns (oct [6;4;4]).
Proof.
  assert (H : Forall (fun g => is_Some (aws_s3.Permission g)) scenario_f_grants).
  { repeat constructor; eexists; reflexivity. }
  split; [exact H |].
  rewrite (aclToMode_or_of_contributions "owner-1" scenario_f_grants H).
  reflexivity.
Defined.

(** ** The stat resolver (C6) *)



(** ** The directory lister (C5) *)

(** C5, as stated, fails on a continuation page: with a continuation token
    pending, the common prefix [photos/2020/] of the page is not spooled;
    only the object of the page is. *)
Lemma lister_continuation_page_drops_common_prefixes :
  exists r sol',
    S3ObjectLister_ListAt pagedS3 noPhantoms listerAfterFirstPage [None; None] 3
    = Returns (r, sol') /\
    sol_spooled sol'
    = sol_spooled listerAfterFirstPage ++ map contentsEntry (Contents secondPage) /\
    ~ In (commonPrefixEntry "photos/2020/") (sol_spooled sol').
Proof.
  eexists. eexists. split; [vm_compute; reflexivity |].
  split; [reflexivity |].
  cbn. intros H. repeat (destruct H as [H | H]; [discriminate H |]). exact H.
Qed.

Lemma keptEntries_length (lookback : Z) (sp : list ObjectFileInfo) :
  0 <= lookback ->
  len (keptEntries lookback sp) = Z.min lookback (len sp).
Proof.
  intros H. unfold keptEntries.
  destruct (len sp >=? lookback) eqn:Hc.
  - unfold len in *. rewrite length_skipn. lia.
  - lia.
Qed.

Lemma commonPrefixEntry_mode (cps : list string) :
  Forall (fun fi => _Mode fi = Z.lor (oct [7;5;5]) ModeDir) (map commonPrefixEntry cps).
Proof. induction cps; cbn [map]; constructor; (reflexivity || assumption). Qed.

Lemma contentsEntry_mode (objs : list Object) :
  Forall (fun fi => _Mode fi = oct [6;4;4]) (map contentsEntry objs).
Proof. induction objs; cbn [map]; constructor; (reflexivity || assumption). Qed.

(** C5, amended.  A [ListAt] that has to go to the object store (the cursor
    is in the spool or at its end, the caller has room left, the listing is
    not over) and gets the page [out] returns, and the spool is then what
    compaction kept of it followed by the entries of the page: on the
    initial page the dot entries, the phantoms, a directory entry of mode
    0755|DIR for each common prefix and a regular entry of mode 0644 for
    each object, in the order of the page; on a continuation page the
    regular entries of the objects only. *)
Theorem lister_page_spooled (S3 : S3Listing) (phantoms : PhantomObjectMap)
    (sol : S3ObjectLister) (result : list (option ObjectFileInfo)) (o : Z)
    (out : ListObjectsV2Output) :
  sol_noMore sol = false ->
  0 <= sol_Lookback sol < two63 ->
  0 <= sol_spoolOffset sol ->
  sol_spoolOffset sol + len (sol_spooled sol) < two63 ->
  sol_spoolOffset sol <= o <= sol_spoolOffset sol + len (sol_spooled sol) ->
  len (sol_spooled sol) - (o - sol_spoolOffset sol) < len result ->
  ListObjectsV2WithContext S3 (listingPrefix (Prefix sol)) (continuation sol) = inr out ->
  exists r sol',
    S3ObjectLister_ListAt S3 phantoms sol result o = Returns (r, sol') /\
    sol_spooled sol'
    = keptEntries (sol_Lookback sol) (sol_spooled sol) ++ pageEntries phantoms sol out /\
    continuation sol' = NextContinuationToken out /\
    Forall (fun fi => _Mode fi = Z.lor (oct [7;5;5]) ModeDir)
           (map commonPrefixEntry (CommonPrefixes out)) /\
    Forall (fun fi => _Mode fi = oct [6;4;4]) (map contentsEntry (Contents out)).
Proof.
  intros HnoMore HL Hoff Hmax Ho Hroom Hlist.
  set (sp := sol_spooled sol) in *. set (so := sol_spoolOffset sol) in *.
  set (L := sol_Lookback sol) in *.
  pose proof (len_nonneg sp) as Hsp. pose proof (len_nonneg result) as Hres.
  unfold S3ObjectLister_ListAt.
  assert (Hcast : castInt64ToInt o = (o, None)).
  { unfold castInt64ToInt.
    replace (- two63 <=? o) with true by (unfold two63 in *; lia).
    replace (o <? two63) with true by (unfold two63 in *; lia). reflexivity. }
  rewrite Hcast. cbv iota beta.
  fold sp so L.
  replace (o <? so) with false by lia.
  rewrite (wrap64_id (o - so)) by (unfold in_int64, two63 in *; lia).
  (* the copy out of the spool *)
  set (n0 := if len result >? len sp - (o - so) then len sp - (o - so) else len result).
  assert (Hn0 : n0 = len sp - (o - so)) by (subst n0; destruct (len result >? _) eqn:?; lia).
  set (copied := copy_slice result 0 (0 + n0)
                   (map Some (firstn (Z.to_nat (o - so + n0 - (o - so)))
                                     (skipn (Z.to_nat (o - so)) sp)))).
  assert (Hfirst :
    (if o - so <? len sp
     then let* _ := slice result 0 (0 + n0) in
          let* src := slice sp (o - so) (o - so + n0) in
          Returns (copy_slice result 0 (0 + n0) (map Some src), 0 + n0, len sp)
     else Returns (result, 0, o - so))
    = Returns (if o - so <? len sp then copied else result,
               len sp - (o - so), len sp)).
  { destruct (o - so <? len sp) eqn:Hs.
    - rewrite slice_ok by lia. cbn [obind].
      rewrite slice_ok by lia. cbn [obind]. subst copied.
      repeat f_equal; lia.
    - repeat f_equal; lia. }
  rewrite Hfirst. cbn [obind]. cbv iota beta.
  set (result1 := if o - so <? len sp then copied else result).
  assert (Hlen1 : len result1 = len result).
  { subst result1 copied. destruct (o - so <? len sp); [| reflexivity].
    unfold len. rewrite copy_slice_length; [reflexivity | lia | lia]. }
  set (i := len sp - (o - so)) in *.
  assert (Hi : 0 <= i < len result) by (subst i; lia).
  rewrite Hlen1.
  replace (i >=? len result) with false by lia.
  rewrite HnoMore.
  (* compaction *)
  assert (Hcompact :
    (if (len sp <=? len sp) && (len sp >=? L)
     then let* kept := slice sp (wrap64 (len sp - L)) (len sp) in
          Returns (kept, wrap64 (so + wrap64 (len sp - L)), L)
     else Returns (sp, so, len sp))
    = Returns (keptEntries L sp,
               if len sp >=? L then so + (len sp - L) else so,
               len (keptEntries L sp))).
  { rewrite Z.leb_refl. cbn [andb].
    pose proof (keptEntries_length L sp ltac:(lia)) as Hk.
    unfold keptEntries in *. destruct (len sp >=? L) eqn:Hc.
    - rewrite (wrap64_id (len sp - L)) by (unfold in_int64, two63 in *; lia).
      rewrite slice_ok by lia. cbn [obind].
      rewrite wrap64_id by (unfold in_int64, two63 in *; lia).
      rewrite firstn_all2.
      + repeat f_equal. lia.
      + rewrite length_skipn. unfold len. lia.
    - reflexivity. }
  rewrite Hcompact. cbn [obind]. cbv iota beta.
  set (kept := keptEntries L sp).
  rewrite Hlist.
  set (spooled2 := match continuation sol with
                   | Some _ => kept
                   | None => _
                   end).
  set (spooled3 := match continuation sol with
                   | Some _ => spooled2
                   | None => _
                   end).
  set (spooled4 := spooled3 ++ map contentsEntry (Contents out)).
  assert (Hsp4 : spooled4 = kept ++ pageEntries phantoms sol out).
  { subst spooled4 spooled3 spooled2. unfold pageEntries.
    destruct (continuation sol); [reflexivity |].
    now rewrite <- !app_assoc. }
  set (page := pageEntries phantoms sol out) in *.
  assert (Hlen4 : len spooled4 = len kept + len page) by (rewrite Hsp4; apply len_app).
  pose proof (len_nonneg page) as Hpage.
  set (noMore' := match NextContinuationToken out with
                  | Some _ => sol_noMore sol
                  | None => true
                  end).
  assert (Hmodes :
    Forall (fun fi => _Mode fi = Z.lor (oct [7;5;5]) ModeDir)
           (map commonPrefixEntry (CommonPrefixes out)) /\
    Forall (fun fi => _Mode fi = oct [6;4;4]) (map contentsEntry (Contents out))).
  { split; [apply commonPrefixEntry_mode | apply contentsEntry_mode]. }
  destruct (len spooled4 - len kept >? len result - i) eqn:Hmore; cbv iota beta.
  - assert (H1 : 0 <= i <= i + (len result - i)) by lia.
    assert (H2 : i + (len result - i) <= len result1) by lia.
    assert (H3 : 0 <= len kept <= len kept + (len result - i))
      by (pose proof (len_nonneg kept); lia).
    assert (H4 : len kept + (len result - i) <= len spooled4) by lia.
    rewrite (slice_ok result1 _ _ H1 H2). cbn [obind].
    rewrite (slice_ok spooled4 _ _ H3 H4). cbn [obind].
    eexists. eexists. split; [reflexivity |].
    cbn [sol_spooled continuation listerWith].
    split; [exact Hsp4 |]. split; [reflexivity | exact Hmodes].
  - assert (H1 : 0 <= i <= i + (len spooled4 - len kept)) by lia.
    assert (H2 : i + (len spooled4 - len kept) <= len result1) by lia.
    assert (H3 : 0 <= len kept <= len kept + (len spooled4 - len kept))
      by (pose proof (len_nonneg kept); lia).
    assert (H4 : len kept + (len spooled4 - len kept) <= len spooled4) by lia.
    rewrite (slice_ok result1 _ _ H1 H2). cbn [obind].
    rewrite (slice_ok spooled4 _ _ H3 H4). cbn [obind].
    eexists. eexists. split; [reflexivity |].
    cbn [sol_spooled continuation listerWith].
    split; [exact Hsp4 |]. split; [reflexivity | exact Hmodes].
Qed.

(** ** Frame properties of the writer's steps *)

Lemma extends_refl (w : World) : extends w w.
Proof. repeat split. exists []. split; [now rewrite app_nil_r | constructor]. Qed.

Lemma extends_trans (w1 w2 w3 : World) : extends w1 w2 -> extends w2 w3 -> extends w1 w3.
Proof.
  intros ((e1 & H1 & F1) & H2 & H3 & H4 & H5) ((e2 & G1 & F2) & G2 & G3 & G4 & G5).
  repeat split; try congruence.
  exists (e1 ++ e2). split; [rewrite G1, H1; now rewrite app_assoc |].
  now apply Forall_app.
Qed.

Lemma extends_log (ev : Event) (w : World) :
  isAbort ev = false -> extends w (log ev w).
Proof. intros H. repeat split. exists [ev]. split; [reflexivity | now repeat constructor]. Qed.

Lemma extends_setParts ps (w : World) : extends w (setParts ps w).
Proof.
  repeat split. exists []. split; [cbn; now rewrite app_nil_r | constructor].
Qed.

Lemma extends_setPart i p (w : World) : extends w (setPart i p w).
Proof.
  repeat split. exists []. split; [cbn; now rewrite app_nil_r | constructor].
Qed.

Lemma extends_setUploadID id (w : World) : extends w (setUploadID id w).
Proof.
  repeat split. exists []. split; [cbn; now rewrite app_nil_r | constructor].
Qed.

Lemma extends_setErr e (w : World) : extends w (setErr e w).
Proof.
  repeat split. exists []. split; [cbn; now rewrite app_nil_r | constructor].
Qed.

Lemma extends_setUploadGroup n (w : World) : extends w (setUploadGroup n w).
Proof.
  repeat split. exists []. split; [cbn; now rewrite app_nil_r | constructor].
Qed.

Lemma extends_setCompletedParts cs (w : World) : extends w (setCompletedParts cs w).
Proof.
  repeat split. exists []. split; [cbn; now rewrite app_nil_r | constructor].
Qed.

Lemma extends_setUploadChan q (w : World) : extends w (setUploadChan q w).
Proof.
  repeat split. exists []. split; [cbn; now rewrite app_nil_r | constructor].
Qed.

Ltac frame_step :=
  match goal with
  | |- extends ?w ?w => apply extends_refl
  | |- extends _ (log _ _) => eapply extends_trans; [| apply extends_log; reflexivity]
  | |- extends _ (setParts _ _) => eapply extends_trans; [| apply extends_setParts]
  | |- extends _ (setPart _ _ _) => eapply extends_trans; [| apply extends_setPart]
  | |- extends _ (setUploadID _ _) => eapply extends_trans; [| apply extends_setUploadID]
  | |- extends _ (setErr _ _) => eapply extends_trans; [| apply extends_setErr]
  | |- extends _ (seterr _ _) => eapply extends_trans; [| apply extends_setErr]
  | |- extends _ (setUploadGroup _ _) =>
      eapply extends_trans; [| apply extends_setUploadGroup]
  | |- extends _ (setCompletedParts _ _) =>
      eapply extends_trans; [| apply extends_setCompletedParts]
  | |- extends _ (setUploadChan _ _) =>
      eapply extends_trans; [| apply extends_setUploadChan]
  end.

Ltac frame_chain := repeat frame_step.

Lemma extends_s3Create (E : Env) (w : World) : extends w (s3CreateMultipartUpload E w).2.
Proof.
  unfold s3CreateMultipartUpload.
  destruct (CreateMultipartUploadWithContext E _); cbn [snd]; frame_chain.
Qed.

Lemma extends_s3PutObject (E : Env) body (w : World) : extends w (s3PutObject E body w).2.
Proof. unfold s3PutObject. cbn [snd]. frame_chain. Qed.

(** Inversion of a bind that returns. *)
Lemma obind_returns {A B : Type} (m : outcome A) (k : A -> outcome B) (b : B) :
  obind m k = Returns b -> exists a, m = Returns a /\ k a = Returns b.
Proof. destruct m; cbn; intros H; try discriminate. eauto. Qed.

Ltac inv_bind H :=
  let a := fresh "a" in
  let Ha := fresh "Hm" in
  apply obind_returns in H as (a & Ha & H).

Tactic Notation "bind_inv" hyp(H) "as" ident(x) ident(Hx) :=
  apply obind_returns in H as (x & Hx & H).

Lemma extends_s3Complete (E : Env) (w : World) r :
  s3CompleteMultipartUpload E w = Returns r -> extends w r.2.
Proof.
  unfold s3CompleteMultipartUpload. intros H. inv_bind H.
  inversion H; subst. cbn [snd]. frame_chain.
Qed.

Lemma extends_enqueueUpload (E : Env) (i : nat) (w : World) r :
  enqueueUpload E i w = Returns r -> extends w r.2.
Proof.
  unfold enqueueUpload. intros H. inv_bind H. inv_bind H.
  destruct (stateValue (state a0) <? _).
  2: { inversion H; subst. apply extends_refl. }
  assert (Hc : extends w
    (match multiPartUploadID (u w) with
     | Some _ => (None, w)
     | None => s3CreateMultipartUpload E w
     end).2).
  { destruct (multiPartUploadID (u w)); [apply extends_refl | apply extends_s3Create]. }
  destruct (match multiPartUploadID (u w) with
            | Some _ => (None, w)
            | None => s3CreateMultipartUpload E w
            end) as [e w1]. cbn [snd] in Hc.
  destruct e.
  - inversion H; subst. exact Hc.
  - inv_bind H.
    destruct (Ctx_Done E _); inversion H; subst; cbn [snd];
      (eapply extends_trans; [exact Hc |]); frame_chain.
Qed.

Lemma extends_s3UploadPart (E : Env) (i : nat) part (w : World) r :
  s3UploadPart E i part w = Returns r -> extends w r.2.
Proof.
  unfold s3UploadPart. intros H. inv_bind H. inv_bind H.
  destruct a0 as [body [e |]].
  - inversion H; subst. apply extends_refl.
  - destruct (UploadPartWithContext E _).
    + inversion H; subst. cbn [snd]. frame_chain.
    + inv_bind H. inversion H; subst. cbn [snd]. frame_chain.
Qed.

Lemma extends_uploadGroup_Done (w w' : World) :
  uploadGroup_Done w = Returns w' -> extends w w'.
Proof.
  unfold uploadGroup_Done. destruct (_ <? 0); intros H; inversion H; subst.
  frame_chain.
Qed.

Lemma extends_uploadPart (E : Env) (i : nat) (w w' : World) :
  uploadPart E i w = Returns w' -> extends w w'.
Proof.
  unfold uploadPart. intros H. inv_bind H. inv_bind H.
  destruct (state a0);
    try (inv_bind H; apply extends_uploadGroup_Done in H; exact H).
  inv_bind H. destruct a1 as [e w1].
  apply extends_s3UploadPart in Hm1. cbn [snd] in Hm1.
  destruct e; apply extends_uploadGroup_Done in H;
    (eapply extends_trans; [exact Hm1 |]);
    (eapply extends_trans; [| exact H]); frame_chain.
Qed.

Lemma extends_drain (E : Env) (q : list nat) :
  forall w w', drain E q w = Returns w' -> extends w w'.
Proof.
  induction q as [| i q IH]; intros w w' H; cbn [drain] in H.
  - inversion H; subst. apply extends_refl.
  - inv_bind H. apply extends_uploadPart in Hm.
    eapply extends_trans; [exact Hm | eapply IH; exact H].
Qed.

Lemma extends_Wait (E : Env) (w w' : World) :
  uploadGroup_Wait E w = Returns w' -> extends w w'.
Proof.
  unfold uploadGroup_Wait. intros H. inv_bind H.
  destruct (_ =? 0); inversion H; subst.
  apply extends_drain in Hm. eapply extends_trans; [| exact Hm]. frame_chain.
Qed.

(** ** What the failure exits do *)

Lemma sameButParts_refl (w : World) : sameButParts w w.
Proof. repeat split. Qed.

Lemma sameButParts_trans (w1 w2 w3 : World) :
  sameButParts w1 w2 -> sameButParts w2 w3 -> sameButParts w1 w3.
Proof. unfold sameButParts. intuition congruence. Qed.

Lemma cancelPart_idem (slot : option S3PartToUpload) :
  cancelPart (cancelPart slot) = cancelPart slot.
Proof. destruct slot as [p |]; [| reflexivity]. cbn. destruct (state p) eqn:H; cbn; try rewrite H; reflexivity. Qed.

(** [closePartsInStateAdding], slot by slot: the parts in state [Adding]
    below [n] are cancelled and their buffers go back to the pool; nothing
    else changes, and the count is positive exactly when there was such a
    part. *)
Lemma closeParts_loop_spec (n : nat) :
  forall w,
    let r := closeParts_loop n w in
    (forall j, parts (u r.2) !! j
               = if (j <? n)%nat then cancelPart <$> parts (u w) !! j
                 else parts (u w) !! j) /\
    sameButParts w r.2 /\
    (exists evs,
        history r.2 = history w ++ evs /\
        Forall (fun ev => exists pn, ev = PoolPut pn) evs /\
        forall j part, (j < n)%nat -> parts (u w) !! j = Some (Some part) ->
                       state part = S3PartUploadStateAdding ->
                       In (PoolPut (partNumber part)) evs) /\
    0 <= r.1 /\
    (0 < r.1 <-> exists j, (j < n)%nat /\ isAdding w j).
Proof.
  induction n as [| i IH]; intros w; cbn zeta.
  - cbn [closeParts_loop fst snd]. split; [reflexivity |].
    split; [apply sameButParts_refl |]. split.
    + exists []. split; [now rewrite app_nil_r |]. split; [constructor |].
      intros; lia.
    + split; [lia |]. split; [lia |]. intros (j & Hj & _). lia.
  - cbn [closeParts_loop].
    assert (Hskip :
      (forall part, parts (u w) !! i = Some (Some part) ->
                    state part <> S3PartUploadStateAdding) ->
      let r := closeParts_loop i w in
      (forall j, parts (u r.2) !! j
                 = if (j <? S i)%nat then cancelPart <$> parts (u w) !! j
                   else parts (u w) !! j) /\
      sameButParts w r.2 /\
      (exists evs,
          history r.2 = history w ++ evs /\
          Forall (fun ev => exists pn, ev = PoolPut pn) evs /\
          forall j part, (j < S i)%nat -> parts (u w) !! j = Some (Some part) ->
                         state part = S3PartUploadStateAdding ->
                         In (PoolPut (partNumber part)) evs) /\
      0 <= r.1 /\
      (0 < r.1 <-> exists j, (j < S i)%nat /\ isAdding w j)).
    { intros Hna. cbn zeta.
      destruct (IH w) as (Hp & Hs & (evs & Hh & Hf & Hin) & H0 & Hpos).
      split; [| split; [exact Hs | split; [| split; [exact H0 |]]]].
      - intros j. rewrite Hp.
        destruct (Nat.ltb_spec j i), (Nat.ltb_spec j (S i)); try lia; try reflexivity.
        assert (j = i) by lia. subst j.
        destruct (parts (u w) !! i) as [[p |] |] eqn:Hi; try reflexivity.
        cbn. specialize (Hna p eq_refl). destruct (state p); congruence.
      - exists evs. split; [exact Hh |]. split; [exact Hf |].
        intros j part Hj Hl Hst.
        destruct (Nat.eq_dec j i) as [-> | Hne].
        + exfalso. eapply Hna; eassumption.
        + apply (Hin j part); [lia | assumption | assumption].
      - rewrite Hpos. split; intros (j & Hj & Hadd).
        + exists j. split; [lia | exact Hadd].
        + exists j. split; [| exact Hadd].
          destruct (Nat.eq_dec j i) as [-> | Hne]; [| lia].
          destruct Hadd as (p & Hl & Hst). exfalso. eapply Hna; eassumption. }
    destruct (parts (u w) !! i) as [[part |] |] eqn:Hi;
      try (apply Hskip; intros; congruence).
    destruct (state part) eqn:Hst;
      try (apply Hskip; intros ? Heq; inversion Heq; subst; congruence).
    clear Hskip.
    set (w2 := setPart i (setState S3PartUploadCancelled part)
                       (log (PoolPut (partNumber part)) w)).
    destruct (IH w2) as (Hp & Hs & (evs & Hh & Hf & Hin) & H0 & Hpos).
    destruct (closeParts_loop i w2) as [pending w3]. cbn [fst snd] in *.
    assert (Hlt : (i < length (parts (u w)))%nat) by (eapply lookup_lt_Some; eassumption).
    split; [| split; [| split; [| split]]].
    + intros j. rewrite Hp. subst w2. cbn [setPart setParts setWriter u parts log].
      destruct (Nat.ltb_spec j i), (Nat.ltb_spec j (S i)); try lia.
      * rewrite list_lookup_insert_ne by lia. reflexivity.
      * assert (j = i) by lia. subst j.
        rewrite list_lookup_insert_eq by exact Hlt. rewrite Hi. cbn. now rewrite Hst.
      * rewrite list_lookup_insert_ne by lia. reflexivity.
    + eapply sameButParts_trans; [| exact Hs]. subst w2. repeat split.
    + exists (PoolPut (partNumber part) :: evs). split.
      * rewrite Hh. subst w2. cbn [setPart setParts setWriter history log].
        now rewrite <- app_assoc.
      * split; [constructor; [eauto | exact Hf] |].
        intros j p Hj Hl Hs'.
        destruct (Nat.eq_dec j i) as [-> | Hne].
        -- rewrite Hi in Hl. inversion Hl; subst. now left.
        -- right. apply (Hin j p); [lia | | exact Hs'].
           subst w2. cbn [setPart setParts setWriter u parts log].
           rewrite list_lookup_insert_ne by lia. exact Hl.
    + lia.
    + split; [| lia]. intros _. exists i. split; [lia |].
      exists part. split; assumption.
Qed.

Lemma closeParts_spec (w : World) :
  let r := closePartsInStateAdding w in
  (forall j, parts (u r.2) !! j = cancelPart <$> parts (u w) !! j) /\
  sameButParts w r.2 /\
  (exists evs,
      history r.2 = history w ++ evs /\
      Forall (fun ev => exists pn, ev = PoolPut pn) evs /\
      forall j part, parts (u w) !! j = Some (Some part) ->
                     state part = S3PartUploadStateAdding ->
                     In (PoolPut (partNumber part)) evs) /\
  0 <= r.1 /\
  (0 < r.1 <-> exists j, isAdding w j).
Proof.
  cbn zeta. unfold closePartsInStateAdding.
  destruct (closeParts_loop_spec (length (parts (u w))) w)
    as (Hp & Hs & (evs & Hh & Hf & Hin) & H0 & Hpos).
  split; [| split; [exact Hs | split; [| split; [exact H0 |]]]].
  - intros j. rewrite Hp. destruct (Nat.ltb_spec j (length (parts (u w)))); [reflexivity |].
    rewrite lookup_ge_None_2 by lia. reflexivity.
  - exists evs. split; [exact Hh |]. split; [exact Hf |].
    intros j part Hl Hst. apply (Hin j part); [| exact Hl | exact Hst].
    eapply lookup_lt_Some; eassumption.
  - rewrite Hpos. split.
    + intros (j & _ & H). eauto.
    + intros (j & p & Hl & Hst). exists j. split; [| exists p; auto].
      eapply lookup_lt_Some; eassumption.
Qed.

Lemma poolPuts_noAbort (evs : list Event) :
  Forall (fun ev => exists pn, ev = PoolPut pn) evs ->
  Forall (fun ev => isAbort ev = false) evs.
Proof. intros H. eapply Forall_impl; [exact H |]. intros ev [pn ->]. reflexivity. Qed.

Lemma extends_closeParts (w : World) : extends w (closePartsInStateAdding w).2.
Proof.
  destruct (closeParts_spec w) as (_ & Hs & (evs & Hh & Hf & _) & _).
  destruct Hs as (_ & _ & _ & _ & _ & H6 & H7 & H8 & H9).
  repeat split; try assumption.
  exists evs. split; [exact Hh | now apply poolPuts_noAbort].
Qed.

Lemma calls_app (kind : Event -> bool) (h1 h2 : list Event) :
  calls kind (h1 ++ h2) = (calls kind h1 + calls kind h2)%nat.
Proof. unfold calls. now rewrite List.filter_app, length_app. Qed.

Lemma calls_none (kind : Event -> bool) (evs : list Event) :
  Forall (fun ev => kind ev = false) evs -> calls kind evs = 0%nat.
Proof.
  unfold calls. induction 1 as [| ev evs H _ IH]; [reflexivity |].
  cbn [List.filter]. now rewrite H.
Qed.

Lemma extends_calls_isAbort (w w' : World) :
  extends w w' -> calls isAbort (history w') = calls isAbort (history w).
Proof.
  intros ((evs & -> & Hf) & _). rewrite calls_app, (calls_none _ _ Hf). lia.
Qed.

(** The exit [abortAndCancel]: an upload that is open is aborted, with one
    call; then the parts in state [Adding] are cancelled. *)
Lemma abortAndCancel_spec (E : Env) (w : World) :
  let w' := abortAndCancel E w in
  (forall j, parts (u w') !! j = cancelPart <$> parts (u w) !! j) /\
  multiPartUploadID (u w') = None /\
  u_err (u w') = u_err (u w) /\
  uploadGroup (u w') = uploadGroup (u w) /\
  uploadChan w' = uploadChan w /\
  phantoms w' = phantoms w /\
  UploadMemoryBufferPool (u w') = UploadMemoryBufferPool (u w) /\
  (exists puts,
      history w'
      = history w
          ++ match multiPartUploadID (u w) with
             | Some id => [CallAbortMultipartUpload (keyOf w) id]
             | None => []
             end
          ++ puts /\
      Forall (fun ev => exists pn, ev = PoolPut pn) puts /\
      forall j part, parts (u w) !! j = Some (Some part) ->
                     state part = S3PartUploadStateAdding ->
                     In (PoolPut (partNumber part)) puts).
Proof.
  cbn zeta. unfold abortAndCancel.
  set (w1 := (s3AbortMultipartUpload E w).2).
  assert (H1 : parts (u w1) = parts (u w) /\ multiPartUploadID (u w1) = None /\
               u_err (u w1) = u_err (u w) /\ uploadGroup (u w1) = uploadGroup (u w) /\
               uploadChan w1 = uploadChan w /\ phantoms w1 = phantoms w /\
               UploadMemoryBufferPool (u w1) = UploadMemoryBufferPool (u w) /\
               history w1 = history w
                 ++ match multiPartUploadID (u w) with
                    | Some id => [CallAbortMultipartUpload (keyOf w) id]
                    | None => []
                    end).
  { subst w1. unfold s3AbortMultipartUpload.
    destruct (multiPartUploadID (u w)) eqn:Hid; cbn [snd].
    - repeat split.
    - repeat split; [exact Hid | now rewrite app_nil_r]. }
  destruct H1 as (Hp1 & Hid1 & He1 & Hg1 & Hc1 & Hph1 & Hpool1 & Hh1).
  destruct (closeParts_spec w1) as (Hp & Hs & (evs & Hh & Hf & Hin) & _).
  destruct Hs as (S1 & S2 & S3 & S4 & S5 & S6 & S7 & S8 & S9).
  split; [intros j; rewrite Hp, Hp1; reflexivity |].
  do 6 (split; [congruence |]).
  exists evs. split; [rewrite Hh, Hh1; now rewrite <- app_assoc |].
  split; [exact Hf |]. intros j part Hl Hst. apply (Hin j part); [| exact Hst].
  rewrite Hp1. exact Hl.
Qed.

(** ** Close removes the phantom entry first (C9) *)

Lemma freshWorld_Filewrite (P : Z) :
  Filewrite true (-1) {| BufSize := P |} ["a"; "b"] (TimeUnix 5) 7 noPhantoms
  = inr (freshWorld P).
Proof. reflexivity. Qed.

Lemma RemoveByInfoPtr_Get (info : nat) (m : PhantomObjectMap) (key : Path) :
  PhantomObjectMap_Get key (PhantomObjectMap_RemoveByInfoPtr info m) <> Some info.
Proof.
  unfold PhantomObjectMap_Get, PhantomObjectMap_RemoveByInfoPtr. cbn [ph_objects].
  intros H. apply map_lookup_filter_Some in H as [_ H]. cbn in H. congruence.
Qed.

Lemma RemoveByInfoPtr_List (info : nat) (m : PhantomObjectMap) (prefix : Path) :
  ~ In info (PhantomObjectMap_List prefix (PhantomObjectMap_RemoveByInfoPtr info m)).
Proof.
  unfold PhantomObjectMap_List, PhantomObjectMap_RemoveByInfoPtr. cbn [ph_objects].
  intros H. apply filter_In in H as [H _].
  apply in_map_iff in H as ([k a] & Ha & H). cbn in Ha. subst a.
  apply list_elem_of_In, elem_of_map_to_list in H.
  apply map_lookup_filter_Some in H as [_ H]. cbn in H. congruence.
Qed.

Lemma extends_Close_putObject (E : Env) (w : World) r :
  Close_putObject E w = Returns r -> extends w r.2.
Proof.
  unfold Close_putObject. intros H.
  bind_inv H as slot Hs. bind_inv H as part Hp. bind_inv H as c Hc.
  destruct c as [body [e2 |]].
  - inversion H; subst. cbn [snd]. frame_chain.
  - destruct (s3PutObject E body w) as [e3 w2] eqn:Hput.
    pose proof (extends_s3PutObject E body w) as Hx. rewrite Hput in Hx. cbn [snd] in Hx.
    destruct e3; inversion H; subst; cbn [snd]; (eapply extends_trans; [exact Hx |]);
      frame_chain.
Qed.

Lemma extends_Close_drain (E : Env) (e : option error) (w : World) r :
  Close_drain E e w = Returns r -> extends w r.2.
Proof.
  unfold Close_drain. intros H. bind_inv H as w2 Hw.
  apply extends_Wait in Hw. destruct e.
  { inversion H; subst. exact Hw. }
  pose proof (extends_closeParts w2) as Hcp.
  destruct (closePartsInStateAdding w2) as [pending w3]. cbn [snd] in Hcp.
  assert (H3 : extends w w3) by (eapply extends_trans; eassumption).
  destruct (pending >? 0).
  { inversion H; subst. exact H3. }
  destruct (u_err (u w3)).
  { inversion H; subst. exact H3. }
  apply extends_s3Complete in H. eapply extends_trans; eassumption.
Qed.

Lemma extends_Close_multipart (E : Env) (w : World) r :
  Close_multipart E w = Returns r -> extends w r.2.
Proof.
  unfold Close_multipart. intros H. bind_inv H as slot Hs. bind_inv H as q Hq.
  destruct q as [e1 w1]. apply extends_enqueueUpload in Hq. cbn [snd] in Hq.
  apply extends_Close_drain in H. eapply extends_trans; eassumption.
Qed.

(** The shape of a [Close] that returns: after the removal of the phantom
    entry, a stretch without any abort leads to a world [wx]; with no error
    that is the end, with an error the failure exit follows.  The stretch
    is empty when an error was on record. *)
Lemma Close_path (E : Env) (w : World) e w' :
  Close E w = Returns (e, w') ->
  exists wx,
    extends (afterPhantomRemoval w) wx /\
    (u_err (u w) = None \/ wx = afterPhantomRemoval w) /\
    ((e = None /\ w' = wx) \/ (e <> None /\ w' = abortAndCancel E wx)).
Proof.
  unfold Close. intros H. bind_inv H as r Hr. destruct r as [e1 w1].
  change (u_err (u (afterPhantomRemoval w))) with (u_err (u w)) in Hr.
  assert (H01 : extends (afterPhantomRemoval w) w1 /\
                (u_err (u w) = None \/ w1 = afterPhantomRemoval w)).
  { destruct (u_err (u w)).
    { inversion Hr; subst. split; [apply extends_refl | now right]. }
    split; [| now left].
    destruct (_ && _).
    - apply extends_Close_putObject in Hr. exact Hr.
    - apply extends_Close_multipart in Hr. exact Hr. }
  exists w1. split; [apply H01 |]. split; [apply H01 |].
  destruct e1; inversion H; subst; [right | left]; split; congruence.
Qed.

(** C9.  In an execution of [Close] that returns, the first thing [Close]
    adds to the history is the removal of the writer's phantom entry: every
    call it issues, [PutObject] and [CompleteMultipartUpload] among them,
    comes after.  From the removal on the phantom map does not change, so
    neither a stat ([Get]) nor a listing ([List]) finds the entry again. *)
Theorem Close_removes_phantom_first (E : Env) (w : World) (e : option error) (w' : World) :
  Close E w = Returns (e, w') ->
  (exists rest,
      history w' = history w ++ PhantomRemoveByInfoPtr (Info (u w)) :: rest) /\
  (forall before ev after,
      history w' = history w ++ before ++ ev :: after ->
      isFinalizing ev = true ->
      In (PhantomRemoveByInfoPtr (Info (u w))) before) /\
  phantoms w' = PhantomObjectMap_RemoveByInfoPtr (Info (u w)) (phantoms w) /\
  (forall key, PhantomObjectMap_Get key (phantoms w') <> Some (Info (u w))) /\
  (forall prefix, ~ In (Info (u w)) (PhantomObjectMap_List prefix (phantoms w'))).
Proof.
  intros H. apply Close_path in H as (wx & ((evs0 & Hh0 & _) & Hph0 & _) & _ & Hexit).
  unfold afterPhantomRemoval in Hh0, Hph0.
  cbn [history log setPhantoms phantoms] in Hh0, Hph0.
  assert (Hx : exists evs, history w' = history wx ++ evs /\ phantoms w' = phantoms wx).
  { destruct Hexit as [[_ ->] | [_ ->]].
    - exists []. split; [now rewrite app_nil_r | reflexivity].
    - destruct (abortAndCancel_spec E wx)
        as (_ & _ & _ & _ & _ & Hph & _ & (puts & Hh & _)).
      eexists. split; [exact Hh | exact Hph]. }
  destruct Hx as (evs1 & Hh & Hph). rewrite Hph0 in Hph.
  assert (Hhist : history w'
                  = history w ++ PhantomRemoveByInfoPtr (Info (u w)) :: (evs0 ++ evs1)).
  { rewrite Hh, Hh0. rewrite <- !app_assoc. reflexivity. }
  split; [eauto |]. split.
  - intros before ev after Heq Hfin. rewrite Hhist in Heq.
    apply app_inv_head in Heq.
    destruct before as [| b before'].
    + cbn in Heq. inversion Heq; subst. discriminate Hfin.
    + cbn in Heq. inversion Heq; subst. now left.
  - rewrite Hph. split; [reflexivity |].
    split; [intros key; apply RemoveByInfoPtr_Get | intros p; apply RemoveByInfoPtr_List].
Qed.

Lemma Close_removes_phantom_first_witness :
  exists e w',
    Close okEnv (worldAfter 4 [OpWriteAt (bytes "abc") 0]) = Returns (e, w') /\
    (exists rest,
        history w' = [PoolGet] ++ PhantomRemoveByInfoPtr 7 :: rest) /\
    (forall key, PhantomObjectMap_Get key (phantoms w') <> Some 7%nat).
Proof.
  destruct (Close okEnv (worldAfter 4 [OpWriteAt (bytes "abc") 0]))
    as [[e w'] | | |] eqn:H.
  - exists e, w'. split; [reflexivity |].
    pose proof (Close_removes_phantom_first _ _ _ _ H) as (Hh & _ & _ & Hget & _).
    split; [exact Hh | exact Hget].
  - exfalso. revert H. vm_compute. discriminate.
  - exfalso. revert H. vm_compute. discriminate.
  - exfalso. revert H. vm_compute. discriminate.
Defined.

(** ** The invariant *)

Ltac wsimpl :=
  cbn [history phantoms uploadChan u setWriter log setParts setCompletedParts
       setUploadID setErr seterr setUploadGroup setPhantoms setUploadChan setPart
       MaxObjectSize UploadMemoryBufferPool Info completedParts parts
       multiPartUploadID u_err uploadGroup fst snd
       content partNumber o state setState] in *.

Lemma index_returns {A : Type} (s : list A) (k : Z) (a : A) :
  index s k = Returns a -> 0 <= k < len s /\ s !! Z.to_nat k = Some a.
Proof.
  unfold index, len. destruct (0 <=? k) eqn:H1; destruct (k <? _) eqn:H2; cbn;
    try discriminate.
  destruct (s !! Z.to_nat k); intros H; inversion H; subst.
  split; [lia | reflexivity].
Qed.

Lemma index_ok {A : Type} (s : list A) (k : Z) (a : A) :
  0 <= k -> s !! Z.to_nat k = Some a -> index s k = Returns a.
Proof.
  intros Hk Hl. unfold index.
  pose proof (lookup_lt_Some _ _ _ Hl) as Hlt.
  replace (0 <=? k) with true by lia.
  replace (k <? Z.of_nat (length s)) with true by lia. cbn. now rewrite Hl.
Qed.

Lemma index_ok_nat {A : Type} (s : list A) (i : nat) (a : A) :
  s !! i = Some a -> index s (Z.of_nat i) = Returns a.
Proof. intros H. apply index_ok; [lia | now rewrite Nat2Z.id]. Qed.

Lemma lookup_repeat {A : Type} (x y : A) (k j : nat) :
  repeat x k !! j = Some y -> y = x.
Proof.
  revert j. induction k as [| k IH]; intros j H; cbn [repeat] in H.
  - rewrite lookup_nil in H. discriminate.
  - destruct j as [| j]; cbn in H; [congruence | eauto].
Qed.

Lemma deref_returns {A : Type} (p : option A) (a : A) : deref p = Returns a -> p = Some a.
Proof. destruct p; cbn; intros H; inversion H; reflexivity. Qed.

Lemma mergeRange_within (P : Z) (rs : list (Z * Z)) :
  Forall (fun r => 0 <= r.1 /\ r.2 <= P) rs ->
  forall s e, 0 <= s -> e <= P ->
  Forall (fun r => 0 <= r.1 /\ r.2 <= P) (mergeRange s e rs).
Proof.
  induction 1 as [| [a b] rs [Ha Hb] Hrs IH]; intros s e Hs He; cbn [mergeRange].
  - repeat constructor; cbn; lia.
  - cbn in Ha, Hb. destruct (e <? a).
    + repeat constructor; cbn; try lia. exact Hrs.
    + destruct (b <? s).
      * constructor; [cbn; lia | apply IH; lia].
      * apply IH; lia.
Qed.

Lemma sameData_refl (w : World) : sameData w w.
Proof. intros j. destruct (parts (u w) !! j) as [[p |] |]; auto. Qed.

Lemma sameData_trans (w1 w2 w3 : World) :
  sameData w1 w2 -> sameData w2 w3 -> sameData w1 w3.
Proof.
  intros H12 H23 j. specialize (H12 j). specialize (H23 j).
  destruct (parts (u w1) !! j) as [[p1 |] |], (parts (u w2) !! j) as [[p2 |] |],
    (parts (u w3) !! j) as [[p3 |] |]; cbn in *; try congruence;
    intuition congruence.
Qed.

Lemma sameData_length (w w' : World) :
  sameData w w' -> length (parts (u w')) = length (parts (u w)).
Proof.
  intros H.
  assert (Hl : forall j, (j < length (parts (u w)))%nat <-> (j < length (parts (u w')))%nat).
  { intros j. specialize (H j). rewrite <- !lookup_lt_is_Some.
    destruct (parts (u w) !! j) as [[p |] |], (parts (u w') !! j) as [[p' |] |];
      try discriminate; split; intros [x Hx]; try discriminate; eauto. }
  destruct (Nat.lt_trichotomy (length (parts (u w'))) (length (parts (u w))))
    as [Hlt | [Heq | Hgt]]; [| exact Heq |].
  - apply Hl in Hlt. lia.
  - apply Hl in Hgt. lia.
Qed.

Lemma sameData_setState (w : World) (i : nat) (part : S3PartToUpload) st :
  parts (u w) !! i = Some (Some part) ->
  sameData w (setPart i (setState st part) w).
Proof.
  intros Hi j. wsimpl.
  destruct (Nat.eq_dec j i) as [-> | Hne].
  - rewrite list_lookup_insert_eq by (eapply lookup_lt_Some; eassumption).
    rewrite Hi. auto.
  - rewrite list_lookup_insert_ne by congruence.
    destruct (parts (u w) !! j) as [[p |] |]; auto.
Qed.

Lemma sameData_cancel (w w' : World) :
  (forall j, parts (u w') !! j = cancelPart <$> parts (u w) !! j) -> sameData w w'.
Proof.
  intros H j. rewrite H. destruct (parts (u w) !! j) as [[p |] |]; cbn; auto.
  destruct (state p); cbn; auto.
Qed.

(** The structural part of the invariant only looks at the data of the
    parts. *)
Lemma InvS_sameData (w w' : World) :
  InvS w -> sameData w w' ->
  UploadMemoryBufferPool (u w') = UploadMemoryBufferPool (u w) ->
  (forall i, In i (uploadChan w') -> In i (uploadChan w)) ->
  InvS w'.
Proof.
  intros (HP & HL & HK & HC) Hsd Hpool Hch. unfold InvS. rewrite Hpool.
  split; [exact HP |]. split.
  { unfold len in *. rewrite (sameData_length _ _ Hsd). exact HL. }
  split.
  - intros j p' Hj. specialize (Hsd j). rewrite Hj in Hsd.
    destruct (parts (u w) !! j) as [[p |] |] eqn:Hw; try discriminate.
    destruct Hsd as (Hc & Ho & Hn). destruct (HK j p Hw) as (K1 & K2 & K3 & K4).
    unfold partOK. rewrite Hc, Ho, Hn. auto.
  - intros i Hi. destruct (HC i (Hch i Hi)) as [p Hp].
    specialize (Hsd i). rewrite Hp in Hsd.
    destruct (parts (u w') !! i) as [[p' |] |]; try discriminate; eauto.
Qed.

Lemma InvA_extends (w w' : World) :
  InvA w -> extends w w' ->
  (multiPartUploadID (u w') <> None \/ u_err (u w') = None ->
   multiPartUploadID (u w) <> None \/ u_err (u w) = None) ->
  InvA w'.
Proof.
  intros [H1 H0] Hext Himp. unfold InvA.
  rewrite (extends_calls_isAbort _ _ Hext). split; [exact H1 |].
  intros H. apply H0, Himp, H.
Qed.

(** After a failure exit of [WriteAt] the invariant holds again. *)
Lemma failWriteAt_Inv (E : Env) (e : error) (w : World) :
  InvS w -> InvA w ->
  Inv (failWriteAt E e w).2 /\
  UploadMemoryBufferPool (u (failWriteAt E e w).2) = UploadMemoryBufferPool (u w).
Proof.
  intros HS [HA1 HA0]. unfold failWriteAt. cbn [snd].
  destruct (abortAndCancel_spec E w)
    as (Hp & Hid & He & Hg & Hc & Hph & Hpool & (puts & Hh & Hf & _)).
  set (w' := abortAndCancel E w) in *.
  split; [| exact Hpool]. split; [| split].
  - apply (InvS_sameData w).
    + exact HS.
    + intros j. wsimpl. apply (sameData_cancel w w' Hp).
    + exact Hpool.
    + wsimpl. rewrite Hc. auto.
  - intros H. wsimpl. discriminate.
  - unfold InvA. wsimpl. rewrite Hh, !calls_app.
    rewrite (calls_none isAbort puts) by now apply poolPuts_noAbort.
    split.
    + destruct (multiPartUploadID (u w)) eqn:Hi.
      * rewrite HA0 by (left; congruence). cbn. lia.
      * cbn. lia.
    + rewrite Hid. intros [H | H]; congruence.
Qed.

(** ** Sending a part to the workers, and a worker uploading it *)

Lemma enqueueUpload_eq (E : Env) (i : nat) (part : S3PartToUpload) (w : World) :
  parts (u w) !! i = Some (Some part) ->
  enqueueUpload E i w
  = Returns
      (if stateValue (state part) <? stateValue S3PartUploadStateFull then
         match multiPartUploadID (u w) with
         | Some _ => enqueueTail E i part w
         | None =>
             let w1 := log (CallCreateMultipartUpload (keyOf w)) w in
             match CreateMultipartUploadWithContext E (history w1) with
             | inl e => (Some e, w1)
             | inr id => enqueueTail E i part (setUploadID (Some id) w1)
             end
         end
       else (None, w)).
Proof.
  intros Hi. unfold enqueueUpload.
  rewrite (index_ok_nat _ _ _ Hi).
  cbn [obind deref].
  destruct (stateValue (state part) <? _); [| reflexivity].
  destruct (multiPartUploadID (u w)) eqn:Hid.
  - rewrite Hid. cbn [deref obind]. unfold enqueueTail.
    destruct (Ctx_Done E _); reflexivity.
  - unfold s3CreateMultipartUpload. cbv zeta.
    destruct (CreateMultipartUploadWithContext E _); [reflexivity |].
    wsimpl. cbn [deref obind]. unfold enqueueTail. wsimpl.
    destruct (Ctx_Done E _); reflexivity.
Qed.

Lemma InvS_log (ev : Event) (w : World) : InvS w -> InvS (log ev w).
Proof. intros H. exact H. Qed.

Lemma enqueueTail_facts (E : Env) (i : nat) (part : S3PartToUpload) (w : World) :
  parts (u w) !! i = Some (Some part) ->
  multiPartUploadID (u w) <> None ->
  let r := enqueueTail E i part w in
  sameData w r.2 /\ extends w r.2 /\
  parts (u r.2) = <[i := Some (setState S3PartUploadStateFull part)]> (parts (u w)) /\
  multiPartUploadID (u r.2) = multiPartUploadID (u w) /\
  u_err (u r.2) = u_err (u w) /\
  (InvS w -> InvS r.2) /\
  (InvG w -> InvG r.2 \/ (r.1 = Some ErrEnqueueCancelled /\ uploadChan r.2 = uploadChan w)) /\
  (r.1 = None \/ r.1 = Some ErrEnqueueCancelled) /\
  (r.1 = None -> uploadChan r.2 = uploadChan w ++ [i]) /\
  (Ctx_Done E (history w) = false -> r.1 = None).
Proof.
  intros Hi Hid. cbv zeta. unfold enqueueTail. wsimpl.
  pose proof (sameData_setState w i part S3PartUploadStateFull Hi) as Hsd.
  destruct (Ctx_Done E (history w)) eqn:Hctx; wsimpl.
  - split; [exact Hsd |]. split; [frame_chain |]. split; [reflexivity |].
    split; [reflexivity |]. split; [reflexivity |]. split.
    { intros HS. eapply InvS_sameData; [exact HS | exact Hsd | reflexivity | auto]. }
    split; [intros _; right; auto |]. split; [auto |]. split; [discriminate |].
    discriminate.
  - split; [exact Hsd |]. split; [frame_chain |]. split; [reflexivity |].
    split; [reflexivity |]. split; [reflexivity |]. split.
    { intros HS.
      assert (HS' : InvS (setPart i (setState S3PartUploadStateFull part) w)).
      { eapply InvS_sameData; [exact HS | exact Hsd | reflexivity | auto]. }
      destruct HS' as (HP' & HL' & HK' & HC').
      split; [exact HP' |]. split; [exact HL' |]. split; [exact HK' |].
      wsimpl. intros k Hk. apply in_app_or in Hk as [Hk | [<- | []]].
      - apply HC', Hk.
      - rewrite list_lookup_insert_eq by (eapply lookup_lt_Some; eassumption). eauto. }
    split.
    { intros HG. left. intros Herr. wsimpl. destruct (HG Herr) as [Hg _].
      split; [rewrite Hg, len_app; unfold len; cbn; lia | auto]. }
    split; [auto |]. split; [reflexivity | reflexivity].
Qed.

(** [getContent] of a well-formed part returns. *)
Lemma getContent_returns (P : Z) (j : nat) (part : S3PartToUpload) :
  partOK P j part -> exists r, getContent part = Returns r.
Proof.
  intros (_ & Hlen & _ & Hr). unfold getContent, GetMaxValidOffset.
  destruct (List.find _ (or_ranges (o part))) as [r |] eqn:Hfind.
  - apply find_some in Hfind as [Hin Hc].
    rewrite List.Forall_forall in Hr. destruct (Hr r Hin) as [_ H2].
    apply andb_true_iff in Hc as [_ Hc].
    replace (r.2 =? -1) with false by lia.
    rewrite slice_ok by lia. cbn [obind]. eauto.
  - cbn. eauto.
Qed.

(** The footprint of a worker's [uploadPart] that returns. *)
Lemma uploadPart_footprint (E : Env) (i : nat) (w w' : World) :
  uploadPart E i w = Returns w' ->
  exists part,
    parts (u w) !! i = Some (Some part) /\
    (parts (u w') = parts (u w) \/
     exists st, parts (u w') = <[i := Some (setState st part)]> (parts (u w)) /\
                state part = S3PartUploadStateFull /\
                st <> S3PartUploadStateAdding) /\
    sameData w w' /\ extends w w' /\
    multiPartUploadID (u w') = multiPartUploadID (u w) /\
    uploadGroup (u w') = uploadGroup (u w) - 1 /\
    uploadChan w' = uploadChan w /\
    (u_err (u w') = None -> u_err (u w) = None) /\
    (u_err (u w) <> None -> u_err (u w') <> None).
Proof.
  unfold uploadPart. intros H. inv_bind H. inv_bind H.
  apply index_returns in Hm as [_ Hi]. rewrite Nat2Z.id in Hi.
  apply deref_returns in Hm0. subst a. exists a0. split; [exact Hi |].
  assert (Hdone : forall w1 w2,
    uploadGroup_Done w1 = Returns w2 ->
    w2 = setUploadGroup (uploadGroup (u w1) - 1) w1).
  { intros w1 w2. unfold uploadGroup_Done. destruct (_ <? 0); intros Hd; inversion Hd.
    reflexivity. }
  assert (Hother :
    (let* _ := deref (multiPartUploadID (u w)) in uploadGroup_Done w) = Returns w' ->
    parts (u w') = parts (u w) /\ sameData w w' /\ extends w w' /\
    multiPartUploadID (u w') = multiPartUploadID (u w) /\
    uploadGroup (u w') = uploadGroup (u w) - 1 /\
    uploadChan w' = uploadChan w /\
    (u_err (u w') = None -> u_err (u w) = None) /\
    (u_err (u w) <> None -> u_err (u w') <> None)).
  { intros H'. inv_bind H'. apply Hdone in H'. subst w'. wsimpl.
    split; [reflexivity |]. split; [intros j; wsimpl; apply (sameData_refl w j) |].
    split; [frame_chain |]. repeat split; auto. }
  destruct (state a0) eqn:Hst;
    try (destruct (Hother H) as (O1 & O2); split; [left; exact O1 | exact O2]).
  clear Hother.
  inv_bind H. destruct a as [e w1].
  assert (H1 : extends w w1 /\ parts (u w1) = parts (u w) /\
               multiPartUploadID (u w1) = multiPartUploadID (u w) /\
               uploadGroup (u w1) = uploadGroup (u w) /\
               uploadChan w1 = uploadChan w /\ u_err (u w1) = u_err (u w)).
  { split; [apply extends_s3UploadPart in Hm; exact Hm |].
    unfold s3UploadPart in Hm. inv_bind Hm. inv_bind Hm. destruct a1 as [body [e1 |]].
    - inversion Hm; subst. repeat split.
    - destruct (UploadPartWithContext E _).
      + inversion Hm; subst. repeat split.
      + inv_bind Hm. inversion Hm; subst. repeat split. }
  destruct H1 as (Hext & Hp & Hid & Hg & Hc & He).
  assert (Hsd : forall st, sameData w (setPart i (setState st a0) (log (PoolPut (partNumber a0)) w1))).
  { intros st j. wsimpl. rewrite Hp.
    apply (sameData_setState w i a0 st Hi j). }
  destruct e as [e |]; apply Hdone in H; subst w'; wsimpl.
  - split.
    { right. exists S3PartUploadErrorSending. rewrite Hp. repeat split; congruence. }
    split; [apply Hsd |]. split; [eapply extends_trans; [exact Hext |]; frame_chain |].
    repeat split; try congruence; try lia.
  - split.
    { right. exists S3PartUploadStateSent. rewrite Hp. repeat split; congruence. }
    split; [apply Hsd |]. split; [eapply extends_trans; [exact Hext |]; frame_chain |].
    repeat split; try congruence; try lia.
Qed.

(** A worker's [uploadPart] returns when the part is a part of the writer,
    the multipart upload is open and the wait group counts the part. *)
Lemma uploadPart_returns (E : Env) (i : nat) (w : World) :
  InvS w ->
  (exists part, parts (u w) !! i = Some (Some part)) ->
  multiPartUploadID (u w) <> None ->
  1 <= uploadGroup (u w) ->
  exists w', uploadPart E i w = Returns w'.
Proof.
  intros (HP & HL & HK & HC) [part Hi] Hid Hg. unfold uploadPart.
  rewrite (index_ok_nat _ _ _ Hi).
  cbn [obind deref].
  destruct (multiPartUploadID (u w)) as [id |] eqn:Hide; [| congruence].
  assert (Hdone : forall w1, uploadGroup (u w1) = uploadGroup (u w) ->
                             exists w', uploadGroup_Done w1 = Returns w').
  { intros w1 Hw1. unfold uploadGroup_Done. rewrite Hw1.
    replace (uploadGroup (u w) - 1 <? 0) with false by lia. eauto. }
  destruct (state part) eqn:Hst; cbn [deref obind]; try (apply Hdone; reflexivity).
  unfold s3UploadPart. rewrite Hide. cbn [deref obind].
  destruct (getContent_returns _ _ _ (HK i part Hi)) as [[body e] Hgc].
  rewrite Hgc. cbn [obind].
  destruct e as [e |]; cbn [obind].
  { apply Hdone. reflexivity. }
  destruct (UploadPartWithContext E _) as [e | etag]; cbn [obind].
  { apply Hdone. reflexivity. }
  wsimpl.
  destruct (HK i part Hi) as (Hpn & _).
  pose proof (lookup_lt_Some _ _ _ Hi) as Hlt.
  assert (Hk : wrap64 (partNumber part - 1) = Z.of_nat i).
  { rewrite Hpn. rewrite wrap64_id; [lia |]. unfold in_int64, len, two63 in *. lia. }
  rewrite Hk.
  set (cs := if len (completedParts (u w)) <? len (parts (u w)) then _ else _).
  assert (Hcs : (i < length cs)%nat).
  { subst cs. unfold len. destruct (_ <? _) eqn:Hc.
    - rewrite length_app, repeat_length. lia.
    - lia. }
  destruct (lookup_lt_is_Some_2 cs i Hcs) as [c Hc].
  rewrite (index_ok_nat _ _ _ Hc).
  cbn [obind]. apply Hdone. reflexivity.
Qed.

(** ** The invariant is kept by every step of a run *)

Lemma workerStep_Inv (E : Env) (w w' : World) :
  Inv w -> workerStep E w = Returns w' -> Inv w'.
Proof.
  intros (HS & HG & HA) H. unfold workerStep in H.
  destruct (uploadChan w) as [| i q] eqn:Hq.
  { inversion H; subst. exact (conj HS (conj HG HA)). }
  apply uploadPart_footprint in H
    as (part & Hi & _ & Hsd & Hext & Hid & Hg & Hc & He & _).
  wsimpl. split; [| split].
  - apply (InvS_sameData w); [exact HS | exact Hsd | apply Hext |].
    rewrite Hc. wsimpl. rewrite Hq. intros k Hk. now right.
  - intros Herr. specialize (HG (He Herr)) as [HG1 HG2].
    rewrite Hg, Hc, Hid, HG1, Hq. wsimpl. split.
    + unfold len. cbn [length]. lia.
    + intros _. apply HG2. rewrite Hq. discriminate.
  - apply (InvA_extends (setUploadChan q w)); [exact HA | exact Hext |].
    rewrite Hid. wsimpl. intros [H | H]; [left; exact H | right; exact (He H)].
Qed.

Lemma resize_len (P : Z) (stale : list byte) :
  0 < P -> len (resize (Z.to_nat P) Byte.x00 stale) = P.
Proof. intros H. unfold len. rewrite length_resize. lia. Qed.

Lemma InvS_setPart (w : World) (i : nat) (part : S3PartToUpload) :
  InvS w -> (i < length (parts (u w)))%nat ->
  partOK (BufSize (UploadMemoryBufferPool (u w))) i part ->
  InvS (setPart i part w).
Proof.
  intros (HP & HL & HK & HC) Hi Hok. unfold InvS. wsimpl.
  split; [exact HP |]. split.
  { unfold len in *. rewrite length_insert. exact HL. }
  split.
  - intros j p Hj. destruct (Nat.eq_dec j i) as [-> | Hne].
    + rewrite list_lookup_insert_eq in Hj by exact Hi. inversion Hj; subst. exact Hok.
    + rewrite list_lookup_insert_ne in Hj by congruence. apply HK, Hj.
  - intros k Hk. destruct (Nat.eq_dec k i) as [-> | Hne].
    + rewrite list_lookup_insert_eq by exact Hi. eauto.
    + rewrite list_lookup_insert_ne by congruence. apply HC, Hk.
Qed.

(** One turn of the loop of [WriteAt] keeps the invariant, whether the loop
    goes on or [WriteAt] returns. *)
Lemma WriteAt_iteration_Inv (E : Env) (buf : list byte)
    (pn po pending bo : Z) (w : World) (st : loopStep) :
  Inv w -> u_err (u w) = None ->
  WriteAt_iteration E buf (BufSize (UploadMemoryBufferPool (u w))) pn po pending bo w
  = Returns st ->
  match st with
  | Continue w' _ =>
      Inv w' /\ u_err (u w') = None /\
      UploadMemoryBufferPool (u w') = UploadMemoryBufferPool (u w)
  | Return _ w' =>
      Inv w' /\ UploadMemoryBufferPool (u w') = UploadMemoryBufferPool (u w)
  end.
Proof.
  intros HI Herr H. set (P := BufSize (UploadMemoryBufferPool (u w))) in *.
  unfold WriteAt_iteration in H. bind_inv H as slot Hm.
  apply index_returns in Hm as [Hpn Hslot].
  assert (Hlt : (Z.to_nat pn < length (parts (u w)))%nat)
    by (eapply lookup_lt_Some; eassumption).
  (* the part, allocated now if it was not *)
  set (got := match slot with Some part => _ | None => _ end) in H.
  assert (Hgot :
    match got with
    | inl failed =>
        Inv failed.2 /\ UploadMemoryBufferPool (u failed.2) = UploadMemoryBufferPool (u w)
    | inr (part, w1) =>
        Inv w1 /\ u_err (u w1) = None /\
        UploadMemoryBufferPool (u w1) = UploadMemoryBufferPool (u w) /\
        parts (u w1) !! Z.to_nat pn = Some (Some part)
    end).
  { subst got. destruct slot as [part |].
    - split; [exact HI | split; [exact Herr | split; [reflexivity | exact Hslot]]].
    - destruct HI as (HS & HG & HA).
      destruct (MemoryBufferPool_Get E _ _) as [e | b] eqn:Hget.
      + destruct (failWriteAt_Inv E e (log PoolGet w)) as [F1 F2].
        * exact HS.
        * apply (InvA_extends w); [exact HA | frame_chain | auto].
        * split; [exact F1 | exact F2].
      + unfold MemoryBufferPool_Get in Hget.
        destruct (Pool_Get E _); [discriminate |]. inversion Hget; subst b. clear Hget.
        split; [| split; [exact Herr | split; [reflexivity |]]].
        * split; [| split].
          -- apply (InvS_setPart (log PoolGet w)); [exact HS | exact Hlt |].
             wsimpl. fold P. destruct HS as (HP & HL & _).
             unfold partOK. cbn [partNumber content o or_size or_ranges NewOffsetRanges].
             split.
             { rewrite wrap64_id; [lia |]. unfold in_int64, two63 in *. lia. }
             split; [apply resize_len; exact HP |]. split; [reflexivity | constructor].
          -- exact HG.
          -- apply (InvA_extends w); [exact HA | frame_chain | auto].
        * wsimpl. now rewrite list_lookup_insert_eq by exact Hlt. }
  destruct got as [failed | [part w1]].
  { inversion H; subst. exact Hgot. }
  destruct Hgot as (HI1 & Herr1 & Hpool1 & Hpart).
  assert (Hlt1 : (Z.to_nat pn < length (parts (u w1)))%nat)
    by (eapply lookup_lt_Some; eassumption).
  destruct (stateValue (state part) <? _) eqn:Hadding.
  2: { inversion H; subst. auto. }
  bind_inv H as chunk Hchunk. bind_inv H as part' Hcopy.
  (* the copy *)
  unfold part_copy in Hcopy. bind_inv Hcopy as dst Hdst.
  inversion Hcopy; subst part'. clear Hcopy.
  apply slice_returns in Hdst as (Hb1 & Hb2 & _).
  set (part' := {| content := _; partNumber := _; o := _; state := _ |}) in H.
  destruct HI1 as (HS1 & HG1 & HA1).
  assert (Hok' : partOK (BufSize (UploadMemoryBufferPool (u w1))) (Z.to_nat pn) part').
  { destruct HS1 as (HP & HL & HK & HC).
    destruct (HK _ _ Hpart) as (K1 & K2 & K3 & K4).
    unfold partOK. subst part'. cbn [partNumber content o or_size or_ranges OffsetRanges_Add].
    split; [exact K1 |]. split.
    { unfold len in *. rewrite copy_slice_length; [exact K2 | lia | unfold len; lia]. }
    split; [exact K3 |]. apply mergeRange_within; [exact K4 | lia | lia]. }
  assert (HS2 : InvS (setPart (Z.to_nat pn) part' w1))
    by (apply InvS_setPart; assumption).
  assert (HI2 : Inv (setPart (Z.to_nat pn) part' w1)).
  { split; [exact HS2 | split; [exact HG1 |]]. exact HA1. }
  destruct (isFull part').
  2: { inversion H; subst. wsimpl. auto. }
  (* the part is full: it goes to the workers *)
  bind_inv H as r Hm0. destruct r as [e w3].
  set (w2 := setPart (Z.to_nat pn) part' w1) in *.
  assert (Hp2 : parts (u w2) !! Z.to_nat pn = Some (Some part')).
  { subst w2. wsimpl. now rewrite list_lookup_insert_eq by exact Hlt1. }
  rewrite (enqueueUpload_eq E _ part' w2 Hp2) in Hm0.
  assert (Hst' : state part' = state part) by reflexivity.
  rewrite Hst', Hadding in Hm0.
  assert (Herr2 : u_err (u w2) = None) by exact Herr1.
  assert (Htail : forall wx,
    InvS wx -> InvG wx -> InvA wx -> u_err (u wx) = None ->
    multiPartUploadID (u wx) <> None ->
    parts (u wx) !! Z.to_nat pn = Some (Some part') ->
    UploadMemoryBufferPool (u wx) = UploadMemoryBufferPool (u w) ->
    enqueueTail E (Z.to_nat pn) part' wx = (e, w3) ->
    InvS w3 /\ InvA w3 /\ u_err (u w3) = None /\
    UploadMemoryBufferPool (u w3) = UploadMemoryBufferPool (u w) /\
    (e = None -> InvG w3)).
  { intros wx HSx HGx HAx Hex Hidx Hpx Hpoolx Heq.
    destruct (enqueueTail_facts E _ part' wx Hpx Hidx)
      as (T1 & T2 & T3 & T4 & T5 & T6 & T7 & T8 & T9 & T10).
    rewrite Heq in *. cbn [fst snd] in *.
    split; [auto |]. split.
    { apply (InvA_extends wx); [exact HAx | exact T2 |]. rewrite T4, T5. auto. }
    split; [congruence |]. split.
    { destruct T2 as (_ & _ & _ & -> & _). exact Hpoolx. }
    intros ->. destruct (T7 HGx) as [G | [G _]]; [exact G | discriminate]. }
  assert (Hfail : forall err wx,
    InvS wx -> InvA wx ->
    UploadMemoryBufferPool (u wx) = UploadMemoryBufferPool (u w) ->
    Inv (failWriteAt E err wx).2 /\
    UploadMemoryBufferPool (u (failWriteAt E err wx).2) = UploadMemoryBufferPool (u w)).
  { intros err wx HSx HAx Hpoolx.
    destruct (failWriteAt_Inv E err wx HSx HAx) as [F1 F2]. split; [exact F1 | congruence]. }
  assert (Hres : InvS w3 /\ InvA w3 /\ u_err (u w3) = None /\
                 UploadMemoryBufferPool (u w3) = UploadMemoryBufferPool (u w) /\
                 (e = None -> InvG w3)).
  { destruct (multiPartUploadID (u w2)) as [id |] eqn:Hid2.
    - inversion Hm0 as [Heq].
      apply (Htail w2); auto; congruence.
    - cbv zeta in Hm0.
      destruct (CreateMultipartUploadWithContext E _) as [ce | id].
      + inversion Hm0; subst e w3. wsimpl.
        split; [exact HS2 |]. split.
        { apply (InvA_extends w2); [exact HA1 | frame_chain | auto]. }
        split; [exact Herr1 |]. split; [exact Hpool1 | discriminate].
      + inversion Hm0 as [Heq].
        set (wc := setUploadID (Some id) (log (CallCreateMultipartUpload (keyOf w2)) w2))
          in *.
        assert (HGc : InvG wc).
        { intros He. destruct (HG1 He) as [G1 G2]. split; [exact G1 | discriminate]. }
        assert (HAc : InvA wc).
        { destruct HA1 as [A1 A0]. unfold InvA. subst wc. unfold w2. wsimpl.
          rewrite calls_app.
          rewrite A0 by (right; exact Herr1). cbn. split; [lia | auto]. }
        apply (Htail wc); auto; subst wc; wsimpl; congruence. }
  destruct Hres as (HS3 & HA3 & Herr3 & Hpool3 & HG3).
  destruct e as [e |].
  - inversion H; subst. apply Hfail; assumption.
  - inversion H; subst. split; [| split; assumption].
    split; [exact HS3 | split; [apply HG3; reflexivity | exact HA3]].
Qed.

Lemma WriteAt_loop_Inv (E : Env) (buf : list byte) (fuel : nat) :
  forall pn po pending bo w r w',
    Inv w -> u_err (u w) = None ->
    WriteAt_loop fuel E buf (BufSize (UploadMemoryBufferPool (u w))) pn po pending bo w
    = Returns (r, w') ->
    Inv w' /\ UploadMemoryBufferPool (u w') = UploadMemoryBufferPool (u w).
Proof.
  induction fuel as [| fuel IH]; intros pn po pending bo w r w' HI Herr H;
    cbn [WriteAt_loop] in H.
  - destruct (pending >? 0); [discriminate |]. inversion H; subst. auto.
  - destruct (pending >? 0).
    2: { inversion H; subst. auto. }
    bind_inv H as st Hst.
    apply (WriteAt_iteration_Inv E buf pn po pending bo w st HI Herr) in Hst.
    destruct st as [w1 c | res w1].
    + destruct Hst as (HI1 & Herr1 & Hpool1).
      rewrite <- Hpool1 in H. apply IH in H; [| assumption | assumption].
      destruct H as [H1 H2]. split; [exact H1 | congruence].
    + inversion H; subst. exact Hst.
Qed.

Lemma InvS_grow (w : World) (k : nat) :
  InvS w -> len (parts (u w) ++ repeat None k) < two63 ->
  InvS (setParts (parts (u w) ++ repeat None k) w).
Proof.
  intros (HP & HL & HK & HC) Hlen. unfold InvS. wsimpl.
  split; [exact HP |]. split; [exact Hlen |]. split.
  - intros j part Hj. apply lookup_app_Some in Hj as [Hj | [_ Hj]].
    + apply HK, Hj.
    + apply lookup_repeat in Hj. discriminate.
  - intros i Hi. destruct (HC i Hi) as [part Hp]. exists part.
    now apply lookup_app_l_Some.
Qed.

(** [WriteAt] keeps the invariant, whatever its arguments and its
    result. *)
Lemma WriteAt_Inv (E : Env) (buf : list byte) (off : Z) (w : World) r w' :
  Inv w -> WriteAt E buf off w = Returns (r, w') ->
  Inv w' /\ UploadMemoryBufferPool (u w') = UploadMemoryBufferPool (u w).
Proof.
  intros HI H. unfold WriteAt in H.
  destruct (BufSize (UploadMemoryBufferPool (u w)) =? 0); [discriminate |].
  pose proof HI as (HS & HG & HA).
  destruct (u_err (u w)) as [e |] eqn:Herr.
  { assert (Hw : w' = (failWriteAt E e w).2) by (inversion H; reflexivity).
    rewrite Hw. apply failWriteAt_Inv; assumption. }
  destruct (_ && _).
  { assert (Hw : w' = (failWriteAt E (ErrFileTooLarge (MaxObjectSize (u w))) w).2)
      by (inversion H; reflexivity).
    rewrite Hw. apply failWriteAt_Inv; assumption. }
  bind_inv H as w2 Hw2.
  set (w1 := setPhantoms _ w) in *.
  assert (HI1 : Inv w1) by exact HI.
  assert (H2 : Inv w2 /\ u_err (u w2) = None /\
               UploadMemoryBufferPool (u w2) = UploadMemoryBufferPool (u w)).
  { destruct (len (parts (u w1)) <=? _).
    - destruct (wrap64 _ <? 0) eqn:Hneg; [discriminate |].
      inversion Hw2; subst w2. wsimpl.
      split; [| split; [exact Herr | reflexivity]].
      split; [| split; [exact HG | exact HA]].
      apply (InvS_grow w1); [exact HS |]. wsimpl.
      destruct HS as (_ & HL & _).
      unfold len in *. rewrite length_app, repeat_length.
      match goal with
      | |- context [Z.to_nat (wrap64 ?x)] =>
          pose proof (wrap64_range x) as Hr; set (n := wrap64 x) in *
      end.
      change (length (parts (u w1))) with (length (parts (u w))).
      unfold in_int64, two63 in *. lia.
    - inversion Hw2; subst w2. split; [exact HI1 | split; [exact Herr | reflexivity]]. }
  destruct H2 as (HI2 & Herr2 & Hpool2).
  rewrite <- Hpool2 in H. apply WriteAt_loop_Inv in H; [| assumption | assumption].
  destruct H as [H1 H3]. split; [exact H1 | congruence].
Qed.

Lemma step_Inv (E : Env) (x : op) (w w' : World) :
  Inv w -> step E x w = Returns w' ->
  Inv w' /\ UploadMemoryBufferPool (u w') = UploadMemoryBufferPool (u w).
Proof.
  intros HI H. destruct x as [buf off |]; cbn [step] in H.
  - bind_inv H as r Hr. destruct r as [r w1]. inversion H; subst.
    eapply WriteAt_Inv; eassumption.
  - split; [eapply workerStep_Inv; eassumption |].
    unfold workerStep in H. destruct (uploadChan w); [inversion H; reflexivity |].
    apply uploadPart_footprint in H as (_ & _ & _ & _ & Hext & _). apply Hext.
Qed.

Lemma run_Inv (E : Env) (ops : list op) :
  forall w w', Inv w -> run E ops w = Returns w' ->
  Inv w' /\ UploadMemoryBufferPool (u w') = UploadMemoryBufferPool (u w).
Proof.
  induction ops as [| x ops IH]; intros w w' HI H; cbn [run] in H.
  - inversion H; subst. auto.
  - bind_inv H as w1 H1. apply step_Inv in H1 as [HI1 Hp1]; [| exact HI].
    apply IH in H as [H2 Hp2]; [| exact HI1]. split; [exact H2 | congruence].
Qed.

Lemma Filewrite_Inv maxObjectSize pool key now info m w0 :
  0 < BufSize pool ->
  Filewrite true maxObjectSize pool key now info m = inr w0 -> Inv w0.
Proof.
  intros HP H. unfold Filewrite in H. cbn [negb] in H. inversion H; subst w0. clear H.
  split; [| split].
  - unfold InvS. wsimpl. split; [exact HP |]. split; [unfold len, two63; cbn; lia |].
    split; [intros j part Hj; rewrite lookup_nil in Hj; discriminate |].
    intros i [].
  - intros _. wsimpl. split; [reflexivity | congruence].
  - unfold InvA. wsimpl. cbn. split; [lia | reflexivity].
Qed.

(** Every world a writer can be in before [Close] satisfies the
    invariant. *)
Lemma reachable_Inv (E : Env) (w : World) : reachable E w -> Inv w.
Proof.
  intros (maxObjectSize & pool & key & now & info & m & w0 & ops & HP & Hf & Hrun).
  apply Filewrite_Inv in Hf; [| exact HP].
  eapply run_Inv; eassumption.
Qed.

(** ** Waiting for the workers *)

Lemma keepsAdding_refl (w : World) : keepsAdding w w.
Proof. intros j part H _. exact H. Qed.

Lemma keepsAdding_trans (w1 w2 w3 : World) :
  keepsAdding w1 w2 -> keepsAdding w2 w3 -> keepsAdding w1 w3.
Proof. intros H12 H23 j part Hj Hst. eapply H23; [eapply H12 |]; eassumption. Qed.

Lemma uploadPart_keepsAdding (E : Env) (i : nat) (w w' : World) :
  uploadPart E i w = Returns w' -> keepsAdding w w'.
Proof.
  intros H. apply uploadPart_footprint in H as (part & Hi & Hp & _).
  intros j p Hj Hst. destruct Hp as [-> | (st & -> & Hfull & _)]; [exact Hj |].
  destruct (Nat.eq_dec j i) as [-> | Hne].
  - rewrite Hi in Hj. inversion Hj; subst. congruence.
  - now rewrite list_lookup_insert_ne by congruence.
Qed.

Lemma sameData_allocated (w w' : World) (i : nat) :
  sameData w w' ->
  (exists part, parts (u w) !! i = Some (Some part)) ->
  exists part, parts (u w') !! i = Some (Some part).
Proof.
  intros Hsd [part Hp]. specialize (Hsd i). rewrite Hp in Hsd.
  destruct (parts (u w') !! i) as [[p' |] |]; try discriminate. eauto.
Qed.

(** The workers get through the parts [q] they hold. *)
Lemma drain_returns (E : Env) (q : list nat) :
  forall w,
    InvS w ->
    (forall i, In i q -> exists part, parts (u w) !! i = Some (Some part)) ->
    (q <> [] -> multiPartUploadID (u w) <> None) ->
    len q <= uploadGroup (u w) ->
    exists w',
      drain E q w = Returns w' /\
      sameData w w' /\ extends w w' /\ keepsAdding w w' /\
      multiPartUploadID (u w') = multiPartUploadID (u w) /\
      uploadGroup (u w') = uploadGroup (u w) - len q /\
      uploadChan w' = uploadChan w /\
      (u_err (u w) <> None -> u_err (u w') <> None).
Proof.
  induction q as [| i q IH]; intros w HS Hq Hid Hg; cbn [drain].
  - exists w. split; [reflexivity |]. split; [apply sameData_refl |].
    split; [apply extends_refl |]. split; [apply keepsAdding_refl |].
    unfold len. cbn. repeat split; auto. lia.
  - unfold len in Hg. cbn [length] in Hg.
    destruct (uploadPart_returns E i w HS) as [w1 H1].
    { apply Hq. now left. }
    { apply Hid. discriminate. }
    { lia. }
    rewrite H1. cbn [obind].
    pose proof (uploadPart_keepsAdding _ _ _ _ H1) as Hk1.
    apply uploadPart_footprint in H1
      as (part & Hi & _ & Hsd1 & Hext1 & Hid1 & Hg1 & Hc1 & _ & He1).
    destruct (IH w1) as (w' & Hd & Hsd & Hext & Hk & Hid' & Hg' & Hc' & He').
    { eapply InvS_sameData; [exact HS | exact Hsd1 | apply Hext1 |].
      rewrite Hc1. auto. }
    { intros k Hk. eapply sameData_allocated; [exact Hsd1 |]. apply Hq. now right. }
    { intros _. rewrite Hid1. apply Hid. discriminate. }
    { unfold len. lia. }
    exists w'. split; [exact Hd |].
    split; [eapply sameData_trans; eassumption |].
    split; [eapply extends_trans; eassumption |].
    split; [eapply keepsAdding_trans; eassumption |].
    split; [congruence |]. split; [unfold len in *; cbn [length]; lia |].
    split; [congruence | auto].
Qed.

Lemma Wait_returns (E : Env) (w : World) :
  InvS w ->
  uploadGroup (u w) = len (uploadChan w) ->
  (uploadChan w <> [] -> multiPartUploadID (u w) <> None) ->
  exists w',
    uploadGroup_Wait E w = Returns w' /\
    sameData w w' /\ extends w w' /\ keepsAdding w w' /\
    multiPartUploadID (u w') = multiPartUploadID (u w) /\
    (u_err (u w) <> None -> u_err (u w') <> None).
Proof.
  intros HS Hg Hid. unfold uploadGroup_Wait.
  destruct (drain_returns E (uploadChan w) (setUploadChan [] w))
    as (w' & Hd & Hsd & Hext & Hk & Hid' & Hg' & Hc' & He').
  - destruct HS as (HP & HL & HK & HC). split; [exact HP |]. split; [exact HL |].
    split; [exact HK |]. intros i [].
  - apply HS.
  - exact Hid.
  - wsimpl. lia.
  - rewrite Hd. cbn [obind]. wsimpl.
    replace (uploadGroup (u w') =? 0) with true by lia.
    exists w'. split; [reflexivity |]. split; [exact Hsd |]. split.
    { eapply extends_trans; [| exact Hext]. frame_chain. }
    split; [exact Hk |]. split; [exact Hid' | exact He'].
Qed.

(** ** Close with a gap in a part (C3) *)

Lemma cancelPart_not_Adding (slot : option S3PartToUpload) (part : S3PartToUpload) :
  cancelPart slot = Some part -> state part <> S3PartUploadStateAdding.
Proof.
  destruct slot as [p |]; cbn; [| discriminate].
  destruct (state p) eqn:Hst; intros H; inversion H; subst; cbn; congruence.
Qed.

Lemma keyOf_extends (w w' : World) : extends w w' -> keyOf w' = keyOf w.
Proof. intros (_ & Hph & Hinfo & _). unfold keyOf. now rewrite Hph, Hinfo. Qed.

(** Handing the trailing part over, with the session alive. *)
Lemma enqueue_trailing (E : Env) (w : World) (i : nat) (part : S3PartToUpload) :
  (forall h, Ctx_Done E h = false) ->
  InvS w -> u_err (u w) = None ->
  uploadGroup (u w) = len (uploadChan w) ->
  (uploadChan w <> [] -> multiPartUploadID (u w) <> None) ->
  parts (u w) !! i = Some (Some part) ->
  exists e1 w1,
    enqueueUpload E i w = Returns (e1, w1) /\
    extends w w1 /\ InvS w1 /\
    uploadGroup (u w1) = len (uploadChan w1) /\
    (uploadChan w1 <> [] -> multiPartUploadID (u w1) <> None) /\
    (forall id, multiPartUploadID (u w) = Some id -> multiPartUploadID (u w1) = Some id) /\
    (forall j, j <> i -> parts (u w1) !! j = parts (u w) !! j) /\
    (e1 = None \/ exists h, e1 <> None /\
                            forall ce, e1 = Some ce ->
                                       CreateMultipartUploadWithContext E h = inl ce).
Proof.
  intros Hctx HS Herr Hg Hc Hi. rewrite (enqueueUpload_eq E i part w Hi).
  assert (Htail : forall wc,
    extends w wc -> InvS wc -> u_err (u wc) = None ->
    uploadGroup (u wc) = len (uploadChan wc) ->
    multiPartUploadID (u wc) <> None ->
    (forall id, multiPartUploadID (u w) = Some id -> multiPartUploadID (u wc) = Some id) ->
    parts (u wc) = parts (u w) ->
    extends w (enqueueTail E i part wc).2 /\ InvS (enqueueTail E i part wc).2 /\
    uploadGroup (u (enqueueTail E i part wc).2)
    = len (uploadChan (enqueueTail E i part wc).2) /\
    (uploadChan (enqueueTail E i part wc).2 <> [] ->
     multiPartUploadID (u (enqueueTail E i part wc).2) <> None) /\
    (forall id, multiPartUploadID (u w) = Some id ->
                multiPartUploadID (u (enqueueTail E i part wc).2) = Some id) /\
    (forall j, j <> i -> parts (u (enqueueTail E i part wc).2) !! j = parts (u w) !! j) /\
    (enqueueTail E i part wc).1 = None).
  { intros wc Hext HSc Herrc Hgc Hidc Hidw Hpc.
    assert (Hic : parts (u wc) !! i = Some (Some part)) by (rewrite Hpc; exact Hi).
    destruct (enqueueTail_facts E i part wc Hic Hidc)
      as (T1 & T2 & T3 & T4 & T5 & T6 & T7 & T8 & T9 & T10).
    pose proof (T10 (Hctx _)) as Hnone.
    assert (HGc : InvG wc) by (intros _; split; [exact Hgc | intros _; exact Hidc]).
    destruct (T7 HGc) as [G | [G _]]; [| congruence].
    destruct (G ltac:(congruence)) as [G1 G2].
    split; [eapply extends_trans; eassumption |]. split; [apply T6, HSc |].
    split; [exact G1 |]. split; [exact G2 |].
    split; [intros id Hw; rewrite T4; apply Hidw, Hw |].
    split; [| exact Hnone].
    intros j Hj. rewrite T3, Hpc. now rewrite list_lookup_insert_ne by congruence. }
  destruct (stateValue (state part) <? _).
  2: { exists None, w. split; [reflexivity |]. split; [apply extends_refl |].
       split; [exact HS |]. split; [exact Hg |]. split; [exact Hc |].
       split; [auto |]. split; [auto | now left]. }
  destruct (multiPartUploadID (u w)) as [id |] eqn:Hid.
  - destruct (Htail w) as (R1 & R2 & R3 & R4 & R5 & R6 & R7);
      [apply extends_refl | exact HS | exact Herr | exact Hg | congruence
      | intros; congruence | reflexivity |].
    destruct (enqueueTail E i part w) as [e1 w1]. cbn [fst snd] in *.
    exists e1, w1. split; [reflexivity |].
    split; [exact R1 |]. split; [exact R2 |]. split; [exact R3 |]. split; [exact R4 |].
    split; [exact R5 |]. split; [exact R6 | left; exact R7].
  - cbv zeta.
    set (wl := log (CallCreateMultipartUpload (keyOf w)) w).
    destruct (CreateMultipartUploadWithContext E (history wl)) as [ce | id] eqn:Hcreate.
    + exists (Some ce), wl. split; [reflexivity |].
      split; [subst wl; frame_chain |]. split; [exact HS |].
      split; [exact Hg |].
      split; [intros Hne; exfalso; exact (Hc Hne eq_refl) |].
      split; [discriminate |].
      split; [auto |]. right. exists (history wl). split; [discriminate |].
      intros ce' Hce. inversion Hce; subst. exact Hcreate.
    + destruct (Htail (setUploadID (Some id) wl)) as (R1 & R2 & R3 & R4 & R5 & R6 & R7);
        [subst wl; frame_chain | exact HS | exact Herr | exact Hg | discriminate
        | discriminate | reflexivity |].
      destruct (enqueueTail E i part (setUploadID (Some id) wl)) as [e1 w1].
      cbn [fst snd] in *.
      exists e1, w1. split; [reflexivity |].
      split; [exact R1 |]. split; [exact R2 |]. split; [exact R3 |]. split; [exact R4 |].
      split; [discriminate |]. split; [exact R6 | left; exact R7].
Qed.

(** After the wait, a part still [Adding] makes the closing fail. *)
Lemma Close_drain_gap (E : Env) (e1 : option error) (w1 : World) (g : nat) :
  InvS w1 -> uploadGroup (u w1) = len (uploadChan w1) ->
  (uploadChan w1 <> [] -> multiPartUploadID (u w1) <> None) ->
  isAdding w1 g ->
  exists e wx mid,
    Close_drain E e1 w1 = Returns (Some e, wx) /\
    history wx = history w1 ++ mid /\
    keyOf wx = keyOf w1 /\
    multiPartUploadID (u wx) = multiPartUploadID (u w1) /\
    (forall j part,
        parts (u w1) !! j = Some (Some part) -> state part = S3PartUploadStateAdding ->
        parts (u wx) !! j = Some (Some part) \/
        (parts (u wx) !! j = Some (Some (setState S3PartUploadCancelled part)) /\
         In (PoolPut (partNumber part)) mid)) /\
    (e1 = Some e \/ (e1 = None /\ exists n, 0 < n /\ e = ErrPendingParts n)).
Proof.
  intros HS Hg Hc Hadd. unfold Close_drain.
  destruct (Wait_returns E w1 HS Hg Hc) as (w2 & HW & _ & Hext2 & Hkeep2 & Hid2 & _).
  rewrite HW. cbn [obind].
  pose proof Hext2 as ((evs2 & Hh2 & _) & _).
  destruct e1 as [ce |].
  - exists ce, w2, evs2. split; [reflexivity |]. split; [exact Hh2 |].
    split; [apply keyOf_extends, Hext2 |]. split; [exact Hid2 |].
    split; [| now left]. intros j part Hl Hst. left. apply Hkeep2; assumption.
  - destruct (closeParts_spec w2) as (Hp3 & Hs3 & (puts3 & Hh3 & Hf3 & Hin3) & H03 & Hpos3).
    destruct (closePartsInStateAdding w2) as [pending w3]. cbn [fst snd] in *.
    assert (Hpos : 0 < pending).
    { apply Hpos3. exists g. destruct Hadd as (pg & Hpg & Hstg).
      exists pg. split; [apply Hkeep2; assumption | exact Hstg]. }
    replace (pending >? 0) with true by lia.
    destruct Hs3 as (S1 & S2 & S3 & S4 & S5 & S6 & S7 & S8 & S9).
    exists (ErrPendingParts pending), w3, (evs2 ++ puts3).
    split; [reflexivity |]. split.
    { rewrite Hh3, Hh2. now rewrite <- app_assoc. }
    split.
    { unfold keyOf. rewrite S6, S9. fold (keyOf w2). apply keyOf_extends, Hext2. }
    split; [congruence |]. split.
    + intros j part Hl Hst. right. split.
      * rewrite Hp3, (Hkeep2 j part Hl Hst). cbn. now rewrite Hst.
      * apply in_or_app. right. apply (Hin3 j part); [apply Hkeep2; assumption | exact Hst].
    + right. split; [reflexivity |]. exists pending. auto.
Qed.

(** The failure exit of [Close], entered in the world [wx]: what is claimed
    of [Close] follows from what is known of [wx]. *)
Lemma Close_failure_exit (E : Env) (w wx : World) (before : list Event) :
  history wx = history w ++ before ->
  keyOf wx = keyOf w ->
  (forall id, multiPartUploadID (u w) = Some id -> multiPartUploadID (u wx) = Some id) ->
  (forall j part,
      (S j < length (parts (u w)))%nat ->
      parts (u w) !! j = Some (Some part) -> state part = S3PartUploadStateAdding ->
      parts (u wx) !! j = Some (Some part) \/
      (parts (u wx) !! j = Some (Some (setState S3PartUploadCancelled part)) /\
       In (PoolPut (partNumber part)) before)) ->
  let w' := abortAndCancel E wx in
  exists puts,
    history w' = history w ++ before ++ abortCallOf wx ++ puts /\
    Forall (fun ev => exists pn, ev = PoolPut pn) puts /\
    multiPartUploadID (u w') = None /\
    (forall id, multiPartUploadID (u w) = Some id ->
                In (CallAbortMultipartUpload (keyOf w) id) (abortCallOf wx)) /\
    (forall j part,
        (S j < length (parts (u w)))%nat ->
        parts (u w) !! j = Some (Some part) -> state part = S3PartUploadStateAdding ->
        parts (u w') !! j = Some (Some (setState S3PartUploadCancelled part)) /\
        In (PoolPut (partNumber part)) (before ++ abortCallOf wx ++ puts)) /\
    (forall j, ~ isAdding w' j).
Proof.
  intros Hh Hkey Hid Hparts. cbv zeta.
  destruct (abortAndCancel_spec E wx)
    as (Hp & Hid' & _ & _ & _ & _ & _ & (puts & Hh' & Hf & Hin)).
  exists puts. split.
  { rewrite Hh', Hh. unfold abortCallOf. now rewrite <- !app_assoc. }
  split; [exact Hf |]. split; [exact Hid' |]. split.
  { intros id Hw. unfold abortCallOf. rewrite (Hid id Hw), Hkey. now left. }
  split.
  - intros j part Hj Hl Hst. rewrite Hp.
    destruct (Hparts j part Hj Hl Hst) as [Hx | [Hx Hput]]; rewrite Hx.
    + cbn. rewrite Hst. split; [reflexivity |].
      apply in_or_app. right. apply in_or_app. right. eapply Hin; eassumption.
    + cbn. split; [reflexivity |]. apply in_or_app. now left.
  - intros j (part & Hl & Hst). rewrite Hp in Hl.
    destruct (parts (u wx) !! j) as [slot |]; [| discriminate].
    cbn in Hl. inversion Hl as [Hc]. apply cancelPart_not_Adding in Hc. congruence.
Qed.

(** X20.  A writer that [Filewrite] built and a run led to, in which an
    allocated part other than the trailing one is still [Adding], the
    trailing part being allocated and the session alive: [Close] returns
    an error, the recorded one, or that of a failed [CreateMultipartUpload],
    or the count of the pending parts; a multipart upload that was open
    when [Close] began is aborted at the failure exit; every part before
    the trailing one that was [Adding] is [Cancelled] and its buffer has
    gone back to the pool; no part is left [Adding]. *)
Theorem Close_gap_fails (E : Env) (w : World) (g : nat) :
  reachable E w ->
  (forall h, Ctx_Done E h = false) ->
  (S g < length (parts (u w)))%nat ->
  isAdding w g ->
  (exists part, parts (u w) !! (length (parts (u w)) - 1)%nat = Some (Some part)) ->
  exists e w' wx before puts,
    Close E w = Returns (Some e, w') /\
    (u_err (u w) = Some e \/
     (exists n, 0 < n /\ e = ErrPendingParts n) \/
     (exists h, CreateMultipartUploadWithContext E h = inl e)) /\
    history wx = history w ++ before /\
    history w' = history w ++ before ++ abortCallOf wx ++ puts /\
    Forall (fun ev => exists pn, ev = PoolPut pn) puts /\
    multiPartUploadID (u w') = None /\
    (forall id, multiPartUploadID (u w) = Some id ->
                In (CallAbortMultipartUpload (keyOf w) id) (abortCallOf wx)) /\
    (forall j part,
        (S j < length (parts (u w)))%nat ->
        parts (u w) !! j = Some (Some part) -> state part = S3PartUploadStateAdding ->
        parts (u w') !! j = Some (Some (setState S3PartUploadCancelled part)) /\
        In (PoolPut (partNumber part)) (before ++ abortCallOf wx ++ puts)) /\
    (forall j, ~ isAdding w' j).
Proof.
  intros Hreach Hctx Hg Hadd [plast Hlast].
  pose proof (reachable_Inv _ _ Hreach) as (HS & HG & HA).
  set (w0 := afterPhantomRemoval w).
  assert (Hh0 : history w0 = history w ++ [PhantomRemoveByInfoPtr (Info (u w))])
    by reflexivity.
  assert (Hmain : exists e wx before,
    (match u_err (u w0) with
     | Some e => Returns (Some e, w0)
     | None =>
         if (len (parts (u w0)) =? 1)
            && (match multiPartUploadID (u w0) with None => true | Some _ => false end)
         then Close_putObject E w0
         else Close_multipart E w0
     end) = Returns (Some e, wx) /\
    (u_err (u w) = Some e \/
     (exists n, 0 < n /\ e = ErrPendingParts n) \/
     (exists h, CreateMultipartUploadWithContext E h = inl e)) /\
    history wx = history w ++ before /\
    keyOf wx = keyOf w /\
    (forall id, multiPartUploadID (u w) = Some id -> multiPartUploadID (u wx) = Some id) /\
    (forall j part,
        (S j < length (parts (u w)))%nat ->
        parts (u w) !! j = Some (Some part) -> state part = S3PartUploadStateAdding ->
        parts (u wx) !! j = Some (Some part) \/
        (parts (u wx) !! j = Some (Some (setState S3PartUploadCancelled part)) /\
         In (PoolPut (partNumber part)) before))).
  { change (u_err (u w0)) with (u_err (u w)).
    destruct (u_err (u w)) as [e0 |] eqn:Herr.
    { exists e0, w0, [PhantomRemoveByInfoPtr (Info (u w))].
      split; [reflexivity |]. split; [now left |]. split; [exact Hh0 |].
      split; [reflexivity |]. split; [auto |]. intros j part _ Hl _. now left. }
    change (len (parts (u w0))) with (len (parts (u w))).
    replace (len (parts (u w)) =? 1) with false by (unfold len; lia).
    cbn [andb]. unfold Close_multipart.
    change (parts (u w0)) with (parts (u w)).
    set (last := (length (parts (u w)) - 1)%nat) in *.
    replace (len (parts (u w)) - 1) with (Z.of_nat last) by (unfold len; lia).
    rewrite (index_ok_nat _ _ _ Hlast). cbn [obind]. rewrite Nat2Z.id.
    destruct (HG Herr) as [HG1 HG2].
    destruct (enqueue_trailing E w0 last plast Hctx HS Herr HG1 HG2 Hlast)
      as (e1 & w1 & Henq & Hext1 & HS1 & Hg1 & Hc1 & Hid1 & Hp1 & He1).
    rewrite Henq. cbn [obind].
    assert (Hadd1 : isAdding w1 g).
    { destruct Hadd as (pg & Hpg & Hstg). exists pg. split; [| exact Hstg].
      rewrite Hp1 by lia. exact Hpg. }
    destruct (Close_drain_gap E e1 w1 g HS1 Hg1 Hc1 Hadd1)
      as (e & wx & mid & HR & Hhx & Hkx & Hidx & Hpx & Hex).
    pose proof Hext1 as ((evs1 & Hh1 & _) & _).
    exists e, wx, ([PhantomRemoveByInfoPtr (Info (u w))] ++ evs1 ++ mid).
    split; [exact HR |]. split.
    { destruct Hex as [-> | [_ Hn]].
      - destruct He1 as [He1 | (h & _ & He1)]; [discriminate |].
        right. right. exists h. apply He1. reflexivity.
      - right. left. exact Hn. }
    split; [rewrite Hhx, Hh1, Hh0; now rewrite <- !app_assoc |].
    split; [rewrite Hkx; apply (keyOf_extends w0 w1 Hext1) |].
    split; [intros id Hw; rewrite Hidx; apply Hid1, Hw |].
    intros j part Hj Hl Hst.
    assert (Hl1 : parts (u w1) !! j = Some (Some part)) by (rewrite Hp1 by lia; exact Hl).
    destruct (Hpx j part Hl1 Hst) as [Hx | [Hx Hin]]; [now left | right].
    split; [exact Hx |]. apply in_or_app. right. apply in_or_app. now right. }
  destruct Hmain as (e & wx & before & HR & He & Hhx & Hkx & Hidx & Hpx).
  destruct (Close_failure_exit E w wx before Hhx Hkx Hidx Hpx)
    as (puts & X1 & X2 & X3 & X4 & X5 & X6).
  exists e, (abortAndCancel E wx), wx, before, puts.
  split.
  { unfold Close. fold w0. rewrite HR. reflexivity. }
  split; [exact He |]. split; [exact Hhx |].
  split; [exact X1 |]. split; [exact X2 |]. split; [exact X3 |].
  split; [exact X4 |]. split; [exact X5 | exact X6].
Qed.

Lemma reachable_worldAfter (P : Z) (ops : list op) :
  0 < P ->
  (exists w, run okEnv ops (freshWorld P) = Returns w) ->
  reachable okEnv (worldAfter P ops).
Proof.
  intros HP [w H]. unfold reachable.
  exists (-1), {| BufSize := P |}, ["a"; "b"]%string, (TimeUnix 5), 7%nat, noPhantoms,
    (freshWorld P), ops.
  split; [exact HP |]. split; [reflexivity |].
  unfold worldAfter. rewrite H. reflexivity.
Qed.

Lemma Close_gap_fails_witness :
  exists e w',
    Close okEnv (worldAfter 4 [OpWriteAt (bytes "ab") 0; OpWriteAt (bytes "ef") 4])
    = Returns (Some e, w') /\
    multiPartUploadID (u w') = None /\
    ~ isAdding w' 0.
Proof.
  destruct (Close_gap_fails okEnv
              (worldAfter 4 [OpWriteAt (bytes "ab") 0; OpWriteAt (bytes "ef") 4]) 0)
    as (e & w' & wx & before & puts & HC & _ & _ & _ & _ & Hid & _ & _ & Hno).
  - apply reachable_worldAfter; [lia |]. eexists. vm_compute. reflexivity.
  - reflexivity.
  - vm_compute. lia.
  - eexists. split; vm_compute; reflexivity.
  - eexists. vm_compute. reflexivity.
  - exists e, w'. split; [exact HC |]. split; [exact Hid | apply Hno].
Defined.

(** ** Errors of the writer (C4) *)



Lemma abortCallOf_calls (w : World) :
  calls isAbort (abortCallOf w)
  = match multiPartUploadID (u w) with Some _ => 1%nat | None => 0%nat end.
Proof. unfold abortCallOf. destruct (multiPartUploadID (u w)); reflexivity. Qed.

(** C3.  The claim fails on a gap that is a whole part no write reached.
    Over buffers of 4 bytes, with every call to the object store accepted:
    after [abcd] at 0 and [ij] at 8 the bytes 4 to 7 are missing and the
    slot of the second part of [u.parts] is empty.  [Close] counts the
    parts in state [Adding] only, so it sees no gap: it sends the trailing
    part, lets the two parts be uploaded and completes the upload with the
    parts 1 and 3 and nothing for part 2; it returns no error and issues no
    [AbortMultipartUpload]. *)
Theorem Close_skips_empty_slot :
  let w := worldAfter 4 [OpWriteAt (bytes "abcd") 0; OpWriteAt (bytes "ij") 8] in
  exists w',
    map (option_map state) (parts (u w))
    = [Some S3PartUploadStateFull; None; Some S3PartUploadStateAdding] /\
    Close okEnv w = Returns (None, w') /\
    history w'
    = history w
        ++ [PhantomRemoveByInfoPtr 7; ChanSend 3;
            CallUploadPart "a/b" "upload-1" 1 (bytes "abcd"); PoolPut 1;
            CallUploadPart "a/b" "upload-1" 3 (bytes "ij"); PoolPut 3;
            CallCompleteMultipartUpload "a/b" "upload-1"
              [Some {| ETag := "etag"; PartNumber := 1 |}; None;
               Some {| ETag := "etag"; PartNumber := 3 |}]] /\
    calls isAbort (history w') = 0%nat.
Proof.
  cbv zeta. eexists.
  split; [vm_compute; reflexivity |].
  split; [vm_compute; reflexivity |].
  split; vm_compute; reflexivity.
Qed.

(** ** What one turn of the loop of WriteAt stores *)

Lemma slice_lookup {A : Type} (s : list A) (lo hi : Z) (r : list A) (t : Z) :
  slice s lo hi = Returns r -> 0 <= t < hi - lo ->
  r !! Z.to_nat t = s !! Z.to_nat (lo + t).
Proof.
  intros H Ht. apply slice_returns in H as (H1 & H2 & ->).
  rewrite lookup_take_lt by lia. rewrite lookup_drop. f_equal. lia.
Qed.

Lemma copy_slice_lookup {A : Type} (dst src : list A) (lo hi t : Z) :
  0 <= lo <= hi -> hi <= len dst -> len src = hi - lo -> 0 <= t < hi - lo ->
  copy_slice dst lo hi src !! Z.to_nat (lo + t) = src !! Z.to_nat t.
Proof.
  intros H1 H2 H3 Ht. unfold copy_slice, len in *.
  rewrite lookup_app_r by (rewrite length_take; lia).
  rewrite length_take.
  replace (Z.to_nat (lo + t) - Z.to_nat lo `min` length dst)%nat with (Z.to_nat t) by lia.
  rewrite lookup_app_l by (rewrite length_take; lia).
  rewrite lookup_take_lt by lia. reflexivity.
Qed.

Lemma failWriteAt_result (E : Env) (e : error) (w : World) :
  (failWriteAt E e w).1 = (0, Some e).
Proof. reflexivity. Qed.

(** A turn that makes [WriteAt] return makes it return an error. *)
Lemma WriteAt_iteration_Return (E : Env) (buf : list byte)
    (P pn po pending bo : Z) (w : World) res w' :
  WriteAt_iteration E buf P pn po pending bo w = Returns (Return res w') ->
  exists e, res = (0, Some e).
Proof.
  unfold WriteAt_iteration. intros H. bind_inv H as slot Hs.
  set (got := match slot with Some part => _ | None => _ end) in H.
  assert (Hgot : match got with inl failed => exists e, failed.1 = (0, Some e) | inr _ => True end).
  { subst got. destruct slot; [exact I |].
    destruct (MemoryBufferPool_Get E _ _); [| exact I]. eexists. reflexivity. }
  destruct got as [failed | [part w1]].
  { inversion H; subst. exact Hgot. }
  destruct (stateValue (state part) <? _); [| discriminate].
  bind_inv H as chunk Hc. bind_inv H as part' Hp.
  destruct (isFull part'); [| discriminate].
  bind_inv H as r Hr. destruct r as [[e |] w3]; [| discriminate].
  inversion H; subst. eexists. reflexivity.
Qed.

Lemma stateValue_Adding (st : S3PartUploadState) :
  (stateValue st <? stateValue S3PartUploadStateFull) = true <-> st = S3PartUploadStateAdding.
Proof. destruct st; cbn; split; intros H; congruence. Qed.

Lemma calls_log (kind : Event -> bool) (ev : Event) (w : World) :
  calls kind (history (log ev w))
  = (calls kind (history w) + if kind ev then 1 else 0)%nat.
Proof. cbn [history log]. rewrite calls_app. unfold calls. cbn. destruct (kind ev); reflexivity. Qed.

Lemma enqueueUpload_facts (E : Env) (i : nat) (part : S3PartToUpload) (w : World) e w' :
  parts (u w) !! i = Some (Some part) ->
  enqueueUpload E i w = Returns (e, w') ->
  e = None ->
  calls isPoolGet (history w') = calls isPoolGet (history w) /\
  (parts (u w') = parts (u w) \/
   parts (u w') = <[i := Some (setState S3PartUploadStateFull part)]> (parts (u w))).
Proof.
  intros Hi H ->. rewrite (enqueueUpload_eq E i part w Hi) in H.
  destruct (stateValue (state part) <? _).
  2: { inversion H; subst. auto. }
  assert (Htail : forall wc, parts (u wc) = parts (u w) ->
            calls isPoolGet (history wc) = calls isPoolGet (history w) ->
            enqueueTail E i part wc = (None, w') ->
            calls isPoolGet (history w') = calls isPoolGet (history w) /\
            parts (u w') = <[i := Some (setState S3PartUploadStateFull part)]> (parts (u w))).
  { intros wc Hp Hc Ht. unfold enqueueTail in Ht.
    destruct (Ctx_Done E _); [discriminate |]. inversion Ht; subst w'. wsimpl.
    rewrite calls_app, Hc, Hp. cbn. split; [lia | reflexivity]. }
  destruct (multiPartUploadID (u w)).
  - inversion H as [Heq]. destruct (Htail w eq_refl eq_refl Heq). auto.
  - cbv zeta in H.
    destruct (CreateMultipartUploadWithContext E _) as [e | id]; [discriminate |].
    inversion H as [Heq].
    assert (Hc : calls isPoolGet
                   (history (setUploadID (Some id)
                               (log (CallCreateMultipartUpload (keyOf w)) w)))
                 = calls isPoolGet (history w)).
    { wsimpl. rewrite calls_app. cbn. lia. }
    destruct (Htail (setUploadID (Some id) (log (CallCreateMultipartUpload (keyOf w)) w))
                    eq_refl Hc Heq). auto.
Qed.

(** A turn after which the loop goes on: [partCopied] bytes are accounted
    for; only the slot [pn] may have changed; the part in it is numbered
    [pn + 1]; if the slot took data the bytes are in the part, and if the
    part was [Full] or later it is what it was; the pool was asked for a
    buffer exactly when the slot held no part. *)
Lemma WriteAt_iteration_Continue (E : Env) (buf : list byte)
    (pn po pending bo : Z) (w w1 : World) (c : Z) :
  Inv w ->
  let P := BufSize (UploadMemoryBufferPool (u w)) in
  0 <= po < P -> 0 < pending -> 0 <= bo -> bo + pending <= len buf ->
  po + pending < two63 -> len buf < two63 ->
  WriteAt_iteration E buf P pn po pending bo w = Returns (Continue w1 c) ->
  c = Z.min (P - po) pending /\
  0 <= pn < len (parts (u w)) /\
  (forall j, j <> Z.to_nat pn -> parts (u w1) !! j = parts (u w) !! j) /\
  (exists part1,
      parts (u w1) !! Z.to_nat pn = Some (Some part1) /\
      partNumber part1 = pn + 1 /\
      (takesData w (Z.to_nat pn) ->
       forall t, 0 <= t < c ->
                 content part1 !! Z.to_nat (po + t) = buf !! Z.to_nat (bo + t)) /\
      (forall part, parts (u w) !! Z.to_nat pn = Some (Some part) ->
                    state part <> S3PartUploadStateAdding -> part1 = part)) /\
  calls isPoolGet (history w1)
  = (calls isPoolGet (history w) + if isNil w (Z.to_nat pn) then 1 else 0)%nat.
Proof.
  intros HI P Hpo Hpending Hbo Hlen Hov Hbuf H.
  pose proof HI as (HS & HG & HA). pose proof HS as (HP & HL & HK & HC).
  fold P in HP, HK.
  unfold WriteAt_iteration in H. bind_inv H as slot Hs.
  apply index_returns in Hs as [Hpn Hslot].
  assert (Hlt : (Z.to_nat pn < length (parts (u w)))%nat)
    by (eapply lookup_lt_Some; eassumption).
  (* the amounts *)
  assert (Hpof : (if wrap64 (po + pending) >? P then P else wrap64 (po + pending))
                 = po + Z.min (P - po) pending).
  { rewrite wrap64_id by (unfold in_int64, two63 in *; lia).
    destruct (po + pending >? P) eqn:Hc; lia. }
  rewrite Hpof in H.
  set (c0 := Z.min (P - po) pending) in *.
  assert (Hc0 : 1 <= c0 <= pending) by (subst c0; lia).
  replace (wrap64 (po + c0 - po)) with c0 in H
    by (rewrite wrap64_id; [lia | unfold in_int64, two63 in *; lia]).
  rewrite (wrap64_id (bo + c0)) in H by (unfold in_int64, two63 in *; lia).
  (* the part, allocated now if it was not *)
  set (got := match slot with Some part => _ | None => _ end) in H.
  assert (Hgot :
    match got with
    | inl _ => True
    | inr (part, wa) =>
        parts (u wa) = <[Z.to_nat pn := Some part]> (parts (u w)) /\
        partOK P (Z.to_nat pn) part /\
        calls isPoolGet (history wa)
        = (calls isPoolGet (history w) + if isNil w (Z.to_nat pn) then 1 else 0)%nat /\
        match slot with
        | Some p => part = p
        | None => state part = S3PartUploadStateAdding
        end
    end).
  { subst got. destruct slot as [part |].
    - split; [symmetry; apply list_insert_id; exact Hslot |].
      split; [apply HK; exact Hslot |]. unfold isNil. rewrite Hslot.
      split; [lia | reflexivity].
    - destruct (MemoryBufferPool_Get E _ _) as [e | b] eqn:Hget; [exact I |].
      unfold MemoryBufferPool_Get in Hget.
      destruct (Pool_Get E _); [discriminate |]. inversion Hget; subst b. clear Hget.
      wsimpl. split; [reflexivity |]. split.
      { unfold partOK. cbn [partNumber content o or_size or_ranges NewOffsetRanges].
        split; [rewrite wrap64_id; [lia | unfold in_int64, two63 in *; lia] |].
        split; [apply resize_len; exact HP |]. split; [reflexivity | constructor]. }
      unfold isNil. rewrite Hslot. rewrite calls_app. cbn. split; [lia | reflexivity]. }
  destruct got as [failed | [part wa]]; [discriminate |].
  destruct Hgot as (Hpa & Hok & Hcalls & Hwas).
  destruct Hok as (K1 & K2 & K3 & K4).
  assert (Hframe : forall w' p', parts (u w') = <[Z.to_nat pn := Some p']> (parts (u w)) ->
             forall j, j <> Z.to_nat pn -> parts (u w') !! j = parts (u w) !! j).
  { intros w' p' Hp' j Hj. rewrite Hp'. now rewrite list_lookup_insert_ne by congruence. }
  assert (Hhit : forall w' p', parts (u w') = <[Z.to_nat pn := Some p']> (parts (u w)) ->
             parts (u w') !! Z.to_nat pn = Some (Some p')).
  { intros w' p' Hp'. rewrite Hp'. now rewrite list_lookup_insert_eq by exact Hlt. }
  destruct (stateValue (state part) <? _) eqn:Hadding.
  - (* the part takes data *)
    apply stateValue_Adding in Hadding.
    bind_inv H as chunk Hchunk. bind_inv H as part' Hcopy.
    unfold part_copy in Hcopy. bind_inv Hcopy as dst Hdst.
    inversion Hcopy; subst part'. clear Hcopy.
    pose proof (slice_length _ _ _ _ Hchunk) as Hclen.
    set (part' := {| content := _; partNumber := _; o := _; state := _ |}) in H.
    assert (Hdata : forall t, 0 <= t < c0 ->
              content part' !! Z.to_nat (po + t) = buf !! Z.to_nat (bo + t)).
    { intros t Ht. subst part'. cbn [content].
      rewrite copy_slice_lookup by lia.
      apply (slice_lookup _ _ _ _ t Hchunk). lia. }
    assert (Hp2 : parts (u (setPart (Z.to_nat pn) part' wa))
                  = <[Z.to_nat pn := Some part']> (parts (u w))).
    { wsimpl. rewrite Hpa. apply list_insert_insert_eq. }
    assert (Hnot : forall p, slot = Some p -> state p <> S3PartUploadStateAdding -> False).
    { intros p -> Hne. rewrite Hwas in Hadding. congruence. }
    destruct (isFull part').
    + bind_inv H as r Hr. destruct r as [[e |] w3]; [discriminate |].
      inversion H; subst w1 c. clear H.
      destruct (enqueueUpload_facts E _ part' _ _ _ (Hhit _ _ Hp2) Hr eq_refl)
        as [Hc3 Hp3].
      split; [reflexivity |]. split; [exact Hpn |].
      assert (Hp3' : exists p3, parts (u w3) = <[Z.to_nat pn := Some p3]> (parts (u w)) /\
                                content p3 = content part' /\
                                partNumber p3 = partNumber part').
      { destruct Hp3 as [-> | ->].
        - exists part'. auto.
        - exists (setState S3PartUploadStateFull part'). rewrite Hp2.
          rewrite list_insert_insert_eq. auto. }
      destruct Hp3' as (p3 & Hp3' & Hc3' & Hn3').
      split; [apply (Hframe w3 p3 Hp3') |]. split.
      * exists p3. split; [apply (Hhit w3 p3 Hp3') |].
        split; [rewrite Hn3'; cbn [partNumber part']; lia |].
        split; [intros _ t Ht; rewrite Hc3'; apply Hdata, Ht |].
        intros p Hp Hne. exfalso. apply (Hnot p); congruence.
      * rewrite Hc3. wsimpl. exact Hcalls.
    + inversion H; subst w1 c. clear H.
      split; [reflexivity |]. split; [exact Hpn |].
      split; [apply (Hframe _ part' Hp2) |]. split.
      * exists part'. split; [apply (Hhit _ part' Hp2) |].
        split; [cbn [partNumber part']; lia |].
        split; [intros _; exact Hdata |].
        intros p Hp Hne. exfalso. apply (Hnot p); congruence.
      * wsimpl. exact Hcalls.
  - (* the part is full or later: nothing is copied *)
    inversion H; subst w1 c. clear H.
    assert (Hst : state part <> S3PartUploadStateAdding).
    { intros Hst. apply stateValue_Adding in Hst. congruence. }
    split; [reflexivity |]. split; [exact Hpn |].
    split; [apply (Hframe wa part Hpa) |]. split.
    + exists part. split; [apply (Hhit wa part Hpa) |].
      split; [lia |]. split.
      * intros Htd. exfalso. destruct slot as [p |].
        -- subst p. apply Hst, Htd, Hslot.
        -- congruence.
      * intros p Hp _. destruct slot as [p' |]; congruence.
    + exact Hcalls.
Qed.

(** ** Where the bytes of a write go (C8, C10) *)

Lemma div_part (P pn r : Z) : 0 < P -> 0 <= r < P -> (pn * P + r) / P = pn.
Proof.
  intros HP Hr. rewrite Z.add_comm, Z.div_add by lia.
  rewrite Z.div_small by lia. lia.
Qed.

Lemma mod_part (P pn r : Z) : 0 < P -> 0 <= r < P -> (pn * P + r) mod P = r.
Proof.
  intros HP Hr. rewrite Z.add_comm, Z.mod_add by lia. apply Z.mod_small. lia.
Qed.

Lemma touchedParts_none (P off n : Z) : n <= 0 -> touchedParts P off n = [].
Proof. intros H. unfold touchedParts. replace (n <=? 0) with true by lia. reflexivity. Qed.

Lemma touchedParts_one (P pn po n : Z) :
  0 < P -> 0 <= pn -> 0 <= po -> 0 < n -> po + n <= P ->
  touchedParts P (pn * P + po) n = [Z.to_nat pn].
Proof.
  intros HP Hpn Hpo Hn Hfit. unfold touchedParts.
  replace (n <=? 0) with false by lia.
  rewrite (div_part P pn po) by lia.
  replace (pn * P + po + n - 1) with (pn * P + (po + n - 1)) by lia.
  rewrite div_part by lia.
  replace (pn - pn + 1) with 1 by lia. reflexivity.
Qed.

Lemma touchedParts_more (P pn po n : Z) :
  0 < P -> 0 <= pn -> 0 <= po < P -> P < po + n ->
  touchedParts P (pn * P + po) n
  = Z.to_nat pn :: touchedParts P ((pn + 1) * P + 0) (n - (P - po)).
Proof.
  intros HP Hpn Hpo Hn. unfold touchedParts.
  replace (n <=? 0) with false by lia.
  replace (n - (P - po) <=? 0) with false by lia.
  rewrite (div_part P pn po) by lia.
  rewrite (div_part P (pn + 1) 0) by lia.
  replace ((pn + 1) * P + 0 + (n - (P - po)) - 1) with (pn * P + po + n - 1) by lia.
  set (q := (pn * P + po + n - 1) / P).
  assert (Hq : pn + 1 <= q).
  { subst q. apply Z.div_le_lower_bound; [lia |]. nia. }
  replace (Z.to_nat (q - pn + 1)) with (S (Z.to_nat (q - (pn + 1) + 1))) by lia.
  cbn [seq]. f_equal. f_equal. lia.
Qed.

Lemma touchedParts_ge (P off n : Z) (j : nat) :
  In j (touchedParts P off n) -> (Z.to_nat (off / P) <= j)%nat.
Proof.
  unfold touchedParts. destruct (n <=? 0); [intros [] |].
  intros H. apply in_seq in H. lia.
Qed.


Lemma isNil_frame (w w1 : World) (l : list nat) :
  (forall j, In j l -> parts (u w1) !! j = parts (u w) !! j) ->
  List.filter (isNil w1) l = List.filter (isNil w) l.
Proof.
  intros H. apply List.filter_ext_in. intros j Hj. unfold isNil. now rewrite H.
Qed.

(** The loop of [WriteAt], when it ends well: the slots below the first
    part are left alone; each byte that is still to be written is, at the
    end, in a part with the right number, at the right place if the part
    took data, and a part that took no data is what it was; the pool has
    been asked once for each slot that held no part. *)
Lemma WriteAt_loop_stores (E : Env) (buf : list byte) (fuel : nat) :
  forall pn po pending bo w n w',
    Inv w -> u_err (u w) = None ->
    let P := BufSize (UploadMemoryBufferPool (u w)) in
    0 <= pn -> 0 <= po < P -> 0 <= pending -> 0 <= bo -> bo + pending <= len buf ->
    (0 < pending -> pn * P + po + pending < two63) -> len buf < two63 ->
    WriteAt_loop fuel E buf P pn po pending bo w = Returns ((n, None), w') ->
    n = len buf /\
    (forall j, (j < Z.to_nat pn)%nat -> parts (u w') !! j = parts (u w) !! j) /\
    (forall t, 0 <= t < pending ->
       exists part,
         parts (u w') !! Z.to_nat ((pn * P + po + t) / P) = Some (Some part) /\
         partNumber part = (pn * P + po + t) / P + 1 /\
         (takesData w (Z.to_nat ((pn * P + po + t) / P)) ->
          content part !! Z.to_nat ((pn * P + po + t) mod P) = buf !! Z.to_nat (bo + t)) /\
         (forall p, parts (u w) !! Z.to_nat ((pn * P + po + t) / P) = Some (Some p) ->
                    state p <> S3PartUploadStateAdding -> part = p)) /\
    calls isPoolGet (history w')
    = (calls isPoolGet (history w)
       + length (List.filter (isNil w) (touchedParts P (pn * P + po) pending)))%nat.
Proof.
  induction fuel as [| fuel IH];
    intros pn po pending bo w n w' HI Herr P Hpn Hpo Hpend Hbo Hlen Hov Hbuf H;
    cbn [WriteAt_loop] in H.
  - destruct (pending >? 0) eqn:Hp; [discriminate |]. inversion H; subst.
    split; [reflexivity |]. split; [reflexivity |]. split; [intros t Ht; lia |].
    rewrite touchedParts_none by lia. cbn. lia.
  - destruct (pending >? 0) eqn:Hp.
    2: { inversion H; subst.
         split; [reflexivity |]. split; [reflexivity |]. split; [intros t Ht; lia |].
         rewrite touchedParts_none by lia. cbn. lia. }
    assert (HP : 0 < P) by lia.
    assert (Hov' : pn * P + po + pending < two63) by (apply Hov; lia).
    bind_inv H as st Hst.
    pose proof (WriteAt_iteration_Inv E buf pn po pending bo w st HI Herr Hst) as Hinv.
    destruct st as [w1 c | res w1].
    2: { apply WriteAt_iteration_Return in Hst as [e ->]. inversion H. }
    destruct Hinv as (HI1 & Herr1 & Hpool1).
    apply WriteAt_iteration_Continue in Hst; [| exact HI | lia | lia | lia | lia | nia | lia].
    fold P in Hst. destruct Hst as (Hc & Hpn1 & Hframe & (part1 & Hp1 & Hn1 & Hdata & Hsame) & Hcalls).
    assert (HL : len (parts (u w)) < two63) by apply HI.
    rewrite (wrap64_id (pn + 1)) in H by (unfold in_int64, two63 in *; lia).
    rewrite (wrap64_id (pending - c)) in H by (unfold in_int64, two63 in *; lia).
    rewrite (wrap64_id (bo + c)) in H by (unfold in_int64, two63 in *; lia).
    assert (HP1 : BufSize (UploadMemoryBufferPool (u w1)) = P) by (unfold P; congruence).
    rewrite <- HP1 in H.
    apply IH in H; [| exact HI1 | exact Herr1 | lia | lia | lia | lia | lia | | lia].
    2: { intros Hmore. assert (c = P - po) by lia. lia. }
    rewrite HP1 in H. destruct H as (Hn & Hframe' & Hstored' & Hcalls').
    assert (Hslot : parts (u w') !! Z.to_nat pn = Some (Some part1)).
    { rewrite Hframe' by lia. exact Hp1. }
    split; [exact Hn |]. split.
    { intros j Hj. rewrite Hframe' by lia. apply Hframe. lia. }
    split.
    + intros t Ht. destruct (Z.lt_ge_cases t c) as [Hin | Hout].
      * (* a byte of this turn *)
        replace (pn * P + po + t) with (pn * P + (po + t)) by lia.
        rewrite div_part, mod_part by lia.
        exists part1. split; [exact Hslot |]. split; [exact Hn1 |].
        split; [intros Htd; apply Hdata; [exact Htd | lia] | exact Hsame].
      * (* a byte of a later turn *)
        assert (Hc' : c = P - po) by lia.
        destruct (Hstored' (t - c)) as (part & Hq1 & Hq2 & Hq3 & Hq4); [lia |].
        replace ((pn + 1) * P + 0 + (t - c)) with (pn * P + po + t) in * by lia.
        set (q := (pn * P + po + t) / P) in *.
        assert (Hq : pn + 1 <= q).
        { subst q. apply Z.div_le_lower_bound; [lia |]. nia. }
        assert (Hne : Z.to_nat q <> Z.to_nat pn) by lia.
        exists part. split; [exact Hq1 |]. split; [exact Hq2 |]. split.
        -- intros Htd. replace (bo + t) with (bo + c + (t - c)) by lia. apply Hq3.
           unfold takesData in *. rewrite (Hframe _ Hne). exact Htd.
        -- intros p Hpp. apply Hq4. rewrite (Hframe _ Hne). exact Hpp.
    + rewrite Hcalls', Hcalls. destruct (Z.le_gt_cases pending (P - po)) as [Hfit | Hmore].
      * rewrite (touchedParts_one P pn po pending) by lia.
        rewrite touchedParts_none by lia. cbn [List.filter length].
        destruct (isNil w (Z.to_nat pn)); cbn; lia.
      * rewrite (touchedParts_more P pn po pending) by lia.
        replace (pending - c) with (pending - (P - po)) by lia.
        cbn [List.filter].
        rewrite (isNil_frame w w1).
        2: { intros j Hj. apply touchedParts_ge in Hj.
             rewrite (div_part P (pn + 1) 0) in Hj by lia. apply Hframe. lia. }
        destruct (isNil w (Z.to_nat pn)); cbn [length]; lia.
Qed.

(** What [WriteAt] does before its loop, when it ends well: the slots that
    are missing are added, empty, and the loop starts at the part and the
    offset of the first byte. *)
Lemma WriteAt_prologue (E : Env) (buf : list byte) (off : Z) (w : World) n w' :
  Inv w -> 0 <= off -> off + len buf < two63 ->
  WriteAt E buf off w = Returns ((n, None), w') ->
  let P := BufSize (UploadMemoryBufferPool (u w)) in
  exists w2,
    Inv w2 /\ u_err (u w2) = None /\
    UploadMemoryBufferPool (u w2) = UploadMemoryBufferPool (u w) /\
    history w2 = history w /\
    (forall j, parts (u w2) !! j = parts (u w) !! j \/
               (parts (u w2) !! j = Some None /\ parts (u w) !! j = None)) /\
    WriteAt_loop (S (length buf)) E buf P (off / P) (off mod P) (len buf) 0 w2
    = Returns ((n, None), w').
Proof.
  intros HI Hoff Hov H P. unfold WriteAt in H. fold P in H.
  pose proof HI as (HS & HG & HA). pose proof HS as (HP & HL & _). fold P in HP.
  replace (P =? 0) with false in H by lia.
  destruct (u_err (u w)) as [e |] eqn:Herr; [inversion H |].
  destruct (_ && _); [inversion H |].
  bind_inv H as w2 Hw2.
  set (w1 := setPhantoms _ w) in *.
  assert (HI1 : Inv w1) by exact HI.
  exists w2.
  assert (H2 : Inv w2 /\ u_err (u w2) = None /\
               UploadMemoryBufferPool (u w2) = UploadMemoryBufferPool (u w) /\
               history w2 = history w /\
               (forall j, parts (u w2) !! j = parts (u w) !! j \/
                          (parts (u w2) !! j = Some None /\ parts (u w) !! j = None))).
  { destruct (len (parts (u w1)) <=? _).
    - destruct (wrap64 _ <? 0) eqn:Hneg; [discriminate |].
      inversion Hw2; subst w2. wsimpl.
      split; [| split; [exact Herr | split; [reflexivity | split; [reflexivity |]]]].
      + split; [| split; [exact HG | exact HA]].
        apply (InvS_grow w1); [exact HS |]. wsimpl.
        unfold len in *. rewrite length_app, repeat_length.
        match goal with
        | |- context [Z.to_nat (wrap64 ?x)] =>
            pose proof (wrap64_range x) as Hr; set (m := wrap64 x) in *
        end.
        change (length (parts (u w1))) with (length (parts (u w))).
        unfold in_int64, two63 in *. lia.
      + intros j. destruct (parts (u w) !! j) as [slot |] eqn:Hj.
        * left. apply lookup_app_l_Some. exact Hj.
        * destruct ((parts (u w) ++ _) !! j) as [slot |] eqn:Hj2; [| left; reflexivity].
          right. split; [| reflexivity].
          apply lookup_app_Some in Hj2 as [Hj2 | [_ Hj2]]; [congruence |].
          apply lookup_repeat in Hj2. congruence.
    - inversion Hw2; subst w2.
      split; [exact HI1 |]. split; [exact Herr |]. split; [reflexivity |].
      split; [reflexivity |]. intros j. left. reflexivity. }
  destruct H2 as (HI2 & Herr2 & Hpool2 & Hh2 & Hp2).
  split; [exact HI2 |]. split; [exact Herr2 |]. split; [exact Hpool2 |].
  split; [exact Hh2 |]. split; [exact Hp2 |].
  rewrite Z.quot_div_nonneg, Z.rem_mod_nonneg in H by lia.
  assert (0 <= off / P) by (apply Z.div_pos; lia).
  assert (off / P <= off) by (apply Z.div_le_upper_bound; nia).
  pose proof (len_nonneg buf).
  rewrite (wrap64_id (off / P)) in H by (unfold in_int64, two63 in *; lia).
  exact H.
Qed.

(** C8, as stated, fails: the bytes of a write do not all end up in a
    part.  Over buffers of 4 bytes, [abcd] at 0 fills the first part, which
    goes to the workers; [wxyz] at 0 then returns [(4, nil)] and the part
    still holds [abcd]. *)
Lemma WriteAt_full_part_keeps_old_bytes :
  exists w' part,
    WriteAt okEnv (bytes "wxyz") 0 (worldAfter 4 [OpWriteAt (bytes "abcd") 0])
    = Returns ((4, None), w') /\
    parts (u w') !! 0%nat = Some (Some part) /\
    partNumber part = spec_partNumber 4 0 /\
    content part = bytes "abcd" /\
    content part !! Z.to_nat (spec_partOffset 4 0) <> bytes "wxyz" !! 0%nat.
Proof.
  eexists. eexists.
  split; [vm_compute; reflexivity |].
  split; [vm_compute; reflexivity |].
  split; [vm_compute; reflexivity |].
  split; [vm_compute; reflexivity |].
  vm_compute. discriminate.
Qed.

(** C8, amended.  For a writer in a world it can reach, and a
    [WriteAt(buf, off)] that returns without error, at an offset that is not
    negative and with [off + len(buf)] an [int]: the call returns
    [len(buf)]; each byte of [buf], at the absolute offset [o = off + k],
    has its part in the slot [o / P], numbered [(o / P) + 1], and, unless
    that part was already [Full] or in a later state before the call, the
    part holds the byte at the offset [o mod P]; and the pool has been asked
    for one buffer for each touched slot that held no part. *)
Theorem WriteAt_stores_bytes (E : Env) (buf : list byte) (off : Z) (w w' : World) (n : Z) :
  reachable E w -> 0 <= off -> off + len buf < two63 ->
  WriteAt E buf off w = Returns ((n, None), w') ->
  let P := BufSize (UploadMemoryBufferPool (u w)) in
  n = len buf /\
  (forall k, 0 <= k < len buf ->
     exists part,
       parts (u w') !! Z.to_nat ((off + k) / P) = Some (Some part) /\
       partNumber part = spec_partNumber P (off + k) /\
       (takesData w (Z.to_nat ((off + k) / P)) ->
        content part !! Z.to_nat (spec_partOffset P (off + k)) = buf !! Z.to_nat k)) /\
  calls isPoolGet (history w')
  = (calls isPoolGet (history w)
     + length (List.filter (isNil w) (touchedParts P off (len buf))))%nat.
Proof.
  intros Hreach Hoff Hov H P.
  pose proof (reachable_Inv _ _ Hreach) as HI.
  assert (HP : 0 < P) by apply HI.
  destruct (WriteAt_prologue E buf off w n w' HI Hoff Hov H)
    as (w2 & HI2 & Herr2 & Hpool2 & Hh2 & Hp2 & Hloop).
  fold P in Hloop.
  assert (HP2 : BufSize (UploadMemoryBufferPool (u w2)) = P) by (unfold P; congruence).
  pose proof (len_nonneg buf) as Hlen.
  pose proof (Z.div_mod off P ltac:(lia)) as Hdm.
  pose proof (Z.mod_pos_bound off P HP) as Hmod.
  assert (Hoff' : off / P * P + off mod P = off) by lia.
  pose proof (WriteAt_loop_stores E buf (S (length buf)) (off / P) (off mod P)
                (len buf) 0 w2 n w' HI2 Herr2) as HL.
  cbv zeta in HL. rewrite HP2, Hoff' in HL.
  destruct HL as (Hn & _ & Hstored & Hcalls);
    [apply Z.div_pos; lia | lia | lia | lia | lia | lia | lia | exact Hloop |].
  split; [exact Hn |]. split.
  - intros k Hk. destruct (Hstored k Hk) as (part & Hq1 & Hq2 & Hq3 & _).
    exists part. split; [exact Hq1 |]. split; [exact Hq2 |].
    intros Htd. unfold spec_partOffset. apply Hq3.
    intros p Hp. apply Htd. destruct (Hp2 (Z.to_nat ((off + k) / P))) as [He | [He _]];
      congruence.
  - rewrite Hcalls, Hh2. f_equal. f_equal.
    apply List.filter_ext. intros j. unfold isNil.
    destruct (Hp2 j) as [He | [He1 He2]]; [now rewrite He | now rewrite He1, He2].
Qed.

Lemma WriteAt_stores_bytes_witness :
  exists part,
    parts (u (worldAfter 4 [OpWriteAt (bytes "abcdef") 2])) !! 1%nat = Some (Some part) /\
    partNumber part = 2 /\
    content part !! 3%nat = bytes "abcdef" !! 5%nat.
Proof.
  destruct (WriteAt_stores_bytes okEnv (bytes "abcdef") 2 (freshWorld 4)
              (worldAfter 4 [OpWriteAt (bytes "abcdef") 2]) 6)
    as (_ & Hstored & _).
  - apply (reachable_worldAfter 4 []); [lia |]. eexists. reflexivity.
  - lia.
  - vm_compute. reflexivity.
  - vm_compute. reflexivity.
  - destruct (Hstored 5) as (part & H1 & H2 & H3); [vm_compute; split; [discriminate | reflexivity] |].
    exists part. split; [exact H1 |]. split; [exact H2 |].
    apply H3. intros p Hp. discriminate Hp.
Defined.

(** ** Parts that take no data any more (C10) *)














(** ** One short write, then Close (C1) *)

Lemma slice_all {A : Type} (s : list A) : slice s 0 (len s) = Returns s.
Proof.
  rewrite slice_ok by (pose proof (len_nonneg s); lia).
  rewrite Z.sub_0_r. unfold len. rewrite Nat2Z.id. cbn [Z.to_nat skipn].
  now rewrite firstn_all.
Qed.

Lemma WriteAt_loop_nothing_pending (fuel : nat) (E : Env) (buf : list byte)
    (P pn po bo : Z) (w : World) :
  WriteAt_loop fuel E buf P pn po 0 bo w = Returns ((len buf, None), w).
Proof. destruct fuel; reflexivity. Qed.

Lemma copy_slice_prefix {A : Type} (dst src : list A) :
  len src <= len dst ->
  slice (copy_slice dst 0 (len src) src) 0 (len src) = Returns src.
Proof.
  intros H. pose proof (len_nonneg src) as H0.
  rewrite slice_ok; [| lia | unfold len; rewrite copy_slice_length; unfold len in *; lia].
  rewrite Z.sub_0_r. unfold copy_slice, len. rewrite Z.sub_0_r, Nat2Z.id.
  rewrite Nat.min_id, firstn_all. change (Z.to_nat 0) with 0%nat.
  rewrite firstn_O, skipn_O. cbn [app].
  rewrite firstn_app, firstn_all, Nat.sub_diag, firstn_O. now rewrite app_nil_r.
Qed.

(** The first write on a new writer, at offset 0 and shorter than a
    buffer. *)
Lemma short_WriteAt (E : Env) (maxObjectSize : Z) (pool : MemoryBufferPool)
    (key : Path) (now : time) (info : nat) (m : PhantomObjectMap) (w0 : World)
    (buf stale : list byte) :
  Filewrite true maxObjectSize pool key now info m = inr w0 ->
  0 < len buf < BufSize pool -> BufSize pool < two63 ->
  maxObjectSize < 0 \/ len buf <= maxObjectSize ->
  Pool_Get E [PoolGet] = inr stale ->
  WriteAt E buf 0 w0 = Returns ((len buf, None), afterShortWrite stale buf w0).
Proof.
  intros Hf Hlen HP Hmax Hb.
  unfold Filewrite in Hf. cbn [negb] in Hf. inversion Hf; subst w0; clear Hf.
  destruct pool as [P]. cbn [BufSize] in *.
  set (M := if maxObjectSize <? 0 then two63 - 1 else maxObjectSize).
  assert (HM : 0 <= M /\ len buf <= M).
  { subst M. destruct (maxObjectSize <? 0) eqn:Hc; unfold two63 in *; lia. }
  unfold WriteAt. wsimpl. cbn [BufSize].
  replace (P =? 0) with false by lia.
  rewrite Z.add_0_l. rewrite (wrap64_id (len buf)) by (unfold in_int64, two63 in *; lia).
  replace ((M >=? 0) && (len buf >? M)) with false
    by (replace (M >=? 0) with true by lia; cbn; lia).
  rewrite (wrap64_id (len buf - 1)) by (unfold in_int64, two63 in *; lia).
  rewrite Z.quot_small by lia.
  change (Z.quot 0 P) with 0. change (Z.rem 0 P) with 0.
  rewrite (wrap64_id 0) by (unfold in_int64, two63; lia).
  change (len (@nil (option S3PartToUpload)) <=? 0) with true. cbv iota.
  rewrite (wrap64_id (0 + 1)) by (unfold in_int64, two63; lia).
  change (0 + 1 <? 0) with false. cbv iota. cbn [obind].
  change (Z.to_nat (0 + 1) - length (@nil (option S3PartToUpload)))%nat with 1%nat.
  cbn [repeat app].
  cbn [WriteAt_loop]. replace (len buf >? 0) with true by lia.
  unfold WriteAt_iteration. wsimpl.
  change (index [None] 0) with (Returns (@None S3PartToUpload)). cbn [obind].
  cbn [app]. unfold MemoryBufferPool_Get. rewrite Hb. cbn [BufSize].
  cbn [state stateValue]. change (0 <? 1) with true. cbv iota.
  rewrite !Z.add_0_l. rewrite (wrap64_id (len buf)) by (unfold in_int64, two63 in *; lia).
  replace (len buf >? P) with false by lia. rewrite Z.sub_0_r.
  rewrite (wrap64_id (len buf)) by (unfold in_int64, two63 in *; lia).
  rewrite (wrap64_id 1) by (unfold in_int64, two63 in *; lia).
  assert (Hres : len (resize (Z.to_nat P) Byte.x00 stale) = P) by (apply resize_len; lia).
  rewrite (wrap64_id (len buf)) by (unfold in_int64, two63 in *; lia).
  rewrite (slice_all buf). cbn [obind]. change (Z.to_nat 0) with 0%nat.
  unfold part_copy. cbn [content partNumber o state].
  rewrite (slice_ok _ 0 (len buf)) by lia. cbn [obind].
  unfold isFull, IsFull, GetMaxValidOffset, OffsetRanges_Add, NewOffsetRanges.
  cbn [o or_ranges or_size mergeRange List.find fst snd].
  change (0 <=? 0) with true. replace (0 <? len buf) with true by lia. cbn [andb].
  cbn [snd]. replace (len buf =? P) with false by lia. cbn [obind].
  rewrite Z.sub_diag. rewrite (wrap64_id 0) by (unfold in_int64, two63 in *; lia).
  rewrite WriteAt_loop_nothing_pending. reflexivity.
Qed.

(** [Close] after that write: one [PutObject] with the bytes written, whose
    answer is the answer of [Close]. *)
Lemma short_Close (E : Env) (maxObjectSize : Z) (pool : MemoryBufferPool)
    (key : Path) (now : time) (info : nat) (m : PhantomObjectMap) (w0 : World)
    (buf stale : list byte) :
  Filewrite true maxObjectSize pool key now info m = inr w0 ->
  0 < len buf < BufSize pool -> BufSize pool < two63 ->
  exists w2,
    Close E (afterShortWrite stale buf w0)
    = Returns (PutObjectWithContext E (removelast (putObjectHistory info key buf)), w2) /\
    history w2 = putObjectHistory info key buf.
Proof.
  intros Hf Hlen HP.
  unfold Filewrite in Hf. cbn [negb] in Hf. inversion Hf; subst w0; clear Hf.
  destruct pool as [P]. cbn [BufSize] in *.
  set (M := if maxObjectSize <? 0 then two63 - 1 else maxObjectSize).
  assert (Hres : len (resize (Z.to_nat P) Byte.x00 stale) = P) by (apply resize_len; lia).
  unfold Close, afterPhantomRemoval, afterShortWrite. wsimpl. cbn [BufSize].
  change (len [Some (shortPart P stale buf)] =? 1) with true. cbn [andb].
  unfold Close_putObject. wsimpl.
  change (index [Some (shortPart P stale buf)] 0) with (Returns (Some (shortPart P stale buf))).
  cbn [obind deref].
  unfold getContent, GetMaxValidOffset. cbn [shortPart o or_ranges List.find fst snd content partNumber].
  change (0 <=? 0) with true. replace (0 <? len buf) with true by lia. cbn [andb snd].
  replace (len buf =? -1) with false by lia.
  rewrite copy_slice_prefix by lia. cbn [obind].
  unfold s3PutObject.
  match goal with
  | |- context [keyOf ?w] => assert (Hkey : keyOf w = Path_String key)
  end.
  { unfold keyOf, GetOne. wsimpl.
    unfold PhantomObjectMap_RemoveByInfoPtr, SetSizeIfGreater, PhantomObjectMap_Add.
    cbn [ph_heap]. rewrite Nat.eqb_refl. cbn [ph_Size ph_Key].
    destruct (0 <? len buf); cbn [ph_heap]; rewrite ?Nat.eqb_refl; reflexivity. }
  rewrite Hkey. wsimpl. cbn [app].
  change (removelast (putObjectHistory info key buf))
    with [PoolGet; PhantomRemoveByInfoPtr info; CallPutObject (Path_String key) buf].
  destruct (PutObjectWithContext E _) as [e |]; cbn [obind].
  - eexists. split; [reflexivity |]. reflexivity.
  - eexists. split; [reflexivity |]. reflexivity.
Qed.

(** C1, as stated, fails when the write is as long as a part.  Over
    buffers of 4 bytes, [abcd] at 0 fills the part: [WriteAt] opens a
    multipart upload and sends the part to the workers, and [Close]
    completes that upload; [PutObject] is never called. *)
Lemma full_part_write_goes_multipart :
  len (bytes "abcd") <= BufSize (UploadMemoryBufferPool (u (freshWorld 4))) /\
  exists w1 w2,
    WriteAt okEnv (bytes "abcd") 0 (freshWorld 4) = Returns ((4, None), w1) /\
    Close okEnv w1 = Returns (None, w2) /\
    calls isPutObject (history w2) = 0%nat /\
    calls isCreate (history w2) = 1%nat /\
    calls isUploadPart (history w2) = 1%nat /\
    calls isComplete (history w2) = 1%nat.
Proof.
  split; [vm_compute; discriminate |].
  eexists. eexists.
  split; [vm_compute; reflexivity |].
  split; [vm_compute; reflexivity |].
  split; [vm_compute; reflexivity |].
  split; [vm_compute; reflexivity |].
  split; vm_compute; reflexivity.
Qed.

(** C1, amended.  On a new writer over buffers of [P] bytes, [P] an [int],
    a single [WriteAt(buf, 0)] with [0 < len(buf) < P], within the size
    limit and with a buffer in the pool, returns [(len(buf), nil)]; [Close]
    then makes exactly one [PutObject] call, with [buf] as its body, makes no
    [CreateMultipartUpload], [UploadPart], [CompleteMultipartUpload] or
    [AbortMultipartUpload] call, and returns what [PutObject] returned: no
    error when that call succeeded. *)
Theorem short_write_then_Close_uses_PutObject (E : Env) (maxObjectSize : Z)
    (pool : MemoryBufferPool) (key : Path) (now : time) (info : nat)
    (m : PhantomObjectMap) (w0 : World) (buf stale : list byte) :
  Filewrite true maxObjectSize pool key now info m = inr w0 ->
  0 < len buf < BufSize pool -> BufSize pool < two63 ->
  maxObjectSize < 0 \/ len buf <= maxObjectSize ->
  Pool_Get E [PoolGet] = inr stale ->
  exists w1 w2,
    WriteAt E buf 0 w0 = Returns ((len buf, None), w1) /\
    Close E w1
    = Returns (PutObjectWithContext E (removelast (putObjectHistory info key buf)), w2) /\
    history w2 = putObjectHistory info key buf /\
    calls isPutObject (history w2) = 1%nat /\
    calls isMultipartCall (history w2) = 0%nat.
Proof.
  intros Hf Hlen HP Hmax Hb.
  destruct (short_Close E maxObjectSize pool key now info m w0 buf stale Hf Hlen HP)
    as (w2 & HC & Hh).
  exists (afterShortWrite stale buf w0), w2.
  split; [eapply short_WriteAt; eassumption |].
  split; [exact HC |]. split; [exact Hh |].
  rewrite Hh. split; reflexivity.
Qed.

Lemma short_write_then_Close_uses_PutObject_witness :
  exists w1 w2,
    WriteAt okEnv (bytes "abc") 0 (freshWorld 4) = Returns ((3, None), w1) /\
    Close okEnv w1 = Returns (None, w2) /\
    history w2 = [PoolGet; PhantomRemoveByInfoPtr 7;
                  CallPutObject "a/b" (bytes "abc"); PoolPut 1].
Proof.
  destruct (short_write_then_Close_uses_PutObject okEnv (-1) {| BufSize := 4 |}
              ["a"; "b"]%string (TimeUnix 5) 7%nat noPhantoms (freshWorld 4)
              (bytes "abc") [])
    as (w1 & w2 & H1 & H2 & H3 & _).
  - reflexivity.
  - vm_compute. split; reflexivity.
  - reflexivity.
  - left. reflexivity.
  - reflexivity.
  - exists w1, w2. split; [exact H1 |]. split; [exact H2 | exact H3].
Defined.

(** ** The reader on the object [hello] (C2) *)

(** C2 at [Lookback = 2] and [MinChunkSize = 1].  The first read of 3
    bytes at 0 returns [(3, nil)] with [hel]; the second, of 3 bytes at 2,
    takes one byte from the spool and two from the body, leaves [llo] in
    the buffer and returns [(2, nil)], the count of the bytes that came
    from the body; the third, of 1 byte at 5, returns [(0, EOF)]. *)
Theorem ReadAt_hello_second_read_returns_2 :
  exists r1 oor1 r2 oor2 r3 oor3,
    ReadAt false (helloReader 2 1) (buffer 3) 0 = Returns (r1, oor1) /\
    (rd_n r1, rd_err r1, rd_buf r1) = (3, None, bytes "hel") /\
    ReadAt false oor1 (buffer 3) 2 = Returns (r2, oor2) /\
    (rd_n r2, rd_err r2, rd_buf r2) = (2, None, bytes "llo") /\
    ReadAt false oor2 (buffer 1) 5 = Returns (r3, oor3) /\
    (rd_n r3, rd_err r3) = (0, Some EOF).
Proof.
  do 6 eexists.
  split; [vm_compute; reflexivity |].
  split; [vm_compute; reflexivity |].
  split; [vm_compute; reflexivity |].
  split; [vm_compute; reflexivity |].
  split; vm_compute; reflexivity.
Qed.

(** With a chunk as large as the object the first read spools all of it,
    and the second read, served from the spool, returns [(3, nil)]. *)
Lemma ReadAt_hello_from_spool :
  exists r1 oor1 r2 oor2,
    ReadAt false (helloReader 2 5) (buffer 3) 0 = Returns (r1, oor1) /\
    ReadAt false oor1 (buffer 3) 2 = Returns (r2, oor2) /\
    (rd_n r2, rd_err r2, rd_buf r2) = (3, None, bytes "llo").
Proof.
  do 4 eexists.
  split; [vm_compute; reflexivity |].
  split; vm_compute; reflexivity.
Qed.

Lemma lister_page_spooled_witness :
  exists r sol',
    S3ObjectLister_ListAt pagedS3 noPhantoms listerAfterFirstPage [None; None] 3
    = Returns (r, sol') /\
    sol_spooled sol'
    = keptEntries 10 (sol_spooled listerAfterFirstPage)
        ++ pageEntries noPhantoms listerAfterFirstPage secondPage.
Proof.
  destruct (lister_page_spooled pagedS3 noPhantoms listerAfterFirstPage
              [None; None] 3 secondPage)
    as (r & sol' & H1 & H2 & _).
  - reflexivity.
  - vm_compute. intuition discriminate.
  - vm_compute. intuition discriminate.
  - vm_compute. reflexivity.
  - vm_compute. intuition discriminate.
  - vm_compute. reflexivity.
  - reflexivity.
  - exists r, sol'. split; [exact H1 | exact H2].
Defined.

(** ** The writer at its edges *)

Lemma reachable_worldUnder (E : Env) (P : Z) (ops : list op) :
  0 < P ->
  (exists w, run E ops (freshWorld P) = Returns w) ->
  reachable E (worldUnder E P ops).
Proof.
  intros HP [w H]. unfold reachable.
  exists (-1), {| BufSize := P |}, ["a"; "b"]%string, (TimeUnix 5), 7%nat, noPhantoms,
    (freshWorld P), ops.
  split; [exact HP |]. split; [reflexivity |].
  unfold worldUnder. rewrite H. reflexivity.
Qed.

Lemma no_part_Adding_after_cancel (E : Env) (w : World) :
  forall j, ~ isAdding (abortAndCancel E w) j.
Proof.
  intros j (part & Hl & Hst).
  destruct (abortAndCancel_spec E w) as (Hp & _). rewrite Hp in Hl.
  destruct (parts (u w) !! j) as [slot |]; [| discriminate].
  cbn in Hl. inversion Hl as [Hc]. apply cancelPart_not_Adding in Hc. congruence.
Qed.

(** X1.  [Close] of a writer that has an error on record returns that
    error.  All it does besides removing the phantom entry is to abort the
    multipart upload, if one is open, and to give back the buffers of the
    parts still being filled; it issues neither [PutObject] nor
    [CompleteMultipartUpload], and leaves no upload open and no part in
    state [Adding]. *)
Theorem Close_with_error_on_record (E : Env) (w : World) (e : error) :
  u_err (u w) = Some e ->
  exists w' puts,
    Close E w = Returns (Some e, w') /\
    history w'
    = history w ++ PhantomRemoveByInfoPtr (Info (u w)) :: abortCallOf w ++ puts /\
    Forall (fun ev => exists pn, ev = PoolPut pn) puts /\
    calls isFinalizing (history w') = calls isFinalizing (history w) /\
    multiPartUploadID (u w') = None /\
    u_err (u w') = Some e /\
    (forall j, ~ isAdding w' j).
Proof.
  intros Herr.
  destruct (abortAndCancel_spec E (afterPhantomRemoval w))
    as (_ & Hid & He & _ & _ & _ & _ & (puts & Hh & Hf & _)).
  exists (abortAndCancel E (afterPhantomRemoval w)), puts.
  assert (Hhist : history (abortAndCancel E (afterPhantomRemoval w))
                  = history w ++ PhantomRemoveByInfoPtr (Info (u w)) :: abortCallOf w ++ puts).
  { rewrite Hh. unfold afterPhantomRemoval. wsimpl. rewrite <- app_assoc. reflexivity. }
  split.
  { unfold Close.
    change (u_err (u (afterPhantomRemoval w))) with (u_err (u w)). rewrite Herr.
    reflexivity. }
  split; [exact Hhist |]. split; [exact Hf |]. split.
  { rewrite Hhist. rewrite calls_app.
    change (PhantomRemoveByInfoPtr (Info (u w)) :: abortCallOf w ++ puts)
      with ([PhantomRemoveByInfoPtr (Info (u w))] ++ abortCallOf w ++ puts).
    rewrite !calls_app.
    assert (H1 : calls isFinalizing (abortCallOf w) = 0%nat).
    { unfold abortCallOf. destruct (multiPartUploadID (u w)); reflexivity. }
    assert (H2 : calls isFinalizing puts = 0%nat).
    { apply calls_none. eapply Forall_impl; [exact Hf |].
      intros ev [pn ->]. reflexivity. }
    rewrite H1, H2. cbn. lia. }
  split; [exact Hid |]. split.
  { rewrite He. exact Herr. }
  apply no_part_Adding_after_cancel.
Qed.

Lemma Close_with_error_on_record_witness :
  exists e w',
    u_err (u (worldUnder poolFailEnv 4 [OpWriteAt (bytes "ab") 0])) = Some e /\
    Close poolFailEnv (worldUnder poolFailEnv 4 [OpWriteAt (bytes "ab") 0])
    = Returns (Some e, w') /\
    multiPartUploadID (u w') = None.
Proof.
  destruct (Close_with_error_on_record poolFailEnv
              (worldUnder poolFailEnv 4 [OpWriteAt (bytes "ab") 0])
              (ErrUpstream "pool exhausted"))
    as (w' & puts & HC & _ & _ & _ & Hid & _).
  - vm_compute. reflexivity.
  - exists (ErrUpstream "pool exhausted"), w'.
    split; [vm_compute; reflexivity |]. split; [exact HC | exact Hid].
Defined.

(** X2.  A [WriteAt] that would take the object beyond the size limit
    returns [(0, file too large)] and ends the upload: nothing is copied,
    the size of the phantom object is not raised, the multipart upload, if
    one is open, is aborted, the parts being filled are cancelled with
    their buffers given back, and the error stays on record. *)
Theorem WriteAt_beyond_size_limit (E : Env) (buf : list byte) (off : Z) (w : World) :
  BufSize (UploadMemoryBufferPool (u w)) <> 0 ->
  u_err (u w) = None ->
  0 <= MaxObjectSize (u w) < wrap64 (off + len buf) ->
  exists w' puts,
    WriteAt E buf off w
    = Returns ((0, Some (ErrFileTooLarge (MaxObjectSize (u w)))), w') /\
    u_err (u w') = Some (ErrFileTooLarge (MaxObjectSize (u w))) /\
    sameData w w' /\
    phantoms w' = phantoms w /\
    multiPartUploadID (u w') = None /\
    history w' = history w ++ abortCallOf w ++ puts /\
    Forall (fun ev => exists pn, ev = PoolPut pn) puts /\
    (forall j, ~ isAdding w' j).
Proof.
  intros HP Herr Hmax.
  destruct (abortAndCancel_spec E w)
    as (Hp & Hid & _ & _ & _ & Hph & _ & (puts & Hh & Hf & _)).
  exists (setErr (Some (ErrFileTooLarge (MaxObjectSize (u w)))) (abortAndCancel E w)), puts.
  split.
  { unfold WriteAt.
    replace (BufSize (UploadMemoryBufferPool (u w)) =? 0) with false by lia.
    rewrite Herr.
    replace ((MaxObjectSize (u w) >=? 0)
             && (wrap64 (off + len buf) >? MaxObjectSize (u w))) with true
      by (replace (MaxObjectSize (u w) >=? 0) with true by lia; cbn; lia).
    reflexivity. }
  split; [reflexivity |]. split.
  { intros j. wsimpl. apply (sameData_cancel w _ Hp). }
  split; [exact Hph |]. split; [exact Hid |]. split; [exact Hh |]. split; [exact Hf |].
  intros j Hj. apply (no_part_Adding_after_cancel E w j).
  destruct Hj as (part & Hl & Hst). exists part. split; [exact Hl | exact Hst].
Qed.

Lemma WriteAt_beyond_size_limit_witness :
  exists w',
    WriteAt okEnv (bytes "abcdef") 0 (limitedWorld 4 5)
    = Returns ((0, Some (ErrFileTooLarge 5)), w') /\
    u_err (u w') = Some (ErrFileTooLarge 5).
Proof.
  destruct (WriteAt_beyond_size_limit okEnv (bytes "abcdef") 0 (limitedWorld 4 5))
    as (w' & puts & HW & He & _).
  - discriminate.
  - reflexivity.
  - vm_compute. split; [discriminate | reflexivity].
  - exists w'. split; [exact HW | exact He].
Defined.

(** X3.  [Close] of a writer that never received a [WriteAt] panics: with
    no part at all, [Close] takes the multipart branch and indexes
    [u.parts] at [len(u.parts) - 1 = -1]. *)
Theorem Close_without_write_panics (E : Env) (maxObjectSize : Z)
    (pool : MemoryBufferPool) (key : Path) (now : time) (info : nat)
    (m : PhantomObjectMap) (w0 : World) :
  Filewrite true maxObjectSize pool key now info m = inr w0 ->
  Close E w0 = Panics IndexOutOfRange.
Proof.
  unfold Filewrite. cbn [negb]. intros H. inversion H; subst w0. reflexivity.
Qed.

Lemma Close_without_write_panics_witness :
  Close okEnv (freshWorld 4) = Panics IndexOutOfRange.
Proof.
  apply (Close_without_write_panics okEnv (-1) {| BufSize := 4 |} ["a"; "b"]%string
           (TimeUnix 5) 7%nat noPhantoms).
  reflexivity.
Defined.

(** X4.  A worker that takes a part off the channel after the multipart
    upload was aborted panics: the part is still [Full], and
    [s3UploadPart] dereferences [u.multiPartUploadID], which the abort set
    to nil. *)
Theorem worker_after_abort_panics (E : Env) (w : World) (i : nat) (q : list nat)
    (part : S3PartToUpload) :
  uploadChan w = i :: q ->
  parts (u w) !! i = Some (Some part) ->
  state part = S3PartUploadStateFull ->
  multiPartUploadID (u w) = None ->
  workerStep E w = Panics NilDereference.
Proof.
  intros Hc Hi Hst Hid. unfold workerStep. rewrite Hc. unfold uploadPart. wsimpl.
  rewrite (index_ok_nat _ _ _ Hi). cbn [obind deref]. rewrite Hst.
  unfold s3UploadPart. wsimpl. rewrite Hid. reflexivity.
Qed.

Lemma worker_after_abort_panics_witness :
  reachable poolOnceEnv
    (worldUnder poolOnceEnv 4 [OpWriteAt (bytes "abcd") 0; OpWriteAt (bytes "e") 4]) /\
  workerStep poolOnceEnv
    (worldUnder poolOnceEnv 4 [OpWriteAt (bytes "abcd") 0; OpWriteAt (bytes "e") 4])
  = Panics NilDereference.
Proof.
  split.
  - apply reachable_worldUnder; [lia |]. eexists. vm_compute. reflexivity.
  - eapply (worker_after_abort_panics poolOnceEnv _ 0%nat []).
    + vm_compute. reflexivity.
    + vm_compute. reflexivity.
    + reflexivity.
    + vm_compute. reflexivity.
Defined.

(** X5.  The parts of a writer are well formed in every world it can
    reach: the part in slot [j] is numbered [j + 1], its buffer has the
    size of the pool's buffers, its ranges lie within the buffer, and there
    are fewer than [2^63] slots. *)
Theorem reachable_parts_well_formed (E : Env) (w : World) (j : nat)
    (part : S3PartToUpload) :
  reachable E w ->
  parts (u w) !! j = Some (Some part) ->
  let P := BufSize (UploadMemoryBufferPool (u w)) in
  0 < P /\
  partNumber part = Z.of_nat j + 1 /\
  len (content part) = P /\
  or_size (o part) = P /\
  Forall (fun r => 0 <= r.1 /\ r.2 <= P) (or_ranges (o part)) /\
  len (parts (u w)) < two63.
Proof.
  intros Hreach Hj P.
  destruct (reachable_Inv _ _ Hreach) as ((HP & HL & HK & _) & _).
  destruct (HK j part Hj) as (H1 & H2 & H3 & H4).
  repeat split; assumption.
Qed.

Lemma reachable_parts_well_formed_witness :
  exists part,
    parts (u (worldAfter 4 [OpWriteAt (bytes "abcdef") 2])) !! 1%nat = Some (Some part) /\
    partNumber part = 2 /\ len (content part) = 4.
Proof.
  assert (H : exists part,
             parts (u (worldAfter 4 [OpWriteAt (bytes "abcdef") 2])) !! 1%nat
             = Some (Some part)).
  { eexists. vm_compute. reflexivity. }
  destruct H as [part Hp]. exists part.
  destruct (reachable_parts_well_formed okEnv
              (worldAfter 4 [OpWriteAt (bytes "abcdef") 2]) 1 part)
    as (_ & H1 & H2 & _).
  - apply reachable_worldAfter; [lia |]. eexists. vm_compute. reflexivity.
  - exact Hp.
  - split; [exact Hp |]. split; [exact H1 | exact H2].
Defined.

(** ** The reader and the object it reads *)

Lemma copy_slice_lookup_below {A : Type} (dst src : list A) (lo hi : Z) (k : nat) :
  (k < Z.to_nat lo)%nat -> lo <= len dst ->
  copy_slice dst lo hi src !! k = dst !! k.
Proof.
  intros Hk Hlo. unfold copy_slice, len in *.
  rewrite lookup_app_l by (rewrite length_take; lia).
  apply lookup_take_lt. lia.
Qed.

Lemma copy_slice_lookup_in {A : Type} (dst src : list A) (lo hi : Z) (t : nat) :
  0 <= lo <= hi -> hi <= len dst -> len src <= hi - lo -> (t < length src)%nat ->
  copy_slice dst lo hi src !! (Z.to_nat lo + t)%nat = src !! t.
Proof.
  intros H1 H2 H3 Ht. unfold copy_slice, len in *.
  rewrite lookup_app_r by (rewrite length_take; lia).
  rewrite length_take.
  replace (Z.to_nat lo + t - Z.to_nat lo `min` length dst)%nat with t by lia.
  rewrite lookup_app_l by (rewrite length_take; lia).
  apply lookup_take_lt. lia.
Qed.

Lemma slice_lookup_nat {A : Type} (s : list A) (lo hi : Z) (r : list A) (t : nat) :
  slice s lo hi = Returns r -> (t < length r)%nat ->
  r !! t = s !! (Z.to_nat lo + t)%nat.
Proof.
  intros H Ht. pose proof (slice_length _ _ _ _ H) as Hl.
  apply slice_returns in H as (H1 & H2 & ->).
  rewrite lookup_take_lt by (unfold len in *; lia). now rewrite lookup_drop.
Qed.

Lemma castInt64ToInt_id (v : Z) :
  - two63 <= v < two63 -> castInt64ToInt v = (v, None).
Proof.
  intros H. unfold castInt64ToInt.
  replace (- two63 <=? v) with true by lia. replace (v <? two63) with true by lia.
  reflexivity.
Qed.
Lemma io_ReadFull_shape (b : Body) (k : nat) :
  exists rerr,
    io_ReadFull b k
    = (firstn k (unread b), rerr, {| unread := skipn k (unread b); broken := broken b |}).
Proof.
  unfold io_ReadFull. destruct (_ =? _)%nat; [eauto |].
  destruct (broken b); [eauto |]. destruct (firstn k (unread b)); eauto.
Qed.

Lemma ReadAt_spec (obj : list byte) (oor oor' : S3GetObjectOutputReader)
    (buf : list byte) (off : Z) (r : ReadAtResult) :
  readerOf obj oor -> readerSizes obj oor ->
  0 <= off -> off + len buf < two63 ->
  ReadAt false oor buf off = Returns (r, oor') ->
  (readerOf obj oor' /\ Lookback oor' = Lookback oor /\
   MinChunkSize oor' = MinChunkSize oor) /\
  len (rd_buf r) = len buf /\
  (rd_err r = None ->
   0 <= rd_n r <= len buf /\ (0 < rd_n r -> off + rd_n r <= len obj) /\
   forall k, (k < Z.to_nat (rd_n r))%nat ->
             rd_buf r !! k = obj !! (Z.to_nat off + k)%nat) /\
  (spoolOffset oor <= spoolOffset oor'
   <= Z.max (spoolOffset oor) (off + len buf - Lookback oor)) /\
  (rd_err r = Some ErrOutOfRange -> off < spoolOffset oor) /\
  (len obj <= off -> buf <> [] -> rd_err r = Some EOF /\ rd_n r = 0).
Proof.
  intros HR (HL & HM & Hsz) Hoff Hov H.
  pose proof HR as (Hso & Hend & Hsp & Hbody).
  pose proof (len_nonneg buf) as Hbuf. pose proof (len_nonneg obj) as Hobj.
  pose proof (len_nonneg (spooled oor)) as Hspl.
  unfold ReadAt in H.
  rewrite castInt64ToInt_id in H by (unfold two63 in *; lia).
  destruct (off <? spoolOffset oor) eqn:Hrange.
  { inversion H; subst r oor'. cbn [rd_buf rd_n rd_err].
    split; [auto |]. split; [reflexivity |]. split; [discriminate |].
    split; [lia |]. split; [intros _; lia |].
    intros Htail _. lia. }
  rewrite (wrap64_id (off - spoolOffset oor)) in H by (unfold in_int64, two63 in *; lia).
  set (so := spoolOffset oor) in *. set (sp := spooled oor) in *.
  set (s0 := off - so) in *.
  bind_inv H as st Hst. destruct st as [[[buf1 i] s] r0].
  (* the copy out of the spool *)
  assert (Hfirst :
    len buf1 = len buf /\ 0 <= i <= len buf /\ r0 = len buf - i /\ s = s0 + i /\
    s0 + i <= Z.max s0 (len sp) /\ (0 < i -> s <= len sp) /\
    (len sp <= s0 -> i = 0) /\
    (forall k, (k < Z.to_nat i)%nat -> buf1 !! k = obj !! (Z.to_nat off + k)%nat)).
  { destruct (s0 <? len sp) eqn:Hs.
    - bind_inv Hst as x1 Hx1. bind_inv Hst as src Hsrc. inversion Hst; subst buf1 i s r0.
      clear Hst.
      set (n := if len buf >? len sp - s0 then len sp - s0 else len buf) in *.
      assert (Hn : 0 <= n /\ n <= len buf /\ n <= len sp - s0)
        by (subst n; destruct (len buf >? len sp - s0) eqn:?; lia).
      pose proof (slice_length _ _ _ _ Hsrc) as Hlsrc.
      split; [unfold len; rewrite copy_slice_length; [reflexivity | lia | lia] |].
      split; [lia |]. split; [lia |]. split; [lia |]. split; [lia |].
      split; [lia |]. split; [lia |].
      intros k Hk.
      replace k with (Z.to_nat 0 + k)%nat by lia.
      rewrite copy_slice_lookup_in by (unfold len in *; lia).
      rewrite (slice_lookup_nat _ _ _ _ k Hsrc) by (unfold len in *; lia).
      fold sp. rewrite Hsp by (unfold len in *; lia).
      f_equal. subst s0. lia.
    - inversion Hst; subst buf1 i s r0.
      split; [reflexivity |]. split; [lia |]. split; [lia |]. split; [lia |].
      split; [lia |]. split; [lia |]. split; [reflexivity |].
      intros k Hk. cbn in Hk. lia. }
  clear Hst.
  destruct Hfirst as (Hlen1 & Hi & Hr0 & Hs & Hsmax & Hspos & Hzero & Hdata1).
  assert (Hsame : readerOf obj oor /\ Lookback oor = Lookback oor /\
                  MinChunkSize oor = MinChunkSize oor) by auto.
  assert (Hwin : so <= so <= Z.max so (off + len buf - Lookback oor)) by lia.
  assert (Hpos : 0 < i -> off + i <= len obj) by (intros Hp; specialize (Hspos Hp); lia).
  assert (Hbeyond : len obj <= off -> i = 0) by (intros Hb; apply Hzero; lia).
  destruct (r0 =? 0) eqn:Hr00.
  { inversion H; subst r oor'. cbn [rd_buf rd_n rd_err].
    split; [exact Hsame |]. split; [exact Hlen1 |].
    split; [intros _; split; [lia | split; [exact Hpos | exact Hdata1]] |].
    split; [exact Hwin |]. split; [discriminate |].
    intros Hb Hne. exfalso. specialize (Hbeyond Hb).
    apply Hne. apply length_zero_iff_nil. unfold len in *. lia. }
  destruct (noMore oor) eqn:HnoMore.
  { destruct (i =? 0) eqn:Hi0; inversion H; subst r oor'; cbn [rd_buf rd_n rd_err].
    - split; [exact Hsame |]. split; [exact Hlen1 |]. split; [discriminate |].
      split; [exact Hwin |]. split; [discriminate |]. auto.
    - split; [exact Hsame |]. split; [exact Hlen1 |].
      split; [intros _; split; [lia | split; [exact Hpos | exact Hdata1]] |].
      split; [exact Hwin |]. split; [discriminate |].
      intros Hb _. specialize (Hbeyond Hb). lia. }
  (* the spool is compacted *)
  bind_inv H as st Hst. destruct st as [[sp1 so1] s1].
  assert (Hcompact :
    so <= so1 /\ so1 + s1 = so + s /\ so1 + len sp1 = so + len sp /\ 0 <= s1 /\
    so1 <= Z.max so (off + len buf - Lookback oor) /\
    (forall k, (k < length sp1)%nat -> sp1 !! k = obj !! (Z.to_nat so1 + k)%nat)).
  { destruct ((s <=? len sp) && (s >=? Lookback oor)) eqn:Hc.
    - apply andb_prop in Hc as [Hc1 Hc2].
      rewrite (wrap64_id (s - Lookback oor)) in Hst by (unfold in_int64, two63 in *; lia).
      rewrite (wrap64_id (so + _)) in Hst by (unfold in_int64, two63 in *; lia).
      bind_inv Hst as kept Hkept. inversion Hst; subst sp1 so1 s1. clear Hst.
      pose proof (slice_length _ _ _ _ Hkept) as Hlk.
      split; [lia |]. split; [lia |]. split; [lia |]. split; [lia |]. split; [lia |].
      intros k Hk. rewrite (slice_lookup_nat _ _ _ _ k Hkept Hk).
      rewrite Hsp by (unfold len in *; lia). f_equal. lia.
    - inversion Hst; subst sp1 so1 s1.
      split; [lia |]. split; [lia |]. split; [lia |]. split; [lia |]. split; [lia |].
      exact Hsp. }
  clear Hst. destruct Hcompact as (Hso1 & Hs1 & Hend1 & Hs1pos & Hwin1 & Hsp1).
  pose proof (len_nonneg sp1) as Hspl1.
  rewrite (wrap64_id (len sp1 + MinChunkSize oor)) in H
    by (unfold in_int64, two63 in *; lia).
  rewrite (wrap64_id (s1 + r0)) in H by (unfold in_int64, two63 in *; lia).
  set (e := if len sp1 + MinChunkSize oor <? s1 + r0 then s1 + r0
            else len sp1 + MinChunkSize oor) in *.
  assert (He : len sp1 <= e)
    by (subst e; destruct (len sp1 + MinChunkSize oor <? s1 + r0) eqn:?; lia).
  replace (e <? len sp1) with false in H by lia.
  bind_inv H as body Hbd. apply deref_returns in Hbd.
  destruct (io_ReadFull_shape body (Z.to_nat (e - len sp1))) as [rerr Hrf].
  rewrite Hrf in H. clear Hrf.
  set (k0 := Z.to_nat (e - len sp1)) in *.
  pose proof (Hbody eq_refl body Hbd) as Hunread.
  set (got := firstn k0 (unread body)) in *.
  assert (Hlu : length (unread body) = (length obj - (Z.to_nat so + length sp))%nat)
    by (rewrite Hunread; apply length_skipn).
  assert (Hlgot : length got = Nat.min k0 (length (unread body)))
    by (subst got; apply length_firstn).
  assert (Hgot : forall t, (t < length got)%nat ->
                           got !! t = obj !! (Z.to_nat so + length sp + t)%nat).
  { intros t Ht. subst got. rewrite lookup_take_lt by lia.
    rewrite Hunread. apply lookup_drop. }
  set (sp2 := sp1 ++ got) in *.
  assert (Hl2 : len sp2 = len sp1 + len got) by apply len_app.
  assert (Hsp2 : forall k, (k < length sp2)%nat ->
                           sp2 !! k = obj !! (Z.to_nat so1 + k)%nat).
  { intros k Hk. subst sp2. destruct (Nat.lt_ge_cases k (length sp1)) as [Hlt | Hge].
    - rewrite lookup_app_l by exact Hlt. apply Hsp1, Hlt.
    - rewrite lookup_app_r by exact Hge. rewrite length_app in Hk.
      rewrite Hgot by lia. f_equal. unfold len in *. lia. }
  assert (Hnew : forall nm,
    readerOf obj {| Goo_Body := Some {| unread := skipn k0 (unread body);
                                        broken := broken body |};
                    Lookback := Lookback oor; MinChunkSize := MinChunkSize oor;
                    spooled := sp2; spoolOffset := so1; noMore := nm |}).
  { intros nm. unfold readerOf. cbn [spoolOffset spooled noMore Goo_Body].
    split; [lia |]. split; [unfold len in *; lia |]. split; [exact Hsp2 |].
    intros _ body' Hb'. inversion Hb'; subst body'. cbn [unread].
    rewrite Hunread, drop_drop. subst sp2. rewrite length_app.
    destruct (Nat.le_gt_cases k0 (length (unread body))) as [Hfull | Hshort].
    - f_equal. unfold len in *. lia.
    - rewrite !drop_ge; [reflexivity | unfold len in *; lia | lia]. }
  set (e2 := len sp1 + len got) in *.
  destruct (s1 <? e2) eqn:Hmore.
  - set (be := if e2 >? s1 + r0 then s1 + r0 else e2) in *.
    assert (Hbe : s1 < be /\ be <= e2 /\ be <= s1 + r0).
    { subst be. destruct (e2 >? s1 + r0) eqn:?; lia. }
    bind_inv H as x1 Hx1. bind_inv H as src Hsrc. inversion H; subst r oor'. clear H.
    cbn [rd_buf rd_n rd_err Lookback MinChunkSize spoolOffset].
    pose proof (slice_length _ _ _ _ Hsrc) as Hlsrc.
    split; [split; [apply Hnew | auto] |].
    split; [unfold len; rewrite copy_slice_length; unfold len in *; lia |].
    split.
    { intros _. split; [lia |]. split; [unfold len in *; lia |].
      intros k Hk. destruct (Nat.lt_ge_cases k (Z.to_nat i)) as [Hlt | Hge].
      - rewrite copy_slice_lookup_below by lia. apply Hdata1, Hlt.
      - replace k with (Z.to_nat i + (k - Z.to_nat i))%nat by lia.
        rewrite copy_slice_lookup_in by (unfold len in *; lia).
        rewrite (slice_lookup_nat _ _ _ _ _ Hsrc) by (unfold len in *; lia).
        rewrite Hsp2 by (unfold len in *; lia). f_equal. lia. }
    split; [lia |]. split; [discriminate |].
    intros Hb _. specialize (Hbeyond Hb). unfold len in *. lia.
  - inversion H; subst r oor'. clear H.
    cbn [rd_buf rd_n rd_err Lookback MinChunkSize spoolOffset].
    split; [split; [apply Hnew | auto] |]. split; [exact Hlen1 |].
    split; [discriminate |]. split; [lia |]. split; [discriminate |]. auto.
Qed.


Lemma newReader_readerOf (obj : list byte) (broken_ : bool) (lookback minChunkSize : Z) :
  readerOf obj (newReader obj broken_ lookback minChunkSize).
Proof.
  unfold readerOf, newReader. cbn [spoolOffset spooled noMore Goo_Body length].
  pose proof (len_nonneg obj). split; [lia |]. split; [unfold len in *; cbn; lia |].
  split; [intros k Hk; lia |].
  intros _ body Hb. inversion Hb; subst body. reflexivity.
Qed.

(** What holds of every state of a reader. *)
Lemma readable_inv (obj : list byte) (broken_ : bool) (lookback minChunkSize : Z)
    (oor : S3GetObjectOutputReader) :
  0 <= lookback -> 0 <= minChunkSize -> len obj + minChunkSize < two63 ->
  readable obj broken_ lookback minChunkSize oor ->
  readerOf obj oor /\ readerSizes obj oor /\
  Lookback oor = lookback /\ MinChunkSize oor = minChunkSize /\
  (noMore oor = true \/ exists body, Goo_Body oor = Some body).
Proof.
  intros HL HM Hsz Hr. induction Hr as [| oor oor' buf off r Hr IH Hoff Hov HRead].
  - split; [apply newReader_readerOf |]. split; [split; [| split]; assumption |].
    split; [reflexivity |]. split; [reflexivity |]. right. eexists. reflexivity.
  - destruct IH as (HR & HS & HLk & HMc & Hbd).
    destruct (ReadAt_spec obj oor oor' buf off r HR HS Hoff Hov HRead)
      as ((HR' & HL' & HM') & _).
    split; [exact HR' |]. split.
    { unfold readerSizes. rewrite HL', HM'. exact HS. }
    split; [congruence |]. split; [congruence |].
    (* the body stays where it is, or is the rest of what it was *)
    clear - HRead Hbd. unfold ReadAt in HRead.
    destruct (castInt64ToInt off) as [_o [e |]].
    { inversion HRead; subst. exact Hbd. }
    destruct (_o <? spoolOffset oor); [inversion HRead; subst; exact Hbd |].
    bind_inv HRead as st Hst. destruct st as [[[buf1 i] s] r0].
    destruct (r0 =? 0); [inversion HRead; subst; exact Hbd |].
    destruct (noMore oor) eqn:Hnm.
    { destruct (i =? 0); inversion HRead; subst; left; exact Hnm. }
    bind_inv HRead as st2 Hst2. destruct st2 as [[sp1 so1] s1].
    destruct (_ <? len sp1); [discriminate |].
    bind_inv HRead as body Hbody.
    destruct (io_ReadFull body _) as [[got rerr] body'].
    destruct (s1 <? _).
    + bind_inv HRead as x1 Hx1. bind_inv HRead as src Hsrc.
      inversion HRead; subst. right. cbn. eauto.
    + inversion HRead; subst. right. cbn. eauto.
Qed.



(** X7.  The window of the reader: a [ReadAt(buf, off)] that returns
    never moves the start of the spool backwards, and never moves it past
    [off + len(buf) - Lookback]; so a following [ReadAt] at an offset that
    is neither before the old start of the spool nor more than [Lookback]
    bytes before the end of this request is not refused as out of range. *)
Theorem ReadAt_lookback_window (obj : list byte) (broken_ : bool)
    (lookback minChunkSize : Z) (oor oor' : S3GetObjectOutputReader)
    (buf : list byte) (off : Z) (r : ReadAtResult) :
  0 <= lookback -> 0 <= minChunkSize -> len obj + minChunkSize < two63 ->
  readable obj broken_ lookback minChunkSize oor ->
  0 <= off -> off + len buf < two63 ->
  ReadAt false oor buf off = Returns (r, oor') ->
  spoolOffset oor <= spoolOffset oor'
  <= Z.max (spoolOffset oor) (off + len buf - lookback) /\
  (forall buf2 off2 r2 oor2,
      Z.max (spoolOffset oor) (off + len buf - lookback) <= off2 ->
      off2 + len buf2 < two63 ->
      ReadAt false oor' buf2 off2 = Returns (r2, oor2) ->
      rd_err r2 <> Some ErrOutOfRange).
Proof.
  intros HL HM Hsz Hr Hoff Hov HRead.
  destruct (readable_inv _ _ _ _ _ HL HM Hsz Hr) as (HR & HS & HLk & _ & _).
  destruct (ReadAt_spec obj oor oor' buf off r HR HS Hoff Hov HRead)
    as (_ & _ & _ & Hwin & _).
  rewrite HLk in Hwin. split; [exact Hwin |].
  intros buf2 off2 r2 oor2 Hoff2 Hov2 HRead2 Herr.
  assert (Hr' : readable obj broken_ lookback minChunkSize oor')
    by (eapply readable_ReadAt; eassumption).
  destruct (readable_inv _ _ _ _ _ HL HM Hsz Hr') as (HR' & HS' & _).
  assert (Hso : 0 <= spoolOffset oor) by apply HR.
  destruct (ReadAt_spec obj oor' oor2 buf2 off2 r2 HR' HS' ltac:(lia) Hov2 HRead2)
    as (_ & _ & _ & _ & Hout & _).
  specialize (Hout Herr). lia.
Qed.

Lemma ReadAt_lookback_window_witness :
  exists r oor',
    ReadAt false (newReader (bytes "hello") false 2 1) (buffer 3) 0 = Returns (r, oor') /\
    0 <= spoolOffset oor' <= 1.
Proof.
  assert (H : exists r oor',
             ReadAt false (newReader (bytes "hello") false 2 1) (buffer 3) 0
             = Returns (r, oor')).
  { eexists. eexists. vm_compute. reflexivity. }
  destruct H as (r & oor' & H). exists r, oor'. split; [exact H |].
  destruct (ReadAt_lookback_window (bytes "hello") false 2 1
              (newReader (bytes "hello") false 2 1) oor' (buffer 3) 0 r)
    as [Hwin _].
  - lia.
  - lia.
  - vm_compute. reflexivity.
  - apply readable_new.
  - lia.
  - vm_compute. reflexivity.
  - exact H.
  - exact Hwin.
Defined.



(** ** Listing a directory *)

Lemma copy_slice_front {A : Type} (dst src : list A) (n : Z) :
  n = len src -> n <= len dst ->
  copy_slice dst 0 n src = src ++ skipn (length src) dst.
Proof.
  intros -> H. unfold copy_slice, len in *.
  replace (Z.to_nat (Z.of_nat (length src) - 0)) with (length src) by lia.
  rewrite Nat.min_id, firstn_all. change (Z.to_nat 0) with 0%nat.
  now rewrite firstn_O.
Qed.

Lemma newLister_compact (lookback : Z) :
  0 <= lookback ->
  (if (0 <=? len (@nil ObjectFileInfo)) && (0 >=? lookback)
   then let* kept := slice (@nil ObjectFileInfo) (wrap64 (0 - lookback))
                           (len (@nil ObjectFileInfo)) in
        Returns (kept, wrap64 (0 + wrap64 (0 - lookback)), lookback)
   else Returns ([], 0, 0))
  = Returns ([], 0, 0).
Proof.
  intros HL. destruct (0 >=? lookback) eqn:Hc; [| reflexivity].
  assert (lookback = 0) by lia. subst lookback. reflexivity.
Qed.

(** X9.  A directory whose listing fits in one page and in the caller's
    slice: the first [ListAt], at offset 0, returns all the entries with
    [EOF], in this order: [.], [..], the uploads in flight under the
    prefix, a directory entry for each common prefix, a regular entry for
    each object; a following [ListAt] at the end of the listing returns
    [(0, EOF)]. *)
Theorem ListAt_single_page (S3 : S3Listing) (phantoms : PhantomObjectMap)
    (prefix : Path) (lookback : Z) (result : list (option ObjectFileInfo))
    (out : ListObjectsV2Output) :
  0 <= lookback ->
  ListObjectsV2WithContext S3 (listingPrefix prefix) None = inr out ->
  NextContinuationToken out = None ->
  let entries := leadingEntries phantoms prefix
                   ++ map commonPrefixEntry (CommonPrefixes out)
                   ++ map contentsEntry (Contents out) in
  len entries <= len result -> len result < two63 ->
  exists sol',
    S3ObjectLister_ListAt S3 phantoms (newLister prefix lookback) result 0
    = Returns ({| ls_result := filledWith entries result;
                  ls_n := len entries; ls_err := Some EOF |}, sol') /\
    forall S3' result2,
      result2 <> [] ->
      S3ObjectLister_ListAt S3' phantoms sol' result2 (len entries)
      = Returns ({| ls_result := result2; ls_n := 0; ls_err := Some EOF |}, sol').
Proof.
  intros HL Hlist Htoken entries Hfit Hint.
  assert (H2 : 2 <= len entries).
  { subst entries. unfold leadingEntries, len. rewrite !length_app. cbn [length]. lia. }
  exists (listerWith (newLister prefix lookback) 0 entries None true).
  split.
  - unfold S3ObjectLister_ListAt.
    rewrite castInt64ToInt_id by (unfold two63; lia).
    cbn [newLister sol_spoolOffset sol_spooled sol_noMore sol_Lookback continuation Prefix].
    change (0 <? 0) with false. cbv iota.
    rewrite (wrap64_id (0 - 0)) by (unfold in_int64, two63; lia).
    change (0 - 0 <? len (@nil ObjectFileInfo)) with false. cbv iota. cbn [obind].
    replace (0 >=? len result) with false by lia.
    change (0 - 0) with 0.
    rewrite (newLister_compact lookback HL). cbn [obind].
    rewrite Hlist, Htoken.
    cbn [app]. rewrite <- app_assoc.
    change (dotEntry "." :: dotEntry ".."
              :: map (fun phInfo => phantomEntry (GetOne phInfo phantoms))
                     (PhantomObjectMap_List prefix phantoms)
                 ++ map commonPrefixEntry (CommonPrefixes out)
                 ++ map contentsEntry (Contents out))
      with entries.
    rewrite !Z.sub_0_r.
    replace (len entries >? len result) with false by lia.
    cbv iota.
    rewrite !Z.add_0_l.
    rewrite slice_ok by lia. cbn [obind].
    rewrite slice_all. cbn [obind].
    rewrite (copy_slice_front result (map Some entries))
      by (unfold len in *; rewrite ?length_map; lia).
    unfold filledWith. rewrite length_map. reflexivity.
  - intros S3' result2 Hne.
    unfold S3ObjectLister_ListAt.
    rewrite castInt64ToInt_id by (unfold two63 in *; lia).
    cbn [listerWith newLister sol_spoolOffset sol_spooled sol_noMore sol_Lookback
         continuation Prefix].
    replace (len entries <? 0) with false by lia.
    rewrite (wrap64_id (len entries - 0)) by (unfold in_int64, two63 in *; lia).
    replace (len entries - 0 <? len entries) with false by lia.
    cbv iota. cbn [obind].
    replace (0 >=? len result2) with false
      by (pose proof (len_eqb_0 result2 Hne); pose proof (len_nonneg result2); lia).
    reflexivity.
Qed.

Lemma ListAt_single_page_witness :
  exists sol',
    S3ObjectLister_ListAt emptyDirS3 noPhantoms (newLister ["photos"] 10)
                          [None; None; None] 0
    = Returns ({| ls_result := [Some (dotEntry "."); Some (dotEntry ".."); None];
                  ls_n := 2; ls_err := Some EOF |}, sol').
Proof.
  destruct (ListAt_single_page emptyDirS3 noPhantoms ["photos"]%string 10
              [None; None; None] emptyPage)
    as (sol' & H & _).
  - lia.
  - reflexivity.
  - reflexivity.
  - vm_compute. discriminate.
  - vm_compute. reflexivity.
  - exists sol'. exact H.
Defined.

(** ** The multipart upload stays open while parts are being sent *)

Lemma staysOpen_refl (w : World) : staysOpen w w.
Proof. split; [auto |]. intros j p Hj Hst. left. eauto. Qed.

Lemma staysOpen_trans (w1 w2 w3 : World) :
  staysOpen w1 w2 -> staysOpen w2 w3 -> staysOpen w1 w3.
Proof.
  intros [Ha Hb] [Hc Hd]. split; [auto |].
  intros j p3 Hj Hst. destruct (Hd j p3 Hj Hst) as [(p2 & Hj2 & Hst2) | Hid]; [| now right].
  destruct (Hb j p2 Hj2 Hst2) as [Hw1 | Hid]; [now left | right; auto].
Qed.

Lemma staysOpen_same (w w' : World) :
  parts (u w') = parts (u w) ->
  (multiPartUploadID (u w) <> None -> multiPartUploadID (u w') <> None) ->
  staysOpen w w'.
Proof.
  intros Hp Hid. split; [exact Hid |]. intros j p Hj Hst. left. rewrite Hp in Hj. eauto.
Qed.

Lemma staysOpen_setPart (i : nat) (part' : S3PartToUpload) (w : World) :
  state part' = S3PartUploadStateAdding -> staysOpen w (setPart i part' w).
Proof.
  intros Hst. split; [auto |]. intros j p Hj Hne. wsimpl. left.
  destruct (decide (j = i)) as [-> | Hji].
  - destruct (decide (i < length (parts (u w)))%nat) as [Hlt | Hge].
    + rewrite list_lookup_insert_eq in Hj by exact Hlt. congruence.
    + rewrite list_insert_ge in Hj by lia. eauto.
  - rewrite list_lookup_insert_ne in Hj by congruence. eauto.
Qed.

Lemma enqueueUpload_staysOpen (E : Env) (i : nat) (w : World) e w' :
  enqueueUpload E i w = Returns (e, w') -> staysOpen w w'.
Proof.
  intros H. pose proof H as H0. unfold enqueueUpload in H0.
  bind_inv H0 as slot Hs. bind_inv H0 as part Hp. clear H0.
  apply index_returns in Hs as [_ Hs]. rewrite Nat2Z.id in Hs.
  apply deref_returns in Hp. subst slot.
  rewrite (enqueueUpload_eq E i part w Hs) in H.
  destruct (stateValue (state part) <? _) eqn:Hst.
  2: { inversion H; subst. apply staysOpen_refl. }
  assert (Htail : forall wc, parts (u wc) = parts (u w) ->
            multiPartUploadID (u wc) <> None ->
            enqueueTail E i part wc = (e, w') -> staysOpen w w').
  { intros wc Hpc Hidc Ht. unfold enqueueTail in Ht.
    assert (Hw : multiPartUploadID (u w') = multiPartUploadID (u wc))
      by (destruct (Ctx_Done E _); inversion Ht; subst; reflexivity).
    split; [intros _; congruence |]. intros j p Hj Hne. right. congruence. }
  destruct (multiPartUploadID (u w)) as [id |] eqn:Hid.
  - inversion H as [Heq]. apply (Htail w eq_refl); [congruence | exact Heq].
  - cbv zeta in H. destruct (CreateMultipartUploadWithContext E _) as [e0 | id].
    + inversion H; subst. apply staysOpen_same; [reflexivity | wsimpl; congruence].
    + inversion H as [Heq].
      apply (Htail (setUploadID (Some id) (log (CallCreateMultipartUpload (keyOf w)) w))
                   eq_refl); [wsimpl; discriminate | exact Heq].
Qed.

Lemma WriteAt_iteration_staysOpen (E : Env) (buf : list byte)
    (P pn po pending bo : Z) (w w1 : World) (c : Z) :
  WriteAt_iteration E buf P pn po pending bo w = Returns (Continue w1 c) ->
  staysOpen w w1.
Proof.
  unfold WriteAt_iteration. intros H. bind_inv H as slot Hs.
  apply index_returns in Hs as [Hpn Hslot].
  set (got := match slot with Some part => _ | None => _ end) in H.
  assert (Hgot :
    match got with
    | inl failed => True
    | inr (part, wa) =>
        staysOpen w wa /\ parts (u wa) !! Z.to_nat pn = Some (Some part)
    end).
  { subst got. destruct slot as [part |].
    - split; [apply staysOpen_refl | exact Hslot].
    - destruct (MemoryBufferPool_Get E _ _) as [e | b]; [exact I |].
      split.
      + apply (staysOpen_trans w (log PoolGet w));
          [apply staysOpen_same; [reflexivity | auto] |].
        apply staysOpen_setPart. reflexivity.
      + wsimpl. apply list_lookup_insert_eq. eapply lookup_lt_Some. exact Hslot. }
  destruct got as [failed | [part wa]]; [discriminate |].
  destruct Hgot as [Hk Hpa].
  destruct (stateValue (state part) <? _) eqn:Hst.
  2: { inversion H; subst. exact Hk. }
  apply stateValue_Adding in Hst.
  bind_inv H as chunk Hchunk. bind_inv H as part' Hcopy.
  assert (Hst' : state part' = S3PartUploadStateAdding).
  { unfold part_copy in Hcopy. bind_inv Hcopy as x Hx. inversion Hcopy; subst part'.
    exact Hst. }
  assert (Hk2 : staysOpen w (setPart (Z.to_nat pn) part' wa)).
  { apply (staysOpen_trans w wa); [exact Hk |]. apply staysOpen_setPart. exact Hst'. }
  destruct (isFull part').
  - bind_inv H as r Hr. destruct r as [e w3].
    apply enqueueUpload_staysOpen in Hr.
    destruct e as [e |]; inversion H; subst.
    eapply staysOpen_trans; eassumption.
  - inversion H; subst. exact Hk2.
Qed.

Lemma WriteAt_loop_staysOpen (E : Env) (buf : list byte) (fuel : nat) :
  forall P pn po pending bo w n w',
    WriteAt_loop fuel E buf P pn po pending bo w = Returns ((n, None), w') ->
    staysOpen w w'.
Proof.
  induction fuel as [| fuel IH]; intros P pn po pending bo w n w' H;
    cbn [WriteAt_loop] in H.
  - destruct (pending >? 0); [discriminate |]. inversion H; subst. apply staysOpen_refl.
  - destruct (pending >? 0).
    2: { inversion H; subst. apply staysOpen_refl. }
    bind_inv H as st Hst. destruct st as [w1 c | res w1].
    + apply WriteAt_iteration_staysOpen in Hst. apply IH in H.
      eapply staysOpen_trans; eassumption.
    + apply WriteAt_iteration_Return in Hst as [e ->]. inversion H.
Qed.

Lemma WriteAt_staysOpen (E : Env) (buf : list byte) (off : Z) (w : World) n w' :
  WriteAt E buf off w = Returns ((n, None), w') -> staysOpen w w'.
Proof.
  unfold WriteAt. intros H.
  destruct (BufSize (UploadMemoryBufferPool (u w)) =? 0); [discriminate |].
  destruct (u_err (u w)) as [e |]; [inversion H |].
  destruct (_ && _); [inversion H |].
  bind_inv H as w2 Hw2. apply WriteAt_loop_staysOpen in H.
  apply (staysOpen_trans w w2); [| exact H].
  destruct (len _ <=? _).
  - destruct (wrap64 _ <? 0); [discriminate |]. inversion Hw2; subst w2.
    split; [auto |]. intros j p Hj Hst. wsimpl. left.
    apply lookup_app_Some in Hj as [Hj | [_ Hj]]; [eauto |].
    apply lookup_repeat in Hj. discriminate.
  - inversion Hw2; subst w2. apply staysOpen_same; [reflexivity | auto].
Qed.

(** [WriteAt] that returns an error leaves it on record. *)
Lemma WriteAt_error_recorded (E : Env) (buf : list byte) (off : Z) (w : World) n e w' :
  WriteAt E buf off w = Returns ((n, Some e), w') -> u_err (u w') = Some e.
Proof.
  unfold WriteAt. intros H.
  destruct (BufSize (UploadMemoryBufferPool (u w)) =? 0); [discriminate |].
  destruct (u_err (u w)) as [e0 |]; [inversion H; subst; reflexivity |].
  destruct (_ && _); [inversion H; subst; reflexivity |].
  bind_inv H as w2 Hw2. clear Hw2. revert H.
  generalize (wrap64 (Z.quot off (BufSize (UploadMemoryBufferPool (u w))))).
  generalize (Z.rem off (BufSize (UploadMemoryBufferPool (u w)))).
  generalize (len buf) at 1. generalize 0 at 1.
  generalize (S (length buf)). intros fuel. revert w2.
  induction fuel as [| fuel IH]; intros w2 bo pending po pn H; cbn [WriteAt_loop] in H.
  - destruct (pending >? 0); [discriminate | inversion H].
  - destruct (pending >? 0); [| inversion H].
    bind_inv H as st Hst. destruct st as [w1 c | res w1].
    + eapply IH. exact H.
    + inversion H; subst. clear H.
      unfold WriteAt_iteration in Hst. bind_inv Hst as slot Hs.
      set (got := match slot with Some part => _ | None => _ end) in Hst.
      assert (Hgot : match got with
                     | inl failed => forall e', failed.1 = (n, Some e') ->
                                                u_err (u failed.2) = Some e'
                     | inr _ => True
                     end).
      { subst got. destruct slot; [exact I |].
        destruct (MemoryBufferPool_Get E _ _); [| exact I].
        intros e' He'. inversion He'; subst. reflexivity. }
      destruct got as [failed | [part wa]].
      { inversion Hst; subst. apply Hgot. assumption. }
      destruct (stateValue (state part) <? _); [| discriminate].
      bind_inv Hst as chunk Hc. bind_inv Hst as part' Hp.
      destruct (isFull part'); [| discriminate].
      bind_inv Hst as r Hr. destruct r as [[e1 |] w3]; [| discriminate].
      inversion Hst; subst. reflexivity.
Qed.

Lemma InvD_WriteAt (E : Env) (buf : list byte) (off : Z) (w : World) r w' :
  InvD w -> WriteAt E buf off w = Returns (r, w') -> InvD w'.
Proof.
  intros HD H Herr j p Hj Hst.
  destruct r as [n [e |]].
  { apply WriteAt_error_recorded in H. congruence. }
  assert (Herr0 : u_err (u w) = None).
  { unfold WriteAt in H.
    destruct (BufSize (UploadMemoryBufferPool (u w)) =? 0); [discriminate |].
    destruct (u_err (u w)); [inversion H | reflexivity]. }
  destruct (WriteAt_staysOpen _ _ _ _ _ _ H) as [Hid Hparts].
  destruct (Hparts j p Hj Hst) as [(p0 & Hj0 & Hst0) | Hopen]; [| exact Hopen].
  apply Hid. eapply HD; eassumption.
Qed.

Lemma InvD_workerStep (E : Env) (w w' : World) :
  InvD w -> workerStep E w = Returns w' -> InvD w'.
Proof.
  intros HD H. unfold workerStep in H.
  destruct (uploadChan w) as [| i q]; [inversion H; subst; exact HD |].
  apply uploadPart_footprint in H
    as (part & Hi & Hp & _ & _ & Hid & _ & _ & Herr & _).
  wsimpl. intros Herr' j p Hj Hst. rewrite Hid.
  specialize (Herr Herr').
  destruct Hp as [Hp | (st & Hp & Hfull & _)].
  - rewrite Hp in Hj. eapply (HD Herr). { exact Hj. } exact Hst.
  - eapply (HD Herr). { exact Hi. } rewrite Hfull. discriminate.
Qed.

Lemma reachable_InvD (E : Env) (w : World) : reachable E w -> InvD w.
Proof.
  intros (maxObjectSize & pool & key & now & info & m & w0 & ops & HP & Hf & Hrun).
  assert (H0 : InvD w0).
  { unfold Filewrite in Hf. cbn [negb] in Hf. inversion Hf; subst w0.
    intros _ j p Hj. wsimpl. rewrite lookup_nil in Hj. discriminate. }
  clear Hf HP. revert w0 H0 Hrun.
  induction ops as [| x ops IH]; intros w0 H0 Hrun; cbn [run] in Hrun.
  - inversion Hrun; subst. exact H0.
  - bind_inv Hrun as w1 H1. apply (IH w1); [| exact Hrun].
    destruct x as [buf off |]; cbn [step] in H1.
    + bind_inv H1 as r Hr. destruct r as [r w2]. inversion H1; subst.
      eapply InvD_WriteAt; [exact H0 | exact Hr].
    + eapply InvD_workerStep; eassumption.
Qed.

(** ** Close comes to an end *)

Lemma InvD_staysOpen (w w' : World) :
  InvD w -> staysOpen w w' -> (u_err (u w') = None -> u_err (u w) = None) -> InvD w'.
Proof.
  intros HD [Hid Hparts] Herr Herr' j p Hj Hst.
  destruct (Hparts j p Hj Hst) as [(p0 & Hj0 & Hst0) | Hopen]; [| exact Hopen].
  apply Hid. eapply (HD (Herr Herr')); eassumption.
Qed.

(** What [enqueueUpload] leaves behind when it reports no error: the part
    is no longer being filled. *)
Lemma enqueueUpload_done (E : Env) (i : nat) (part : S3PartToUpload) (w w' : World) e :
  parts (u w) !! i = Some (Some part) ->
  enqueueUpload E i w = Returns (e, w') ->
  u_err (u w') = u_err (u w) /\
  (e = None -> exists p', parts (u w') !! i = Some (Some p') /\
                          state p' <> S3PartUploadStateAdding).
Proof.
  intros Hi H. rewrite (enqueueUpload_eq E i part w Hi) in H.
  pose proof (lookup_lt_Some _ _ _ Hi) as Hlt.
  destruct (stateValue (state part) <? _) eqn:Hst.
  2: { inversion H; subst. split; [reflexivity |]. intros _. exists part.
       split; [exact Hi |]. intros Hadd. apply stateValue_Adding in Hadd. congruence. }
  assert (Htail : forall wc, parts (u wc) = parts (u w) -> u_err (u wc) = u_err (u w) ->
            enqueueTail E i part wc = (e, w') ->
            u_err (u w') = u_err (u w) /\
            (e = None -> exists p', parts (u w') !! i = Some (Some p') /\
                                    state p' <> S3PartUploadStateAdding)).
  { intros wc Hpc Hec Ht. unfold enqueueTail in Ht.
    destruct (Ctx_Done E _); inversion Ht; subst; wsimpl; (split; [exact Hec |]);
      intros _; exists (setState S3PartUploadStateFull part);
      (split; [rewrite Hpc; apply list_lookup_insert_eq; exact Hlt | discriminate]). }
  destruct (multiPartUploadID (u w)).
  - inversion H as [Heq]. apply (Htail w eq_refl eq_refl Heq).
  - cbv zeta in H. destruct (CreateMultipartUploadWithContext E _) as [e0 | id].
    + inversion H; subst. split; [reflexivity | discriminate].
    + inversion H as [Heq].
      apply (Htail (setUploadID (Some id) (log (CallCreateMultipartUpload (keyOf w)) w))
                   eq_refl eq_refl Heq).
Qed.

(** X10.  [Close] comes to an end.  For a writer in a world it can reach,
    whose trailing part is allocated, and a session that is not cancelled:
    [Close] returns; it neither panics nor waits for ever for the
    workers. *)
Theorem Close_returns (E : Env) (w : World) :
  reachable E w ->
  (forall h, Ctx_Done E h = false) ->
  (exists part, parts (u w) !! (length (parts (u w)) - 1)%nat = Some (Some part)) ->
  exists e w', Close E w = Returns (e, w').
Proof.
  intros Hreach Hctx [plast Hlast].
  pose proof (reachable_Inv _ _ Hreach) as (HS & HG & HA).
  pose proof (reachable_InvD _ _ Hreach) as HD.
  unfold Close. set (w0 := afterPhantomRemoval w).
  change (u_err (u w0)) with (u_err (u w)).
  destruct (u_err (u w)) as [e |] eqn:Herr.
  { cbn [obind]. eauto. }
  assert (Hmain : exists e1 w1,
    (if (len (parts (u w0)) =? 1)
        && (match multiPartUploadID (u w0) with None => true | Some _ => false end)
     then Close_putObject E w0 else Close_multipart E w0) = Returns (e1, w1)).
  { assert (HS0 : InvS w0) by exact HS.
    assert (Hlast0 : parts (u w0) !! (length (parts (u w0)) - 1)%nat = Some (Some plast))
      by exact Hlast.
    pose proof (lookup_lt_Some _ _ _ Hlast0) as Hlt.
    destruct ((len (parts (u w0)) =? 1) && _) eqn:Hone.
    - apply andb_prop in Hone as [Hone _].
      assert (Hl1 : length (parts (u w0)) = 1%nat) by (unfold len in Hone; lia).
      rewrite Hl1 in Hlast0. cbn in Hlast0.
      unfold Close_putObject.
      rewrite (index_ok (parts (u w0)) 0 (Some plast)) by (lia || exact Hlast0).
      cbn [obind deref].
      destruct HS0 as (_ & _ & HK & _).
      destruct (getContent_returns _ _ _ (HK _ _ Hlast0)) as [[body ge] Hgc].
      rewrite Hgc. cbn [obind].
      destruct ge as [ge |]; [eauto |].
      destruct (s3PutObject E body w0) as [pe wp]. destruct pe; eauto.
    - unfold Close_multipart.
      assert (Hidx : index (parts (u w0)) (len (parts (u w0)) - 1) = Returns (Some plast)).
      { apply index_ok; [unfold len; lia |].
        replace (Z.to_nat (len (parts (u w0)) - 1)) with (length (parts (u w0)) - 1)%nat
          by (unfold len; lia).
        exact Hlast0. }
      rewrite Hidx. cbn [obind].
      replace (Z.to_nat (len (parts (u w0)) - 1)) with (length (parts (u w0)) - 1)%nat
        by (unfold len; lia).
      destruct (HG Herr) as [Hg Hc].
      destruct (enqueue_trailing E w0 _ plast Hctx HS0 Herr Hg Hc Hlast0)
        as (e1 & w1 & Henq & Hext1 & HS1 & Hg1 & Hc1 & Hid1 & _ & _).
      rewrite Henq. cbn [obind].
      destruct (enqueueUpload_done E _ plast w0 w1 e1 Hlast0 Henq) as [Herr1 Hdone1].
      assert (HD1 : InvD w1).
      { apply (InvD_staysOpen w0); [exact HD | | intros; exact Herr].
        eapply enqueueUpload_staysOpen. exact Henq. }
      unfold Close_drain.
      destruct (Wait_returns E w1 HS1 Hg1 Hc1) as (w2 & HW & _ & _ & _ & Hid2 & _).
      rewrite HW. cbn [obind].
      destruct e1 as [e1 |]; [eauto |].
      destruct (closeParts_spec w2) as (_ & Hs3 & _).
      destruct (closePartsInStateAdding w2) as [pending w3]. cbn [fst snd] in *.
      destruct (pending >? 0); [eauto |].
      destruct (u_err (u w3)); [eauto |].
      unfold s3CompleteMultipartUpload.
      destruct Hs3 as (_ & Hid3 & _).
      destruct (Hdone1 eq_refl) as (p' & Hp' & Hst').
      assert (Hopen : multiPartUploadID (u w1) <> None).
      { eapply (HD1 ltac:(rewrite Herr1; exact Herr)); eassumption. }
      rewrite Hid3, Hid2.
      destruct (multiPartUploadID (u w1)); [| congruence].
      cbn [deref obind]. eauto. }
  destruct Hmain as (e1 & w1 & Hmain). rewrite Hmain. cbn [obind].
  destruct e1; eauto.
Qed.

Lemma Close_returns_witness :
  exists e w',
    Close okEnv (worldAfter 4 [OpWriteAt (bytes "abcdef") 0; OpWorker]) = Returns (e, w').
Proof.
  apply Close_returns.
  - apply reachable_worldAfter; [lia |]. eexists. vm_compute. reflexivity.
  - reflexivity.
  - eexists. vm_compute. reflexivity.
Defined.

(** X11.  [Close] on a cancelled session.  When [Close] has to hand the
    trailing part, still being filled, to the workers (there is more than
    one part, or a multipart upload is open) and the [select] of
    [enqueueUpload] takes the branch of the cancelled session, the wait
    group has counted a part that no worker will ever get: [Close] waits
    for ever in [uploadGroup.Wait()]. *)
Theorem Close_blocks_when_cancelled (E : Env) (w : World) (part : S3PartToUpload) :
  reachable E w ->
  u_err (u w) = None ->
  parts (u w) !! (length (parts (u w)) - 1)%nat = Some (Some part) ->
  state part = S3PartUploadStateAdding ->
  length (parts (u w)) <> 1%nat \/ multiPartUploadID (u w) <> None ->
  multiPartUploadID (u w) <> None \/
    (forall h, exists id, CreateMultipartUploadWithContext E h = inr id) ->
  (forall evs, Ctx_Done E (history w ++ evs) = true) ->
  Close E w = Blocks.
Proof.
  intros Hreach Herr Hlast Hst Hmulti Hcreate Hctx.
  pose proof (reachable_Inv _ _ Hreach) as (HS & HG & HA).
  destruct (HG Herr) as [Hg Hc].
  unfold Close. set (w0 := afterPhantomRemoval w).
  change (u_err (u w0)) with (u_err (u w)). rewrite Herr.
  assert (HS0 : InvS w0) by exact HS.
  assert (Hlast0 : parts (u w0) !! (length (parts (u w0)) - 1)%nat = Some (Some part))
    by exact Hlast.
  pose proof (lookup_lt_Some _ _ _ Hlast0) as Hlt.
  assert (Hbranch : (len (parts (u w0)) =? 1)
                    && (match multiPartUploadID (u w0) with
                        | None => true | Some _ => false end) = false).
  { change (parts (u w0)) with (parts (u w)).
    change (multiPartUploadID (u w0)) with (multiPartUploadID (u w)).
    destruct Hmulti as [Hne | Hid].
    - replace (len (parts (u w)) =? 1) with false by (unfold len; lia). reflexivity.
    - destruct (multiPartUploadID (u w)); [apply andb_false_r | congruence]. }
  rewrite Hbranch. unfold Close_multipart.
  assert (Hidx : index (parts (u w0)) (len (parts (u w0)) - 1) = Returns (Some part)).
  { apply index_ok; [unfold len; lia |].
    replace (Z.to_nat (len (parts (u w0)) - 1)) with (length (parts (u w0)) - 1)%nat
      by (unfold len; lia).
    exact Hlast0. }
  rewrite Hidx. cbn [obind].
  replace (Z.to_nat (len (parts (u w0)) - 1)) with (length (parts (u w0)) - 1)%nat
    by (unfold len; lia).
  set (i := (length (parts (u w0)) - 1)%nat) in *.
  rewrite (enqueueUpload_eq E i part w0 Hlast0).
  replace (stateValue (state part) <? stateValue S3PartUploadStateFull) with true
    by (rewrite Hst; reflexivity).
  (* the tail of enqueueUpload, from a world [wc] with the upload open *)
  assert (Htail : forall wc mid,
    history wc = history w ++ mid ->
    parts (u wc) = parts (u w) -> uploadChan wc = uploadChan w ->
    uploadGroup (u wc) = uploadGroup (u w) ->
    UploadMemoryBufferPool (u wc) = UploadMemoryBufferPool (u w) ->
    multiPartUploadID (u wc) <> None ->
    (let* (e, w1) := Returns (enqueueTail E i part wc) in Close_drain E e w1) = Blocks).
  { intros wc mid Hh Hp Hch Hgr Hpool Hid. cbn [obind].
    destruct (enqueueTail_facts E i part wc ltac:(rewrite Hp; exact Hlast0) Hid)
      as (_ & _ & T3 & T4 & _ & T6 & _).
    unfold enqueueTail in *. cbv zeta in *.
    set (w3 := setUploadGroup (uploadGroup (u wc) + 1)
                 (setPart i (setState S3PartUploadStateFull part) wc)) in *.
    assert (Hdone : Ctx_Done E (history w3) = true).
    { change (history w3) with (history wc). rewrite Hh. apply Hctx. }
    rewrite Hdone in *. cbn [fst snd] in *.
    unfold Close_drain, uploadGroup_Wait.
    assert (HSc : InvS wc).
    { destruct HS as (H1 & H2 & H3 & H4). unfold InvS. rewrite Hpool, Hp, Hch.
      auto. }
    destruct (drain_returns E (uploadChan w3) (setUploadChan [] w3))
      as (w' & Hd & _ & _ & _ & _ & Hg' & _).
    - specialize (T6 HSc). destruct T6 as (H1 & H2 & H3 & H4).
      split; [exact H1 |]. split; [exact H2 |]. split; [exact H3 |]. intros k [].
    - intros k Hk. destruct (T6 HSc) as (_ & _ & _ & H4). apply H4. exact Hk.
    - intros _. wsimpl. exact Hid.
    - change (uploadGroup (u (setUploadChan [] w3))) with (uploadGroup (u wc) + 1).
      change (uploadChan w3) with (uploadChan wc). rewrite Hch, Hgr. lia.
    - rewrite Hd. cbn [obind].
      replace (uploadGroup (u w') =? 0) with false; [reflexivity |].
      rewrite Hg'.
      change (uploadGroup (u (setUploadChan [] w3))) with (uploadGroup (u wc) + 1).
      change (uploadChan w3) with (uploadChan wc). rewrite Hch, Hgr. lia. }
  destruct (multiPartUploadID (u w0)) as [id |] eqn:Hid.
  - rewrite (Htail w0 [PhantomRemoveByInfoPtr (Info (u w))]);
      [reflexivity | reflexivity | reflexivity | reflexivity | reflexivity | reflexivity
      | congruence].
  - cbv zeta.
    destruct Hcreate as [Hopen | Hcreate]; [exfalso; apply Hopen; exact Hid |].
    destruct (Hcreate (history (log (CallCreateMultipartUpload (keyOf w0)) w0)))
      as [id Hcr].
    rewrite Hcr.
    rewrite (Htail (setUploadID (Some id) (log (CallCreateMultipartUpload (keyOf w0)) w0))
                   [PhantomRemoveByInfoPtr (Info (u w));
                    CallCreateMultipartUpload (keyOf w0)]);
      [reflexivity | | reflexivity | reflexivity | reflexivity | reflexivity | discriminate].
    unfold w0, afterPhantomRemoval. wsimpl. now rewrite <- app_assoc.
Qed.

Lemma Close_blocks_when_cancelled_witness :
  Close cancelledEnv
        (worldUnder cancelledEnv 4 [OpWriteAt (bytes "ab") 0; OpWriteAt (bytes "ef") 4])
  = Blocks.
Proof.
  eapply (Close_blocks_when_cancelled cancelledEnv).
  - apply reachable_worldUnder; [lia |]. eexists. vm_compute. reflexivity.
  - vm_compute. reflexivity.
  - vm_compute. reflexivity.
  - reflexivity.
  - left. vm_compute. discriminate.
  - right. intros h. eexists. reflexivity.
  - reflexivity.
Defined.

(** ** What a successful Close has done *)

Lemma quiet_refl (w : World) : quiet w w.
Proof. exists []. split; [now rewrite app_nil_r | constructor]. Qed.

Lemma quiet_trans (w1 w2 w3 : World) : quiet w1 w2 -> quiet w2 w3 -> quiet w1 w3.
Proof.
  intros (e1 & H1 & F1) (e2 & H2 & F2). exists (e1 ++ e2).
  split; [rewrite H2, H1; now rewrite app_assoc | apply Forall_app; auto].
Qed.

Lemma quiet_same (w w' : World) : history w' = history w -> quiet w w'.
Proof. intros H. exists []. split; [rewrite H; now rewrite app_nil_r | constructor]. Qed.

Lemma quiet_log (ev : Event) (w : World) : isPlain ev = true -> quiet w (log ev w).
Proof. intros H. exists [ev]. split; [reflexivity | repeat constructor; exact H]. Qed.

Lemma quiet_enqueueUpload (E : Env) (i : nat) (w : World) e w' :
  enqueueUpload E i w = Returns (e, w') -> quiet w w'.
Proof.
  intros H. pose proof H as H0. unfold enqueueUpload in H0.
  bind_inv H0 as slot Hs. bind_inv H0 as part Hp. clear H0.
  apply index_returns in Hs as [_ Hs]. rewrite Nat2Z.id in Hs.
  apply deref_returns in Hp. subst slot.
  rewrite (enqueueUpload_eq E i part w Hs) in H.
  destruct (stateValue (state part) <? _).
  2: { inversion H; subst. apply quiet_refl. }
  assert (Htail : forall wc, quiet w wc -> enqueueTail E i part wc = (e, w') -> quiet w w').
  { intros wc Hq Ht. apply (quiet_trans w wc); [exact Hq |].
    unfold enqueueTail in Ht. destruct (Ctx_Done E _); inversion Ht; subst.
    - apply quiet_same. reflexivity.
    - exists [ChanSend (partNumber part)]. split; [reflexivity | repeat constructor]. }
  destruct (multiPartUploadID (u w)).
  - inversion H as [Heq]. apply (Htail w (quiet_refl w) Heq).
  - cbv zeta in H.
    assert (Hq : quiet w (log (CallCreateMultipartUpload (keyOf w)) w))
      by (apply quiet_log; reflexivity).
    destruct (CreateMultipartUploadWithContext E _) as [e0 | id].
    + inversion H; subst. exact Hq.
    + inversion H as [Heq].
      apply (Htail (setUploadID (Some id) (log (CallCreateMultipartUpload (keyOf w)) w)));
        [exact Hq | exact Heq].
Qed.

Lemma quiet_uploadPart (E : Env) (i : nat) (w w' : World) :
  uploadPart E i w = Returns w' -> quiet w w'.
Proof.
  unfold uploadPart. intros H. bind_inv H as slot Hs. bind_inv H as part Hp.
  assert (Hdone : forall w1 w2, uploadGroup_Done w1 = Returns w2 -> quiet w1 w2).
  { intros w1 w2. unfold uploadGroup_Done. destruct (_ <? 0); intros Hd; inversion Hd.
    apply quiet_same. reflexivity. }
  assert (Hother : (let* _ := deref (multiPartUploadID (u w)) in uploadGroup_Done w)
                   = Returns w' -> quiet w w').
  { intros Ho. bind_inv Ho as x Hx. apply Hdone. exact Ho. }
  destruct (state part); try (apply Hother; exact H).
  bind_inv H as r Hr. destruct r as [e w1].
  assert (Hq1 : quiet w w1).
  { unfold s3UploadPart in Hr. bind_inv Hr as id Hid. bind_inv Hr as c Hc.
    destruct c as [body ge]. destruct ge as [ge |].
    - inversion Hr; subst. apply quiet_refl.
    - cbv zeta in Hr.
      assert (Hq : quiet w (log (CallUploadPart (keyOf w) id (partNumber part) body) w))
        by (apply quiet_log; reflexivity).
      destruct (UploadPartWithContext E _) as [ue | etag].
      + inversion Hr; subst. exact Hq.
      + bind_inv Hr as x Hx. inversion Hr; subst.
        eapply quiet_trans; [exact Hq |]. apply quiet_same. reflexivity. }
  assert (Hq2 : quiet w (log (PoolPut (partNumber part)) w1)).
  { eapply quiet_trans; [exact Hq1 |]. apply quiet_log. reflexivity. }
  destruct e as [e |]; apply Hdone in H;
    (eapply quiet_trans; [exact Hq2 |]);
    (eapply quiet_trans; [| exact H]); apply quiet_same; reflexivity.
Qed.

Lemma quiet_drain (E : Env) (q : list nat) :
  forall w w', drain E q w = Returns w' -> quiet w w'.
Proof.
  induction q as [| i q IH]; intros w w' H; cbn [drain] in H.
  - inversion H; subst. apply quiet_refl.
  - bind_inv H as w1 H1. apply quiet_uploadPart in H1. apply IH in H.
    eapply quiet_trans; eassumption.
Qed.

Lemma quiet_Wait (E : Env) (w w' : World) :
  uploadGroup_Wait E w = Returns w' -> quiet w w'.
Proof.
  unfold uploadGroup_Wait. intros H. bind_inv H as w1 H1.
  destruct (_ =? 0); inversion H; subst.
  apply quiet_drain in H1. eapply quiet_trans; [| exact H1].
  apply quiet_same. reflexivity.
Qed.

Lemma quiet_closeParts (w : World) : quiet w (closePartsInStateAdding w).2.
Proof.
  destruct (closeParts_spec w) as (_ & _ & (evs & Hh & Hf & _) & _).
  exists evs. split; [exact Hh |].
  eapply Forall_impl; [exact Hf |]. intros ev [pn ->]. reflexivity.
Qed.

Lemma calls_plain (evs : list Event) :
  Forall (fun ev => isPlain ev = true) evs ->
  calls isFinalizing evs = 0%nat /\ calls isAbort evs = 0%nat.
Proof.
  intros H. split; apply calls_none; (eapply Forall_impl; [exact H |]);
    intros ev Hp; unfold isPlain in Hp; apply andb_prop in Hp as [H1 H2];
    [destruct (isFinalizing ev) | destruct (isAbort ev)]; (reflexivity || discriminate).
Qed.

(** X12.  When [Close] returns no error, it has put the object in place
    with exactly one call, [PutObject] or [CompleteMultipartUpload], that
    the object store accepted; it has aborted nothing; and after that call
    it has done nothing but give a buffer back to the pool. *)
Theorem Close_success_finalizes_once (E : Env) (w w' : World) :
  Close E w = Returns (None, w') ->
  exists before call after,
    history w' = history w ++ before ++ call :: after /\
    Forall (fun ev => isPlain ev = true) before /\
    Forall (fun ev => exists pn, ev = PoolPut pn) after /\
    ((exists key body,
         call = CallPutObject key body /\
         PutObjectWithContext E (history w ++ before ++ [call]) = None) \/
     (exists key id cps,
         call = CallCompleteMultipartUpload key id cps /\
         CompleteMultipartUploadWithContext E (history w ++ before ++ [call]) = None)) /\
    calls isFinalizing (history w') = S (calls isFinalizing (history w)) /\
    calls isAbort (history w') = calls isAbort (history w).
Proof.
  intros H.
  assert (Hmain : exists before call after,
    history w' = history w ++ before ++ call :: after /\
    Forall (fun ev => isPlain ev = true) before /\
    Forall (fun ev => exists pn, ev = PoolPut pn) after /\
    ((exists key body,
         call = CallPutObject key body /\
         PutObjectWithContext E (history w ++ before ++ [call]) = None) \/
     (exists key id cps,
         call = CallCompleteMultipartUpload key id cps /\
         CompleteMultipartUploadWithContext E (history w ++ before ++ [call]) = None))).
  { unfold Close in H. set (w0 := afterPhantomRemoval w) in *.
    assert (Hq0 : quiet w w0).
    { exists [PhantomRemoveByInfoPtr (Info (u w))]. split; [reflexivity |].
      repeat constructor. }
    bind_inv H as r Hr. destruct r as [[e1 |] w1]; [inversion H |].
    inversion H; subst w1. clear H.
    destruct (u_err (u w0)); [inversion Hr |].
    destruct (_ && _).
    - (* one part, PutObject *)
      unfold Close_putObject in Hr. bind_inv Hr as slot Hs. bind_inv Hr as part Hp.
      bind_inv Hr as c Hc. destruct c as [body [ge |]]; [inversion Hr |].
      unfold s3PutObject in Hr. cbv zeta in Hr.
      destruct (PutObjectWithContext E _) as [pe |] eqn:Hput; inversion Hr; subst w'.
      clear Hr. destruct Hq0 as (evs0 & Hh0 & Hf0).
      exists evs0, (CallPutObject (keyOf w0) body), [PoolPut (partNumber part)].
      split; [wsimpl; rewrite Hh0; now rewrite <- !app_assoc |].
      split; [exact Hf0 |]. split; [repeat constructor; eauto |].
      left. exists (keyOf w0), body. split; [reflexivity |].
      rewrite app_assoc, <- Hh0. exact Hput.
    - (* the multipart upload *)
      unfold Close_multipart in Hr. bind_inv Hr as x Hx. bind_inv Hr as r1 Henq.
      destruct r1 as [e1 w1]. apply quiet_enqueueUpload in Henq.
      unfold Close_drain in Hr. bind_inv Hr as w2 HW. apply quiet_Wait in HW.
      destruct e1 as [e1 |]; [inversion Hr |].
      pose proof (quiet_closeParts w2) as Hq3.
      destruct (closePartsInStateAdding w2) as [pending w3]. cbn [snd] in Hq3.
      destruct (pending >? 0); [inversion Hr |].
      destruct (u_err (u w3)); [inversion Hr |].
      unfold s3CompleteMultipartUpload in Hr. bind_inv Hr as id Hid.
      cbv zeta in Hr.
      destruct (CompleteMultipartUploadWithContext E _) as [ce |] eqn:Hcomp;
        inversion Hr; subst w'. clear Hr.
      assert (Hq : quiet w w3).
      { eapply quiet_trans; [exact Hq0 |]. eapply quiet_trans; [exact Henq |].
        eapply quiet_trans; eassumption. }
      destruct Hq as (evs & Hh & Hf).
      exists evs, (CallCompleteMultipartUpload (keyOf w3) id (completedParts (u w3))), [].
      split; [wsimpl; rewrite Hh; now rewrite <- !app_assoc |].
      split; [exact Hf |]. split; [constructor |].
      right. exists (keyOf w3), id, (completedParts (u w3)). split; [reflexivity |].
      rewrite app_assoc, <- Hh. exact Hcomp. }
  destruct Hmain as (before & call & after & Hh & Hf & Hputs & Hcall).
  exists before, call, after.
  split; [exact Hh |]. split; [exact Hf |]. split; [exact Hputs |]. split; [exact Hcall |].
  destruct (calls_plain before Hf) as [Hb1 Hb2].
  assert (Ha : calls isFinalizing after = 0%nat /\ calls isAbort after = 0%nat).
  { split; apply calls_none; (eapply Forall_impl; [exact Hputs |]);
      intros ev [pn ->]; reflexivity. }
  destruct Ha as [Ha1 Ha2].
  assert (Hc : calls isFinalizing [call] = 1%nat /\ calls isAbort [call] = 0%nat).
  { destruct Hcall as [(k & b & -> & _) | (k & id & cps & -> & _)]; split; reflexivity. }
  destruct Hc as [Hc1 Hc2].
  rewrite Hh. change (call :: after) with ([call] ++ after).
  rewrite !calls_app, Hb1, Hb2, Ha1, Ha2, Hc1, Hc2. split; lia.
Qed.

Lemma Close_success_finalizes_once_witness :
  exists w',
    Close okEnv (worldAfter 4 [OpWriteAt (bytes "abcdef") 0; OpWorker]) = Returns (None, w') /\
    calls isFinalizing (history w')
    = S (calls isFinalizing
           (history (worldAfter 4 [OpWriteAt (bytes "abcdef") 0; OpWorker]))).
Proof.
  assert (H : exists w',
             Close okEnv (worldAfter 4 [OpWriteAt (bytes "abcdef") 0; OpWorker])
             = Returns (None, w')).
  { eexists. vm_compute. reflexivity. }
  destruct H as [w' H]. exists w'. split; [exact H |].
  destruct (Close_success_finalizes_once okEnv _ w' H)
    as (before & call & after & _ & _ & _ & _ & Hn & _).
  exact Hn.
Defined.

(** ** The upload in progress, as [Stat] shows it *)

Lemma samePhantoms_refl (w : World) : samePhantoms w w.
Proof. split; reflexivity. Qed.

Lemma samePhantoms_trans (w1 w2 w3 : World) :
  samePhantoms w1 w2 -> samePhantoms w2 w3 -> samePhantoms w1 w3.
Proof. intros [A B] [C D]. split; congruence. Qed.

Lemma abortAndCancel_samePhantoms (E : Env) (w : World) :
  samePhantoms w (abortAndCancel E w).
Proof.
  unfold abortAndCancel.
  destruct (closeParts_spec (s3AbortMultipartUpload E w).2)
    as (_ & (_ & _ & _ & _ & _ & Hph & _ & _ & Hinfo) & _).
  cbv zeta in Hph, Hinfo. split; [rewrite Hph | rewrite Hinfo];
    unfold s3AbortMultipartUpload; destruct (multiPartUploadID (u w)); reflexivity.
Qed.

Lemma failWriteAt_samePhantoms (E : Env) (e : error) (w : World) :
  samePhantoms w (failWriteAt E e w).2.
Proof.
  unfold failWriteAt. cbn [snd].
  destruct (abortAndCancel_samePhantoms E w) as [A B]. split; wsimpl; assumption.
Qed.

Lemma enqueueUpload_samePhantoms (E : Env) (i : nat) (w : World) e w' :
  enqueueUpload E i w = Returns (e, w') -> samePhantoms w w'.
Proof.
  intros H. pose proof H as H0. unfold enqueueUpload in H0.
  bind_inv H0 as slot Hs. bind_inv H0 as part Hp. clear H0.
  apply index_returns in Hs as [_ Hs]. rewrite Nat2Z.id in Hs.
  apply deref_returns in Hp. subst slot.
  rewrite (enqueueUpload_eq E i part w Hs) in H.
  destruct (stateValue (state part) <? _).
  2: { inversion H; subst. apply samePhantoms_refl. }
  assert (Htail : forall wc, samePhantoms w wc -> enqueueTail E i part wc = (e, w') ->
                             samePhantoms w w').
  { intros wc Hq Ht. apply (samePhantoms_trans w wc); [exact Hq |].
    unfold enqueueTail in Ht. destruct (Ctx_Done E _); inversion Ht; subst;
      split; reflexivity. }
  destruct (multiPartUploadID (u w)).
  - inversion H as [Heq]. apply (Htail w (samePhantoms_refl w) Heq).
  - cbv zeta in H. destruct (CreateMultipartUploadWithContext E _) as [e0 | id].
    + inversion H; subst. split; reflexivity.
    + inversion H as [Heq].
      apply (Htail (setUploadID (Some id) (log (CallCreateMultipartUpload (keyOf w)) w)));
        [split; reflexivity | exact Heq].
Qed.

Lemma WriteAt_iteration_samePhantoms (E : Env) (buf : list byte)
    (P pn po pending bo : Z) (w : World) (st : loopStep) :
  WriteAt_iteration E buf P pn po pending bo w = Returns st ->
  samePhantoms w match st with Continue w1 _ => w1 | Return _ w1 => w1 end.
Proof.
  unfold WriteAt_iteration. intros H. bind_inv H as slot Hs.
  set (got := match slot with Some part => _ | None => _ end) in H.
  assert (Hgot : match got with
                 | inl failed => samePhantoms w failed.2
                 | inr (part, wa) => samePhantoms w wa
                 end).
  { subst got. destruct slot as [part |]; [apply samePhantoms_refl |].
    destruct (MemoryBufferPool_Get E _ _) as [e | b].
    - apply (samePhantoms_trans w (log PoolGet w)); [split; reflexivity |].
      apply failWriteAt_samePhantoms.
    - split; reflexivity. }
  destruct got as [failed | [part wa]].
  { inversion H; subst. exact Hgot. }
  destruct (stateValue (state part) <? _).
  2: { inversion H; subst. exact Hgot. }
  bind_inv H as chunk Hchunk. bind_inv H as part' Hcopy.
  assert (Hk2 : samePhantoms w (setPart (Z.to_nat pn) part' wa)).
  { apply (samePhantoms_trans w wa); [exact Hgot | split; reflexivity]. }
  destruct (isFull part').
  - bind_inv H as r Hr. destruct r as [e w3].
    apply enqueueUpload_samePhantoms in Hr.
    assert (Hk3 : samePhantoms w w3) by (eapply samePhantoms_trans; eassumption).
    destruct e as [e |]; inversion H; subst; [| exact Hk3].
    eapply samePhantoms_trans; [exact Hk3 | apply failWriteAt_samePhantoms].
  - inversion H; subst. exact Hk2.
Qed.

Lemma WriteAt_loop_samePhantoms (E : Env) (buf : list byte) (fuel : nat) :
  forall P pn po pending bo w r w',
    WriteAt_loop fuel E buf P pn po pending bo w = Returns (r, w') ->
    samePhantoms w w'.
Proof.
  induction fuel as [| fuel IH]; intros P pn po pending bo w r w' H;
    cbn [WriteAt_loop] in H.
  - destruct (pending >? 0); [discriminate |]. inversion H; subst. apply samePhantoms_refl.
  - destruct (pending >? 0).
    2: { inversion H; subst. apply samePhantoms_refl. }
    bind_inv H as st Hst. apply WriteAt_iteration_samePhantoms in Hst.
    destruct st as [w1 c | res w1].
    + apply IH in H. eapply samePhantoms_trans; eassumption.
    + inversion H; subst. exact Hst.
Qed.

(** What [WriteAt] does to the phantom map: nothing, or it notes the end
    offset of the write; the latter whenever it returns no error. *)
Lemma WriteAt_phantoms (E : Env) (buf : list byte) (off : Z) (w : World) r w' :
  WriteAt E buf off w = Returns (r, w') ->
  Info (u w') = Info (u w) /\
  (phantoms w' = phantoms w \/
   phantoms w' = SetSizeIfGreater (Info (u w)) (wrap64 (off + len buf)) (phantoms w)) /\
  (r.2 = None ->
   phantoms w' = SetSizeIfGreater (Info (u w)) (wrap64 (off + len buf)) (phantoms w)).
Proof.
  unfold WriteAt. intros H.
  destruct (BufSize (UploadMemoryBufferPool (u w)) =? 0); [discriminate |].
  assert (Hfail : forall e, Returns (failWriteAt E e w) = Returns (r, w') ->
            Info (u w') = Info (u w) /\
            (phantoms w' = phantoms w \/
             phantoms w'
             = SetSizeIfGreater (Info (u w)) (wrap64 (off + len buf)) (phantoms w)) /\
            (r.2 = None ->
             phantoms w'
             = SetSizeIfGreater (Info (u w)) (wrap64 (off + len buf)) (phantoms w))).
  { intros e He. destruct (failWriteAt_samePhantoms E e w) as [A B].
    unfold failWriteAt in He, A, B. cbn [snd] in A, B. inversion He; subst r w'.
    split; [exact B |]. split; [left; exact A |]. discriminate. }
  destruct (u_err (u w)) as [e |]; [apply (Hfail e), H |].
  destruct (_ && _); [eapply Hfail, H |]. clear Hfail.
  bind_inv H as w2 Hw2. apply WriteAt_loop_samePhantoms in H as [A B].
  assert (H2 : phantoms w2
               = SetSizeIfGreater (Info (u w)) (wrap64 (off + len buf)) (phantoms w) /\
               Info (u w2) = Info (u w)).
  { destruct (len _ <=? _).
    - destruct (wrap64 _ <? 0); [discriminate |]. inversion Hw2; subst w2.
      split; reflexivity.
    - inversion Hw2; subst w2. split; reflexivity. }
  destruct H2 as [C D]. split; [congruence |]. split; [right; congruence | intros _; congruence].
Qed.

Lemma failWriteAt_has_error (E : Env) (e : error) (w : World) :
  (failWriteAt E e w).1.2 = Some e.
Proof. reflexivity. Qed.

Lemma workerStep_samePhantoms (E : Env) (w w' : World) :
  workerStep E w = Returns w' -> samePhantoms w w'.
Proof.
  unfold workerStep. intros H.
  destruct (uploadChan w) as [| i q]; [inversion H; subst; apply samePhantoms_refl |].
  apply uploadPart_footprint in H as (part & _ & _ & _ & Hext & _).
  destruct Hext as (_ & Hph & Hinfo & _). split; [exact Hph | exact Hinfo].
Qed.

Lemma SetSizeIfGreater_spec (info : nat) (size : Z) (m : PhantomObjectMap) :
  let m' := SetSizeIfGreater info size m in
  ph_objects m' = ph_objects m /\
  ph_Key (ph_heap m' info) = ph_Key (ph_heap m info) /\
  ph_LastModified (ph_heap m' info) = ph_LastModified (ph_heap m info) /\
  ph_Size (ph_heap m' info) = Z.max (ph_Size (ph_heap m info)) size.
Proof.
  cbv zeta. unfold SetSizeIfGreater.
  destruct (Z.ltb_spec (ph_Size (ph_heap m info)) size); cbn.
  - rewrite Nat.eqb_refl. cbn. repeat split. lia.
  - repeat split. lia.
Qed.

Lemma uploading_step (E : Env) (key : Path) (now : time) (info : nat)
    (x : op) (w w' : World) :
  uploading key now info w -> step E x w = Returns w' ->
  uploading key now info w' /\
  phantomSize w <= phantomSize w' /\
  (phantomSize w' = phantomSize w \/
   exists buf off, x = OpWriteAt buf off /\ phantomSize w' = wrap64 (off + len buf)) /\
  (forall buf off n w2,
      x = OpWriteAt buf off -> WriteAt E buf off w = Returns ((n, None), w2) ->
      wrap64 (off + len buf) <= phantomSize w').
Proof.
  intros (Hi & Hget & Hkey & Hlm & Hsz) Hstep.
  assert (Hsame : samePhantoms w w' ->
            uploading key now info w' /\ phantomSize w' = phantomSize w).
  { intros [A B]. unfold uploading, phantomSize. rewrite A, B.
    repeat split; assumption. }
  destruct x as [buf off |]; cbn [step] in Hstep.
  - bind_inv Hstep as r Hr. destruct r as [r w1]. inversion Hstep; subst w1. clear Hstep.
    pose proof (WriteAt_phantoms _ _ _ _ _ _ Hr) as (Hinfo & Hph & Hok).
    destruct (SetSizeIfGreater_spec (Info (u w)) (wrap64 (off + len buf)) (phantoms w))
      as (So & Sk & Sl & Ss). cbv zeta in So, Sk, Sl, Ss.
    assert (Hcase : phantoms w' = phantoms w \/
                    (phantoms w'
                     = SetSizeIfGreater (Info (u w)) (wrap64 (off + len buf)) (phantoms w)))
      by exact Hph.
    assert (Hgrow : phantoms w'
                    = SetSizeIfGreater (Info (u w)) (wrap64 (off + len buf)) (phantoms w) ->
              uploading key now info w' /\
              phantomSize w' = Z.max (phantomSize w) (wrap64 (off + len buf))).
    { intros Hp. unfold uploading, phantomSize, GetOne, PhantomObjectMap_Get in *.
      rewrite Hinfo, Hp, Hi in *. rewrite So, Sk, Sl, Ss.
      repeat split; try assumption. lia. }
    assert (Hlast : forall buf0 off0 n w2,
              OpWriteAt buf off = OpWriteAt buf0 off0 ->
              WriteAt E buf0 off0 w = Returns ((n, None), w2) ->
              wrap64 (off0 + len buf0) <= phantomSize w').
    { intros buf0 off0 n w2 Heq Hw. inversion Heq; subst buf0 off0.
      rewrite Hw in Hr. inversion Hr; subst r w2.
      destruct (Hgrow (Hok eq_refl)) as [_ ->]. lia. }
    destruct Hcase as [Hp | Hp].
    + destruct (Hsame (conj Hp Hinfo)) as [Hu Heq].
      split; [exact Hu |]. split; [lia |]. split; [left; exact Heq | exact Hlast].
    + destruct (Hgrow Hp) as [Hu Heq].
      split; [exact Hu |]. split; [lia |]. split; [| exact Hlast].
      destruct (Z.max_spec (phantomSize w) (wrap64 (off + len buf))) as [[_ Hm] | [_ Hm]].
      * right. exists buf, off. split; [reflexivity | lia].
      * left. lia.
  - apply workerStep_samePhantoms in Hstep. destruct (Hsame Hstep) as [Hu Heq].
    split; [exact Hu |]. split; [lia |]. split; [left; exact Heq |].
    intros; discriminate.
Qed.

Lemma uploading_run (E : Env) (key : Path) (now : time) (info : nat) (ops : list op) :
  forall w0 w,
    uploading key now info w0 -> run E ops w0 = Returns w ->
    uploading key now info w /\
    phantomSize w0 <= phantomSize w /\
    (phantomSize w = phantomSize w0 \/
     exists buf off, In (OpWriteAt buf off) ops /\
                     phantomSize w = wrap64 (off + len buf)) /\
    (forall ops1 buf off ops2 w1 n w2,
        ops = ops1 ++ OpWriteAt buf off :: ops2 ->
        run E ops1 w0 = Returns w1 ->
        WriteAt E buf off w1 = Returns ((n, None), w2) ->
        wrap64 (off + len buf) <= phantomSize w).
Proof.
  induction ops as [| x ops IH]; intros w0 w H0 Hrun; cbn [run] in Hrun.
  - inversion Hrun; subst. split; [exact H0 |]. split; [lia |]. split; [now left |].
    intros ops1 buf off ops2 w1 n w2 Heq. destruct ops1; discriminate.
  - bind_inv Hrun as wa Ha.
    destruct (uploading_step E key now info x w0 wa H0 Ha) as (Hu & Hle & Hval & Hlast).
    destruct (IH wa w Hu Hrun) as (Hu' & Hle' & Hval' & Hall).
    split; [exact Hu' |]. split; [lia |]. split.
    + destruct Hval' as [Heq | (buf & off & Hin & Heq)].
      * destruct Hval as [Heq0 | (buf & off & Hx & Heq0)]; [left; lia |].
        right. exists buf, off. split; [left; exact Hx | lia].
      * right. exists buf, off. split; [right; exact Hin | exact Heq].
    + intros ops1 buf off ops2 w1 n w2 Heq Hrun1 Hw.
      destruct ops1 as [| y ops1]; cbn [app] in Heq; inversion Heq; subst.
      * cbn [run] in Hrun1. inversion Hrun1; subst w1.
        specialize (Hlast buf off n w2 eq_refl Hw). lia.
      * cbn [run] in Hrun1. rewrite Ha in Hrun1. cbn [obind] in Hrun1.
        eapply Hall; [reflexivity | exact Hrun1 | exact Hw].
Qed.

Lemma Filewrite_uploading (maxObjectSize : Z) (pool : MemoryBufferPool)
    (key : Path) (now : time) (info : nat) (m : PhantomObjectMap) (w0 : World) :
  Filewrite true maxObjectSize pool key now info m = inr w0 ->
  uploading key now info w0 /\ phantomSize w0 = 0.
Proof.
  unfold Filewrite. cbn [negb]. intros H. inversion H; subst w0. clear H.
  unfold uploading, phantomSize, GetOne, PhantomObjectMap_Get, PhantomObjectMap_Add.
  wsimpl. cbn [ph_heap ph_objects]. rewrite Nat.eqb_refl. cbn [ph_Key ph_Size ph_LastModified].
  rewrite lookup_insert_eq. repeat split. lia.
Qed.

(** X13.  While a writer is at work on [key], between [Filewrite] and
    [Close], [Stat] of [key] is answered from the phantom map, without a
    call to the object store: one entry with the base name of the key, the
    time of [Filewrite] and mode 0600.  Its size is 0 or the end offset
    (as an [int64]) of one of the [WriteAt] calls so far, and it is at
    least the end offset of every [WriteAt] that returned no error. *)
Theorem Stat_during_upload (E : Env) (maxObjectSize : Z) (pool : MemoryBufferPool)
    (key : Path) (now : time) (info : nat) (m : PhantomObjectMap)
    (w0 w : World) (ops : list op)
    (S3 : S3Listing) (root : bool) (result : list (option ObjectFileInfo)) :
  Filewrite true maxObjectSize pool key now info m = inr w0 ->
  run E ops w0 = Returns w ->
  key <> [] -> result <> [] ->
  exists size,
    S3ObjectStat_ListAt S3 (phantoms w) {| sos_Key := key; Root := root |} result 0
    = Returns {| ls_result :=
                   <[0%nat := Some {| _Name := Path_Base key; _LastModified := now;
                                      _Size := size; _Mode := oct [6;0;0] |}]> result;
                 ls_n := 1; ls_err := None |} /\
    (size = 0 \/
     exists buf off, In (OpWriteAt buf off) ops /\ size = wrap64 (off + len buf)) /\
    (forall ops1 buf off ops2 w1 n w2,
        ops = ops1 ++ OpWriteAt buf off :: ops2 ->
        run E ops1 w0 = Returns w1 ->
        WriteAt E buf off w1 = Returns ((n, None), w2) ->
        wrap64 (off + len buf) <= size).
Proof.
  intros Hf Hrun Hkey Hres.
  destruct (Filewrite_uploading _ _ _ _ _ _ _ Hf) as [H0 Hs0].
  destruct (uploading_run E key now info ops w0 w H0 Hrun)
    as ((Hi & Hget & Hk & Hlm & Hsz) & _ & Hval & Hall).
  exists (phantomSize w). split; [| split; [rewrite Hs0 in Hval; exact Hval | exact Hall]].
  unfold S3ObjectStat_ListAt. cbn [castInt64ToInt].
  change (castInt64ToInt 0) with (0, @None error). cbv iota beta.
  assert (Hlen : (len result =? 0) = false).
  { apply Z.eqb_neq. unfold len. destruct result; [congruence | cbn; lia]. }
  rewrite Hlen. change (0 >? 0) with false. cbv iota.
  cbn [sos_Key]. destruct key as [| k key']; [congruence |]. cbn [Path_IsRoot].
  rewrite Hget. unfold phantomEntry, phantomSize. rewrite Hi, Hk, Hlm. reflexivity.
Qed.

Lemma Stat_during_upload_witness :
  exists size,
    S3ObjectStat_ListAt emptyDirS3
      (phantoms (worldAfter 4 [OpWriteAt (bytes "abcdef") 0]))
      {| sos_Key := ["a"; "b"]%string; Root := false |} [None] 0
    = Returns {| ls_result :=
                   <[0%nat := Some {| _Name := Path_Base ["a"; "b"]%string;
                                      _LastModified := TimeUnix 5;
                                      _Size := size; _Mode := oct [6;0;0] |}]> [None];
                 ls_n := 1; ls_err := None |} /\
    6 <= size.
Proof.
  assert (Hrun : run okEnv [OpWriteAt (bytes "abcdef") 0] (freshWorld 4)
                 = Returns (worldAfter 4 [OpWriteAt (bytes "abcdef") 0]))
    by (vm_compute; reflexivity).
  assert (Hk : ["a"; "b"]%string <> @nil string) by discriminate.
  assert (Hr : [@None ObjectFileInfo] <> []) by discriminate.
  destruct (Stat_during_upload okEnv (-1) {| BufSize := 4 |} ["a"; "b"]%string
              (TimeUnix 5) 7%nat noPhantoms (freshWorld 4)
              (worldAfter 4 [OpWriteAt (bytes "abcdef") 0])
              [OpWriteAt (bytes "abcdef") 0] emptyDirS3 false [None]
              eq_refl Hrun Hk Hr) as (size & Hs & _ & Hall).
  exists size. split; [exact Hs |].
  apply (Hall [] (bytes "abcdef") 0 [] (freshWorld 4) 6
              (worldAfter 4 [OpWriteAt (bytes "abcdef") 0]) eq_refl eq_refl).
  vm_compute. reflexivity.
Defined.

(** ** One multipart upload per writer, under one key *)

Lemma created_app (E : Env) (h evs : list Event) (id : string) :
  created E h id -> created E (h ++ evs) id.
Proof.
  intros (h1 & k & h2 & -> & Ha). exists h1, k, (h2 ++ evs).
  split; [now rewrite <- app_assoc | exact Ha].
Qed.


Lemma callOK_calls (K : string) (oid : option string) (evs : list Event) :
  Forall (callOK K oid) evs -> calls isCreate evs = 0%nat.
Proof.
  intros H. apply calls_none. eapply Forall_impl; [exact H |]. intros ev (Hc & _). exact Hc.
Qed.

(** The history grows by events that open no upload. *)
Lemma InvK1_grow (E : Env) (K : string) (w w' : World) (evs : list Event) :
  InvK1 E K w ->
  history w' = history w ++ evs ->
  Forall (callOK K (multiPartUploadID (u w))) evs ->
  keyOf w' = keyOf w ->
  (forall id, multiPartUploadID (u w') = Some id -> multiPartUploadID (u w) = Some id) ->
  InvK1 E K w'.
Proof.
  intros (Hk & Hkeys & Hc & Hid & Hnamed) Hh Hevs Hkey Hid'.
  unfold InvK1. rewrite Hh, Hkey.
  split; [exact Hk |]. split.
  { apply Forall_app. split; [exact Hkeys |].
    eapply Forall_impl; [exact Hevs |]. intros ev (_ & Hb & _). exact Hb. }
  split. { rewrite calls_app, (callOK_calls _ _ _ Hevs). lia. }
  split. { intros id Hi. apply created_app, Hid, Hid', Hi. }
  intros ev id Hin Hn. apply created_app. apply in_app_or in Hin as [Hin | Hin].
  - eapply Hnamed; eassumption.
  - rewrite List.Forall_forall in Hevs. destruct (Hevs ev Hin) as (_ & _ & Hc3).
    apply Hid, Hc3, Hn.
Qed.


Lemma InvK2_grow (w w' : World) (evs : list Event) :
  InvK2 w ->
  history w' = history w ++ evs ->
  Forall (fun ev => isCreate ev = false) evs ->
  (u_err (u w') = None -> u_err (u w) = None) ->
  multiPartUploadID (u w') = multiPartUploadID (u w) ->
  InvK2 w'.
Proof.
  intros H Hh Hevs He Hid He' Hid'. rewrite Hh, calls_app, (calls_none _ _ Hevs).
  rewrite H; [reflexivity | auto | congruence].
Qed.









Lemma uploadPart_history (E : Env) (i : nat) (w w' : World) :
  uploadPart E i w = Returns w' ->
  exists evs,
    history w' = history w ++ evs /\
    Forall (callOK (keyOf w) (multiPartUploadID (u w))) evs.
Proof.
  unfold uploadPart. intros H. bind_inv H as slot Hs. bind_inv H as part Hp.
  assert (Hdone : forall w1 w2, uploadGroup_Done w1 = Returns w2 -> history w2 = history w1).
  { intros w1 w2. unfold uploadGroup_Done. destruct (_ <? 0); intros Hd; inversion Hd.
    reflexivity. }
  assert (Hother : (let* _ := deref (multiPartUploadID (u w)) in uploadGroup_Done w)
                   = Returns w' ->
                   exists evs, history w' = history w ++ evs /\
                               Forall (callOK (keyOf w) (multiPartUploadID (u w))) evs).
  { intros Ho. bind_inv Ho as x Hx. apply Hdone in Ho. exists [].
    split; [now rewrite app_nil_r | constructor]. }
  destruct (state part); try (apply Hother; exact H).
  bind_inv H as r Hr. destruct r as [e w1].
  assert (Hq1 : exists evs, history w1 = history w ++ evs /\
                            Forall (callOK (keyOf w) (multiPartUploadID (u w))) evs).
  { unfold s3UploadPart in Hr. bind_inv Hr as id Hid. apply deref_returns in Hid.
    bind_inv Hr as c Hc. destruct c as [body ge]. destruct ge as [ge |].
    - inversion Hr; subst. exists []. split; [now rewrite app_nil_r | constructor].
    - cbv zeta in Hr.
      assert (Hev : callOK (keyOf w) (multiPartUploadID (u w))
                           (CallUploadPart (keyOf w) id (partNumber part) body)).
      { repeat split.
        - intros k Hk. inversion Hk. reflexivity.
        - intros id' Hi. inversion Hi; subst. exact Hid. }
      destruct (UploadPartWithContext E _) as [ue | etag].
      + inversion Hr; subst. eexists. split; [reflexivity | repeat constructor; apply Hev].
      + bind_inv Hr as x Hx. inversion Hr; subst.
        eexists. split; [reflexivity | repeat constructor; apply Hev]. }
  destruct Hq1 as (evs & Hh1 & Hf1).
  exists (evs ++ [PoolPut (partNumber part)]).
  split.
  - destruct e as [e |]; apply Hdone in H; rewrite H; wsimpl; rewrite Hh1;
      now rewrite <- app_assoc.
  - apply Forall_app. split; [exact Hf1 |]. repeat constructor; intros; discriminate.
Qed.

Lemma uploadPart_InvK (E : Env) (K : string) (i : nat) (w w' : World) :
  InvK1 E K w -> InvK2 w -> uploadPart E i w = Returns w' ->
  InvK1 E K w' /\ InvK2 w'.
Proof.
  intros H1 H2 H. pose proof H1 as (Hk & _).
  destruct (uploadPart_history E i w w' H) as (evs & Hh & Hf).
  apply uploadPart_footprint in H
    as (part & _ & _ & _ & Hext & Hid & _ & _ & Herr & _).
  destruct Hext as (_ & Hph & Hinfo & _).
  assert (Hkey : keyOf w' = keyOf w) by (unfold keyOf; now rewrite Hph, Hinfo).
  rewrite Hk in Hf. split.
  - eapply InvK1_grow; [exact H1 | exact Hh | exact Hf | exact Hkey |].
    intros id Hi. congruence.
  - eapply InvK2_grow; [exact H2 | exact Hh | | exact Herr | exact Hid].
    eapply Forall_impl; [exact Hf |]. intros ev (Hc & _). exact Hc.
Qed.


Lemma drain_InvK (E : Env) (K : string) (q : list nat) :
  forall w w', InvK1 E K w -> InvK2 w -> drain E q w = Returns w' ->
               InvK1 E K w' /\ InvK2 w'.
Proof.
  induction q as [| i q IH]; intros w w' H1 H2 H; cbn [drain] in H.
  - inversion H; subst. auto.
  - bind_inv H as w1 Hw1. destruct (uploadPart_InvK E K i w w1 H1 H2 Hw1) as [A B].
    eapply IH; eassumption.
Qed.







(** ** The operations of S3BucketIO *)

Lemma drain_samePhantoms (E : Env) (q : list nat) :
  forall w w', drain E q w = Returns w' -> samePhantoms w w'.
Proof.
  induction q as [| i q IH]; intros w w' H; cbn [drain] in H.
  - inversion H; subst. apply samePhantoms_refl.
  - bind_inv H as w1 H1. apply IH in H.
    apply uploadPart_footprint in H1 as (part & _ & _ & _ & Hext & _).
    destruct Hext as (_ & Hph & Hinfo & _).
    eapply samePhantoms_trans; [split; eassumption | exact H].
Qed.

(** [Close] changes the phantom map in its first statement only. *)
Lemma Close_phantoms (E : Env) (w : World) e w' :
  Close E w = Returns (e, w') ->
  phantoms w' = PhantomObjectMap_RemoveByInfoPtr (Info (u w)) (phantoms w).
Proof.
  intros H. unfold Close in H. set (w0 := afterPhantomRemoval w) in *.
  bind_inv H as r Hr. destruct r as [e1 w1].
  assert (Hw1 : samePhantoms w0 w1).
  { destruct (u_err (u w0)); [inversion Hr; subst; apply samePhantoms_refl |].
    destruct (_ && _).
    - unfold Close_putObject in Hr. bind_inv Hr as slot Hs. bind_inv Hr as part Hp.
      bind_inv Hr as c Hc. destruct c as [body [ge |]].
      + inversion Hr; subst. split; reflexivity.
      + unfold s3PutObject in Hr. cbv zeta in Hr.
        destruct (PutObjectWithContext E _); inversion Hr; subst; split; reflexivity.
    - unfold Close_multipart in Hr. bind_inv Hr as x Hx. bind_inv Hr as r1 Henq.
      destruct r1 as [e2 w2]. apply enqueueUpload_samePhantoms in Henq.
      unfold Close_drain in Hr. bind_inv Hr as w3 HW.
      assert (H3 : samePhantoms w0 w3).
      { unfold uploadGroup_Wait in HW. bind_inv HW as w4 Hd.
        apply drain_samePhantoms in Hd.
        destruct (_ =? 0); inversion HW; subst.
        eapply samePhantoms_trans; [exact Henq |].
        eapply samePhantoms_trans; [| exact Hd]. split; reflexivity. }
      destruct e2 as [e2 |]; [inversion Hr; subst; exact H3 |].
      destruct (closeParts_spec w3) as (_ & Hsb & _).
      cbv zeta in Hsb. destruct Hsb as (_ & _ & _ & _ & _ & Sph & _ & _ & Sinfo).
      destruct (closePartsInStateAdding w3) as [pending w5]. cbn [snd] in *.
      assert (H5 : samePhantoms w0 w5).
      { eapply samePhantoms_trans; [exact H3 | split; assumption]. }
      destruct (pending >? 0); [inversion Hr; subst; exact H5 |].
      destruct (u_err (u w5)); [inversion Hr; subst; exact H5 |].
      unfold s3CompleteMultipartUpload in Hr. bind_inv Hr as id Hid.
      cbv zeta in Hr. inversion Hr; subst.
      eapply samePhantoms_trans; [exact H5 | split; reflexivity]. }
  assert (Hw' : samePhantoms w0 w').
  { destruct e1 as [e1 |]; inversion H; subst; [| exact Hw1].
    eapply samePhantoms_trans; [exact Hw1 | apply abortAndCancel_samePhantoms]. }
  destruct Hw' as [Hph _]. rewrite Hph. reflexivity.
Qed.

(** X15.  A download of a key that is being uploaded is refused, from
    [Filewrite] until [Close], whatever [WriteAt] calls and worker steps
    lie in between, and the object store is not asked.  Once [Close] has
    returned, with an error or without, [Fileread] of the same request asks
    the object store with one [GetObject] call and returns its error or a
    fresh reader on the body it got. *)
Theorem Fileread_during_and_after_upload (E : Env) (IO : IOEnv) (s3io : S3BucketIO)
    (req : Request) (now : time) (info : nat) (m : PhantomObjectMap)
    (w0 w : World) (ops : list op) (calls : list IOCall) :
  S3BucketIO_Filewrite IO s3io req now info m = inr w0 ->
  run E ops w0 = Returns w ->
  Readable (s3io_Perms s3io) = true ->
  Fileread IO s3io req (phantoms w) calls
  = (inl (ErrUpstream "trying to download an uploading file"), calls) /\
  forall ce w',
    Close E w = Returns (ce, w') ->
    let calls1 := calls ++ [IOGetObject (Path_String (buildKey s3io (Filepath req)))] in
    Fileread IO s3io req (phantoms w') calls
    = (match io_GetObject IO calls1 with
       | inl err => inl err
       | inr goo => inr (newReader (unread goo) (broken goo)
                                   (ReaderLookbackBufferSize s3io)
                                   (ReaderMinChunkSize s3io))
       end, calls1).
Proof.
  intros Hf Hrun Hread. unfold S3BucketIO_Filewrite in Hf.
  destruct (negb (Writable (s3io_Perms s3io))); [discriminate |].
  destruct (Bucket_S3 IO) as [err |] eqn:Hs; [discriminate |].
  destruct (Filewrite_uploading _ _ _ _ _ _ _ Hf) as [H0 _].
  destruct (uploading_run E _ now info ops w0 w H0 Hrun) as ((Hi & Hget & _) & _).
  split.
  - unfold Fileread. rewrite Hread, Hs. cbn [negb]. cbv zeta. rewrite Hget. reflexivity.
  - intros ce w' HC. cbv zeta. apply Close_phantoms in HC.
    assert (Hnone : PhantomObjectMap_Get (buildKey s3io (Filepath req)) (phantoms w') = None).
    { rewrite HC, Hi. unfold PhantomObjectMap_Get, PhantomObjectMap_RemoveByInfoPtr in *.
      cbn [ph_objects]. apply map_lookup_filter_None. right.
      intros x Hx. cbn. rewrite Hget in Hx. inversion Hx. intros Hne. apply Hne. reflexivity. }
    unfold Fileread. rewrite Hread, Hs. cbn [negb]. cbv zeta. rewrite Hnone.
    destruct (io_GetObject IO _) as [err' | goo]; [reflexivity |].
    destruct goo. reflexivity.
Qed.

Lemma Fileread_during_and_after_upload_witness :
  Fileread helloIO (openIO 4 []) {| Method := "Get"; Filepath := ["a"; "b"]; Target := [] |}
           (phantoms (worldAfter 4 [OpWriteAt (bytes "ab") 0])) []
  = (inl (ErrUpstream "trying to download an uploading file"), []).
Proof.
  assert (Hrun : run okEnv [OpWriteAt (bytes "ab") 0] (freshWorld 4)
                 = Returns (worldAfter 4 [OpWriteAt (bytes "ab") 0]))
    by (vm_compute; reflexivity).
  exact (proj1 (Fileread_during_and_after_upload okEnv helloIO (openIO 4 [])
                  {| Method := "Get"; Filepath := ["a"; "b"]; Target := [] |}
                  (TimeUnix 5) 7%nat noPhantoms (freshWorld 4)
                  (worldAfter 4 [OpWriteAt (bytes "ab") 0])
                  [OpWriteAt (bytes "ab") 0] [] eq_refl Hrun eq_refl)).
Defined.

(** The five facts about one way through [Filecmd]; [pick] selects the case
    of a delete. *)
Ltac Filecmd_side :=
  intros;
  repeat match goal with
         | H : _ \/ _ |- _ => destruct H
         end;
  try discriminate; try congruence; try (repeat split; congruence).

Ltac Filecmd_delete pick :=
  let k := fresh "k" in
  let Hin := fresh "Hin" in
  intros k Hin; cbn [In] in Hin;
  repeat match goal with
         | H : _ \/ _ |- _ => destruct H
         | H : False |- _ => destruct H
         end;
  try discriminate;
  match goal with
  | H : IODeleteObject _ = IODeleteObject _ |- _ =>
      inversion H; pick; repeat split; (reflexivity || assumption)
  end.

Ltac Filecmd_leaf pick :=
  repeat match goal with |- _ /\ _ => split end;
  [Filecmd_side | Filecmd_side | Filecmd_side | Filecmd_delete pick | Filecmd_side].

(** X16.  The calls [Filecmd] makes to the object store.  It adds to the
    calls so far, and nothing when the bucket is not writable, when the
    session cannot be had, or when a [Rename] or [Remove] hits an upload in
    flight, which is renamed or removed on the phantom map alone.  It
    deletes an object in three cases only: the key of a [Remove]; the key
    with a trailing slash of a [Rmdir]; and the source of a [Rename], then
    as the second of two calls, after the object store has accepted the
    copy to the target.  A method it does not know is answered with no
    error and no call. *)
Theorem Filecmd_store_calls (IO : IOEnv) (s3io : S3BucketIO) (req : Request)
    (m : PhantomObjectMap) (calls : list IOCall) :
  let src := Path_String (buildKey s3io (Filepath req)) in
  let dest := Path_String (buildKey s3io (Target req)) in
  let copy := IOCopyObject (Bucket_Bucket s3io ++ "/" ++ src) dest in
  exists e m' new,
    Filecmd IO s3io req m calls = (e, m', calls ++ new) /\
    (Writable (s3io_Perms s3io) = false -> new = [] /\ m' = m) /\
    (Bucket_S3 IO <> None -> new = []) /\
    (PhantomObjectMap_Get (buildKey s3io (Filepath req)) m <> None ->
     Method req = "Rename"%string \/ Method req = "Remove"%string -> new = []) /\
    (forall k, In (IODeleteObject k) new ->
       (Method req = "Rename"%string /\ k = src /\ new = [copy; IODeleteObject src] /\
        io_CopyObject IO (calls ++ [copy]) = None) \/
       (Method req = "Remove"%string /\ k = src /\ new = [IODeleteObject src]) \/
       (Method req = "Rmdir"%string /\ k = (src ++ "/")%string /\
        new = [IODeleteObject k])) /\
    (Method req <> "Rename"%string -> Method req <> "Remove"%string ->
     Method req <> "Mkdir"%string -> Method req <> "Rmdir"%string ->
     e = None /\ new = [] /\ m' = m).
Proof.
  cbv zeta. unfold Filecmd.
  set (key := buildKey s3io (Filepath req)).
  set (dkey := buildKey s3io (Target req)).
  assert (Hnil : forall (e : option error) (m' : PhantomObjectMap),
             (e, m', calls) = (e, m', calls ++ [])) by (intros; now rewrite app_nil_r).
  destruct (String.eqb_spec (Method req) "Rename") as [HM | HM].
  { destruct (Writable (s3io_Perms s3io)) eqn:Hw; cbn [negb].
    2: { exists (Some notWritable), m, []. split; [apply Hnil |]. Filecmd_leaf ltac:(idtac). }
    unfold PhantomObjectMap_Rename, PhantomObjectMap_Get.
    destruct (ph_objects m !! Path_String key) as [info |] eqn:Hph.
    { eexists None, _, []. split; [apply Hnil |]. Filecmd_leaf ltac:(idtac). }
    destruct (Bucket_S3 IO) as [err |] eqn:Hs.
    { exists (Some err), m, []. split; [apply Hnil |]. Filecmd_leaf ltac:(idtac). }
    destruct (io_CopyObject IO _) as [err |] eqn:Hcopy.
    { eexists (Some err), m, [_]. split; [reflexivity |]. Filecmd_leaf ltac:(idtac). }
    destruct (io_DeleteObject IO _) as [err |];
      [eexists (Some err), m, [_; _] | eexists None, m, [_; _]];
      (split; [now rewrite <- app_assoc |]); Filecmd_leaf ltac:(left). }
  destruct (String.eqb_spec (Method req) "Remove") as [HR | HR].
  { destruct (Writable (s3io_Perms s3io)) eqn:Hw; cbn [negb].
    2: { exists (Some notWritable), m, []. split; [apply Hnil |]. Filecmd_leaf ltac:(idtac). }
    unfold PhantomObjectMap_Remove, PhantomObjectMap_Get.
    destruct (ph_objects m !! Path_String key) as [info |] eqn:Hph.
    { eexists None, _, []. split; [apply Hnil |]. Filecmd_leaf ltac:(idtac). }
    destruct (Bucket_S3 IO) as [err |] eqn:Hs.
    { exists (Some err), m, []. split; [apply Hnil |]. Filecmd_leaf ltac:(idtac). }
    destruct (io_DeleteObject IO _) as [err |];
      [eexists (Some err), m, [_] | eexists None, m, [_]];
      (split; [reflexivity |]); Filecmd_leaf ltac:(right; left). }
  destruct (String.eqb_spec (Method req) "Mkdir") as [HK | HK].
  { destruct (Writable (s3io_Perms s3io)) eqn:Hw; cbn [negb].
    2: { exists (Some notWritable), m, []. split; [apply Hnil |]. Filecmd_leaf ltac:(idtac). }
    destruct (Bucket_S3 IO) as [err |] eqn:Hs.
    { exists (Some err), m, []. split; [apply Hnil |]. Filecmd_leaf ltac:(idtac). }
    destruct (io_PutObject IO _) as [err |];
      [eexists (Some err), m, [_] | eexists None, m, [_]];
      (split; [reflexivity |]); Filecmd_leaf ltac:(idtac). }
  destruct (String.eqb_spec (Method req) "Rmdir") as [HD | HD].
  { destruct (Writable (s3io_Perms s3io)) eqn:Hw; cbn [negb].
    2: { exists (Some notWritable), m, []. split; [apply Hnil |]. Filecmd_leaf ltac:(idtac). }
    destruct (Bucket_S3 IO) as [err |] eqn:Hs.
    { exists (Some err), m, []. split; [apply Hnil |]. Filecmd_leaf ltac:(idtac). }
    destruct (io_DeleteObject IO _) as [err |];
      [eexists (Some err), m, [_] | eexists None, m, [_]];
      (split; [reflexivity |]); Filecmd_leaf ltac:(right; right). }
  exists None, m, []. split; [apply Hnil |]. Filecmd_leaf ltac:(idtac).
Qed.



(** ** A listing that is tried again *)

Lemma slice_suffix {A : Type} (a b : list A) :
  slice (a ++ b) (len a) (len a + len b) = Returns b.
Proof.
  rewrite slice_ok by (rewrite ?len_app; pose proof (len_nonneg a);
                       pose proof (len_nonneg b); lia).
  unfold len. replace (Z.to_nat (Z.of_nat (length a) + Z.of_nat (length b)
                                 - Z.of_nat (length a))) with (length b) by lia.
  rewrite Nat2Z.id, drop_app_length. now rewrite firstn_all.
Qed.

Lemma copy_slice_after {A : Type} (pre b d : list A) :
  len pre + len b <= len d ->
  copy_slice (pre ++ skipn (length pre) d) (len pre) (len pre + len b) b
  = (pre ++ b) ++ skipn (length (pre ++ b)) d.
Proof.
  intros H. unfold copy_slice, len in *.
  replace (Z.to_nat (Z.of_nat (length pre) + Z.of_nat (length b) - Z.of_nat (length pre)))
    with (length b) by lia.
  rewrite Nat.min_id, firstn_all, Nat2Z.id.
  rewrite take_app_length, drop_app_add, drop_drop.
  rewrite <- app_assoc, length_app. reflexivity.
Qed.

(** What the step "drop what lies before the lookback window" makes of a
    spool that has been read to its end. *)
Lemma trim_read_spool {A : Type} (sp : list A) (off lookback : Z) :
  0 <= lookback -> len sp < two63 ->
  exists kept off1,
    (if (len sp <=? len sp) && (len sp >=? lookback)
     then let* kept := slice sp (wrap64 (len sp - lookback)) (len sp) in
          Returns (kept, wrap64 (off + wrap64 (len sp - lookback)), lookback)
     else Returns (sp, off, len sp))
    = Returns (kept, off1, len kept).
Proof.
  intros HL Hsp. pose proof (len_nonneg sp) as H0.
  replace (len sp <=? len sp) with true by lia. cbn [andb].
  destruct (len sp >=? lookback) eqn:Hc.
  - rewrite (wrap64_id (len sp - lookback)) by (unfold in_int64, two63 in *; lia).
    rewrite slice_ok by lia. cbn [obind].
    eexists _, _. f_equal. f_equal.
    unfold len in *. rewrite length_firstn, length_skipn. lia.
  - exists sp, off. reflexivity.
Qed.
(** X18.  A first [ListAt] whose listing call fails returns the error of
    the object store and no entry, but it has put [.], [..] and the uploads
    in flight on the spool.  The lister has no continuation token yet, so
    the [ListAt] that tries again at offset 0 puts them there a second
    time: with a page that fits, the caller gets these leading entries
    twice, then the common prefixes and the objects, with [EOF]. *)
Theorem ListAt_again_after_failure (S3 S3' : S3Listing) (phantoms : PhantomObjectMap)
    (prefix : Path) (lookback : Z) (result result2 : list (option ObjectFileInfo))
    (out : ListObjectsV2Output) (e : error) :
  0 <= lookback ->
  ListObjectsV2WithContext S3 (listingPrefix prefix) None = inl e ->
  ListObjectsV2WithContext S3' (listingPrefix prefix) None = inr out ->
  NextContinuationToken out = None ->
  result <> [] -> len result < two63 ->
  let leading := leadingEntries phantoms prefix in
  let entries := leading ++ leading
                   ++ map commonPrefixEntry (CommonPrefixes out)
                   ++ map contentsEntry (Contents out) in
  len entries <= len result2 -> len result2 < two63 ->
  exists sol1 sol2,
    S3ObjectLister_ListAt S3 phantoms (newLister prefix lookback) result 0
    = Returns ({| ls_result := result; ls_n := 0; ls_err := Some e |}, sol1) /\
    S3ObjectLister_ListAt S3' phantoms sol1 result2 0
    = Returns ({| ls_result := filledWith entries result2;
                  ls_n := len entries; ls_err := Some EOF |}, sol2).
Proof.
  intros HL Hfail Hlist Htoken Hne Hint leading entries Hfit Hint2.
  assert (H2 : 2 <= len leading).
  { subst leading. unfold leadingEntries, len. rewrite !length_app. cbn [length]. lia. }
  assert (Hlen : len entries = len leading + len leading
                               + len (map commonPrefixEntry (CommonPrefixes out))
                               + len (map contentsEntry (Contents out))).
  { subst entries. rewrite !len_app. lia. }
  pose proof (len_nonneg (map commonPrefixEntry (CommonPrefixes out))) as Hc0.
  pose proof (len_nonneg (map contentsEntry (Contents out))) as Hk0.
  assert (Hsp : len leading < two63) by lia.
  destruct (trim_read_spool leading 0 lookback HL Hsp) as (kept & off1 & Htrim).
  set (rest := leading ++ map commonPrefixEntry (CommonPrefixes out)
                       ++ map contentsEntry (Contents out)).
  exists (listerWith (newLister prefix lookback) 0 leading None false).
  exists (listerWith (listerWith (newLister prefix lookback) 0 leading None false)
                     off1 (kept ++ rest) None true).
  split.
  - unfold S3ObjectLister_ListAt.
    rewrite castInt64ToInt_id by (unfold two63; lia).
    cbn [newLister sol_spoolOffset sol_spooled sol_noMore sol_Lookback continuation Prefix].
    change (0 <? 0) with false. cbv iota.
    rewrite (wrap64_id (0 - 0)) by (unfold in_int64, two63; lia).
    change (0 - 0 <? len (@nil ObjectFileInfo)) with false. cbv iota. cbn [obind].
    replace (0 >=? len result) with false
      by (pose proof (len_eqb_0 result Hne); pose proof (len_nonneg result); lia).
    change (0 - 0) with 0.
    rewrite (newLister_compact lookback HL). cbn [obind].
    rewrite Hfail. cbn [app]. reflexivity.
  - unfold S3ObjectLister_ListAt.
    rewrite castInt64ToInt_id by (unfold two63; lia).
    cbn [listerWith newLister sol_spoolOffset sol_spooled sol_noMore sol_Lookback
         continuation Prefix].
    change (0 <? 0) with false. cbv iota.
    rewrite (wrap64_id (0 - 0)) by (unfold in_int64, two63; lia).
    change (0 - 0) with 0.
    replace (0 <? len leading) with true by lia. cbv iota.
    rewrite !Z.sub_0_r, !Z.add_0_l.
    replace (len result2 >? len leading) with true by lia.
    rewrite slice_ok by lia. cbn [obind].
    rewrite slice_all. cbn [obind].
    rewrite (copy_slice_front result2 (map Some leading) (len leading))
      by (unfold len in *; rewrite ?length_map; lia).
    set (r1 := map Some leading ++ skipn (length (map Some leading)) result2).
    assert (Hr1 : len r1 = len result2).
    { unfold r1, len in *. rewrite length_app, length_skipn, !length_map. lia. }
    rewrite Hr1.
    replace (len leading >=? len result2) with false by lia.
    rewrite Htrim. cbn [obind]. rewrite Hlist, Htoken.
    change ([dotEntry "."; dotEntry ".."]
              ++ map (fun phInfo => phantomEntry (GetOne phInfo phantoms))
                     (PhantomObjectMap_List prefix phantoms)) with leading.
    rewrite <- !app_assoc.
    fold rest.
    assert (Hrest : len rest = len leading
                               + len (map commonPrefixEntry (CommonPrefixes out))
                               + len (map contentsEntry (Contents out))).
    { unfold rest. rewrite !len_app. lia. }
    rewrite (len_app kept rest).
    replace (len kept + len rest - len kept) with (len rest) by lia.
    replace (len rest >? len result2 - len leading) with false by lia.
    rewrite slice_ok by lia. cbn [obind].
    rewrite slice_suffix. cbn [obind].
    assert (Hfinal : copy_slice r1 (len leading) (len leading + len rest) (map Some rest)
                     = filledWith entries result2).
    { pose proof (copy_slice_after (map Some leading) (map Some rest) result2) as Hc.
      unfold len in Hc. rewrite !length_map in Hc. unfold r1, len. rewrite length_map.
      rewrite Hc by (unfold len in *; lia).
      unfold filledWith, entries. fold rest. rewrite map_app, !length_app, !length_map.
      reflexivity. }
    rewrite Hfinal.
    replace (len leading + len rest) with (len entries) by lia.
    reflexivity.
Qed.

Lemma ListAt_again_after_failure_witness :
  exists sol1 sol2,
    S3ObjectLister_ListAt failingS3 noPhantoms (newLister ["photos"] 10) [None] 0
    = Returns ({| ls_result := [None]; ls_n := 0;
                  ls_err := Some (ErrUpstream "SlowDown") |}, sol1) /\
    S3ObjectLister_ListAt emptyDirS3 noPhantoms sol1 [None; None; None; None] 0
    = Returns ({| ls_result := [Some (dotEntry "."); Some (dotEntry "..");
                                Some (dotEntry "."); Some (dotEntry "..")];
                  ls_n := 4; ls_err := Some EOF |}, sol2).
Proof.
  destruct (ListAt_again_after_failure failingS3 emptyDirS3 noPhantoms ["photos"]%string 10
              [None] [None; None; None; None] emptyPage (ErrUpstream "SlowDown"))
    as (sol1 & sol2 & H1 & H2).
  - lia.
  - reflexivity.
  - reflexivity.
  - reflexivity.
  - discriminate.
  - vm_compute. reflexivity.
  - vm_compute. discriminate.
  - vm_compute. reflexivity.
  - exists sol1, sol2. split; [exact H1 | exact H2].
Defined.

(** ** Every buffer goes back to the pool once *)

Lemma notPut_calls (pn : Z) (evs : list Event) :
  Forall (fun ev => forall k, ev <> PoolPut k) evs -> calls (isPutOf pn) evs = 0%nat.
Proof.
  intros H. apply calls_none. eapply Forall_impl; [exact H |].
  intros ev Hev. destruct ev; try reflexivity. exfalso. eapply Hev. reflexivity.
Qed.

(** The parts stay as they are and no buffer goes back. *)
Lemma InvB_same (w w' : World) (evs : list Event) :
  InvB w ->
  history w' = history w ++ evs ->
  Forall (fun ev => forall k, ev <> PoolPut k) evs ->
  parts (u w') = parts (u w) ->
  InvB w'.
Proof.
  intros (HL & HN & HP) Hh Hevs Hparts. unfold InvB. rewrite Hparts, Hh.
  split; [exact HL |]. split; [exact HN |].
  intros pn. rewrite calls_app, (notPut_calls pn evs Hevs), HP. lia.
Qed.

(** One slot changes, and the buffer of its part goes back as often as the
    change asks for. *)
Lemma InvB_slot (w w' : World) (i : nat) (part' : S3PartToUpload) (evs : list Event) :
  InvB w ->
  (i < length (parts (u w)))%nat ->
  history w' = history w ++ evs ->
  parts (u w') = <[i := Some part']> (parts (u w)) ->
  partNumber part' = Z.of_nat i + 1 ->
  (calls (isPutOf (Z.of_nat i + 1)) evs + dueOf (parts (u w) !! i)
   = dueOf (Some (Some part')))%nat ->
  (forall pn, pn <> Z.of_nat i + 1 -> calls (isPutOf pn) evs = 0%nat) ->
  InvB w'.
Proof.
  intros (HL & HN & HP) Hi Hh Hparts Hnum Hdue Hother. unfold InvB. rewrite Hparts, Hh.
  split. { unfold len in *. rewrite length_insert. exact HL. }
  split.
  { intros j p Hj. destruct (Nat.eq_dec j i) as [-> | Hne].
    - rewrite list_lookup_insert_eq in Hj by exact Hi. inversion Hj; subst. exact Hnum.
    - rewrite list_lookup_insert_ne in Hj by congruence. apply HN, Hj. }
  intros pn. rewrite calls_app, HP. unfold putsDue.
  destruct (Z.eq_dec pn (Z.of_nat i + 1)) as [-> | Hne].
  - replace (1 <=? Z.of_nat i + 1) with true by lia.
    replace (Z.to_nat (Z.of_nat i + 1 - 1)) with i by lia.
    rewrite list_lookup_insert_eq by exact Hi. lia.
  - rewrite (Hother pn Hne). destruct (1 <=? pn) eqn:H1; [| reflexivity].
    rewrite list_lookup_insert_ne by lia. lia.
Qed.

Lemma calls_isPutOf_one (pn : Z) :
  calls (isPutOf pn) [PoolPut pn] = 1%nat /\
  forall k, k <> pn -> calls (isPutOf k) [PoolPut pn] = 0%nat.
Proof.
  unfold calls. cbn. rewrite Z.eqb_refl. split; [reflexivity |].
  intros k Hk. replace (pn =? k) with false by lia. reflexivity.
Qed.

(** A part with its buffer gives it back and goes to a state without. *)
Lemma InvB_put (w w' : World) (i : nat) (part : S3PartToUpload) (st : S3PartUploadState) :
  InvB w ->
  parts (u w) !! i = Some (Some part) ->
  hasBuffer (state part) = true -> hasBuffer st = false ->
  history w' = history w ++ [PoolPut (partNumber part)] ->
  parts (u w') = <[i := Some (setState st part)]> (parts (u w)) ->
  InvB w'.
Proof.
  intros HB Hi Hhas Hst Hh Hparts. pose proof HB as (_ & HN & _).
  pose proof (HN i part Hi) as Hnum.
  destruct (calls_isPutOf_one (partNumber part)) as [H1 H0].
  eapply (InvB_slot w w' i); [exact HB | | exact Hh | exact Hparts | exact Hnum | |].
  - eapply lookup_lt_Some. exact Hi.
  - rewrite <- Hnum, H1, Hi. cbn [dueOf setState state]. rewrite Hhas, Hst. reflexivity.
  - intros pn Hpn. apply H0. congruence.
Qed.

(** A part changes without a change to its number or to whether it has its
    buffer. *)
Lemma InvB_keep (w w' : World) (i : nat) (part part' : S3PartToUpload)
    (evs : list Event) :
  InvB w ->
  parts (u w) !! i = Some (Some part) ->
  partNumber part' = partNumber part ->
  hasBuffer (state part') = hasBuffer (state part) ->
  history w' = history w ++ evs ->
  Forall (fun ev => forall k, ev <> PoolPut k) evs ->
  parts (u w') = <[i := Some part']> (parts (u w)) ->
  InvB w'.
Proof.
  intros HB Hi Hnum Hhas Hh Hevs Hparts. pose proof HB as (_ & HN & _).
  eapply (InvB_slot w w' i); [exact HB | | exact Hh | exact Hparts | | |].
  - eapply lookup_lt_Some. exact Hi.
  - rewrite Hnum. apply (HN i part Hi).
  - rewrite (notPut_calls _ evs Hevs), Hi. cbn [dueOf]. now rewrite Hhas.
  - intros pn _. apply notPut_calls, Hevs.
Qed.

Lemma closeParts_loop_InvB (n : nat) :
  forall w, InvB w -> InvB (closeParts_loop n w).2.
Proof.
  induction n as [| i IH]; intros w HB; cbn [closeParts_loop]; [exact HB |].
  destruct (parts (u w) !! i) as [[part |] |] eqn:Hi; try (apply IH, HB).
  destruct (state part) eqn:Hst; try (apply IH, HB).
  set (w2 := setPart i _ _).
  assert (H2 : InvB w2).
  { eapply (InvB_put w w2 i part S3PartUploadCancelled);
      [exact HB | exact Hi | now rewrite Hst | reflexivity | reflexivity | reflexivity]. }
  specialize (IH w2 H2). destruct (closeParts_loop i w2) as [pending w3]. exact IH.
Qed.

Lemma abortAndCancel_InvB (E : Env) (w : World) : InvB w -> InvB (abortAndCancel E w).
Proof.
  intros HB. unfold abortAndCancel, closePartsInStateAdding. apply closeParts_loop_InvB.
  unfold s3AbortMultipartUpload. destruct (multiPartUploadID (u w)) as [id |]; [| exact HB].
  cbn [snd]. eapply (InvB_same w _ [_]); [exact HB | reflexivity | | reflexivity].
  repeat constructor. intros k. discriminate.
Qed.

Lemma failWriteAt_InvB (E : Env) (e : error) (w : World) :
  InvB w -> InvB (failWriteAt E e w).2.
Proof.
  intros HB. unfold failWriteAt. cbn [snd].
  eapply (InvB_same (abortAndCancel E w) _ []);
    [apply abortAndCancel_InvB, HB | now rewrite app_nil_r | constructor | reflexivity].
Qed.

Lemma enqueueUpload_InvB (E : Env) (i : nat) (w : World) e w' :
  InvB w -> enqueueUpload E i w = Returns (e, w') -> InvB w'.
Proof.
  intros HB H. pose proof H as H0. unfold enqueueUpload in H0.
  bind_inv H0 as slot Hs. bind_inv H0 as part Hp. clear H0.
  apply index_returns in Hs as [_ Hs]. rewrite Nat2Z.id in Hs.
  apply deref_returns in Hp. subst slot.
  rewrite (enqueueUpload_eq E i part w Hs) in H.
  destruct (stateValue (state part) <? _) eqn:Hst.
  2: { inversion H; subst. exact HB. }
  apply stateValue_Adding in Hst.
  assert (Htail : forall wc, InvB wc -> parts (u wc) = parts (u w) ->
            enqueueTail E i part wc = (e, w') -> InvB w').
  { intros wc Hc Hpc Ht. unfold enqueueTail in Ht.
    assert (Hic : parts (u wc) !! i = Some (Some part)) by (rewrite Hpc; exact Hs).
    destruct (Ctx_Done E _); inversion Ht; subst; clear Ht.
    - eapply (InvB_keep wc _ i part (setState S3PartUploadStateFull part) []);
        [exact Hc | exact Hic | reflexivity | now rewrite Hst | now rewrite app_nil_r
         | constructor | reflexivity].
    - eapply (InvB_keep wc _ i part (setState S3PartUploadStateFull part)
                        [ChanSend (partNumber part)]);
        [exact Hc | exact Hic | reflexivity | now rewrite Hst | reflexivity
         | | reflexivity].
      repeat constructor. intros k. discriminate. }
  assert (Hcreate : InvB (log (CallCreateMultipartUpload (keyOf w)) w)).
  { eapply (InvB_same w _ [_]); [exact HB | reflexivity | | reflexivity].
    repeat constructor. intros k. discriminate. }
  destruct (multiPartUploadID (u w)).
  - inversion H as [Heq]. apply (Htail w HB eq_refl Heq).
  - cbv zeta in H. destruct (CreateMultipartUploadWithContext E _) as [e0 | id].
    + inversion H; subst. exact Hcreate.
    + inversion H as [Heq].
      apply (Htail (setUploadID (Some id) (log (CallCreateMultipartUpload (keyOf w)) w)));
        [| reflexivity | exact Heq].
      eapply (InvB_same _ _ []); [exact Hcreate | now rewrite app_nil_r | constructor
                                  | reflexivity].
Qed.

Lemma uploadPart_InvB (E : Env) (i : nat) (w w' : World) :
  InvB w -> uploadPart E i w = Returns w' -> InvB w'.
Proof.
  intros HB. unfold uploadPart. intros H. bind_inv H as slot Hs. bind_inv H as part Hp.
  apply index_returns in Hs as [_ Hs]. rewrite Nat2Z.id in Hs.
  apply deref_returns in Hp. subst slot.
  assert (Hdone : forall w1 w2, uploadGroup_Done w1 = Returns w2 ->
                                history w2 = history w1 /\ parts (u w2) = parts (u w1)).
  { intros w1 w2. unfold uploadGroup_Done. destruct (_ <? 0); intros Hd; inversion Hd.
    split; reflexivity. }
  assert (Hother : (let* _ := deref (multiPartUploadID (u w)) in uploadGroup_Done w)
                   = Returns w' -> InvB w').
  { intros Ho. bind_inv Ho as x Hx. apply Hdone in Ho as [Hh Hpp].
    eapply (InvB_same w _ []); [exact HB | now rewrite app_nil_r | constructor | exact Hpp]. }
  destruct (state part) eqn:Hst; try (apply Hother; exact H).
  bind_inv H as r Hr. destruct r as [e w1].
  assert (H1 : InvB w1 /\ parts (u w1) = parts (u w)).
  { unfold s3UploadPart in Hr. bind_inv Hr as id Hid.
    bind_inv Hr as c Hc. destruct c as [body ge]. destruct ge as [ge |].
    - inversion Hr; subst. auto.
    - cbv zeta in Hr.
      assert (Hlog : InvB (log (CallUploadPart (keyOf w) id (partNumber part) body) w)).
      { eapply (InvB_same w _ [_]); [exact HB | reflexivity | | reflexivity].
        repeat constructor. intros k. discriminate. }
      destruct (UploadPartWithContext E _) as [ue | etag].
      + inversion Hr; subst. auto.
      + bind_inv Hr as x Hx. inversion Hr; subst. split; [| reflexivity].
        eapply (InvB_same _ _ []); [exact Hlog | now rewrite app_nil_r | constructor
                                    | reflexivity]. }
  destruct H1 as [HB1 Hp1].
  assert (Hi1 : parts (u w1) !! i = Some (Some part)) by (rewrite Hp1; exact Hs).
  destruct e as [e |]; apply Hdone in H as [Hh Hpp].
  - eapply (InvB_put w1 w' i part S3PartUploadErrorSending);
      [exact HB1 | exact Hi1 | now rewrite Hst | reflexivity | rewrite Hh; reflexivity
       | rewrite Hpp; reflexivity].
  - eapply (InvB_put w1 w' i part S3PartUploadStateSent);
      [exact HB1 | exact Hi1 | now rewrite Hst | reflexivity | rewrite Hh; reflexivity
       | rewrite Hpp; reflexivity].
Qed.

Lemma drain_InvB (E : Env) (q : list nat) :
  forall w w', InvB w -> drain E q w = Returns w' -> InvB w'.
Proof.
  induction q as [| i q IH]; intros w w' HB H; cbn [drain] in H.
  - inversion H; subst. exact HB.
  - bind_inv H as w1 Hw1. eapply IH; [| exact H]. eapply uploadPart_InvB; eassumption.
Qed.

Lemma WriteAt_iteration_InvB (E : Env) (buf : list byte)
    (P pn po pending bo : Z) (w : World) (st : loopStep) :
  InvB w ->
  WriteAt_iteration E buf P pn po pending bo w = Returns st ->
  InvB match st with Continue w1 _ => w1 | Return _ w1 => w1 end.
Proof.
  intros HB. unfold WriteAt_iteration. intros H. bind_inv H as slot Hs.
  apply index_returns in Hs as [Hpn Hslot].
  set (got := match slot with Some part => _ | None => _ end) in H.
  assert (Hlog : InvB (log PoolGet w)).
  { eapply (InvB_same w _ [_]); [exact HB | reflexivity | | reflexivity].
    repeat constructor. intros k. discriminate. }
  assert (Hgot : match got with
                 | inl failed => InvB failed.2
                 | inr (part, wa) =>
                     InvB wa /\ parts (u wa) !! Z.to_nat pn = Some (Some part)
                 end).
  { subst got. destruct slot as [part |]; [auto |].
    destruct (MemoryBufferPool_Get E _ _) as [e | b].
    - apply failWriteAt_InvB, Hlog.
    - pose proof HB as (HL & _).
      assert (Hlt : (Z.to_nat pn < length (parts (u w)))%nat)
        by (eapply lookup_lt_Some; exact Hslot).
      split.
      + eapply (InvB_slot (log PoolGet w) _ (Z.to_nat pn) _ []);
          [exact Hlog | exact Hlt | now rewrite app_nil_r | reflexivity | | |].
        * cbn [partNumber]. rewrite wrap64_id by (unfold in_int64, two63 in *; lia). lia.
        * wsimpl. rewrite Hslot. reflexivity.
        * intros; reflexivity.
      + wsimpl. apply list_lookup_insert_eq. exact Hlt. }
  destruct got as [failed | [part wa]].
  { inversion H; subst. exact Hgot. }
  destruct Hgot as [Ga Gb].
  destruct (stateValue (state part) <? _) eqn:Hst.
  2: { inversion H; subst. exact Ga. }
  apply stateValue_Adding in Hst.
  bind_inv H as chunk Hchunk. bind_inv H as part' Hcopy.
  assert (Hp' : partNumber part' = partNumber part /\ state part' = state part).
  { unfold part_copy in Hcopy. bind_inv Hcopy as x Hx. inversion Hcopy; subst part'.
    split; reflexivity. }
  destruct Hp' as [Hn' Hs'].
  assert (Hk2 : InvB (setPart (Z.to_nat pn) part' wa)).
  { eapply (InvB_keep wa _ (Z.to_nat pn) part part' []);
      [exact Ga | exact Gb | exact Hn' | now rewrite Hs' | now rewrite app_nil_r
       | constructor | reflexivity]. }
  destruct (isFull part').
  - bind_inv H as r Hr. destruct r as [e w3].
    apply (enqueueUpload_InvB E _ _ _ _ Hk2) in Hr.
    destruct e as [e |]; inversion H; subst; [apply failWriteAt_InvB, Hr | exact Hr].
  - inversion H; subst. exact Hk2.
Qed.

Lemma WriteAt_loop_InvB (E : Env) (buf : list byte) (fuel : nat) :
  forall P pn po pending bo w r w',
    InvB w -> WriteAt_loop fuel E buf P pn po pending bo w = Returns (r, w') -> InvB w'.
Proof.
  induction fuel as [| fuel IH]; intros P pn po pending bo w r w' HB H;
    cbn [WriteAt_loop] in H.
  - destruct (pending >? 0); [discriminate |]. inversion H; subst. exact HB.
  - destruct (pending >? 0).
    2: { inversion H; subst. exact HB. }
    bind_inv H as st Hst. apply (WriteAt_iteration_InvB E _ _ _ _ _ _ _ _ HB) in Hst.
    destruct st as [w1 c | res w1].
    + eapply IH; eassumption.
    + inversion H; subst. exact Hst.
Qed.

Lemma putsDue_extend (ps : list (option S3PartToUpload)) (k : nat) (pn : Z) :
  putsDue (ps ++ repeat None k) pn = putsDue ps pn.
Proof.
  unfold putsDue. destruct (1 <=? pn); [| reflexivity].
  destruct (Nat.lt_ge_cases (Z.to_nat (pn - 1)) (length ps)) as [Hlt | Hge].
  - now rewrite lookup_app_l.
  - rewrite lookup_app_r by exact Hge. rewrite (lookup_ge_None_2 ps) by exact Hge.
    destruct (repeat None k !! _) as [x |] eqn:Hx; [| reflexivity].
    apply lookup_repeat in Hx. subst x. reflexivity.
Qed.

Lemma WriteAt_InvB (E : Env) (buf : list byte) (off : Z) (w : World) r w' :
  InvB w -> WriteAt E buf off w = Returns (r, w') -> InvB w'.
Proof.
  intros HB. unfold WriteAt. intros H.
  destruct (BufSize (UploadMemoryBufferPool (u w)) =? 0); [discriminate |].
  assert (Hfail : forall e, Returns (failWriteAt E e w) = Returns (r, w') -> InvB w').
  { intros e He. pose proof (failWriteAt_InvB E e w HB) as A.
    unfold failWriteAt in He, A. cbn [snd] in A. inversion He; subst r w'. exact A. }
  destruct (u_err (u w)) as [e |]; [apply (Hfail e), H |].
  destruct (_ && _); [eapply Hfail, H |]. clear Hfail.
  bind_inv H as w2 Hw2. eapply WriteAt_loop_InvB; [| exact H].
  set (w1 := setPhantoms _ w) in Hw2.
  assert (H1 : InvB w1).
  { eapply (InvB_same w w1 []); [exact HB | now rewrite app_nil_r | constructor
                                 | reflexivity]. }
  destruct (len _ <=? _) eqn:Hgrow; [| inversion Hw2; subst w2; exact H1].
  destruct (wrap64 _ <? 0) eqn:Hneg; [discriminate |]. inversion Hw2; subst w2. clear Hw2.
  destruct H1 as (HL & HN & HP). unfold InvB. wsimpl.
  change (parts (u w1)) with (parts (u w)) in *.
  change (history w1) with (history w) in *.
  split.
  { unfold len in *. rewrite length_app, repeat_length.
    match goal with |- context [Z.to_nat (wrap64 ?z)] => pose proof (wrap64_range z) as Hr end.
    unfold in_int64 in Hr. lia. }
  split.
  { intros j p Hj. apply lookup_app_Some in Hj as [Hj | [_ Hj]]; [apply HN, Hj |].
    apply lookup_repeat in Hj. discriminate. }
  intros pn. rewrite putsDue_extend. apply HP.
Qed.

Lemma step_InvB (E : Env) (x : op) (w w' : World) :
  InvB w -> step E x w = Returns w' -> InvB w'.
Proof.
  intros HB H. destruct x as [buf off |]; cbn [step] in H.
  - bind_inv H as r Hr. destruct r as [r w1]. inversion H; subst.
    eapply WriteAt_InvB; eassumption.
  - unfold workerStep in H. destruct (uploadChan w) as [| i q]; [inversion H; subst; auto |].
    eapply uploadPart_InvB; [| exact H].
    eapply (InvB_same w _ []); [exact HB | now rewrite app_nil_r | constructor | reflexivity].
Qed.

Lemma run_InvB (E : Env) (ops : list op) :
  forall w w', InvB w -> run E ops w = Returns w' -> InvB w'.
Proof.
  induction ops as [| x ops IH]; intros w w' HB H; cbn [run] in H.
  - inversion H; subst. exact HB.
  - bind_inv H as w1 Hw1. eapply IH; [| exact H]. eapply step_InvB; eassumption.
Qed.

Lemma Close_InvB (E : Env) (w : World) e w' :
  InvB w -> InvD w -> Close E w = Returns (e, w') -> InvB w'.
Proof.
  intros HB HD H. unfold Close in H. set (w0 := afterPhantomRemoval w) in *.
  assert (H0 : InvB w0).
  { eapply (InvB_same w w0 [_]); [exact HB | reflexivity | | reflexivity].
    repeat constructor. intros k. discriminate. }
  bind_inv H as r Hr. destruct r as [e1 w1].
  assert (Hw1 : InvB w1).
  { destruct (u_err (u w0)) as [e0 |] eqn:Herr; [inversion Hr; subst; exact H0 |].
    destruct (_ && _) eqn:Hone.
    - apply andb_prop in Hone as [_ Hid].
      assert (Hnone : multiPartUploadID (u w) = None).
      { change (multiPartUploadID (u w0)) with (multiPartUploadID (u w)) in Hid.
        destruct (multiPartUploadID (u w)); [discriminate | reflexivity]. }
      unfold Close_putObject in Hr. bind_inv Hr as slot Hs. bind_inv Hr as part Hp.
      apply index_returns in Hs as [_ Hs]. change (Z.to_nat 0) with 0%nat in Hs.
      apply deref_returns in Hp. subst slot.
      assert (Hadd : hasBuffer (state part) = true).
      { destruct (state part) eqn:Hst; try reflexivity; exfalso;
          (eapply (HD Herr 0%nat part); [exact Hs | rewrite Hst; discriminate | exact Hnone]). }
      bind_inv Hr as c Hc. destruct c as [body [ge |]].
      + inversion Hr; subst.
        eapply (InvB_put w0 _ 0 part S3PartUploadErrorSending);
          [exact H0 | exact Hs | exact Hadd | reflexivity | reflexivity | reflexivity].
      + unfold s3PutObject in Hr. cbv zeta in Hr.
        assert (Hput : InvB (log (CallPutObject (keyOf w0) body) w0)).
        { eapply (InvB_same w0 _ [_]); [exact H0 | reflexivity | | reflexivity].
          repeat constructor. intros k. discriminate. }
        destruct (PutObjectWithContext E _); inversion Hr; subst.
        * eapply (InvB_put _ _ 0 part S3PartUploadErrorSending);
            [exact Hput | exact Hs | exact Hadd | reflexivity | reflexivity | reflexivity].
        * eapply (InvB_put _ _ 0 part S3PartUploadStateSent);
            [exact Hput | exact Hs | exact Hadd | reflexivity | reflexivity | reflexivity].
    - unfold Close_multipart in Hr. bind_inv Hr as x Hx. bind_inv Hr as r1 Henq.
      destruct r1 as [e2 w2]. apply (enqueueUpload_InvB E _ _ _ _ H0) in Henq.
      unfold Close_drain in Hr. bind_inv Hr as w3 HW.
      assert (H3 : InvB w3).
      { unfold uploadGroup_Wait in HW. bind_inv HW as w4 Hd.
        destruct (_ =? 0); inversion HW; subst.
        eapply drain_InvB; [| exact Hd].
        eapply (InvB_same w2 _ []); [exact Henq | now rewrite app_nil_r | constructor
                                     | reflexivity]. }
      destruct e2 as [e2 |]; [inversion Hr; subst; exact H3 |].
      pose proof (closeParts_loop_InvB (length (parts (u w3))) w3 H3) as H5.
      fold (closePartsInStateAdding w3) in H5.
      destruct (closePartsInStateAdding w3) as [pending w5]. cbn [snd] in H5.
      destruct (pending >? 0); [inversion Hr; subst; exact H5 |].
      destruct (u_err (u w5)); [inversion Hr; subst; exact H5 |].
      unfold s3CompleteMultipartUpload in Hr. bind_inv Hr as id Hid.
      cbv zeta in Hr. inversion Hr; subst.
      eapply (InvB_same w5 _ [_]); [exact H5 | reflexivity | | reflexivity].
      repeat constructor. intros k. discriminate. }
  destruct e1 as [e1 |]; inversion H; subst; [| exact Hw1].
  apply abortAndCancel_InvB, Hw1.
Qed.

Lemma Filewrite_InvD (maxObjectSize : Z) (pool : MemoryBufferPool)
    (key : Path) (now : time) (info : nat) (m : PhantomObjectMap) (w0 : World) :
  Filewrite true maxObjectSize pool key now info m = inr w0 -> InvD w0.
Proof.
  unfold Filewrite. cbn [negb]. intros Hf.
  assert (Hp : parts (u w0) = []) by (inversion Hf; reflexivity).
  intros _ j p Hj. rewrite Hp, lookup_nil in Hj. discriminate.
Qed.

Lemma run_InvD (E : Env) (ops : list op) :
  forall w w', InvD w -> run E ops w = Returns w' -> InvD w'.
Proof.
  induction ops as [| x ops IH]; intros w w' H0 Hrun; cbn [run] in Hrun.
  - inversion Hrun; subst. exact H0.
  - bind_inv Hrun as w1 H1. apply (IH w1); [| exact Hrun].
    destruct x as [buf off |]; cbn [step] in H1.
    + bind_inv H1 as r Hr. destruct r as [r w2]. inversion H1; subst.
      eapply InvD_WriteAt; [exact H0 | exact Hr].
    + eapply InvD_workerStep; eassumption.
Qed.

Lemma Filewrite_InvB (maxObjectSize : Z) (pool : MemoryBufferPool)
    (key : Path) (now : time) (info : nat) (m : PhantomObjectMap) (w0 : World) :
  Filewrite true maxObjectSize pool key now info m = inr w0 -> InvB w0.
Proof.
  unfold Filewrite. cbn [negb]. intros Hf.
  assert (Hw : history w0 = [] /\ parts (u w0) = []) by (inversion Hf; split; reflexivity).
  destruct Hw as [Hh Hp]. unfold InvB. rewrite Hh, Hp.
  split; [unfold len, two63; cbn; lia |].
  split; [intros j p Hj; rewrite lookup_nil in Hj; discriminate |].
  intros pn. unfold putsDue. rewrite lookup_nil. destruct (1 <=? pn); reflexivity.
Qed.

(** X19.  The buffers of a writer, from [Filewrite] through [WriteAt] calls
    and worker steps to the end of [Close]: the buffer of a part goes back
    to the pool exactly once, when the part leaves the states [Adding] and
    [Full] for [Sent], [ErrorSending] or [Cancelled], and not before; no
    buffer goes back twice, and none goes back under a number that no part
    has. *)
Theorem buffers_go_back_once (E : Env) (maxObjectSize : Z)
    (pool : MemoryBufferPool) (key : Path) (now : time) (info : nat)
    (m : PhantomObjectMap) (w0 w w' : World) (ops : list op) :
  Filewrite true maxObjectSize pool key now info m = inr w0 ->
  run E ops w0 = Returns w ->
  w' = w \/ (exists e, Close E w = Returns (e, w')) ->
  (forall j part,
      parts (u w') !! j = Some (Some part) ->
      calls (isPutOf (partNumber part)) (history w')
      = if hasBuffer (state part) then 0%nat else 1%nat) /\
  (forall pn, (calls (isPutOf pn) (history w') <= 1)%nat) /\
  (forall pn,
      (forall j part, parts (u w') !! j = Some (Some part) -> partNumber part <> pn) ->
      calls (isPutOf pn) (history w') = 0%nat).
Proof.
  intros Hf Hrun Hw'.
  assert (HB : InvB w) by (eapply run_InvB; [eapply Filewrite_InvB, Hf | exact Hrun]).
  assert (HD : InvD w) by (eapply run_InvD; [eapply Filewrite_InvD, Hf | exact Hrun]).
  assert (HB' : InvB w').
  { destruct Hw' as [-> | [e HC]]; [exact HB |]. eapply Close_InvB; eassumption. }
  destruct HB' as (_ & HN & HP).
  split; [| split].
  - intros j part Hj. rewrite HP. unfold putsDue. rewrite (HN j part Hj).
    assert (Hj1 : 1 <= Z.of_nat j + 1) by lia.
    apply Z.leb_le in Hj1. rewrite Hj1.
    replace (Z.to_nat (Z.of_nat j + 1 - 1)) with j by lia.
    rewrite Hj. reflexivity.
  - intros pn. rewrite HP. unfold putsDue, dueOf.
    destruct (1 <=? pn); [| lia].
    destruct (parts (u w') !! _) as [[p |] |]; try lia.
    destruct (hasBuffer (state p)); lia.
  - intros pn Hno. rewrite HP. unfold putsDue, dueOf.
    destruct (1 <=? pn) eqn:H1; [| reflexivity].
    destruct (parts (u w') !! _) as [[p |] |] eqn:Hp; try reflexivity.
    exfalso. apply (Hno _ p Hp). rewrite (HN _ p Hp). lia.
Qed.

Lemma buffers_go_back_once_witness :
  exists w',
    Close okEnv (worldAfter 4 [OpWriteAt (bytes "abcdef") 0; OpWorker]) = Returns (None, w') /\
    forall pn, (calls (isPutOf pn) (history w') <= 1)%nat.
Proof.
  assert (Hrun : run okEnv [OpWriteAt (bytes "abcdef") 0; OpWorker] (freshWorld 4)
                 = Returns (worldAfter 4 [OpWriteAt (bytes "abcdef") 0; OpWorker]))
    by (vm_compute; reflexivity).
  assert (H : exists w',
             Close okEnv (worldAfter 4 [OpWriteAt (bytes "abcdef") 0; OpWorker])
             = Returns (None, w')).
  { eexists. vm_compute. reflexivity. }
  destruct H as [w' H]. exists w'. split; [exact H |].
  destruct (buffers_go_back_once okEnv (-1) {| BufSize := 4 |} ["a"; "b"]%string
              (TimeUnix 5) 7%nat noPhantoms (freshWorld 4)
              (worldAfter 4 [OpWriteAt (bytes "abcdef") 0; OpWorker]) w'
              [OpWriteAt (bytes "abcdef") 0; OpWorker]
              eq_refl Hrun (or_intror (ex_intro _ None H)))
    as (_ & Hle & _).
  exact Hle.
Defined.

(** ** The error on record and the aborts *)


(** Events that are no [CreateMultipartUpload] open no upload. *)
Lemma created_app_inv (E : Env) (h evs : list Event) (id : string) :
  Forall (fun ev => isCreate ev = false) evs ->
  created E (h ++ evs) id -> created E h id.
Proof.
  intros Hevs (h1 & k & h2 & Heq & Hans).
  assert (Hnot : ~ In (CallCreateMultipartUpload k) evs).
  { intros Hin. rewrite List.Forall_forall in Hevs. specialize (Hevs _ Hin). discriminate. }
  apply app_eq_app in Heq as (l & [[-> Hl] | [-> Hl]]).
  - destruct l as [| x l]; cbn in Hl.
    + exfalso. apply Hnot. rewrite <- Hl. now left.
    + inversion Hl; subst x. exists h1, k, l. split; [reflexivity | exact Hans].
  - exfalso. apply Hnot. rewrite Hl. apply in_or_app. right. now left.
Qed.





(** The history grows by events that open and abort nothing, and the
    upload held is the same. *)
Lemma InvAb_grow (E : Env) (w w' : World) (evs : list Event) :
  InvAb E w ->
  history w' = history w ++ evs ->
  Forall (fun ev => isCreate ev = false) evs ->
  Forall (fun ev => isAbort ev = false) evs ->
  multiPartUploadID (u w') = multiPartUploadID (u w) ->
  InvAb E w'.
Proof.
  intros (A1 & A2 & A3) Hh Hc Ha Hid. unfold InvAb.
  rewrite Hh, Hid, calls_app, (calls_none _ _ Ha), Nat.add_0_r.
  split; [exact A1 |]. split; [| exact A3].
  intros Hnone Hcr. apply A2; [exact Hnone |].
  destruct Hcr as [id Hcr]. exists id. eapply created_app_inv; eassumption.
Qed.










Lemma uploadPart_InvAb (E : Env) (i : nat) (w w' : World) :
  InvAb E w -> uploadPart E i w = Returns w' -> InvAb E w'.
Proof.
  intros HA H.
  destruct (uploadPart_history E i w w' H) as (evs & Hh & Hf).
  apply uploadPart_footprint in H as (part & _ & _ & _ & Hext & Hid & _).
  destruct Hext as ((evs' & Hh' & Hna) & _).
  assert (Heq : evs' = evs) by (rewrite Hh in Hh'; eapply app_inv_head; symmetry; exact Hh').
  subst evs'.
  eapply InvAb_grow; [exact HA | exact Hh | | exact Hna | exact Hid].
  eapply Forall_impl; [exact Hf |]. intros ev (Hc & _). exact Hc.
Qed.

Lemma drain_InvAb (E : Env) (q : list nat) :
  forall w w', InvAb E w -> drain E q w = Returns w' -> InvAb E w'.
Proof.
  induction q as [| i q IH]; intros w w' HA H; cbn [drain] in H.
  - inversion H; subst. exact HA.
  - bind_inv H as w1 Hw1. eapply IH; [| exact H]. eapply uploadPart_InvAb; eassumption.
Qed.









